(** * SMTChecker: a shallow embedding of libsolidity/formal/SMTChecker.cpp

    The checker walks the body of a function, keeps an SSA-indexed symbolic
    variable per declaration and per expression node, and talks to an SMT
    solver through [reset], [push], [pop], [addAssertion] and [check].

    The embedding follows the C++ member functions one by one.  The members
    of the class become the fields of the record [SMTChecker]; a member
    function becomes a computation in the monad [M], which threads the record
    and may throw (a failed [solAssert], [std::map::at] on a missing key).
    The solver is not part of the file: the calls made on it are logged in
    order, and the answer to [check] is read from an oracle. *)

From Stdlib Require Import ZArith String Ascii List Lia DecimalString.
From stdpp Require Import base option list gmap strings.

Local Open Scope string_scope.
Local Open Scope list_scope.

Scheme All for list.
Scheme All for option.

(** ** Strings *)

Definition to_string (n : nat) : string :=
  NilZero.string_of_uint (Nat.to_uint n).

Definition Z_to_string (z : Z) : string :=
  NilZero.string_of_int (Z.to_int z).

Fixpoint starts_with (pat s : string) : option string :=
  match pat with
  | EmptyString => Some s
  | String p pat' =>
      match s with
      | String c s' => if Ascii.eqb p c then starts_with pat' s' else None
      | EmptyString => None
      end
  end.

(** [boost::algorithm::replace_all_copy]: every occurrence of [pat], scanning
    from the left, occurrences not overlapping.  [skip] counts the characters
    of a matched occurrence that are still to be dropped. *)
Fixpoint replace_all_from (pat by_ : string) (skip : nat) (s : string) : string :=
  match s with
  | EmptyString => EmptyString
  | String c s' =>
      match skip with
      | S k => replace_all_from pat by_ k s'
      | O =>
          match starts_with pat s with
          | Some _ => by_ +:+ replace_all_from pat by_ (String.length pat - 1) s'
          | None => String c (replace_all_from pat by_ 0 s')
          end
      end
  end.

Definition replace_all_copy (s pat by_ : string) : string :=
  match pat with
  | EmptyString => s
  | _ => replace_all_from pat by_ 0 s
  end.

(** ** Types of the source language

    [Type], [IntegerType], [FunctionType] and the helpers of SymbolicTypes
    are declared outside SMTChecker.cpp.  A type is represented by the
    attributes the checker reads from it. *)

Module Category.
Inductive t :=
  Integer | RationalNumber | Bool | Address | Mapping | Function | Magic | Other.
End Category.

Module Kind.
Inductive t :=
| Internal | Assert | Require | GasLeft
| KECCAK256 | ECRecover | SHA256 | RIPEMD160 | BlockHash | AddMod | MulMod
| Other.
End Kind.

Record TypePointer := mkType {
  category : Category.t;
  isValueType : bool;
  toString : string;
  (* IntegerType *)
  isSigned : bool;
  numBits : N;
  (* FunctionType *)
  kind : Kind.t;
  bound : bool;
  returnParameterTypes : nat;   (* how many *)
  richIdentifier : string
}.

Definition IntegerType (bits : N) (signed : bool) : TypePointer :=
  {| category := Category.Integer; isValueType := true;
     toString := (if signed then "int" else "uint") +:+ to_string (N.to_nat bits);
     isSigned := signed; numBits := bits;
     kind := Kind.Other; bound := false; returnParameterTypes := 0;
     richIdentifier := "" |}.

(** Modelled from the spec: the bounds of an integer type, section 4.2:
    int_N has bounds [-2^(N-1), 2^(N-1)-1] and uint_N has [0, 2^N-1]. *)
Definition minValue (t : TypePointer) : Z :=
  if isSigned t then (- 2 ^ (Z.of_N (numBits t) - 1))%Z else 0%Z.

Definition maxValue (t : TypePointer) : Z :=
  if isSigned t then (2 ^ (Z.of_N (numBits t) - 1) - 1)%Z
  else (2 ^ Z.of_N (numBits t) - 1)%Z.

(** Modelled from the spec: the category tests of SymbolicTypes, after the
    type-to-sort table of section 4.2 (numbers are integers, number literals
    and addresses). *)
Definition isInteger (c : Category.t) : bool :=
  match c with Category.Integer => true | _ => false end.

Definition isBool (c : Category.t) : bool :=
  match c with Category.Bool => true | _ => false end.

Definition isNumber (c : Category.t) : bool :=
  match c with
  | Category.Integer | Category.RationalNumber | Category.Address => true
  | _ => false
  end.

Definition isMapping (c : Category.t) : bool :=
  match c with Category.Mapping => true | _ => false end.

Definition isFunction (c : Category.t) : bool :=
  match c with Category.Function => true | _ => false end.

Definition isSupportedType (c : Category.t) : bool :=
  isNumber c || isBool c || isMapping c.

(** ** Solver terms and the solver interface *)

Module smt.

Inductive CheckResult :=
  SATISFIABLE | UNSATISFIABLE | UNKNOWN | CONFLICTING | ERROR.

Definition CheckResult_eqb (a b : CheckResult) : bool :=
  match a, b with
  | SATISFIABLE, SATISFIABLE | UNSATISFIABLE, UNSATISFIABLE
  | UNKNOWN, UNKNOWN | CONFLICTING, CONFLICTING | ERROR, ERROR => true
  | _, _ => false
  end.

Inductive Kind := Int | Bool | Function | Array.

(** [smt::Expression].  A symbol is the value of a symbolic variable at an
    SSA index; [Apply] is a symbolic function variable applied to
    arguments. *)
Inductive Expression :=
| BoolLit (b : bool)
| IntLit (z : Z)
| Symbol (uniqueName : string) (index : nat)
| Apply (uniqueName : string) (index : nat) (arguments : list Expression)
| Not (a : Expression)
| And (a b : Expression)
| Or (a b : Expression)
| Implies (a b : Expression)
| Ite (c a b : Expression)
| Eq (a b : Expression)
| Lt (a b : Expression)
| Le (a b : Expression)
| Gt (a b : Expression)
| Ge (a b : Expression)
| Add (a b : Expression)
| Sub (a b : Expression)
| Mul (a b : Expression)
| Div (a b : Expression)
| Select (a i : Expression)
| Store (a i v : Expression).

Definition ite := Ite.
Definition implies := Implies.
Definition select := Select.
Definition store := Store.
(** [operator!=] *)
Definition Ne (a b : Expression) : Expression := Not (Eq a b).

Definition uniqueSymbol (uniqueName : string) (index : nat) : string :=
  uniqueName +:+ "_" +:+ to_string index.

(** The [name] member: the head symbol of a term. *)
Definition name (e : Expression) : string :=
  match e with
  | BoolLit b => if b then "true" else "false"
  | IntLit z => Z_to_string z
  | Symbol n i => uniqueSymbol n i
  | Apply n i _ => uniqueSymbol n i
  | Not _ => "not"
  | And _ _ => "and"
  | Or _ _ => "or"
  | Implies _ _ => "implies"
  | Ite _ _ _ => "ite"
  | Eq _ _ => "="
  | Lt _ _ => "<"
  | Le _ _ => "<="
  | Gt _ _ => ">"
  | Ge _ _ => ">="
  | Add _ _ => "+"
  | Sub _ _ => "-"
  | Mul _ _ => "*"
  | Div _ _ => "/"
  | Select _ _ => "select"
  | Store _ _ _ => "store"
  end.

(** The calls the checker makes on [m_interface], in the order made. *)
Inductive Call :=
| reset
| push
| pop
| addAssertion (e : Expression)
| check (expressionsToEvaluate : list Expression).

(** What [check] gives back: a result with model values, or a thrown
    [SolverError] with its optional comment. *)
Inductive Answer :=
| Result (r : CheckResult) (values : list string)
| SolverError (comment : option string).

(** *** Meaning of the integer and boolean terms

    Integer division is the division of the solver's integers, rounding
    toward minus infinity ([Z.div]).  Arrays and uninterpreted functions
    have no value here. *)
Inductive Value := VInt (z : Z) | VBool (b : bool).

Definition Model := string -> nat -> option Value.

Definition int2 (f : Z -> Z -> Value) (x y : option Value) : option Value :=
  match x, y with
  | Some (VInt a), Some (VInt b) => Some (f a b)
  | _, _ => None
  end.

Definition bool2 (f : bool -> bool -> bool) (x y : option Value) : option Value :=
  match x, y with
  | Some (VBool a), Some (VBool b) => Some (VBool (f a b))
  | _, _ => None
  end.

Fixpoint eval (m : Model) (e : Expression) : option Value :=
  match e with
  | BoolLit b => Some (VBool b)
  | IntLit z => Some (VInt z)
  | Symbol n i => m n i
  | Apply _ _ _ => None
  | Not a =>
      match eval m a with Some (VBool b) => Some (VBool (negb b)) | _ => None end
  | And a b => bool2 andb (eval m a) (eval m b)
  | Or a b => bool2 orb (eval m a) (eval m b)
  | Implies a b => bool2 implb (eval m a) (eval m b)
  | Ite c a b =>
      match eval m c with
      | Some (VBool true) => eval m a
      | Some (VBool false) => eval m b
      | _ => None
      end
  | Eq a b =>
      match eval m a, eval m b with
      | Some (VInt x), Some (VInt y) => Some (VBool (x =? y)%Z)
      | Some (VBool x), Some (VBool y) => Some (VBool (Bool.eqb x y))
      | _, _ => None
      end
  | Lt a b => int2 (fun x y => VBool (x <? y)%Z) (eval m a) (eval m b)
  | Le a b => int2 (fun x y => VBool (x <=? y)%Z) (eval m a) (eval m b)
  | Gt a b => int2 (fun x y => VBool (x >? y)%Z) (eval m a) (eval m b)
  | Ge a b => int2 (fun x y => VBool (x >=? y)%Z) (eval m a) (eval m b)
  | Add a b => int2 (fun x y => VInt (x + y)) (eval m a) (eval m b)
  | Sub a b => int2 (fun x y => VInt (x - y)) (eval m a) (eval m b)
  | Mul a b => int2 (fun x y => VInt (x * y)) (eval m a) (eval m b)
  | Div a b => int2 (fun x y => VInt (x / y)) (eval m a) (eval m b)
  | Select _ _ => None
  | Store _ _ _ => None
  end.

(** *** Scopes of the solver

    Modelled from the spec: section 4.1, [push]/[pop] are LIFO scopes,
    [pop] reverts the assertions added since the matching [push], [reset]
    discards all assertions and scopes.  The state is the stack of scopes,
    innermost first; the last element is the outermost scope. *)
Definition Scopes := list (list Expression).

Definition step (st : Scopes) (c : Call) : Scopes :=
  match c with
  | reset => [[]]
  | push => [] :: st
  | pop => match st with _ :: (_ :: _) as st' => st' | _ => st end
  | addAssertion e =>
      match st with
      | sc :: st' => (sc ++ [e]) :: st'
      | [] => [[e]]
      end
  | check _ => st
  end.

Definition scopes (log : list Call) : Scopes := fold_left step log [[]].

(** The assertions in force after the calls of [log]. *)
Definition assertions (log : list Call) : list Expression :=
  concat (scopes log).

(** The number of scopes opened by [push] and not yet closed. *)
Definition depth (log : list Call) : nat := pred (length (scopes log)).

End smt.

(** ** The syntax tree

    Only what the checker reads of a node is kept.  A pointer to a
    declaration or to an expression node is represented by the node's AST
    id; a reference from an identifier to a function definition carries the
    definition itself (the checker follows that pointer only when the
    function is not already on the path of functions being visited, so a
    finite tree is enough for any program, recursive ones included). *)

Definition SourceLocation := nat.

Module Token.
Inductive t :=
| Assign | AssignBitOr | AssignBitXor | AssignBitAnd | AssignShl | AssignSar
| AssignShr | AssignAdd | AssignSub | AssignMul | AssignDiv | AssignMod
| Or | And | BitOr | BitXor | BitAnd | SHL | SAR | SHR
| Add | Sub | Mul | Div | Mod | Exp
| Equal | NotEqual | LessThan | GreaterThan | LessThanOrEqual | GreaterThanOrEqual
| Not | BitNot | Inc | Dec | Delete
| TrueLiteral | FalseLiteral | Number | StringLiteral.
End Token.

Module TokenTraits.
Definition isArithmeticOp (op : Token.t) : bool :=
  match op with
  | Token.Add | Token.Sub | Token.Mul | Token.Div | Token.Mod | Token.Exp => true
  | _ => false
  end.
Definition isCompareOp (op : Token.t) : bool :=
  match op with
  | Token.Equal | Token.NotEqual | Token.LessThan | Token.GreaterThan
  | Token.LessThanOrEqual | Token.GreaterThanOrEqual => true
  | _ => false
  end.
Definition isBooleanOp (op : Token.t) : bool :=
  match op with Token.Or | Token.And => true | _ => false end.
End TokenTraits.

Module FunctionCallKind.
Inductive t := Unset | FunctionCall | TypeConversion | StructConstructorCall.
End FunctionCallKind.

(** What the checker reads of a [VariableDeclaration] through a pointer. *)
Module VariableDeclaration.
Record t := mk {
  id : nat;
  location : SourceLocation;
  name : string;
  type : TypePointer;
  isLocalVariable : bool;
  isStateVariable : bool
}.
End VariableDeclaration.

(** What every expression node carries: its id, its location and its
    annotation. *)
Module Node.
Record t := mk {
  id : nat;
  location : SourceLocation;
  type : TypePointer;
  lValueRequested : bool
}.
End Node.

Inductive Expression :=
| Literal (n : Node.t) (token : Token.t) (literalValue : Z)
| Identifier (n : Node.t) (name : string) (referencedDeclaration : Declaration)
| UnaryOperation (n : Node.t) (op : Token.t) (isPrefixOperation : bool)
    (subExpression : Expression)
| BinaryOperation (n : Node.t) (op : Token.t) (commonType : option TypePointer)
    (leftExpression rightExpression : Expression)
| Assignment (n : Node.t) (assignmentOperator : Token.t)
    (leftHandSide rightHandSide : Expression)
| TupleExpression (n : Node.t) (isInlineArray : bool)
    (components : list (option Expression))
| FunctionCall (n : Node.t) (callKind : FunctionCallKind.t)
    (expression : Expression) (arguments : list Expression)
| MemberAccess (n : Node.t) (expression : Expression) (memberName : string)
    (referencedDeclaration : Declaration)
| IndexAccess (n : Node.t) (baseExpression : Expression)
    (indexExpression : option Expression)
| OtherExpression (n : Node.t) (children : list Expression)
    (* Conditional, NewExpression, ElementaryTypeNameExpression: no hook *)

with Declaration :=
| VariableRef (d : VariableDeclaration.t)
| FunctionRef (f : FunctionDefinition)
| OtherDeclaration

with Statement :=
| Block (statements : list Statement)
| ExpressionStatement (expression : Expression)
| IfStatement (condition : Expression) (trueStatement : Statement)
    (falseStatement : option Statement)
| WhileStatement (condition : Expression) (body : Statement) (isDoWhile : bool)
| ForStatement (initializationExpression : option Statement)
    (condition : option Expression) (loopExpression : option Statement)
    (body : Statement)
| VariableDeclarationStatement (location : SourceLocation)
    (declarations : list (option VariableDeclarationNode))
    (initialValue : option Expression)
| Return (location : SourceLocation) (expression : option Expression)
| OtherStatement (children : list Expression)
    (* Break, Continue, Throw, EmitStatement, PlaceholderStatement,
       InlineAssembly: no hook *)

with VariableDeclarationNode :=
| mkVariableDeclarationNode (decl : VariableDeclaration.t) (value : option Expression)

with FunctionDefinition :=
| mkFunctionDefinition (id : nat) (location : SourceLocation)
    (isConstructor : bool)
    (parameters : list VariableDeclarationNode)
    (returnParameters : list VariableDeclarationNode)
    (modifiers : list ModifierInvocation)
    (localVariables : list VariableDeclaration.t)
    (body : option Statement)

with ModifierInvocation :=
| mkModifierInvocation (name : Expression) (arguments : list Expression).

Scheme Expression_mut := Induction for Expression Sort Prop
  with Declaration_mut := Induction for Declaration Sort Prop
  with Statement_mut := Induction for Statement Sort Prop
  with VariableDeclarationNode_mut := Induction for VariableDeclarationNode Sort Prop
  with FunctionDefinition_mut := Induction for FunctionDefinition Sort Prop
  with ModifierInvocation_mut := Induction for ModifierInvocation Sort Prop.

Combined Scheme AST_mutind from Expression_mut, Declaration_mut, Statement_mut,
  VariableDeclarationNode_mut, FunctionDefinition_mut, ModifierInvocation_mut.

Inductive ASTNode :=
| StatementNode (s : Statement)
| ExpressionNode (e : Expression).

Definition node (e : Expression) : Node.t :=
  match e with
  | Literal n _ _ | Identifier n _ _ | UnaryOperation n _ _ _
  | BinaryOperation n _ _ _ _ | Assignment n _ _ _ | TupleExpression n _ _
  | FunctionCall n _ _ _ | MemberAccess n _ _ _ | IndexAccess n _ _
  | OtherExpression n _ => n
  end.

Definition declOf (v : VariableDeclarationNode) : VariableDeclaration.t :=
  match v with mkVariableDeclarationNode d _ => d end.

Module FunctionDefinition_.
Definition id (f : FunctionDefinition) : nat :=
  match f with mkFunctionDefinition i _ _ _ _ _ _ _ => i end.
Definition location (f : FunctionDefinition) : SourceLocation :=
  match f with mkFunctionDefinition _ l _ _ _ _ _ _ => l end.
Definition isConstructor (f : FunctionDefinition) : bool :=
  match f with mkFunctionDefinition _ _ c _ _ _ _ _ => c end.
Definition parameters (f : FunctionDefinition) : list VariableDeclaration.t :=
  match f with mkFunctionDefinition _ _ _ p _ _ _ _ => declOf <$> p end.
Definition returnParameters (f : FunctionDefinition) : list VariableDeclaration.t :=
  match f with mkFunctionDefinition _ _ _ _ r _ _ _ => declOf <$> r end.
Definition modifiers (f : FunctionDefinition) : list ModifierInvocation :=
  match f with mkFunctionDefinition _ _ _ _ _ m _ _ => m end.
Definition localVariables (f : FunctionDefinition) : list VariableDeclaration.t :=
  match f with mkFunctionDefinition _ _ _ _ _ _ l _ => l end.
Definition isImplemented (f : FunctionDefinition) : bool :=
  match f with mkFunctionDefinition _ _ _ _ _ _ _ b => bool_decide (is_Some b) end.
End FunctionDefinition_.

(** ** Symbolic variables

    Modelled from the spec: [SymbolicVariable] and its SSA counter are
    declared outside SMTChecker.cpp.  Section 3: a symbolic variable is a name
    with a sort, a monotonically increasing SSA index that starts at 0, and a
    term per index; [increaseIndex] moves to a fresh index and returns the
    term there; bumping the index adds no assertion.  The counter keeps, next
    to the live index, the next index never handed out, so that an index
    written back by [resetVariableIndices] is not handed out twice. *)
Module SymbolicVariable.
Record t := mk {
  type : TypePointer;
  uniqueName : string;
  index : nat;
  nextFreeIndex : nat
}.

Definition create (ty : TypePointer) (uniqueName : string) : t :=
  {| type := ty; uniqueName := uniqueName; index := 0; nextFreeIndex := 1 |}.

Definition valueAtIndex (v : t) (i : nat) : smt.Expression :=
  smt.Symbol (uniqueName v) i.

Definition currentValue (v : t) : smt.Expression :=
  valueAtIndex v (index v).

Definition increaseIndex (v : t) : t :=
  {| type := type v; uniqueName := uniqueName v;
     index := nextFreeIndex v; nextFreeIndex := S (nextFreeIndex v) |}.

Definition setIndex (i : nat) (v : t) : t :=
  {| type := type v; uniqueName := uniqueName v;
     index := i; nextFreeIndex := nextFreeIndex v |}.

(** [operator()] of a symbolic function variable. *)
Definition apply (v : t) (arguments : list smt.Expression) : smt.Expression :=
  smt.Apply (uniqueName v) (index v) arguments.
End SymbolicVariable.

(** Modelled from the spec: [newSymbolicVariable], section 4.2.  The first
    component is [true] when the type is not modelled; a fallback integer
    variable is returned all the same. *)
Definition newSymbolicVariable (ty : TypePointer) (uniqueName : string)
  : bool * SymbolicVariable.t :=
  match category ty with
  | Category.Bool | Category.Integer | Category.Address | Category.Mapping
  | Category.Function | Category.RationalNumber =>
      (false, SymbolicVariable.create ty uniqueName)
  | _ => (true, SymbolicVariable.create (IntegerType 256 false) uniqueName)
  end.

(** Modelled from the spec: [smtKind], after the sort column of the table of
    section 4.2. *)
Definition smtKind (c : Category.t) : smt.Kind :=
  if isNumber c then smt.Int
  else if isBool c then smt.Bool
  else if isFunction c then smt.Function
  else if isMapping c then smt.Array
  else smt.Int.

(** Modelled from the spec: the assertions of [setSymbolicZeroValue] and
    [setSymbolicUnknownValue], section 3: [setZero] asserts [v == 0] (or
    [v == false]); [setUnknown] asserts the bounds of the sort only, for
    integers [min <= v <= max], an address having the bounds of uint160. *)
Definition zeroValueAssertions (e : smt.Expression) (ty : TypePointer)
  : list smt.Expression :=
  match category ty with
  | Category.Integer | Category.Address => [smt.Eq e (smt.IntLit 0)]
  | Category.Bool => [smt.Eq e (smt.BoolLit false)]
  | _ => []
  end.

Definition unknownValueAssertions (e : smt.Expression) (ty : TypePointer)
  : list smt.Expression :=
  match category ty with
  | Category.Integer =>
      [smt.Ge e (smt.IntLit (minValue ty)); smt.Le e (smt.IntLit (maxValue ty))]
  | Category.Address =>
      [smt.Ge e (smt.IntLit 0);
       smt.Le e (smt.IntLit (maxValue (IntegerType 160 false)))]
  | _ => []
  end.

(** ** The checker's state *)

Record Warning := mkWarning {
  w_location : option SourceLocation;
  w_message : string;
  w_secondary : list string
}.

(** An entry of [m_expressions].  The map holds shared pointers: the entry of
    a function identifier is the very variable stored in [m_globalContext]
    ([visitFunctionIdentifier]); every other entry is a variable of its own. *)
Inductive ExpressionVariable :=
| Own (v : SymbolicVariable.t)
| Shared (globalName : string).

Abbreviation VariableIndices := (gmap nat nat).

Record SMTChecker := mkSMTChecker {
  m_interface : list smt.Call;
  m_loopExecutionHappened : bool;
  m_arrayAssignmentHappened : bool;
  m_variables : gmap nat (VariableDeclaration.t * SymbolicVariable.t);
  m_expressions : gmap nat ExpressionVariable;
  m_globalContext : gmap string SymbolicVariable.t;
  m_uninterpretedTerms : gmap nat Node.t;
  m_pathConditions : list smt.Expression;
  m_errorReporter : list Warning;
  m_scanner : option (SourceLocation -> string);
  m_functionPath : list FunctionDefinition
}.

Definition set_interface (f : list smt.Call -> list smt.Call) (c : SMTChecker) :=
  mkSMTChecker (f (m_interface c)) (m_loopExecutionHappened c)
    (m_arrayAssignmentHappened c) (m_variables c) (m_expressions c)
    (m_globalContext c) (m_uninterpretedTerms c) (m_pathConditions c)
    (m_errorReporter c) (m_scanner c) (m_functionPath c).

Definition set_loopExecutionHappened (b : bool) (c : SMTChecker) :=
  mkSMTChecker (m_interface c) b
    (m_arrayAssignmentHappened c) (m_variables c) (m_expressions c)
    (m_globalContext c) (m_uninterpretedTerms c) (m_pathConditions c)
    (m_errorReporter c) (m_scanner c) (m_functionPath c).

Definition set_arrayAssignmentHappened (b : bool) (c : SMTChecker) :=
  mkSMTChecker (m_interface c) (m_loopExecutionHappened c)
    b (m_variables c) (m_expressions c)
    (m_globalContext c) (m_uninterpretedTerms c) (m_pathConditions c)
    (m_errorReporter c) (m_scanner c) (m_functionPath c).

Definition set_variables
  (f : gmap nat (VariableDeclaration.t * SymbolicVariable.t) ->
       gmap nat (VariableDeclaration.t * SymbolicVariable.t)) (c : SMTChecker) :=
  mkSMTChecker (m_interface c) (m_loopExecutionHappened c)
    (m_arrayAssignmentHappened c) (f (m_variables c)) (m_expressions c)
    (m_globalContext c) (m_uninterpretedTerms c) (m_pathConditions c)
    (m_errorReporter c) (m_scanner c) (m_functionPath c).

Definition set_expressions
  (f : gmap nat ExpressionVariable -> gmap nat ExpressionVariable) (c : SMTChecker) :=
  mkSMTChecker (m_interface c) (m_loopExecutionHappened c)
    (m_arrayAssignmentHappened c) (m_variables c) (f (m_expressions c))
    (m_globalContext c) (m_uninterpretedTerms c) (m_pathConditions c)
    (m_errorReporter c) (m_scanner c) (m_functionPath c).

Definition set_globalContext
  (f : gmap string SymbolicVariable.t -> gmap string SymbolicVariable.t)
  (c : SMTChecker) :=
  mkSMTChecker (m_interface c) (m_loopExecutionHappened c)
    (m_arrayAssignmentHappened c) (m_variables c) (m_expressions c)
    (f (m_globalContext c)) (m_uninterpretedTerms c) (m_pathConditions c)
    (m_errorReporter c) (m_scanner c) (m_functionPath c).

Definition set_uninterpretedTerms
  (f : gmap nat Node.t -> gmap nat Node.t) (c : SMTChecker) :=
  mkSMTChecker (m_interface c) (m_loopExecutionHappened c)
    (m_arrayAssignmentHappened c) (m_variables c) (m_expressions c)
    (m_globalContext c) (f (m_uninterpretedTerms c)) (m_pathConditions c)
    (m_errorReporter c) (m_scanner c) (m_functionPath c).

Definition set_pathConditions
  (f : list smt.Expression -> list smt.Expression) (c : SMTChecker) :=
  mkSMTChecker (m_interface c) (m_loopExecutionHappened c)
    (m_arrayAssignmentHappened c) (m_variables c) (m_expressions c)
    (m_globalContext c) (m_uninterpretedTerms c) (f (m_pathConditions c))
    (m_errorReporter c) (m_scanner c) (m_functionPath c).

Definition set_errorReporter (f : list Warning -> list Warning) (c : SMTChecker) :=
  mkSMTChecker (m_interface c) (m_loopExecutionHappened c)
    (m_arrayAssignmentHappened c) (m_variables c) (m_expressions c)
    (m_globalContext c) (m_uninterpretedTerms c) (m_pathConditions c)
    (f (m_errorReporter c)) (m_scanner c) (m_functionPath c).

Definition set_functionPath
  (f : list FunctionDefinition -> list FunctionDefinition) (c : SMTChecker) :=
  mkSMTChecker (m_interface c) (m_loopExecutionHappened c)
    (m_arrayAssignmentHappened c) (m_variables c) (m_expressions c)
    (m_globalContext c) (m_uninterpretedTerms c) (m_pathConditions c)
    (m_errorReporter c) (m_scanner c) (f (m_functionPath c)).

(** ** The monad of member functions

    A member function reads and writes the checker and may throw: a failed
    [solAssert] or [solUnimplementedAssert], [at] on a missing key, a failed
    reference cast, a null pointer followed. *)

Inductive Exception :=
| InternalCompilerError
| UnimplementedFeatureError
| OutOfRange
| BadCast
| NullPointer.

Inductive Outcome (A : Type) :=
| Ok (a : A) (c : SMTChecker)
| Throw (e : Exception).
Arguments Ok {A} a c.
Arguments Throw {A} e.

Definition M (A : Type) := SMTChecker -> Outcome A.

Definition ret {A} (a : A) : M A := fun c => Ok a c.

Definition bind {A B} (m : M A) (k : A -> M B) : M B :=
  fun c => match m c with Ok a c' => k a c' | Throw e => Throw e end.

Definition throw {A} (e : Exception) : M A := fun _ => Throw e.

Declare Scope checker_scope.
Delimit Scope checker_scope with checker.
Notation "x <- m ;; k" := (bind m (fun x => k))
  (at level 100, m at next level, k at level 200, right associativity)
  : checker_scope.
Notation "m ;; k" := (bind m (fun _ => k))
  (at level 100, k at level 200, right associativity) : checker_scope.
Local Open Scope checker_scope.

Definition gets {A} (f : SMTChecker -> A) : M A := fun c => Ok (f c) c.
Definition modify (f : SMTChecker -> SMTChecker) : M unit := fun c => Ok tt (f c).

Definition solAssert (b : bool) : M unit :=
  if b then ret tt else throw InternalCompilerError.

Definition solUnimplementedAssert (b : bool) : M unit :=
  if b then ret tt else throw UnimplementedFeatureError.

Definition when (b : bool) (m : M unit) : M unit := if b then m else ret tt.

Definition forEach {A} (l : list A) (f : A -> M unit) : M unit :=
  (fix loop (l : list A) : M unit :=
     match l with
     | [] => ret tt
     | x :: l' => f x ;; loop l'
     end) l.

Fixpoint mapM {A B} (f : A -> M B) (l : list A) : M (list B) :=
  match l with
  | [] => ret []
  | x :: l' => y <- f x ;; ys <- mapM f l' ;; ret (y :: ys)
  end.

(** [m_errorReporter.warning] *)
Definition warning (loc : option SourceLocation) (msg : string)
  (secondary : list string) : M unit :=
  modify (set_errorReporter (fun ws => ws ++ [mkWarning loc msg secondary])).

(** A call on [m_interface] that returns nothing. *)
Definition interface (c : smt.Call) : M unit :=
  modify (set_interface (fun log => log ++ [c])).

Coercion node : Expression >-> Node.t.
Coercion VariableDeclaration.id : VariableDeclaration.t >-> nat.

Definition nl : string := String (ascii_of_nat 10) EmptyString.

(** [std::map<string, string>::operator[]] followed by an assignment, on an
    association list kept in the order of the keys. *)
Fixpoint sortedInsert (k v : string) (m : list (string * string))
  : list (string * string) :=
  match m with
  | [] => [(k, v)]
  | (k', v') :: m' =>
      match String.compare k k' with
      | Lt => (k, v) :: m
      | Eq => (k, v) :: m'
      | Gt => (k', v') :: sortedInsert k v m'
      end
  end.

(** ** Member functions *)

Section Checker.

(** The solver behind [m_interface]: its answer to a [check], given every
    call made so far, that [check] included. *)
Variable solver : list smt.Call -> smt.Answer.

(** [VariableUsage::touchedVariables], declared outside this file: the
    declarations (as pointers) a subtree assigns to. *)
Variable touchedVariables : ASTNode -> list nat.

(** [formatNumberReadable] and the [bigint] constructor from a string
    ([None] when it throws), declared outside this file. *)
Variable formatNumberReadable : Z -> string.
Variable bigint : string -> option Z.

Definition interface_check (es : list smt.Expression) : M smt.Answer :=
  fun c =>
    let log := m_interface c ++ [smt.check es] in
    Ok (solver log) (set_interface (fun _ => log) c).

Definition isRootFunction : M bool :=
  gets (fun c => Nat.eqb (length (m_functionPath c)) 1).

Definition visitedFunction (_funDef : FunctionDefinition) : M bool :=
  gets (fun c =>
    existsb (fun f => Nat.eqb (FunctionDefinition_.id f) (FunctionDefinition_.id _funDef))
      (m_functionPath c)).

(** *** Variables *)

Definition copyVariableIndices : M VariableIndices :=
  gets (fun c => (fun p => SymbolicVariable.index (snd p)) <$> m_variables c).

(** Each index of [_indices] is written back; [at] throws when a key of
    [_indices] is no variable. *)
Definition resetVariableIndices (_indices : VariableIndices) : M unit :=
  fun c =>
    if bool_decide
         (map_Forall (fun k _ => is_Some (m_variables c !! k)) _indices)
    then
      Ok tt
        (set_variables
           (map_imap (fun k p =>
              Some (fst p,
                    match _indices !! k with
                    | Some i => SymbolicVariable.setIndex i (snd p)
                    | None => snd p
                    end))) c)
    else Throw OutOfRange.

Definition knownVariable (_decl : nat) : M bool :=
  gets (fun c => bool_decide (is_Some (m_variables c !! _decl))).

(** [m_variables.at(&_decl)] *)
Definition variableAt (_decl : nat) : M SymbolicVariable.t :=
  fun c =>
    match m_variables c !! _decl with
    | Some p => Ok (snd p) c
    | None => Throw OutOfRange
    end.

Definition currentValue (_decl : nat) : M smt.Expression :=
  k <- knownVariable _decl ;;
  solAssert k ;;
  v <- variableAt _decl ;;
  ret (SymbolicVariable.currentValue v).

Definition valueAtIndex (_decl : nat) (_index : nat) : M smt.Expression :=
  k <- knownVariable _decl ;;
  solAssert k ;;
  v <- variableAt _decl ;;
  ret (SymbolicVariable.valueAtIndex v _index).

Definition newValue (_decl : nat) : M smt.Expression :=
  k <- knownVariable _decl ;;
  solAssert k ;;
  v <- variableAt _decl ;;
  modify (set_variables
            (alter (fun p => (fst p, SymbolicVariable.increaseIndex (snd p))) _decl)) ;;
  ret (SymbolicVariable.currentValue (SymbolicVariable.increaseIndex v)).

Definition addAssertions (es : list smt.Expression) : M unit :=
  forEach es (fun e => interface (smt.addAssertion e)).

Definition setZeroValue_var (_variable : SymbolicVariable.t) : M unit :=
  addAssertions
    (zeroValueAssertions (SymbolicVariable.currentValue _variable)
       (SymbolicVariable.type _variable)).

Definition setZeroValue (_decl : nat) : M unit :=
  k <- knownVariable _decl ;;
  solAssert k ;;
  v <- variableAt _decl ;;
  setZeroValue_var v.

Definition setUnknownValue_var (_variable : SymbolicVariable.t) : M unit :=
  addAssertions
    (unknownValueAssertions (SymbolicVariable.currentValue _variable)
       (SymbolicVariable.type _variable)).

Definition setUnknownValue (_decl : nat) : M unit :=
  k <- knownVariable _decl ;;
  solAssert k ;;
  v <- variableAt _decl ;;
  setUnknownValue_var v.

(** [setSymbolicUnknownValue] on a term and a type. *)
Definition setSymbolicUnknownValue (e : smt.Expression) (ty : TypePointer) : M unit :=
  addAssertions (unknownValueAssertions e ty).

Definition createVariable (_varDecl : VariableDeclaration.t) : M bool :=
  k <- knownVariable _varDecl ;;
  if k then ret true
  else
    let result :=
      newSymbolicVariable (VariableDeclaration.type _varDecl)
        (VariableDeclaration.name _varDecl +:+ "_" +:+
           to_string (VariableDeclaration.id _varDecl)) in
    modify (set_variables
              (<[VariableDeclaration.id _varDecl := (_varDecl, snd result)]>)) ;;
    if fst result then
      warning (Some (VariableDeclaration.location _varDecl))
        "Assertion checker does not yet support the type of this variable." [] ;;
      ret false
    else ret true.

Definition removeLocalVariables : M unit :=
  modify (set_variables
            (filter (fun kv => VariableDeclaration.isLocalVariable (fst (snd kv)) = false))).

Definition resetVariables (_variables : list nat) : M unit :=
  forEach _variables (fun decl => newValue decl ;; setUnknownValue decl).

Definition resetStateVariables : M unit :=
  vars <- gets (fun c => map_to_list (m_variables c)) ;;
  forEach vars (fun kv =>
    when (VariableDeclaration.isStateVariable (fst (snd kv)))
      (newValue (fst kv) ;; setUnknownValue (fst kv))).

Definition eraseArrayKnowledge : M unit :=
  vars <- gets (fun c => map_to_list (m_variables c)) ;;
  forEach vars (fun kv =>
    when (isMapping (category (VariableDeclaration.type (fst (snd kv)))))
      (newValue (fst kv) ;; ret tt)).

Definition arrayAssignment : M unit :=
  modify (set_arrayAssignmentHappened true) ;;
  eraseArrayKnowledge.

(** *** Expressions *)

Definition knownExpr (_e : Node.t) : M bool :=
  gets (fun c => bool_decide (is_Some (m_expressions c !! Node.id _e))).

Definition knownGlobalSymbol (_var : string) : M bool :=
  gets (fun c => bool_decide (is_Some (m_globalContext c !! _var))).

(** [m_globalContext.at(_name)] *)
Definition globalAt (_name : string) : M SymbolicVariable.t :=
  fun c =>
    match m_globalContext c !! _name with
    | Some v => Ok v c
    | None => Throw OutOfRange
    end.

(** [m_expressions.at(&_e)], the pointer followed.  For the entry of a
    function identifier the source follows the shared pointer it holds; here
    the shared variable is found by its name in [m_globalContext].
    [visitFunctionIdentifier] makes such an entry only after the symbol is
    in the global context, and [visit(FunctionDefinition)] clears both maps
    together, so on the states the checker reaches the name is always
    found: the [OutOfRange] of a missing name stands for no behaviour of
    the source.  The same holds for [increaseExpressionIndex]. *)
Definition expressionAt (_e : Node.t) : M SymbolicVariable.t :=
  fun c =>
    match m_expressions c !! Node.id _e with
    | Some (Own v) => Ok v c
    | Some (Shared g) => globalAt g c
    | None => Throw OutOfRange
    end.

(** [m_expressions.at(&_e)->increaseIndex()] *)
Definition increaseExpressionIndex (_e : Node.t) : M unit :=
  fun c =>
    match m_expressions c !! Node.id _e with
    | Some (Own v) =>
        Ok tt (set_expressions
                 (<[Node.id _e := Own (SymbolicVariable.increaseIndex v)]>) c)
    | Some (Shared g) =>
        match m_globalContext c !! g with
        | Some v =>
            Ok tt (set_globalContext
                     (<[g := SymbolicVariable.increaseIndex v]>) c)
        | None => Throw OutOfRange
        end
    | None => Throw OutOfRange
    end.

Definition createExpr (_e : Node.t) : M unit :=
  k <- knownExpr _e ;;
  if k then increaseExpressionIndex _e
  else
    let result :=
      newSymbolicVariable (Node.type _e) ("expr_" +:+ to_string (Node.id _e)) in
    modify (set_expressions (<[Node.id _e := Own (snd result)]>)) ;;
    when (fst result)
      (warning (Some (Node.location _e))
         "Assertion checker does not yet implement this type." []).

Definition expr (_e : Node.t) : M smt.Expression :=
  k <- knownExpr _e ;;
  when (negb k)
    (warning (Some (Node.location _e))
       "Internal error: Expression undefined for SMT solver." [] ;;
     createExpr _e) ;;
  v <- expressionAt _e ;;
  ret (SymbolicVariable.currentValue v).

Definition defineExpr (_e : Node.t) (_value : smt.Expression) : M unit :=
  createExpr _e ;;
  solAssert (isSupportedType (category (Node.type _e))) ;;
  e <- expr _e ;;
  interface (smt.addAssertion (smt.Eq e _value)).

(** *** Path conditions *)

Definition currentPathConditions : M smt.Expression :=
  gets (fun c => List.last (m_pathConditions c) (smt.BoolLit true)).

Definition pushPathCondition (_e : smt.Expression) : M unit :=
  p <- currentPathConditions ;;
  modify (set_pathConditions (fun l => l ++ [smt.And p _e])).

Definition popPathCondition : M unit :=
  n <- gets (fun c => length (m_pathConditions c)) ;;
  solAssert (Nat.ltb 0 n) ;;
  modify (set_pathConditions (@removelast _)).

Definition addPathConjoinedExpression (_e : smt.Expression) : M unit :=
  p <- currentPathConditions ;;
  interface (smt.addAssertion (smt.And p _e)).

Definition addPathImpliedExpression (_e : smt.Expression) : M unit :=
  p <- currentPathConditions ;;
  interface (smt.addAssertion (smt.implies p _e)).

(** *** Queries *)

Definition readable (value : string) : string :=
  match bigint value with
  | Some z => formatNumberReadable z
  | None => value
  end.

Definition checkSatisfiableAndGenerateModel
  (_expressionsToEvaluate : list smt.Expression)
  : M (smt.CheckResult * list string) :=
  answer <- interface_check _expressionsToEvaluate ;;
  match answer with
  | smt.Result result values => ret (result, readable <$> values)
  | smt.SolverError comment =>
      warning None
        ("Error querying SMT solver" +:+
           match comment with Some c => ": " +:+ c | None => "" end) [] ;;
      ret (smt.ERROR, [])
  end.

Definition checkSatisfiable : M smt.CheckResult :=
  r <- checkSatisfiableAndGenerateModel [] ;;
  ret (fst r).

Definition loopComment : M string :=
  gets (fun c =>
    (if m_loopExecutionHappened c then
       nl +:+ "Note that some information is erased after the execution of loops." +:+ nl +:+
       "You can re-introduce information using require()."
     else "") +:+
    (if m_arrayAssignmentHappened c then
       nl +:+ "Note that array aliasing is not supported," +:+
       " therefore all mapping information is erased after" +:+
       " a mapping local variable/parameter is assigned." +:+ nl +:+
       "You can re-introduce information using require()."
     else "")).

(** The terms to evaluate with their names: the additional value first,
    then the value-typed variables, the value-typed globals that are no
    functions, and the value-typed uninterpreted terms. *)
Definition expressionsToEvaluate
  (_additionalValueName : string) (_additionalValue : option smt.Expression)
  : M (list (smt.Expression * string)) :=
  scanner <- gets m_scanner ;;
  match scanner with
  | None => throw InternalCompilerError
  | Some sourceAt =>
      vars <- gets (fun c => map_to_list (m_variables c)) ;;
      globals <- gets (fun c => map_to_list (m_globalContext c)) ;;
      ufs <- gets (fun c => map_to_list (m_uninterpretedTerms c)) ;;
      ufValues <-
        mapM (fun uf : nat * Node.t =>
                e <- expr (snd uf) ;;
                ret (e, sourceAt (Node.location (snd uf))))
          (List.filter (fun uf : nat * Node.t =>
                          isValueType (Node.type (snd uf))) ufs) ;;
      ret
        (match _additionalValue with
         | Some v => [(v, _additionalValueName)]
         | None => []
         end ++
         flat_map (fun kv : nat * (VariableDeclaration.t * SymbolicVariable.t) =>
                 if isValueType (VariableDeclaration.type (fst (snd kv)))
                 then [(SymbolicVariable.currentValue (snd (snd kv)),
                        VariableDeclaration.name (fst (snd kv)))]
                 else []) vars ++
         flat_map (fun kv : string * SymbolicVariable.t =>
                 let ty := SymbolicVariable.type (snd kv) in
                 if isValueType ty &&
                    negb (match smtKind (category ty) with
                          | smt.Function => true
                          | _ => false
                          end)
                 then [(SymbolicVariable.currentValue (snd kv), fst kv)]
                 else []) globals ++
         ufValues)
  end.

Definition sortedModel (evaluated : list (smt.Expression * string))
  (values : list string) : list (string * string) :=
  fold_left
    (fun m (ev : (smt.Expression * string) * string) =>
       if String.eqb (smt.name (fst (fst ev))) (snd ev) then m
       else sortedInsert (snd (fst ev)) (snd ev) m)
    (zip evaluated values) [].

Definition modelMessage (model : list (string * string)) : string :=
  fold_left
    (fun msg (eval : string * string) =>
       msg +:+ "  " +:+ fst eval +:+ " = " +:+ snd eval +:+ nl)
    model ("  for:" +:+ nl).

Definition checkCondition
  (_condition : smt.Expression) (_location : SourceLocation)
  (_description : string) (_additionalValueName : string)
  (_additionalValue : option smt.Expression) : M unit :=
  interface smt.push ;;
  addPathConjoinedExpression _condition ;;
  inFunction <- gets (fun c => negb (Nat.eqb (length (m_functionPath c)) 0)) ;;
  evaluated <-
    (if inFunction
     then expressionsToEvaluate _additionalValueName _additionalValue
     else ret []) ;;
  r <- checkSatisfiableAndGenerateModel (fst <$> evaluated) ;;
  comment <- loopComment ;;
  match fst r with
  | smt.SATISFIABLE =>
      (if inFunction then
         solAssert (Nat.eqb (length (snd r)) (length evaluated)) ;;
         warning (Some _location) (_description +:+ " happens here")
           [modelMessage (sortedModel evaluated (snd r)); comment]
       else
         warning (Some _location) (_description +:+ " happens here" +:+ ".")
           [comment])
  | smt.UNSATISFIABLE => ret tt
  | smt.UNKNOWN =>
      warning (Some _location) (_description +:+ " might happen here.") [comment]
  | smt.CONFLICTING =>
      warning (Some _location)
        "At least two SMT solvers provided conflicting answers. Results might not be sound." []
  | smt.ERROR =>
      warning (Some _location) "Error trying to invoke SMT solver." []
  end ;;
  interface smt.pop.

Definition isLiteral (e : Expression) : bool :=
  match e with Literal _ _ _ => true | _ => false end.

Definition checkBooleanNotConstant (_condition : Expression) (_description : string)
  : M unit :=
  if isLiteral _condition then ret tt
  else
    interface smt.push ;;
    e <- expr _condition ;;
    addPathConjoinedExpression e ;;
    positiveResult <- checkSatisfiable ;;
    interface smt.pop ;;

    interface smt.push ;;
    e' <- expr _condition ;;
    addPathConjoinedExpression (smt.Not e') ;;
    negatedResult <- checkSatisfiable ;;
    interface smt.pop ;;

    let loc := Some (Node.location _condition) in
    if smt.CheckResult_eqb positiveResult smt.ERROR ||
       smt.CheckResult_eqb negatedResult smt.ERROR
    then warning loc "Error trying to invoke SMT solver." []
    else if smt.CheckResult_eqb positiveResult smt.CONFLICTING ||
            smt.CheckResult_eqb negatedResult smt.CONFLICTING
    then
      warning loc
        "At least two SMT solvers provided conflicting answers. Results might not be sound." []
    else if smt.CheckResult_eqb positiveResult smt.SATISFIABLE &&
            smt.CheckResult_eqb negatedResult smt.SATISFIABLE
    then ret tt (* everything fine *)
    else if smt.CheckResult_eqb positiveResult smt.UNKNOWN ||
            smt.CheckResult_eqb negatedResult smt.UNKNOWN
    then ret tt (* can't do anything *)
    else if smt.CheckResult_eqb positiveResult smt.UNSATISFIABLE &&
            smt.CheckResult_eqb negatedResult smt.UNSATISFIABLE
    then warning loc "Condition unreachable." []
    else
      value <-
        (if smt.CheckResult_eqb positiveResult smt.SATISFIABLE then
           solAssert (smt.CheckResult_eqb negatedResult smt.UNSATISFIABLE) ;;
           ret "true"
         else
           solAssert (smt.CheckResult_eqb positiveResult smt.UNSATISFIABLE) ;;
           solAssert (smt.CheckResult_eqb negatedResult smt.SATISFIABLE) ;;
           ret "false") ;;
      warning loc (replace_all_copy _description "$VALUE" value) [].

Definition checkUnderOverflow (_value : smt.Expression) (_type : TypePointer)
  (_location : SourceLocation) : M unit :=
  checkCondition
    (smt.Lt _value (smt.IntLit (minValue _type)))
    _location
    ("Underflow (resulting value less than " +:+
       formatNumberReadable (minValue _type) +:+ ")")
    "<result>"
    (Some _value) ;;
  checkCondition
    (smt.Gt _value (smt.IntLit (maxValue _type)))
    _location
    ("Overflow (resulting value larger than " +:+
       formatNumberReadable (maxValue _type) +:+ ")")
    "<result>"
    (Some _value).

(** *** Assignment, division, merging *)

Definition assignment (_variable : VariableDeclaration.t)
  (_value : smt.Expression) (_location : SourceLocation) : M unit :=
  let type := VariableDeclaration.type _variable in
  match category type with
  | Category.Integer => checkUnderOverflow _value type _location
  | Category.Address => checkUnderOverflow _value (IntegerType 160 false) _location
  | Category.Mapping => arrayAssignment
  | _ => ret tt
  end ;;
  v <- newValue _variable ;;
  interface (smt.addAssertion (smt.Eq v _value)).

Definition assignment_expr (_variable : VariableDeclaration.t)
  (_value : Expression) (_location : SourceLocation) : M unit :=
  v <- expr _value ;;
  assignment _variable v _location.

Definition division (_left _right : smt.Expression) (_type : TypePointer)
  : smt.Expression :=
  if isSigned _type then
    smt.ite
      (smt.Ge _left (smt.IntLit 0))
      (smt.ite (smt.Ge _right (smt.IntLit 0))
         (smt.Div _left _right)
         (smt.Sub (smt.IntLit 0) (smt.Div _left (smt.Sub (smt.IntLit 0) _right))))
      (smt.ite (smt.Ge _right (smt.IntLit 0))
         (smt.Sub (smt.IntLit 0) (smt.Div (smt.Sub (smt.IntLit 0) _left) _right))
         (smt.Div (smt.Sub (smt.IntLit 0) _left) (smt.Sub (smt.IntLit 0) _right)))
  else smt.Div _left _right.

(** [indices.at(decl)] *)
Definition indexAt (indices : VariableIndices) (decl : nat) : M nat :=
  match indices !! decl with
  | Some i => ret i
  | None => throw OutOfRange
  end.

(** The loop body of [mergeVariables]. *)
Definition mergeVariable (_condition : smt.Expression)
  (_indicesEndTrue _indicesEndFalse : VariableIndices) (decl : nat) : M unit :=
  solAssert (bool_decide (is_Some (_indicesEndTrue !! decl)) &&
             bool_decide (is_Some (_indicesEndFalse !! decl))) ;;
  trueIndex <- indexAt _indicesEndTrue decl ;;
  falseIndex <- indexAt _indicesEndFalse decl ;;
  solAssert (negb (Nat.eqb trueIndex falseIndex)) ;;
  v <- newValue decl ;;
  t <- valueAtIndex decl trueIndex ;;
  f <- valueAtIndex decl falseIndex ;;
  interface (smt.addAssertion (smt.Eq v (smt.ite _condition t f))).

(** [std::set] keeps one copy of each pointer. *)
Definition uniqueVars (_variables : list nat) : list nat :=
  elements (list_to_set _variables : gset nat).

Definition mergeVariables (_variables : list nat) (_condition : smt.Expression)
  (_indicesEndTrue _indicesEndFalse : VariableIndices) : M unit :=
  forEach (uniqueVars _variables)
    (mergeVariable _condition _indicesEndTrue _indicesEndFalse).

Definition visitBranch (accept : Statement -> M unit) (_statement : Statement)
  (_condition : option smt.Expression) : M VariableIndices :=
  indicesBeforeBranch <- copyVariableIndices ;;
  match _condition with
  | Some c => pushPathCondition c
  | None => ret tt
  end ;;
  accept _statement ;;
  match _condition with
  | Some _ => popPathCondition
  | None => ret tt
  end ;;
  indicesAfterBranch <- copyVariableIndices ;;
  resetVariableIndices indicesBeforeBranch ;;
  ret indicesAfterBranch.

(** *** Globals *)

Definition defineGlobalVariable (_name : string) (_expr : Node.t)
  (_increaseIndex : bool) : M unit :=
  k <- knownGlobalSymbol _name ;;
  (if negb k then
     let result := newSymbolicVariable (Node.type _expr) _name in
     modify (set_globalContext (<[_name := snd result]>)) ;;
     setUnknownValue_var (snd result) ;;
     when (fst result)
       (warning (Some (Node.location _expr))
          "Assertion checker does not yet support this global variable." [])
   else if _increaseIndex then
     v <- globalAt _name ;;
     modify (set_globalContext (<[_name := SymbolicVariable.increaseIndex v]>))
   else ret tt) ;;
  when (isSupportedType (category (Node.type _expr)))
    (v <- globalAt _name ;;
     defineExpr _expr (SymbolicVariable.currentValue v)).

Definition defineGlobalFunction (_name : string) (_expr : Node.t) : M unit :=
  k <- knownGlobalSymbol _name ;;
  when (negb k)
    (let result := newSymbolicVariable (Node.type _expr) _name in
     modify (set_globalContext (<[_name := snd result]>)) ;;
     when (fst result)
       (warning (Some (Node.location _expr))
          "Assertion checker does not yet support the type of this function." [])).

(** *** Hooks of the expressions *)

Definition endVisit_Literal (_literal : Node.t) (token : Token.t)
  (literalValue : Z) : M unit :=
  let type := Node.type _literal in
  if isNumber (category type) then
    defineExpr _literal (smt.IntLit literalValue)
  else if isBool (category type) then
    defineExpr _literal
      (smt.BoolLit (match token with Token.TrueLiteral => true | _ => false end))
  else
    warning (Some (Node.location _literal))
      ("Assertion checker does not yet support the type of this literal (" +:+
         toString type +:+ ").") [].

Definition visitFunctionIdentifier (_identifier : Node.t) : M unit :=
  let fType := Node.type _identifier in
  when (Nat.ltb 1 (returnParameterTypes fType))
    (warning (Some (Node.location _identifier))
       "Assertion checker does not yet support functions with more than one return parameter." []) ;;
  defineGlobalFunction (richIdentifier fType) _identifier ;;
  _ <- globalAt (richIdentifier fType) ;;
  (* emplace: no effect when the key is present *)
  modify (set_expressions (fun m =>
    match m !! Node.id _identifier with
    | Some _ => m
    | None => <[Node.id _identifier := Shared (richIdentifier fType)]> m
    end)).

Definition endVisit_Identifier (_identifier : Node.t) (name : string)
  (referencedDeclaration : Declaration) : M unit :=
  if Node.lValueRequested _identifier then
    ret tt (* Will be translated as part of the node that requested the lvalue. *)
  else if isFunction (category (Node.type _identifier)) then
    visitFunctionIdentifier _identifier
  else if isSupportedType (category (Node.type _identifier)) then
    match referencedDeclaration with
    | VariableRef decl =>
        v <- currentValue decl ;;
        defineExpr _identifier v
    | _ =>
        if String.eqb name "now" then
          defineGlobalVariable name _identifier false
        else
          warning (Some (Node.location _identifier))
            "Assertion checker does not yet support the type of this variable." []
    end
  else ret tt.

Definition endVisit_UnaryOperation (_op : Node.t) (op : Token.t)
  (isPrefixOperation : bool) (subExpression : Expression) : M unit :=
  match op with
  | Token.Not =>
      solAssert (isBool (category (Node.type _op))) ;;
      e <- expr subExpression ;;
      defineExpr _op (smt.Not e)
  | Token.Inc | Token.Dec =>
      solAssert (isInteger (category (Node.type _op))) ;;
      solAssert (Node.lValueRequested subExpression) ;;
      match subExpression with
      | Identifier _ _ referencedDeclaration =>
          match referencedDeclaration with
          | VariableRef decl =>
              k <- knownVariable decl ;;
              if k then
                innerValue <- currentValue decl ;;
                let newValue :=
                  match op with
                  | Token.Inc => smt.Add innerValue (smt.IntLit 1)
                  | _ => smt.Sub innerValue (smt.IntLit 1)
                  end in
                assignment decl newValue (Node.location _op) ;;
                defineExpr _op (if isPrefixOperation then newValue else innerValue)
              else
                warning (Some (Node.location _op))
                  "Assertion checker does not yet implement such assignments." []
          | _ => throw BadCast
          end
      | _ =>
          warning (Some (Node.location _op))
            "Assertion checker does not yet implement such increments / decrements." []
      end
  | Token.Sub =>
      e <- expr subExpression ;;
      defineExpr _op (smt.Sub (smt.IntLit 0) e) ;;
      when (isInteger (category (Node.type _op)))
        (v <- expr _op ;;
         checkUnderOverflow v (Node.type _op) (Node.location _op))
  | _ =>
      warning (Some (Node.location _op))
        "Assertion checker does not yet implement this operator." []
  end.

Definition arithmeticOperation (_op : Node.t) (op : Token.t)
  (commonType : option TypePointer) (leftExpression rightExpression : Expression)
  : M unit :=
  match op with
  | Token.Add | Token.Sub | Token.Mul | Token.Div =>
      match commonType with
      | None => throw InternalCompilerError
      | Some intType =>
          if negb (isInteger (category intType)) then
            warning (Some (Node.location _op))
              "Assertion checker does not yet implement this operator on non-integer types." []
          else
            left <- expr leftExpression ;;
            right <- expr rightExpression ;;
            let value :=
              match op with
              | Token.Add => smt.Add left right
              | Token.Sub => smt.Sub left right
              | Token.Div => division left right intType
              | _ => smt.Mul left right
              end in
            match op with
            | Token.Div =>
                checkCondition (smt.Eq right (smt.IntLit 0)) (Node.location _op)
                  "Division by zero" "<result>" (Some right) ;;
                interface (smt.addAssertion (smt.Ne right (smt.IntLit 0)))
            | _ => ret tt
            end ;;
            checkUnderOverflow value intType (Node.location _op) ;;
            defineExpr _op value
      end
  | _ =>
      warning (Some (Node.location _op))
        "Assertion checker does not yet implement this operator." []
  end.

Definition compareOperation (_op : Node.t) (op : Token.t)
  (commonType : option TypePointer) (leftExpression rightExpression : Expression)
  : M unit :=
  match commonType with
  | None => throw InternalCompilerError
  | Some commonType =>
      if isSupportedType (category commonType) then
        left <- expr leftExpression ;;
        right <- expr rightExpression ;;
        value <-
          (if isNumber (category commonType) then
             ret (match op with
                  | Token.Equal => smt.Eq left right
                  | Token.NotEqual => smt.Ne left right
                  | Token.LessThan => smt.Lt left right
                  | Token.LessThanOrEqual => smt.Le left right
                  | Token.GreaterThan => smt.Gt left right
                  | _ => smt.Ge left right
                  end)
           else
             solUnimplementedAssert (isBool (category commonType)) ;;
             ret (match op with
                  | Token.Equal => smt.Eq left right
                  | _ => smt.Ne left right
                  end)) ;;
        defineExpr _op value
      else
        warning (Some (Node.location _op))
          ("Assertion checker does not yet implement the type " +:+
             toString commonType +:+ " for comparisons") []
  end.

Definition booleanOperation (_op : Node.t) (op : Token.t)
  (commonType : option TypePointer) (leftExpression rightExpression : Expression)
  : M unit :=
  solAssert (match op with Token.And | Token.Or => true | _ => false end) ;;
  match commonType with
  | None => throw InternalCompilerError
  | Some commonType =>
      if isBool (category commonType) then
        left <- expr leftExpression ;;
        right <- expr rightExpression ;;
        match op with
        | Token.And => defineExpr _op (smt.And left right)
        | _ => defineExpr _op (smt.Or left right)
        end
      else
        warning (Some (Node.location _op))
          ("Assertion checker does not yet implement the type " +:+
             toString commonType +:+ " for boolean operations") []
  end.

Definition endVisit_BinaryOperation (_op : Node.t) (op : Token.t)
  (commonType : option TypePointer) (leftExpression rightExpression : Expression)
  : M unit :=
  if TokenTraits.isArithmeticOp op then
    arithmeticOperation _op op commonType leftExpression rightExpression
  else if TokenTraits.isCompareOp op then
    compareOperation _op op commonType leftExpression rightExpression
  else if TokenTraits.isBooleanOp op then
    booleanOperation _op op commonType leftExpression rightExpression
  else
    warning (Some (Node.location _op))
      "Assertion checker does not yet implement this operator." [].

Definition arrayIndexAssignment (_assignment : Node.t)
  (leftHandSide rightHandSide : Expression) : M unit :=
  match leftHandSide with
  | IndexAccess indexAccess baseExpression indexExpression =>
      match baseExpression with
      | Identifier _ _ referencedDeclaration =>
          match referencedDeclaration with
          | VariableRef varDecl =>
              k <- knownVariable varDecl ;;
              solAssert k ;;
              array <- variableAt varDecl ;;
              match indexExpression with
              | None => throw NullPointer
              | Some indexExpression =>
                  i <- expr indexExpression ;;
                  r <- expr rightHandSide ;;
                  let store :=
                    smt.store (SymbolicVariable.currentValue array) i r in
                  v <- newValue varDecl ;;
                  interface (smt.addAssertion (smt.Eq v store))
              end
          | _ => throw BadCast
          end
      | IndexAccess _ _ _ =>
          warning (Some (Node.location indexAccess))
            "Assertion checker does not yet implement assignments to multi-dimensional mappings or arrays." []
      | _ =>
          warning (Some (Node.location _assignment))
            "Assertion checker does not yet implement this expression." []
      end
  | _ => throw BadCast
  end.

Definition endVisit_Assignment (_assignment : Node.t)
  (assignmentOperator : Token.t) (leftHandSide rightHandSide : Expression)
  : M unit :=
  match assignmentOperator with
  | Token.Assign =>
      if negb (isSupportedType (category (Node.type _assignment))) then
        warning (Some (Node.location _assignment))
          ("Assertion checker does not yet implement type " +:+
             toString (Node.type _assignment)) []
      else
        match leftHandSide with
        | Identifier _ _ referencedDeclaration =>
            match referencedDeclaration with
            | VariableRef decl =>
                k <- knownVariable decl ;;
                solAssert k ;;
                assignment_expr decl rightHandSide (Node.location _assignment) ;;
                r <- expr rightHandSide ;;
                defineExpr _assignment r
            | _ => throw BadCast
            end
        | IndexAccess _ _ _ =>
            arrayIndexAssignment _assignment leftHandSide rightHandSide ;;
            r <- expr rightHandSide ;;
            defineExpr _assignment r
        | _ =>
            warning (Some (Node.location _assignment))
              "Assertion checker does not yet implement such assignments." []
        end
  | _ =>
      warning (Some (Node.location _assignment))
        "Assertion checker does not yet implement compound assignment." []
  end.

Definition endVisit_TupleExpression (_tuple : Node.t) (isInlineArray : bool)
  (components : list (option Expression)) : M unit :=
  let unsupported :=
    warning (Some (Node.location _tuple))
      "Assertion checker does not yet implement tuples and inline arrays." [] in
  if isInlineArray || negb (Nat.eqb (length components) 1) then unsupported
  else
    match components with
    | Some component :: _ =>
        if negb (isSupportedType (category (Node.type component))) then unsupported
        else
          e <- expr component ;;
          defineExpr _tuple e
    | _ => throw NullPointer
    end.

Definition endVisit_IndexAccess (_indexAccess : Node.t)
  (baseExpression : Expression) (indexExpression : option Expression) : M unit :=
  let define (array : SymbolicVariable.t) : M unit :=
    match indexExpression with
    | None => throw NullPointer
    | Some indexExpression =>
        i <- expr indexExpression ;;
        defineExpr _indexAccess
          (smt.select (SymbolicVariable.currentValue array) i) ;;
        e <- expr _indexAccess ;;
        setSymbolicUnknownValue e (Node.type _indexAccess) ;;
        modify (set_uninterpretedTerms (<[Node.id _indexAccess := _indexAccess]>))
    end in
  match baseExpression with
  | Identifier _ _ referencedDeclaration =>
      match referencedDeclaration with
      | VariableRef varDecl =>
          k <- knownVariable varDecl ;;
          solAssert k ;;
          array <- variableAt varDecl ;;
          define array
      | _ => throw BadCast
      end
  | IndexAccess innerAccess _ _ =>
      k <- knownExpr innerAccess ;;
      solAssert k ;;
      array <- expressionAt innerAccess ;;
      define array
  | _ =>
      warning (Some (Node.location _indexAccess))
        "Assertion checker does not yet implement this expression." []
  end.

Definition visit_MemberAccess (_memberAccess : Node.t) (expression : Expression)
  (memberName : string) : M bool :=
  if isFunction (category (Node.type _memberAccess)) then ret true
  else
    match category (Node.type expression) with
    | Category.Magic =>
        accessedName <-
          match expression with
          | Identifier _ name _ => ret name
          | _ =>
              warning (Some (Node.location _memberAccess))
                "Assertion checker does not yet support this expression." [] ;;
              ret ""
          end ;;
        defineGlobalVariable (accessedName +:+ "." +:+ memberName)
          _memberAccess false ;;
        ret false
    | _ =>
        warning (Some (Node.location _memberAccess))
          "Assertion checker does not yet support this expression." [] ;;
        ret true
    end.

(** *** Function calls *)

Definition visitAssert (_funCall : Node.t) (arguments : list Expression) : M unit :=
  match arguments with
  | [arg] =>
      solAssert (isBool (category (Node.type arg))) ;;
      e <- expr arg ;;
      checkCondition (smt.Not e) (Node.location _funCall)
        "Assertion violation" "" None ;;
      e' <- expr arg ;;
      addPathImpliedExpression e'
  | _ => throw InternalCompilerError
  end.

Definition visitRequire (_funCall : Node.t) (arguments : list Expression) : M unit :=
  match arguments with
  | [arg] =>
      solAssert (isBool (category (Node.type arg))) ;;
      root <- isRootFunction ;;
      when root (checkBooleanNotConstant arg "Condition is always $VALUE.") ;;
      e <- expr arg ;;
      addPathImpliedExpression e
  | _ => throw InternalCompilerError
  end.

Definition visitGasLeft (_funCall : Node.t) : M unit :=
  let gasLeft := "gasleft()" in
  (* We increase the variable index since gasleft changes inside a tx. *)
  defineGlobalVariable gasLeft _funCall true ;;
  symbolicVar <- globalAt gasLeft ;;
  let index := SymbolicVariable.index symbolicVar in
  (* We set the current value to unknown anyway to add type constraints. *)
  setUnknownValue_var symbolicVar ;;
  when (Nat.ltb 0 index)
    (interface
       (smt.addAssertion
          (smt.Le (SymbolicVariable.currentValue symbolicVar)
             (SymbolicVariable.valueAtIndex symbolicVar (index - 1))))).

Definition abstractFunctionCall (_funCall : Node.t) (expression : Expression)
  (arguments : list Expression) : M unit :=
  smtArguments <- mapM (fun arg : Expression => expr arg) arguments ;;
  f <- expressionAt expression ;;
  defineExpr _funCall (SymbolicVariable.apply f smtArguments) ;;
  modify (set_uninterpretedTerms (<[Node.id _funCall := _funCall]>)) ;;
  e <- expr _funCall ;;
  setSymbolicUnknownValue e (Node.type _funCall).

Definition initializeFunctionCallParameters (_function : FunctionDefinition)
  (_callArgs : list smt.Expression) : M unit :=
  let funParams := FunctionDefinition_.parameters _function in
  solAssert (Nat.eqb (length funParams) (length _callArgs)) ;;
  forEach (zip funParams _callArgs)
    (fun pa =>
       created <- createVariable (fst pa) ;;
       when created
         (v <- newValue (fst pa) ;;
          interface (smt.addAssertion (smt.Eq (snd pa) v)) ;;
          when (isMapping (category (VariableDeclaration.type (fst pa))))
            (modify (set_arrayAssignmentHappened true)))) ;;
  forEach (FunctionDefinition_.localVariables _function)
    (fun variable =>
       created <- createVariable variable ;;
       when created (newValue variable ;; setZeroValue variable)) ;;
  forEach (FunctionDefinition_.returnParameters _function)
    (fun retParam =>
       created <- createVariable retParam ;;
       when created (newValue retParam ;; setZeroValue retParam)).

Definition initializeLocalVariables (_function : FunctionDefinition) : M unit :=
  forEach (FunctionDefinition_.localVariables _function)
    (fun variable =>
       created <- createVariable variable ;;
       when created (setZeroValue variable)) ;;
  forEach (FunctionDefinition_.parameters _function)
    (fun param =>
       created <- createVariable param ;;
       when created (setUnknownValue param)) ;;
  forEach (FunctionDefinition_.returnParameters _function)
    (fun retParam =>
       created <- createVariable retParam ;;
       when created (setZeroValue retParam)).

(** The part of [inlineFunctionCall] that follows the search for the
    definition. *)
Definition inlineFunctionDefinition (acceptFunction : M unit)
  (_funCall : Node.t) (_calledExpr : Expression) (_funDef : FunctionDefinition)
  (arguments : list Expression) : M unit :=
  visited <- visitedFunction _funDef ;;
  if visited then
    warning (Some (Node.location _funCall))
      "Assertion checker does not support recursive function calls."
      ["Starting from function:"]
  else if FunctionDefinition_.isImplemented _funDef then
    solAssert (isFunction (category (Node.type _calledExpr))) ;;
    boundArgs <-
      (if bound (Node.type _calledExpr) then
         match _calledExpr with
         | MemberAccess _ expression _ _ =>
             e <- expr expression ;;
             ret [e]
         | _ => throw InternalCompilerError
         end
       else ret []) ;;
    args <- mapM (fun arg : Expression => expr arg) arguments ;;
    initializeFunctionCallParameters _funDef (boundArgs ++ args) ;;
    acceptFunction ;;
    let returnParams := FunctionDefinition_.returnParameters _funDef in
    match returnParams with
    | [] => ret tt
    | [returnParam] =>
        v <- currentValue returnParam ;;
        defineExpr _funCall v
    | _ =>
        warning (Some (Node.location _funCall))
          "Assertion checker does not yet support calls to functions that return more than one value." []
    end
  else
    warning (Some (Node.location _funCall))
      "Assertion checker does not support calls to functions without implementation." [].

Definition inlineFunctionCall (accept : FunctionDefinition -> M unit)
  (_funCall : Node.t) (expression : Expression) (arguments : list Expression)
  : M unit :=
  let unsupported :=
    warning (Some (Node.location _funCall))
      "Assertion checker does not yet implement this type of function call." [] in
  let withDeclaration (_calledExpr : Expression) (d : Declaration) : M unit :=
    match d with
    | FunctionRef _funDef =>
        inlineFunctionDefinition (accept _funDef) _funCall _calledExpr _funDef
          arguments
    | _ => throw InternalCompilerError
    end in
  let called (_calledExpr : Expression) : M unit :=
    match _calledExpr with
    | Identifier _ _ referencedDeclaration =>
        withDeclaration _calledExpr referencedDeclaration
    | MemberAccess _ _ _ referencedDeclaration =>
        withDeclaration _calledExpr referencedDeclaration
    | _ => unsupported
    end in
  match expression with
  | TupleExpression _ _ components =>
      match components with
      | [Some component] => called component
      | [None] => unsupported
      | _ => throw InternalCompilerError
      end
  | _ => called expression
  end.

Definition endVisit_FunctionCall (accept : FunctionDefinition -> M unit)
  (_funCall : Node.t) (callKind : FunctionCallKind.t) (expression : Expression)
  (arguments : list Expression) : M unit :=
  match callKind with
  | FunctionCallKind.Unset => throw InternalCompilerError
  | FunctionCallKind.FunctionCall =>
      let funType := Node.type expression in
      if negb (isFunction (category funType)) then throw BadCast
      else
        match kind funType with
        | Kind.Assert => visitAssert _funCall arguments
        | Kind.Require => visitRequire _funCall arguments
        | Kind.GasLeft => visitGasLeft _funCall
        | Kind.Internal => inlineFunctionCall accept _funCall expression arguments
        | Kind.KECCAK256 | Kind.ECRecover | Kind.SHA256 | Kind.RIPEMD160
        | Kind.BlockHash | Kind.AddMod | Kind.MulMod =>
            abstractFunctionCall _funCall expression arguments
        | _ =>
            warning (Some (Node.location _funCall))
              "Assertion checker does not yet implement this type of function call." []
        end
  | _ =>
      warning (Some (Node.location _funCall))
        "Assertion checker does not yet implement this expression." []
  end.

(** *** Hooks of the statements and declarations *)

Definition endVisit_VariableDeclaration (_varDecl : VariableDeclaration.t)
  (value : option Expression) : M unit :=
  match value with
  | Some value =>
      when (VariableDeclaration.isLocalVariable _varDecl &&
            isValueType (VariableDeclaration.type _varDecl))
        (assignment_expr _varDecl value (VariableDeclaration.location _varDecl))
  | None => ret tt
  end.

Definition endVisit_VariableDeclarationStatement (location : SourceLocation)
  (declarations : list (option VariableDeclarationNode))
  (initialValue : option Expression) : M unit :=
  if negb (Nat.eqb (length declarations) 1) then
    warning (Some location)
      "Assertion checker does not yet support such variable declarations." []
  else
    match declarations with
    | Some declaration :: _ =>
        k <- knownVariable (declOf declaration) ;;
        if k then
          match initialValue with
          | Some initialValue =>
              assignment_expr (declOf declaration) initialValue location
          | None => ret tt
          end
        else
          warning (Some location)
            "Assertion checker does not yet implement such variable declarations." []
    | _ => throw NullPointer
    end.

(** [_return.expression()] is a null pointer for [return;].  The source
    passes [*_return.expression()] to [knownExpr], which only takes the
    address of its argument to look it up in [m_expressions]: no node has
    the null address, so the lookup finds nothing and the statement does
    nothing. *)
Definition endVisit_Return (location : SourceLocation)
  (expression : option Expression) : M unit :=
  k <- match expression with
       | Some e => knownExpr e
       | None => ret false
       end ;;
  match expression with
  | Some e =>
      when k
        (path <- gets m_functionPath ;;
         match List.last (Some <$> path) None with
         | None => throw NullPointer
         | Some function =>
             match FunctionDefinition_.returnParameters function with
             | [] => ret tt
             | [returnParam] =>
                 r <- expr e ;;
                 v <- newValue returnParam ;;
                 interface (smt.addAssertion (smt.Eq r v))
             | _ =>
                 warning (Some location)
                   "Assertion checker does not yet support more than one return value." []
             end
         end)
  | None => ret tt
  end.

Definition visit_IfStatement
  (acceptExpression : Expression -> M unit) (acceptStatement : Statement -> M unit)
  (condition : Expression) (trueStatement : Statement)
  (falseStatement : option Statement) : M bool :=
  acceptExpression condition ;;

  (* We ignore called functions here because they have
     specific input values. *)
  root <- isRootFunction ;;
  when root (checkBooleanNotConstant condition "Condition is always $VALUE.") ;;

  c <- expr condition ;;
  indicesEndTrue <- visitBranch acceptStatement trueStatement (Some c) ;;
  let touched := touchedVariables (StatementNode trueStatement) in
  r <-
    match falseStatement with
    | Some falseStatement =>
        c <- expr condition ;;
        indicesEndFalse <-
          visitBranch acceptStatement falseStatement (Some (smt.Not c)) ;;
        ret (indicesEndFalse,
             touched ++ touchedVariables (StatementNode falseStatement))
    | None =>
        indicesEndFalse <- copyVariableIndices ;;
        ret (indicesEndFalse, touched)
    end ;;

  c <- expr condition ;;
  mergeVariables (snd r) c indicesEndTrue (fst r) ;;

  ret false.

(** Here we consider the execution of two branches:
    Branch 1 assumes the loop condition to be true and executes the loop once,
    after resetting touched variables.
    Branch 2 assumes the loop condition to be false and skips the loop after
    visiting the condition (it might contain side-effects, they need to be
    considered) and does not erase knowledge.
    If the loop is a do-while, condition side-effects are lost since the body,
    executed once before the condition, might reassign variables.
    Variables touched by the loop are merged with Branch 2. *)
Definition visit_WhileStatement
  (acceptExpression : Expression -> M unit) (acceptStatement : Statement -> M unit)
  (_node : Statement) (condition : Expression) (body : Statement)
  (isDoWhile : bool) : M bool :=
  indicesBeforeLoop <- copyVariableIndices ;;
  let touched := touchedVariables (StatementNode _node) in
  resetVariables touched ;;
  indicesAfterLoop <-
    (if isDoWhile then
       indicesAfterLoop <- visitBranch acceptStatement body None ;;
       (* TODO the assertions generated in the body should still be active
          in the condition *)
       acceptExpression condition ;;
       root <- isRootFunction ;;
       when root
         (checkBooleanNotConstant condition
            "Do-while loop condition is always $VALUE.") ;;
       ret indicesAfterLoop
     else
       acceptExpression condition ;;
       root <- isRootFunction ;;
       when root
         (checkBooleanNotConstant condition
            "While loop condition is always $VALUE.") ;;
       c <- expr condition ;;
       visitBranch acceptStatement body (Some c)) ;;

  (* We reset the execution to before the loop
     and visit the condition in case it's not a do-while.
     A do-while's body might have non-precise information
     in its first run about variables that are touched. *)
  resetVariableIndices indicesBeforeLoop ;;
  when (negb isDoWhile) (acceptExpression condition) ;;

  c <- expr condition ;;
  indicesNow <- copyVariableIndices ;;
  mergeVariables touched c indicesAfterLoop indicesNow ;;

  modify (set_loopExecutionHappened true) ;;
  ret false.

(** [std::sort] followed by [std::unique] and [erase], on pointers. *)
Definition sortUnique (l : list nat) : list nat :=
  elements (list_to_set l : gset nat).

(** Here we consider the execution of two branches similar to
    WhileStatement. *)
Definition visit_ForStatement
  (acceptExpression : Expression -> M unit) (acceptStatement : Statement -> M unit)
  (initializationExpression : option Statement) (condition : option Expression)
  (loopExpression : option Statement) (body : Statement) : M bool :=
  match initializationExpression with
  | Some init => acceptStatement init
  | None => ret tt
  end ;;

  indicesBeforeLoop <- copyVariableIndices ;;

  (* Do not reset the init expression part. *)
  let touched :=
    sortUnique
      (touchedVariables (StatementNode body) ++
       match condition with
       | Some c => touchedVariables (ExpressionNode c)
       | None => []
       end ++
       match loopExpression with
       | Some l => touchedVariables (StatementNode l)
       | None => []
       end) in

  resetVariables touched ;;

  match condition with
  | Some c =>
      acceptExpression c ;;
      root <- isRootFunction ;;
      when root
        (checkBooleanNotConstant c "For loop condition is always $VALUE.")
  | None => ret tt
  end ;;

  interface smt.push ;;
  match condition with
  | Some c =>
      e <- expr c ;;
      interface (smt.addAssertion e)
  | None => ret tt
  end ;;
  acceptStatement body ;;
  match loopExpression with
  | Some l => acceptStatement l
  | None => ret tt
  end ;;
  interface smt.pop ;;

  indicesAfterLoop <- copyVariableIndices ;;
  (* We reset the execution to before the loop
     and visit the condition. *)
  resetVariableIndices indicesBeforeLoop ;;
  match condition with
  | Some c => acceptExpression c
  | None => ret tt
  end ;;

  forCondition <-
    match condition with
    | Some c => expr c
    | None => ret (smt.BoolLit true)
    end ;;
  indicesNow <- copyVariableIndices ;;
  mergeVariables touched forCondition indicesAfterLoop indicesNow ;;

  modify (set_loopExecutionHappened true) ;;
  ret false.

Definition visit_FunctionDefinition (_function : FunctionDefinition) : M bool :=
  when (negb (Nat.eqb (length (FunctionDefinition_.modifiers _function)) 0) ||
        FunctionDefinition_.isConstructor _function)
    (warning (Some (FunctionDefinition_.location _function))
       "Assertion checker does not yet support constructors and functions with modifiers." []) ;;
  modify (set_functionPath (fun p => p ++ [_function])) ;;
  (* Not visited by a function call *)
  root <- isRootFunction ;;
  when root
    (interface smt.reset ;;
     modify (set_pathConditions (fun _ => [])) ;;
     modify (set_expressions (fun _ => ∅)) ;;
     modify (set_globalContext (fun _ => ∅)) ;;
     modify (set_uninterpretedTerms (fun _ => ∅)) ;;
     resetStateVariables ;;
     initializeLocalVariables _function ;;
     modify (set_loopExecutionHappened false) ;;
     modify (set_arrayAssignmentHappened false)) ;;
  ret true.

Definition endVisit_FunctionDefinition : M unit :=
  (* If _function was visited from a function call we don't remove
     the local variables just yet, since we might need them for
     future calls.
     Otherwise we remove any local variables from the context and
     keep the state variables. *)
  root <- isRootFunction ;;
  when root removeLocalVariables ;;
  modify (set_functionPath (@removelast _)).

(** *** The traversal

    The [accept] functions of the syntax tree are declared outside this
    file: a node calls its [visit] hook, accepts its children in source
    order when the hook returned [true] (the default hook does), and
    calls its [endVisit] hook. *)

Definition acceptOption {A} (accept : A -> M unit) (o : option A) : M unit :=
  match o with
  | Some x => accept x
  | None => ret tt
  end.

Definition listAccept {A} (l : list A) (accept : A -> M unit) : M unit :=
  forEach l accept.

Fixpoint accept_Expression (e : Expression) : M unit :=
  match e with
  | Literal n token literalValue =>
      endVisit_Literal n token literalValue
  | Identifier n name referencedDeclaration =>
      endVisit_Identifier n name referencedDeclaration
  | UnaryOperation n op isPrefixOperation subExpression =>
      accept_Expression subExpression ;;
      endVisit_UnaryOperation n op isPrefixOperation subExpression
  | BinaryOperation n op commonType leftExpression rightExpression =>
      accept_Expression leftExpression ;;
      accept_Expression rightExpression ;;
      endVisit_BinaryOperation n op commonType leftExpression rightExpression
  | Assignment n assignmentOperator leftHandSide rightHandSide =>
      accept_Expression leftHandSide ;;
      accept_Expression rightHandSide ;;
      endVisit_Assignment n assignmentOperator leftHandSide rightHandSide
  | TupleExpression n isInlineArray components =>
      listAccept components (acceptOption accept_Expression) ;;
      endVisit_TupleExpression n isInlineArray components
  | FunctionCall n callKind expression arguments =>
      accept_Expression expression ;;
      listAccept arguments accept_Expression ;;
      endVisit_FunctionCall accept_FunctionDefinition n callKind expression arguments
  | MemberAccess n expression memberName _ =>
      descend <- visit_MemberAccess n expression memberName ;;
      when descend (accept_Expression expression)
  | IndexAccess n baseExpression indexExpression =>
      accept_Expression baseExpression ;;
      acceptOption accept_Expression indexExpression ;;
      endVisit_IndexAccess n baseExpression indexExpression
  | OtherExpression _ children =>
      listAccept children accept_Expression
  end

with accept_Statement (s : Statement) : M unit :=
  match s with
  | Block statements =>
      listAccept statements accept_Statement
  | ExpressionStatement expression =>
      accept_Expression expression
  | IfStatement condition trueStatement falseStatement =>
      descend <-
        visit_IfStatement accept_Expression accept_Statement
          condition trueStatement falseStatement ;;
      when descend
        (accept_Expression condition ;;
         accept_Statement trueStatement ;;
         acceptOption accept_Statement falseStatement)
  | WhileStatement condition body isDoWhile =>
      descend <-
        visit_WhileStatement accept_Expression accept_Statement
          s condition body isDoWhile ;;
      when descend
        (accept_Expression condition ;;
         accept_Statement body)
  | ForStatement initializationExpression condition loopExpression body =>
      descend <-
        visit_ForStatement accept_Expression accept_Statement
          initializationExpression condition loopExpression body ;;
      when descend
        (acceptOption accept_Statement initializationExpression ;;
         acceptOption accept_Expression condition ;;
         acceptOption accept_Statement loopExpression ;;
         accept_Statement body)
  | VariableDeclarationStatement location declarations initialValue =>
      listAccept declarations (acceptOption accept_VariableDeclaration) ;;
      acceptOption accept_Expression initialValue ;;
      endVisit_VariableDeclarationStatement location declarations initialValue
  | Return location expression =>
      acceptOption accept_Expression expression ;;
      endVisit_Return location expression
  | OtherStatement children =>
      listAccept children accept_Expression
  end

with accept_VariableDeclaration (v : VariableDeclarationNode) : M unit :=
  match v with
  | mkVariableDeclarationNode decl value =>
      acceptOption accept_Expression value ;;
      endVisit_VariableDeclaration decl value
  end

with accept_FunctionDefinition (f : FunctionDefinition) : M unit :=
  match f with
  | mkFunctionDefinition _ _ _ parameters returnParameters modifiers _ body =>
      descend <- visit_FunctionDefinition f ;;
      when descend
        (listAccept parameters accept_VariableDeclaration ;;
         listAccept returnParameters accept_VariableDeclaration ;;
         listAccept modifiers accept_ModifierInvocation ;;
         acceptOption accept_Statement body) ;;
      endVisit_FunctionDefinition
  end

with accept_ModifierInvocation (m : ModifierInvocation) : M unit :=
  match m with
  | mkModifierInvocation name arguments =>
      accept_Expression name ;;
      listAccept arguments accept_Expression
  end.

End Checker.

(** * Specification vocabulary *)

(** ** Balanced stretches of solver calls

    [balance d l] follows the calls of [l] from [d] scopes opened: it is
    defined when no [pop] closes a scope that [l] did not open on top of
    [d - d], no [check] is made with no scope open, and there is no [reset];
    it gives the number of scopes open at the end. *)
Fixpoint balance (d : nat) (l : list smt.Call) : option nat :=
  match l with
  | [] => Some d
  | smt.push :: l' => balance (S d) l'
  | smt.pop :: l' =>
      match d with
      | O => None
      | S d' => balance d' l'
      end
  | smt.check _ :: l' =>
      match d with
      | O => None
      | S _ => balance d l'
      end
  | smt.addAssertion _ :: l' => balance d l'
  | smt.reset :: _ => None
  end.

Definition balanced (l : list smt.Call) : Prop := balance 0 l = Some 0.

(** ** Well-formed SSA counters *)

Definition wf_variable (v : SymbolicVariable.t) : Prop :=
  SymbolicVariable.index v < SymbolicVariable.nextFreeIndex v.

Definition wf (c : SMTChecker) : Prop :=
  map_Forall (fun _ p => wf_variable (snd p)) (m_variables c).

(** The variables of [c] are variables of [c'], with the same declaration
    and name, and no index handed out in [c] is free in [c']. *)
Definition vars_le (c c' : SMTChecker) : Prop :=
  forall k p, m_variables c !! k = Some p ->
    exists p', m_variables c' !! k = Some p' /\
      fst p' = fst p /\
      SymbolicVariable.uniqueName (snd p') = SymbolicVariable.uniqueName (snd p) /\
      SymbolicVariable.type (snd p') = SymbolicVariable.type (snd p) /\
      SymbolicVariable.nextFreeIndex (snd p) <= SymbolicVariable.nextFreeIndex (snd p').

(** A snapshot of indices that [c] can take back. *)
Definition snapshot_of (i : VariableIndices) (c : SMTChecker) : Prop :=
  forall k n, i !! k = Some n ->
    exists p, m_variables c !! k = Some p /\
      n < SymbolicVariable.nextFreeIndex (snd p).

(** The expression variables that are not shared, outside the nodes of [X],
    stay as they are. *)
Definition own_frame (X : gset nat) (c c' : SMTChecker) : Prop :=
  forall i v, i ∉ X ->
    m_expressions c !! i = Some (Own v) -> m_expressions c' !! i = Some (Own v).

(** What a step of the traversal inside a function keeps. *)
Record Step (d d' : nat) (X : gset nat) (c c' : SMTChecker) : Prop := mkStep {
  step_path : m_functionPath c' = m_functionPath c;
  step_conds : m_pathConditions c' = m_pathConditions c;
  step_log : exists ext, m_interface c' = m_interface c ++ ext /\
                         balance d ext = Some d';
  step_vars : vars_le c c';
  step_wf : wf c -> wf c';
  step_own : own_frame X c c'
}.

Definition Steps {A} (m : M A) (d d' : nat) (X : gset nat) : Prop :=
  forall c a c', m_functionPath c <> [] -> m c = Ok a c' -> Step d d' X c c'.

(** ** The expression nodes of a subtree, the definitions referred to
    included *)
Fixpoint ids_Expression (e : Expression) : gset nat :=
  match e with
  | Literal n _ _ => {[Node.id n]}
  | Identifier n _ r => {[Node.id n]} ∪ ids_Declaration r
  | UnaryOperation n _ _ s => {[Node.id n]} ∪ ids_Expression s
  | BinaryOperation n _ _ l r => {[Node.id n]} ∪ (ids_Expression l ∪ ids_Expression r)
  | Assignment n _ l r => {[Node.id n]} ∪ (ids_Expression l ∪ ids_Expression r)
  | TupleExpression n _ cs =>
      {[Node.id n]} ∪ ⋃ (from_option ids_Expression ∅ <$> cs)
  | FunctionCall n _ f args =>
      {[Node.id n]} ∪ (ids_Expression f ∪ ⋃ (ids_Expression <$> args))
  | MemberAccess n e _ r => {[Node.id n]} ∪ (ids_Expression e ∪ ids_Declaration r)
  | IndexAccess n b i =>
      {[Node.id n]} ∪ (ids_Expression b ∪ from_option ids_Expression ∅ i)
  | OtherExpression n cs => {[Node.id n]} ∪ ⋃ (ids_Expression <$> cs)
  end

with ids_Declaration (d : Declaration) : gset nat :=
  match d with
  | FunctionRef f => ids_FunctionDefinition f
  | _ => ∅
  end

with ids_Statement (s : Statement) : gset nat :=
  match s with
  | Block ss => ⋃ (ids_Statement <$> ss)
  | ExpressionStatement e => ids_Expression e
  | IfStatement c t f =>
      ids_Expression c ∪ (ids_Statement t ∪ from_option ids_Statement ∅ f)
  | WhileStatement c b _ => ids_Expression c ∪ ids_Statement b
  | ForStatement i c l b =>
      from_option ids_Statement ∅ i ∪
      (from_option ids_Expression ∅ c ∪
       (from_option ids_Statement ∅ l ∪ ids_Statement b))
  | VariableDeclarationStatement _ ds v =>
      ⋃ (from_option ids_VariableDeclaration ∅ <$> ds) ∪
      from_option ids_Expression ∅ v
  | Return _ e => from_option ids_Expression ∅ e
  | OtherStatement cs => ⋃ (ids_Expression <$> cs)
  end

with ids_VariableDeclaration (v : VariableDeclarationNode) : gset nat :=
  match v with
  | mkVariableDeclarationNode _ value => from_option ids_Expression ∅ value
  end

with ids_FunctionDefinition (f : FunctionDefinition) : gset nat :=
  match f with
  | mkFunctionDefinition _ _ _ ps rs ms _ b =>
      ⋃ (ids_VariableDeclaration <$> ps) ∪
      (⋃ (ids_VariableDeclaration <$> rs) ∪
       (⋃ (ids_ModifierInvocation <$> ms) ∪ from_option ids_Statement ∅ b))
  end

with ids_ModifierInvocation (m : ModifierInvocation) : gset nat :=
  match m with
  | mkModifierInvocation name args =>
      ids_Expression name ∪ ⋃ (ids_Expression <$> args)
  end.

(** ** A usage analyzer

    Modelled from the spec: [VariableUsage::touchedVariables] is declared
    outside SMTChecker.cpp.  Section 4.3: every variable declaration that is
    assigned, incremented or decremented, or is the base of an index write
    anywhere inside the subtree; duplicates allowed, in the order of the
    tree.  The theorems hold for any analyzer; this one runs the examples. *)

Definition writtenVariable (lhs : Expression) : list nat :=
  match lhs with
  | Identifier _ _ (VariableRef d) => [VariableDeclaration.id d]
  | IndexAccess _ (Identifier _ _ (VariableRef d)) _ => [VariableDeclaration.id d]
  | _ => []
  end.

Fixpoint touched_Expression (e : Expression) : list nat :=
  match e with
  | Literal _ _ _ => []
  | Identifier _ _ _ => []
  | UnaryOperation _ op _ s =>
      match op with
      | Token.Inc | Token.Dec => writtenVariable s
      | _ => []
      end ++ touched_Expression s
  | BinaryOperation _ _ _ l r => touched_Expression l ++ touched_Expression r
  | Assignment _ _ l r =>
      writtenVariable l ++ touched_Expression l ++ touched_Expression r
  | TupleExpression _ _ cs =>
      concat (from_option touched_Expression [] <$> cs)
  | FunctionCall _ _ f args =>
      touched_Expression f ++ concat (touched_Expression <$> args)
  | MemberAccess _ e _ _ => touched_Expression e
  | IndexAccess _ b i => touched_Expression b ++ from_option touched_Expression [] i
  | OtherExpression _ cs => concat (touched_Expression <$> cs)
  end.

Fixpoint touched_Statement (s : Statement) : list nat :=
  match s with
  | Block ss => concat (touched_Statement <$> ss)
  | ExpressionStatement e => touched_Expression e
  | IfStatement c t f =>
      touched_Expression c ++ touched_Statement t ++
      from_option touched_Statement [] f
  | WhileStatement c b _ => touched_Expression c ++ touched_Statement b
  | ForStatement i c l b =>
      from_option touched_Statement [] i ++ from_option touched_Expression [] c ++
      from_option touched_Statement [] l ++ touched_Statement b
  | VariableDeclarationStatement _ ds v =>
      match ds, v with
      | [Some (mkVariableDeclarationNode d _)], Some _ => [VariableDeclaration.id d]
      | _, _ => []
      end ++ from_option touched_Expression [] v
  | Return _ e => from_option touched_Expression [] e
  | OtherStatement cs => concat (touched_Expression <$> cs)
  end.

Definition touchedVariables (n : ASTNode) : list nat :=
  match n with
  | StatementNode s => touched_Statement s
  | ExpressionNode e => touched_Expression e
  end.

(** ** Sample programs and solvers *)

Module Sample.

Definition uint256 : TypePointer := IntegerType 256 false.
Definition int8 : TypePointer := IntegerType 8 true.

Definition boolType : TypePointer :=
  {| category := Category.Bool; isValueType := true; toString := "bool";
     isSigned := false; numBits := 0; kind := Kind.Other; bound := false;
     returnParameterTypes := 0; richIdentifier := "" |}.

Definition literalType : TypePointer :=
  {| category := Category.RationalNumber; isValueType := false;
     toString := "int_const"; isSigned := false; numBits := 0;
     kind := Kind.Other; bound := false; returnParameterTypes := 0;
     richIdentifier := "" |}.

Definition functionType (k : Kind.t) (identifier : string) : TypePointer :=
  {| category := Category.Function; isValueType := true;
     toString := "function"; isSigned := false; numBits := 0;
     kind := k; bound := false; returnParameterTypes := 0;
     richIdentifier := identifier |}.

Definition at_ (i : nat) (ty : TypePointer) : Node.t := Node.mk i i ty false.
Definition lvalue (i : nat) (ty : TypePointer) : Node.t := Node.mk i i ty true.

(** Two parameters [uint x, uint y] and a return parameter [uint r]. *)
Definition x : VariableDeclaration.t :=
  VariableDeclaration.mk 1 1 "x" uint256 true false.
Definition y : VariableDeclaration.t :=
  VariableDeclaration.mk 2 2 "y" uint256 true false.
Definition r : VariableDeclaration.t :=
  VariableDeclaration.mk 3 3 "r" uint256 true false.

Definition read (i : nat) (d : VariableDeclaration.t) : Expression :=
  Identifier (at_ i (VariableDeclaration.type d)) (VariableDeclaration.name d)
    (VariableRef d).
Definition write (i : nat) (d : VariableDeclaration.t) : Expression :=
  Identifier (lvalue i (VariableDeclaration.type d)) (VariableDeclaration.name d)
    (VariableRef d).
Definition number (i : nat) (z : Z) : Expression :=
  Literal (at_ i literalType) Token.Number z.

(** [x > 10], [x++ < 10], [x = 1], [x = 2], [x / y] *)
Definition x_gt_10 : Expression :=
  BinaryOperation (at_ 10 boolType) Token.GreaterThan (Some uint256)
    (read 11 x) (number 12 10).
Definition x_inc_lt_10 : Expression :=
  BinaryOperation (at_ 13 boolType) Token.LessThan (Some uint256)
    (UnaryOperation (at_ 14 uint256) Token.Inc false (write 15 x))
    (number 16 10).
Definition x_is (i : nat) (z : Z) : Statement :=
  ExpressionStatement
    (Assignment (at_ i uint256) Token.Assign (write (i + 1) x) (number (i + 2) z)).
Definition x_div_y : Expression :=
  BinaryOperation (at_ 30 uint256) Token.Div (Some uint256) (read 31 x) (read 32 y).

(** [assert(x > 10)] and [require(x > 10)] *)
Definition call (i : nat) (k : Kind.t) (name : string) (arg : Expression)
  : Expression :=
  FunctionCall (at_ i boolType) FunctionCallKind.FunctionCall
    (Identifier (at_ (i + 1) (functionType k name)) name OtherDeclaration) [arg].
Definition assert_x_gt_10 : Expression := call 40 Kind.Assert "assert" x_gt_10.
Definition require_x_gt_10 : Expression := call 40 Kind.Require "require" x_gt_10.

(** [if (x > 10) x = 1; else x = 2;] *)
Definition if_else : Statement :=
  IfStatement x_gt_10 (x_is 20 1) (Some (x_is 24 2)).

(** [while (x++ < 10) {}] and [do {} while (x++ < 10);] *)
Definition while_inc : Statement := WhileStatement x_inc_lt_10 (Block []) false.
Definition do_while_inc : Statement := WhileStatement x_inc_lt_10 (Block []) true.

(** [for (;;) { x / y; }] followed by [assert(x > 10)] *)
Definition for_div_then_assert : Statement :=
  Block [ForStatement None None None (ExpressionStatement x_div_y);
         ExpressionStatement assert_x_gt_10].

Definition function (body : Statement) (returns : list VariableDeclaration.t)
  : FunctionDefinition :=
  mkFunctionDefinition 100 100 false
    [mkVariableDeclarationNode x None; mkVariableDeclarationNode y None]
    ((fun d => mkVariableDeclarationNode d None) <$> returns)
    [] [] (Some body).

(** A checker before any function is visited. *)
Definition fresh : SMTChecker :=
  mkSMTChecker [] false false ∅ ∅ ∅ ∅ [] [] (Some (fun _ => "")) [].

(** A checker inside a function with the parameters [x] and [y] at index 0. *)
Definition inside (f : FunctionDefinition) : SMTChecker :=
  mkSMTChecker [smt.reset] false false
    {[ 1 := (x, SymbolicVariable.create uint256 "x_1");
       2 := (y, SymbolicVariable.create uint256 "y_2");
       3 := (r, SymbolicVariable.create uint256 "r_3") ]}
    ∅ ∅ ∅ [] [] (Some (fun _ => "")) [f].

(** Solvers: one answer to every query, and an answer by the number of
    queries made before. *)
Definition always (r : smt.CheckResult) : list smt.Call -> smt.Answer :=
  fun _ => smt.Result r [].

(** A solver that finds every query satisfiable, with the given values. *)
Definition satisfiable (values : list string) : list smt.Call -> smt.Answer :=
  fun _ => smt.Result smt.SATISFIABLE values.

Definition isCheck (c : smt.Call) : bool :=
  match c with smt.check _ => true | _ => false end.

Definition first_then (r1 r2 : smt.CheckResult) : list smt.Call -> smt.Answer :=
  fun log =>
    if Nat.leb (length (List.filter isCheck log)) 1
    then smt.Result r1 [] else smt.Result r2 [].

(** The checker that a computation leaves behind. *)
Definition after {A} (m : M A) (c : SMTChecker) : SMTChecker :=
  match m c with Ok _ c' => c' | Throw _ => c end.

Definition formatNumberReadable (z : Z) : string := Z_to_string z.
Definition bigint (s : string) : option Z := None.

(** Inside a function with the given return parameters, after the literal
    [1] of a return statement is visited. *)
Definition returning (returns : list VariableDeclaration.t) : SMTChecker :=
  after
    (accept_Expression (always smt.UNSATISFIABLE) (fun _ => [])
       formatNumberReadable bigint (number 50 1))
    (inside (function (Block []) returns)).

(** Inside a function, after the condition [x > 10] is visited. *)
Definition conditioned : SMTChecker :=
  after
    (accept_Expression (always smt.UNSATISFIABLE) (fun _ => [])
       formatNumberReadable bigint x_gt_10)
    (inside (function (Block []) [])).

(** Inside a function, after the operands of [x / y] are visited. *)
Definition operands : SMTChecker :=
  after
    (accept_Expression (always smt.UNSATISFIABLE) (fun _ => [])
       formatNumberReadable bigint (read 31 x) ;;
     accept_Expression (always smt.UNSATISFIABLE) (fun _ => [])
       formatNumberReadable bigint (read 32 y))
    (inside (function (Block []) [])).


End Sample.

(** ** Vocabulary of the statements *)

(** [m] leaves the member [f] of the checker as it is. *)
Definition Keeps {T A} (f : SMTChecker -> T) (m : M A) : Prop :=
  forall c a c', m c = Ok a c' -> f c' = f c.

(** [m] only adds warnings. *)
Definition Warns {A} (m : M A) : Prop :=
  forall c a c', m c = Ok a c' ->
    exists ws, m_errorReporter c' = m_errorReporter c ++ ws.

(** The result that [checkSatisfiableAndGenerateModel] reads from an answer
    of the solver: a thrown [SolverError] counts as [ERROR]. *)
Definition resultOf (a : smt.Answer) : smt.CheckResult :=
  match a with
  | smt.Result r _ => r
  | smt.SolverError _ => smt.ERROR
  end.

(** The warning [checkSatisfiableAndGenerateModel] gives when the solver
    throws. *)
Definition solverErrorWarnings (a : smt.Answer) : list Warning :=
  match a with
  | smt.Result _ _ => []
  | smt.SolverError comment =>
      [mkWarning None
         ("Error querying SMT solver" +:+
            match comment with Some c => ": " +:+ c | None => "" end) []]
  end.

(** The message of the warning that [checkCondition] gives for a result,
    inside a function. *)
Definition goalMessage (description : string) (r : smt.CheckResult) : option string :=
  match r with
  | smt.SATISFIABLE => Some (description +:+ " happens here")
  | smt.UNSATISFIABLE => None
  | smt.UNKNOWN => Some (description +:+ " might happen here.")
  | smt.CONFLICTING =>
      Some "At least two SMT solvers provided conflicting answers. Results might not be sound."
  | smt.ERROR => Some "Error trying to invoke SMT solver."
  end.

(** The diagnostic of the test for a constant condition, by the results of
    the two queries: an error first, then a conflict, then the table. *)
Definition notConstantDiagnostic (template : string)
  (positive negated : smt.CheckResult) : option string :=
  match positive, negated with
  | smt.ERROR, _ | _, smt.ERROR => Some "Error trying to invoke SMT solver."
  | smt.CONFLICTING, _ | _, smt.CONFLICTING =>
      Some "At least two SMT solvers provided conflicting answers. Results might not be sound."
  | smt.SATISFIABLE, smt.SATISFIABLE => None
  | smt.UNKNOWN, _ | _, smt.UNKNOWN => None
  | smt.UNSATISFIABLE, smt.UNSATISFIABLE => Some "Condition unreachable."
  | smt.SATISFIABLE, smt.UNSATISFIABLE =>
      Some (replace_all_copy template "$VALUE" "true")
  | smt.UNSATISFIABLE, smt.SATISFIABLE =>
      Some (replace_all_copy template "$VALUE" "false")
  end.

(** The calls up to the first and up to the second query of the test for a
    constant condition [e], from the checker [c]. *)
Definition positiveQuery (c : SMTChecker) (e : smt.Expression) : list smt.Call :=
  m_interface c ++
    [smt.push;
     smt.addAssertion (smt.And (List.last (m_pathConditions c) (smt.BoolLit true)) e);
     smt.check []].

Definition negatedQuery (c : SMTChecker) (e : smt.Expression) : list smt.Call :=
  positiveQuery c e ++
    [smt.pop; smt.push;
     smt.addAssertion
       (smt.And (List.last (m_pathConditions c) (smt.BoolLit true)) (smt.Not e));
     smt.check []].

(** What the specification says of a return statement in a function whose
    return parameters are not exactly one: a warning is given. *)
Definition return_warns_unless_one_parameter : Prop :=
  forall location e c c' function,
    List.last (Some <$> m_functionPath c) None = Some function ->
    length (FunctionDefinition_.returnParameters function) <> 1 ->
    endVisit_Return location e c = Ok tt c' ->
    m_errorReporter c' <> m_errorReporter c.

(** What the specification says of an unknown result: no diagnostic is
    given, whatever the other result is. *)
Definition silent_when_unknown : Prop :=
  forall solver formatNumberReadable bigint cond template c c' e c1,
    isLiteral cond = false ->
    checkBooleanNotConstant solver formatNumberReadable bigint cond template c
      = Ok tt c' ->
    expr cond (set_interface (fun log => log ++ [smt.push]) c) = Ok e c1 ->
    resultOf (solver (positiveQuery c e)) = smt.UNKNOWN \/
    resultOf (solver (negatedQuery c e)) = smt.UNKNOWN ->
    m_errorReporter c' = m_errorReporter c1.

(** The calls of the test for a constant condition, when it is made. *)
Definition constantTest (c : SMTChecker) (e : smt.Expression) : list smt.Call :=
  let pc := List.last (m_pathConditions c) (smt.BoolLit true) in
  [smt.push; smt.addAssertion (smt.And pc e); smt.check []; smt.pop;
   smt.push; smt.addAssertion (smt.And pc (smt.Not e)); smt.check []; smt.pop].

(** What the specification says of the assumption made at a division: it
    is in force at every later query.  [before] is the log up to a query
    that comes after the division. *)
Definition divisor_nonzero_at_every_later_query
  (log : list smt.Call) (nonzero : smt.Expression) : Prop :=
  forall before es after,
    log = before ++ [smt.check es] ++ after ->
    In (smt.addAssertion nonzero) before ->
    In nonzero (smt.assertions before).

(** What the merge of one variable [d] does, from the checker [c] to [c']:
    [call] is the assertion it makes. *)
Definition merged (condition : smt.Expression)
  (indicesEndTrue indicesEndFalse : VariableIndices) (c c' : SMTChecker)
  (d : nat) (call : smt.Call) : Prop :=
  exists p t f,
    m_variables c !! d = Some p /\
    indicesEndTrue !! d = Some t /\
    indicesEndFalse !! d = Some f /\
    t <> f /\
    m_variables c' !! d = Some (fst p, SymbolicVariable.increaseIndex (snd p)) /\
    call =
      smt.addAssertion
        (smt.Eq
           (smt.Symbol (SymbolicVariable.uniqueName (snd p))
              (SymbolicVariable.nextFreeIndex (snd p)))
           (smt.Ite condition
              (smt.Symbol (SymbolicVariable.uniqueName (snd p)) t)
              (smt.Symbol (SymbolicVariable.uniqueName (snd p)) f))).

(** The members of the checker that a merge leaves as they are. *)
Definition same_but_variables_and_log (c c' : SMTChecker) : Prop :=
  m_pathConditions c' = m_pathConditions c /\
  m_functionPath c' = m_functionPath c /\
  m_expressions c' = m_expressions c /\
  m_globalContext c' = m_globalContext c /\
  m_errorReporter c' = m_errorReporter c /\
  m_loopExecutionHappened c' = m_loopExecutionHappened c /\
  m_arrayAssignmentHappened c' = m_arrayAssignmentHappened c /\
  m_uninterpretedTerms c' = m_uninterpretedTerms c /\
  m_scanner c' = m_scanner c.

(** The snapshot that [copyVariableIndices] takes. *)
Definition indicesOf (c : SMTChecker) : VariableIndices :=
  (fun p => SymbolicVariable.index (snd p)) <$> m_variables c.

(** The checker after [pushPathCondition e] and after [popPathCondition]. *)
Definition underCondition (e : smt.Expression) (c : SMTChecker) : SMTChecker :=
  set_pathConditions
    (fun l => l ++ [smt.And (List.last (m_pathConditions c) (smt.BoolLit true)) e]) c.

Definition outOfCondition (c : SMTChecker) : SMTChecker :=
  set_pathConditions (@removelast _) c.

(** What the specification says of the merge after a while loop: the value
    of the skipped loop is the value at the indices of before the loop. *)
Definition while_merges_with_indices_before : Prop :=
  forall solver touchedVariables formatNumberReadable bigint cond body c c',
    accept_Statement solver touchedVariables formatNumberReadable bigint
      (WhileStatement cond body false) c = Ok tt c' ->
    exists eM post cM ext,
      m_interface c' = m_interface cM ++ ext /\
      Forall2 (merged eM post (indicesOf c) cM c')
        (uniqueVars (touchedVariables (StatementNode (WhileStatement cond body false))))
        ext.

(** What the specification says of the snapshot post of a do-while loop: it
    is taken after the body and the condition, the condition being evaluated
    where the body ends. *)
Definition do_while_post_after_condition : Prop :=
  forall solver touchedVariables formatNumberReadable bigint cond body c c' cC,
    accept_Statement solver touchedVariables formatNumberReadable bigint
      (WhileStatement cond body true) c = Ok tt c' ->
    (resetVariables (touchedVariables (StatementNode (WhileStatement cond body true))) ;;
     accept_Statement solver touchedVariables formatNumberReadable bigint body ;;
     accept_Expression solver touchedVariables formatNumberReadable bigint cond) c
      = Ok tt cC ->
    exists eM now cM ext,
      m_interface c' = m_interface cM ++ ext /\
      Forall2 (merged eM (indicesOf cC) now cM c')
        (uniqueVars (touchedVariables (StatementNode (WhileStatement cond body true))))
        ext.

(** The members that a function leaves alone when it only moves indices and
    adds assertions. *)
Definition only_asserts (c c' : SMTChecker) : Prop :=
  m_pathConditions c' = m_pathConditions c /\
  m_functionPath c' = m_functionPath c /\
  m_expressions c' = m_expressions c /\
  m_globalContext c' = m_globalContext c /\
  m_errorReporter c' = m_errorReporter c /\
  exists es, m_interface c' = m_interface c ++ (smt.addAssertion <$> es).

(** The variables after a loop that gives a new index to the selected
    entries of [l]. *)
Definition bumped (sel : nat * (VariableDeclaration.t * SymbolicVariable.t) -> bool)
  (l : list (nat * (VariableDeclaration.t * SymbolicVariable.t)))
  (m : gmap nat (VariableDeclaration.t * SymbolicVariable.t))
  : gmap nat (VariableDeclaration.t * SymbolicVariable.t) :=
  fold_left
    (fun m kv =>
       if sel kv
       then alter (fun p => (fst p, SymbolicVariable.increaseIndex (snd p))) (fst kv) m
       else m)
    l m.

(** The solver calls of the two range checks of a value. *)
Definition rangeChecks (c : SMTChecker) (value : smt.Expression) (ty : TypePointer)
  (ev1 ev2 : list smt.Expression) : list smt.Call :=
  let pc := List.last (m_pathConditions c) (smt.BoolLit true) in
  [smt.push;
   smt.addAssertion (smt.And pc (smt.Lt value (smt.IntLit (minValue ty))));
   smt.check ev1; smt.pop;
   smt.push;
   smt.addAssertion (smt.And pc (smt.Gt value (smt.IntLit (maxValue ty))));
   smt.check ev2; smt.pop].

(** The sum, difference and product of unbounded integers. *)
Definition arithmetic (op : Token.t) (a b : Z) : Z :=
  match op with
  | Token.Add => (a + b)%Z
  | Token.Sub => (a - b)%Z
  | _ => (a * b)%Z
  end.

(** The comparison of two integers that a comparison token stands for. *)
Definition comparison (op : Token.t) (a b : Z) : bool :=
  match op with
  | Token.Equal => (a =? b)%Z
  | Token.NotEqual => negb (a =? b)%Z
  | Token.LessThan => (a <? b)%Z
  | Token.LessThanOrEqual => (a <=? b)%Z
  | Token.GreaterThan => (a >? b)%Z
  | _ => (a >=? b)%Z
  end.

(** * Reasoning about member functions *)

Lemma bind_Ok {A B} (m : M A) (k : A -> M B) c b c'' :
  bind m k c = Ok b c'' ->
  exists a c', m c = Ok a c' /\ k a c' = Ok b c''.
Proof.
  unfold bind. destruct (m c) as [a c'|e] eqn:E; [|discriminate].
  intros H. exists a, c'. split; [reflexivity|exact H].
Qed.

Lemma ret_Ok {A} (a b : A) c c' : ret a c = Ok b c' -> a = b /\ c = c'.
Proof. unfold ret. intros H. injection H as -> ->. split; reflexivity. Qed.

Lemma gets_Ok {A} (f : SMTChecker -> A) a c c' :
  gets f c = Ok a c' -> a = f c /\ c' = c.
Proof. unfold gets. intros H. injection H as <- <-. split; reflexivity. Qed.

Lemma modify_Ok (f : SMTChecker -> SMTChecker) a c c' :
  modify f c = Ok a c' -> c' = f c.
Proof. unfold modify. intros H. injection H as _ <-. reflexivity. Qed.

Lemma solAssert_Ok b a c c' : solAssert b c = Ok a c' -> b = true /\ c' = c.
Proof.
  unfold solAssert. destruct b; [|discriminate].
  intros H. apply ret_Ok in H as [_ ->]. split; reflexivity.
Qed.

Lemma solUnimplementedAssert_Ok b a c c' :
  solUnimplementedAssert b c = Ok a c' -> b = true /\ c' = c.
Proof.
  unfold solUnimplementedAssert. destruct b; [|discriminate].
  intros H. apply ret_Ok in H as [_ ->]. split; reflexivity.
Qed.

Lemma throw_Ok {A} e (a : A) c c' : throw e c = Ok a c' -> False.
Proof. discriminate. Qed.

(** One step of symbolic execution of a hypothesis [m c = Ok a c']. *)
Ltac mstep H :=
  lazymatch type of H with
  | bind _ _ _ = Ok _ _ =>
      let a := fresh "a" in
      let c := fresh "c" in
      let H1 := fresh "H" in
      apply bind_Ok in H as (a & c & H1 & H)
  | ret _ _ = Ok _ _ => apply ret_Ok in H as [? ?]; subst
  | gets _ _ = Ok _ _ => apply gets_Ok in H as [? ?]; subst
  | modify _ _ = Ok _ _ => apply modify_Ok in H; subst
  | solAssert _ _ = Ok _ _ => apply solAssert_Ok in H as [? ?]; subst
  | solUnimplementedAssert _ _ = Ok _ _ =>
      apply solUnimplementedAssert_Ok in H as [? ?]; subst
  | throw _ _ = Ok _ _ => exfalso; exact (throw_Ok _ _ _ _ H)
  | Throw _ = Ok _ _ => discriminate H
  | Ok _ _ = Ok _ _ => injection H as ? ?; subst
  | knownVariable _ _ = Ok _ _ => apply gets_Ok in H as [? ?]; subst
  | knownExpr _ _ = Ok _ _ => apply gets_Ok in H as [? ?]; subst
  | knownGlobalSymbol _ _ = Ok _ _ => apply gets_Ok in H as [? ?]; subst
  | copyVariableIndices _ = Ok _ _ => apply gets_Ok in H as [? ?]; subst
  | isRootFunction _ = Ok _ _ => apply gets_Ok in H as [? ?]; subst
  | visitedFunction _ _ = Ok _ _ => apply gets_Ok in H as [? ?]; subst
  | currentPathConditions _ = Ok _ _ => apply gets_Ok in H as [? ?]; subst
  | loopComment _ = Ok _ _ => apply gets_Ok in H as [? ?]; subst
  | warning _ _ _ _ = Ok _ _ => apply modify_Ok in H; subst
  | interface _ _ = Ok _ _ => apply modify_Ok in H; subst
  end.

(** Runs [mstep] on every hypothesis it applies to. *)
Ltac mall :=
  repeat
    match goal with
    | H : _ = Ok _ _ |- _ => mstep H
    end.

(** Runs [mstep] along a whole sequence. *)
Ltac msteps H :=
  repeat
    lazymatch type of H with
    | bind _ _ _ = Ok _ _ =>
        let a := fresh "a" in
        let c := fresh "c" in
        let H1 := fresh "H" in
        apply bind_Ok in H as (a & c & H1 & H);
        try mstep H1
    end;
  try mstep H.

(** ** Balanced stretches *)

Lemma balance_app d l1 l2 :
  balance d (l1 ++ l2) = balance d l1 ≫= fun d1 => balance d1 l2.
Proof.
  revert d. induction l1 as [|c l1 IH]; intros d; simpl; [reflexivity|].
  destruct c; simpl; try apply IH; try reflexivity.
  - destruct d; [reflexivity|apply IH].
  - destruct d; [reflexivity|apply IH].
Qed.

Lemma balance_app_Some d d1 d2 l1 l2 :
  balance d l1 = Some d1 -> balance d1 l2 = Some d2 ->
  balance d (l1 ++ l2) = Some d2.
Proof. intros H1 H2. rewrite balance_app, H1. exact H2. Qed.

Lemma balance_lift k d d' l :
  balance d l = Some d' -> balance (k + d) l = Some (k + d').
Proof.
  revert d. induction l as [|c l IH]; intros d; simpl.
  - intros H. injection H as <-. reflexivity.
  - destruct c; try discriminate; try apply IH.
    + intros H. apply IH in H. rewrite <- plus_n_Sm in H. exact H.
    + destruct d; [discriminate|]. intros H.
      rewrite <- plus_n_Sm. apply IH. exact H.
    + destruct d; [discriminate|]. intros H.
      rewrite <- plus_n_Sm. apply IH in H. rewrite <- plus_n_Sm in H. exact H.
Qed.

(** ** Steps *)

Lemma vars_le_refl c : vars_le c c.
Proof. intros k p H. exists p. repeat split; [exact H|lia]. Qed.

Lemma vars_le_trans c1 c2 c3 : vars_le c1 c2 -> vars_le c2 c3 -> vars_le c1 c3.
Proof.
  intros H12 H23 k p H.
  destruct (H12 k p H) as (p2 & E2 & A2 & B2 & C2 & D2).
  destruct (H23 k p2 E2) as (p3 & E3 & A3 & B3 & C3 & D3).
  exists p3. repeat split; [exact E3|congruence..|lia].
Qed.

Lemma Step_refl d X c : Step d d X c c.
Proof.
  split; try reflexivity; try (intros H; exact H).
  - exists []. split; [symmetry; apply app_nil_r|reflexivity].
  - apply vars_le_refl.
  - intros i v _ H. exact H.
Qed.

Lemma Step_trans d1 d2 d3 X c1 c2 c3 :
  Step d1 d2 X c1 c2 -> Step d2 d3 X c2 c3 -> Step d1 d3 X c1 c3.
Proof.
  intros [P1 C1 (e1 & L1 & B1) V1 W1 O1] [P2 C2 (e2 & L2 & B2) V2 W2 O2].
  split.
  - congruence.
  - congruence.
  - exists (e1 ++ e2). split.
    + rewrite L2, L1. symmetry. apply app_assoc.
    + eapply balance_app_Some; eassumption.
  - eapply vars_le_trans; eassumption.
  - intros H. apply W2, W1, H.
  - intros i v Hi H. apply O2; [exact Hi|]. apply O1; [exact Hi|exact H].
Qed.

Lemma Step_weaken d d' X Y c c' : X ⊆ Y -> Step d d' X c c' -> Step d d' Y c c'.
Proof.
  intros HXY [P C L V W O]. split; try assumption.
  intros i v Hi. apply O. intros Hx. apply Hi, HXY, Hx.
Qed.

Lemma Step_inF d d' X c c' :
  Step d d' X c c' -> m_functionPath c <> [] -> m_functionPath c' <> [].
Proof. intros [P _ _ _ _ _] H. rewrite P. exact H. Qed.

Lemma Steps_weaken {A} (m : M A) d d' X Y :
  X ⊆ Y -> Steps m d d' X -> Steps m d d' Y.
Proof. intros HXY H c a c' Hf E. eapply Step_weaken; [exact HXY|]. eapply H; eassumption. Qed.

Lemma Steps_ret {A} (a : A) d X : Steps (ret a) d d X.
Proof. intros c b c' _ H. mstep H. apply Step_refl. Qed.

Lemma Steps_bind {A B} (m : M A) (k : A -> M B) d d1 d2 X :
  Steps m d d1 X -> (forall a, Steps (k a) d1 d2 X) -> Steps (bind m k) d d2 X.
Proof.
  intros Hm Hk c b c'' Hf H. mstep H.
  pose proof (Hm _ _ _ Hf H0) as S1.
  eapply Step_trans; [exact S1|].
  eapply Hk; [|exact H]. eapply Step_inF; eassumption.
Qed.

Lemma Steps_gets {A} (f : SMTChecker -> A) d X : Steps (gets f) d d X.
Proof. intros c b c' _ H. mstep H. apply Step_refl. Qed.

Lemma Steps_throw {A} e d d' X : Steps (@throw A e) d d' X.
Proof. intros c b c' _ H. mstep H. Qed.

Lemma Steps_solAssert b d X : Steps (solAssert b) d d X.
Proof. intros c a c' _ H. mstep H. apply Step_refl. Qed.

Lemma Steps_solUnimplementedAssert b d X : Steps (solUnimplementedAssert b) d d X.
Proof. intros c a c' _ H. mstep H. apply Step_refl. Qed.

Lemma Steps_when b (m : M unit) d X : Steps m d d X -> Steps (when b m) d d X.
Proof. intros H. destruct b; simpl; [exact H|apply Steps_ret]. Qed.

Lemma Steps_forEach {A} (l : list A) (f : A -> M unit) d X :
  (forall x, x ∈ l -> Steps (f x) d d X) -> Steps (forEach l f) d d X.
Proof.
  induction l as [|x l IH]; intros H.
  - apply Steps_ret.
  - change (forEach (x :: l) f) with (bind (f x) (fun _ => forEach l f)).
    apply (Steps_bind _ _ d d d).
    + apply H. left.
    + intros _. apply IH. intros y Hy. apply H. right. exact Hy.
Qed.

Lemma Steps_mapM {A B} (f : A -> M B) (l : list A) d X :
  (forall x, x ∈ l -> Steps (f x) d d X) -> Steps (mapM f l) d d X.
Proof.
  induction l as [|x l IH]; intros H; simpl.
  - apply Steps_ret.
  - apply (Steps_bind _ _ d d d).
    + apply H. left.
    + intros y. apply (Steps_bind _ _ d d d).
      * apply IH. intros z Hz. apply H. right. exact Hz.
      * intros ys. apply Steps_ret.
Qed.

(** A change of a field that no component of [Step] reads. *)
Lemma Step_same d X c c' :
  m_functionPath c' = m_functionPath c ->
  m_pathConditions c' = m_pathConditions c ->
  m_interface c' = m_interface c ->
  m_variables c' = m_variables c ->
  own_frame X c c' ->
  Step d d X c c'.
Proof.
  intros P C L V O. split; try assumption.
  - exists []. rewrite L. split; [symmetry; apply app_nil_r|reflexivity].
  - intros k p H. exists p. rewrite V. repeat split; [exact H|lia].
  - unfold wf. rewrite V. intros H. exact H.
Qed.

Lemma Steps_warning loc msg sec d X : Steps (warning loc msg sec) d d X.
Proof.
  intros c a c' _ H. unfold warning in H. mstep H.
  apply Step_same; try reflexivity. intros i v _ E. exact E.
Qed.

Lemma Steps_set_arrayAssignmentHappened b d X :
  Steps (modify (set_arrayAssignmentHappened b)) d d X.
Proof.
  intros c a c' _ H. mstep H.
  apply Step_same; try reflexivity. intros i v _ E. exact E.
Qed.

Lemma Steps_set_loopExecutionHappened b d X :
  Steps (modify (set_loopExecutionHappened b)) d d X.
Proof.
  intros c a c' _ H. mstep H.
  apply Step_same; try reflexivity. intros i v _ E. exact E.
Qed.

Lemma Steps_set_uninterpretedTerms f d X :
  Steps (modify (set_uninterpretedTerms f)) d d X.
Proof.
  intros c a c' _ H. mstep H.
  apply Step_same; try reflexivity. intros i v _ E. exact E.
Qed.

Lemma Steps_set_globalContext f d X :
  Steps (modify (set_globalContext f)) d d X.
Proof.
  intros c a c' _ H. mstep H.
  apply Step_same; try reflexivity. intros i v _ E. exact E.
Qed.

(** The calls on the solver. *)
Lemma Step_log d d' X c l :
  balance d l = Some d' ->
  Step d d' X c (set_interface (fun log => log ++ l) c).
Proof.
  intros B. split; try reflexivity.
  - exists l. split; [reflexivity|exact B].
  - intros k p H. exists p. repeat split; [exact H|lia].
  - intros H. exact H.
  - intros i v _ E. exact E.
Qed.

Lemma Steps_addAssertion e d X : Steps (interface (smt.addAssertion e)) d d X.
Proof.
  intros c a c' _ H. unfold interface in H. mstep H. apply Step_log. reflexivity.
Qed.

Lemma Steps_push d X : Steps (interface smt.push) d (S d) X.
Proof.
  intros c a c' _ H. unfold interface in H. mstep H. apply Step_log. reflexivity.
Qed.

Lemma Steps_pop d X : Steps (interface smt.pop) (S d) d X.
Proof.
  intros c a c' _ H. unfold interface in H. mstep H. apply Step_log. reflexivity.
Qed.

Section Primitives.

Variable solver : list smt.Call -> smt.Answer.
Variable touchedVariables : ASTNode -> list nat.
Variable formatNumberReadable : Z -> string.
Variable bigint : string -> option Z.

Lemma Steps_interface_check es d X :
  Steps (interface_check solver es) (S d) (S d) X.
Proof.
  intros c a c' _ H. unfold interface_check in H. injection H as _ <-.
  apply (Step_log (S d) (S d) X c [smt.check es]). reflexivity.
Qed.

End Primitives.

Create HintDb steps discriminated.

#[export] Hint Resolve Steps_ret Steps_gets Steps_throw Steps_solAssert
  Steps_solUnimplementedAssert Steps_warning Steps_set_arrayAssignmentHappened
  Steps_set_loopExecutionHappened Steps_set_uninterpretedTerms
  Steps_set_globalContext Steps_addAssertion Steps_push Steps_pop
  Steps_interface_check : steps.

(** Follows the shape of a member function: a lemma of the database for a
    call, [Steps_bind] for a sequence, a case distinction for a branch. *)
Ltac steps_leaf := solve [eauto 3 with steps nocore].

Ltac steps :=
  repeat
    first
      [ steps_leaf
      | apply Steps_when
      | apply Steps_forEach; intros ? ?
      | apply Steps_mapM; intros ? ?
      | lazymatch goal with
        | |- Steps (bind _ _) _ _ _ => eapply Steps_bind; [|intros ?]
        | |- Steps (match ?x with _ => _ end) _ _ _ => destruct x eqn:?
        | |- Steps (let _ := _ in _) _ _ _ => cbv zeta
        end ].

Section VariableSteps.

Variable solver : list smt.Call -> smt.Answer.
Variable formatNumberReadable : Z -> string.
Variable bigint : string -> option Z.

Lemma Steps_knownVariable k d X : Steps (knownVariable k) d d X.
Proof. apply Steps_gets. Qed.

Lemma Steps_variableAt k d X : Steps (variableAt k) d d X.
Proof.
  intros c a c' _ H. unfold variableAt in H.
  destruct (m_variables c !! k); [|discriminate].
  injection H as _ <-. apply Step_refl.
Qed.

Lemma Steps_copyVariableIndices d X : Steps copyVariableIndices d d X.
Proof. apply Steps_gets. Qed.

Lemma Steps_isRootFunction d X : Steps isRootFunction d d X.
Proof. apply Steps_gets. Qed.

Lemma Steps_visitedFunction f d X : Steps (visitedFunction f) d d X.
Proof. apply Steps_gets. Qed.

Hint Resolve Steps_knownVariable Steps_variableAt Steps_copyVariableIndices
  Steps_isRootFunction Steps_visitedFunction : steps.

Lemma Steps_currentValue k d X : Steps (currentValue k) d d X.
Proof. unfold currentValue. steps. Qed.

Lemma Steps_valueAtIndex k i d X : Steps (valueAtIndex k i) d d X.
Proof. unfold valueAtIndex. steps. Qed.

(** A change of [m_variables] alone. *)
Lemma Step_variables d X c f :
  (forall k p, m_variables c !! k = Some p ->
     exists p', f (m_variables c) !! k = Some p' /\
       fst p' = fst p /\
       SymbolicVariable.uniqueName (snd p') = SymbolicVariable.uniqueName (snd p) /\
       SymbolicVariable.type (snd p') = SymbolicVariable.type (snd p) /\
       SymbolicVariable.nextFreeIndex (snd p)
         <= SymbolicVariable.nextFreeIndex (snd p')) ->
  (wf c -> map_Forall (fun _ p => wf_variable (snd p)) (f (m_variables c))) ->
  Step d d X c (set_variables f c).
Proof.
  intros V W. split; try reflexivity.
  - exists []. split; [symmetry; apply app_nil_r|reflexivity].
  - exact V.
  - exact W.
  - intros i v _ E. exact E.
Qed.

Lemma Step_increaseIndex d X c k :
  Step d d X c
    (set_variables
       (alter (fun p => (fst p, SymbolicVariable.increaseIndex (snd p))) k) c).
Proof.
  apply Step_variables.
  - intros j p E. destruct (decide (k = j)) as [->|N].
    + eexists. split; [rewrite lookup_alter_eq, E; reflexivity|].
      simpl. repeat split. lia.
    + exists p. rewrite lookup_alter_ne by exact N.
      repeat split; [exact E|lia].
  - intros W j p E. destruct (decide (k = j)) as [->|N].
    + rewrite lookup_alter_eq in E.
      destruct (m_variables c !! j) as [q|] eqn:Q; [|discriminate].
      injection E as <-. unfold wf_variable. simpl. lia.
    + rewrite lookup_alter_ne in E by exact N. exact (W j p E).
Qed.

Lemma Steps_newValue k d X : Steps (newValue k) d d X.
Proof.
  unfold newValue.
  eapply Steps_bind; [steps|intros ?].
  eapply Steps_bind; [steps|intros ?].
  eapply Steps_bind; [steps|intros ?].
  eapply Steps_bind; [|intros ?; steps].
  intros c u c' _ H. mstep H. apply Step_increaseIndex.
Qed.

Lemma Steps_addAssertions es d X : Steps (addAssertions es) d d X.
Proof. unfold addAssertions. steps. Qed.

Hint Resolve Steps_currentValue Steps_valueAtIndex Steps_newValue
  Steps_addAssertions : steps.

Lemma Steps_setZeroValue_var v d X : Steps (setZeroValue_var v) d d X.
Proof. unfold setZeroValue_var. steps. Qed.

Lemma Steps_setUnknownValue_var v d X : Steps (setUnknownValue_var v) d d X.
Proof. unfold setUnknownValue_var. steps. Qed.

Lemma Steps_setSymbolicUnknownValue e ty d X :
  Steps (setSymbolicUnknownValue e ty) d d X.
Proof. unfold setSymbolicUnknownValue. steps. Qed.

Hint Resolve Steps_setZeroValue_var Steps_setUnknownValue_var
  Steps_setSymbolicUnknownValue : steps.

Lemma Steps_setZeroValue k d X : Steps (setZeroValue k) d d X.
Proof. unfold setZeroValue. steps. Qed.

Lemma Steps_setUnknownValue k d X : Steps (setUnknownValue k) d d X.
Proof. unfold setUnknownValue. steps. Qed.

Hint Resolve Steps_setZeroValue Steps_setUnknownValue : steps.

Lemma Steps_createVariable v d X : Steps (createVariable v) d d X.
Proof.
  intros c a c' _ H. unfold createVariable in H. mstep H. mstep H0.
  destruct (bool_decide (is_Some (m_variables c !! VariableDeclaration.id v))) eqn:K.
  - mstep H. apply Step_refl.
  - apply bool_decide_eq_false in K.
    assert (N : m_variables c !! VariableDeclaration.id v = None).
    { destruct (m_variables c !! VariableDeclaration.id v); [|reflexivity].
      exfalso. apply K. eexists. reflexivity. }
    mstep H. mstep H0.
    lazymatch type of H with
    | _ ?s = Ok _ _ => apply Step_trans with (d2 := d) (c2 := s)
    end.
    + apply Step_variables.
      * intros j p E. exists p.
        rewrite lookup_insert_ne by (intros <-; congruence).
        repeat split; [exact E|lia].
      * intros W. apply map_Forall_insert_2; [|exact W].
        unfold newSymbolicVariable.
        destruct (category (VariableDeclaration.type v));
          unfold wf_variable; simpl; lia.
    + destruct (fst (newSymbolicVariable _ _)).
      * mstep H. mstep H. mstep H0.
        apply Step_same; try reflexivity. intros i w _ E. exact E.
      * mstep H. apply Step_refl.
Qed.

Lemma Steps_resetVariables l d X : Steps (resetVariables l) d d X.
Proof. unfold resetVariables. steps. Qed.

Hint Resolve Steps_createVariable Steps_resetVariables : steps.

Lemma Steps_eraseArrayKnowledge d X : Steps eraseArrayKnowledge d d X.
Proof. unfold eraseArrayKnowledge. steps. Qed.

Hint Resolve Steps_eraseArrayKnowledge : steps.

Lemma Steps_arrayAssignment d X : Steps arrayAssignment d d X.
Proof. unfold arrayAssignment. steps. Qed.

End VariableSteps.

#[export] Hint Resolve Steps_knownVariable Steps_variableAt
  Steps_copyVariableIndices Steps_isRootFunction Steps_visitedFunction
  Steps_currentValue Steps_valueAtIndex Steps_newValue Steps_addAssertions
  Steps_setZeroValue_var Steps_setUnknownValue_var Steps_setSymbolicUnknownValue
  Steps_setZeroValue Steps_setUnknownValue Steps_createVariable
  Steps_resetVariables Steps_eraseArrayKnowledge Steps_arrayAssignment : steps.

Section ExpressionSteps.

Variable solver : list smt.Call -> smt.Answer.
Variable formatNumberReadable : Z -> string.
Variable bigint : string -> option Z.

Lemma Steps_knownExpr n d X : Steps (knownExpr n) d d X.
Proof. apply Steps_gets. Qed.

Lemma Steps_knownGlobalSymbol n d X : Steps (knownGlobalSymbol n) d d X.
Proof. apply Steps_gets. Qed.

Lemma Steps_currentPathConditions d X : Steps currentPathConditions d d X.
Proof. apply Steps_gets. Qed.

Lemma Steps_loopComment d X : Steps loopComment d d X.
Proof. apply Steps_gets. Qed.

Lemma globalAt_Ok g v c c' : globalAt g c = Ok v c' -> c' = c.
Proof.
  unfold globalAt. destruct (m_globalContext c !! g); [|discriminate].
  intros H. injection H as _ <-. reflexivity.
Qed.

Lemma Steps_globalAt g d X : Steps (globalAt g) d d X.
Proof. intros c a c' _ H. apply globalAt_Ok in H as ->. apply Step_refl. Qed.

Lemma expressionAt_Ok n v c c' : expressionAt n c = Ok v c' -> c' = c.
Proof.
  unfold expressionAt. destruct (m_expressions c !! Node.id n) as [[w|g]|].
  - intros H. injection H as _ <-. reflexivity.
  - apply globalAt_Ok.
  - discriminate.
Qed.

Lemma Steps_expressionAt n d X : Steps (expressionAt n) d d X.
Proof. intros c a c' _ H. apply expressionAt_Ok in H as ->. apply Step_refl. Qed.

Hint Resolve Steps_knownExpr Steps_knownGlobalSymbol
  Steps_currentPathConditions Steps_loopComment Steps_globalAt
  Steps_expressionAt : steps.

(** A change of [m_expressions] alone. *)
Lemma Step_expressions d X c f :
  own_frame X c (set_expressions f c) ->
  Step d d X c (set_expressions f c).
Proof. intros O. apply Step_same; try reflexivity. exact O. Qed.

Lemma Steps_increaseExpressionIndex n d X :
  Node.id n ∈ X -> Steps (increaseExpressionIndex n) d d X.
Proof.
  intros HX c a c' _ H. unfold increaseExpressionIndex in H.
  destruct (m_expressions c !! Node.id n) as [[w|g]|] eqn:E; [| |discriminate].
  - injection H as _ <-. apply Step_expressions.
    intros i v Hi Ei. simpl. rewrite lookup_insert_ne; [exact Ei|].
    intros <-. exact (Hi HX).
  - destruct (m_globalContext c !! g); [|discriminate].
    injection H as _ <-. apply Step_same; try reflexivity.
    intros i v _ Ei. exact Ei.
Qed.

(** An entry added under a key that had none. *)
Lemma Step_new_expression d X c k e :
  m_expressions c !! k = None ->
  Step d d X c (set_expressions (<[k := e]>) c).
Proof.
  intros N. apply Step_expressions. intros i v _ Ei. simpl.
  rewrite lookup_insert_ne; [exact Ei|]. intros <-. congruence.
Qed.

Lemma known_false {K V} `{Countable K} (m : gmap K V) k :
  bool_decide (is_Some (m !! k)) = false -> m !! k = None.
Proof.
  intros B. apply bool_decide_eq_false in B.
  destruct (m !! k); [|reflexivity]. exfalso. apply B. eexists. reflexivity.
Qed.

Lemma createExpr_unknown n d X c a c' :
  m_expressions c !! Node.id n = None ->
  createExpr n c = Ok a c' -> Step d d X c c'.
Proof.
  intros N H. unfold createExpr in H. mstep H. mstep H0.
  rewrite N in H. simpl in H.
  mstep H. mstep H0.
  eapply Step_trans; [apply Step_new_expression; exact N|].
  destruct (fst (newSymbolicVariable _ _)); simpl in H.
  - mstep H. apply Step_same; try reflexivity. intros i v _ E. exact E.
  - mstep H. apply Step_refl.
Qed.

Lemma Steps_createExpr n d X : Node.id n ∈ X -> Steps (createExpr n) d d X.
Proof.
  intros HX c a c' Hf H.
  destruct (m_expressions c !! Node.id n) eqn:E.
  - unfold createExpr in H. mstep H. mstep H0. rewrite E in H.
    rewrite bool_decide_eq_true_2 in H by (eexists; reflexivity).
    eapply Steps_increaseExpressionIndex; eassumption.
  - eapply createExpr_unknown; eassumption.
Qed.

Lemma Steps_expr n d X : Steps (expr n) d d X.
Proof.
  intros c a c' Hf H. unfold expr in H. mstep H. mstep H0.
  destruct (bool_decide (is_Some (m_expressions c !! Node.id n))) eqn:K;
    simpl in H.
  - mall.
    match goal with
    | E : expressionAt _ _ = Ok _ _ |- _ => apply expressionAt_Ok in E as ->
    end.
    apply Step_refl.
  - apply known_false in K. mall.
    match goal with
    | E : expressionAt _ _ = Ok _ _ |- _ => apply expressionAt_Ok in E as ->
    end.
    match goal with
    | E : createExpr _ _ = Ok _ _ |- _ =>
        eapply Step_trans; [|eapply createExpr_unknown; [|exact E]; exact K]
    end.
    apply Step_same; try reflexivity. intros i v _ E. exact E.
Qed.

Hint Resolve Steps_expr : steps.

Lemma Steps_defineExpr n v d X : Node.id n ∈ X -> Steps (defineExpr n v) d d X.
Proof.
  intros HX. unfold defineExpr.
  eapply Steps_bind; [apply Steps_createExpr; exact HX|intros ?]. steps.
Qed.

Hint Resolve Steps_defineExpr : steps.

Lemma Steps_addPathConjoinedExpression e d X :
  Steps (addPathConjoinedExpression e) d d X.
Proof. unfold addPathConjoinedExpression. steps. Qed.

Lemma Steps_addPathImpliedExpression e d X :
  Steps (addPathImpliedExpression e) d d X.
Proof. unfold addPathImpliedExpression. steps. Qed.

Hint Resolve Steps_addPathConjoinedExpression
  Steps_addPathImpliedExpression : steps.

Lemma Steps_checkSatisfiableAndGenerateModel es d X :
  Steps (checkSatisfiableAndGenerateModel solver formatNumberReadable bigint es)
    (S d) (S d) X.
Proof. unfold checkSatisfiableAndGenerateModel. steps. Qed.

Hint Resolve Steps_checkSatisfiableAndGenerateModel : steps.

Lemma Steps_checkSatisfiable d X :
  Steps (checkSatisfiable solver formatNumberReadable bigint) (S d) (S d) X.
Proof. unfold checkSatisfiable. steps. Qed.

Hint Resolve Steps_checkSatisfiable : steps.

Lemma Steps_expressionsToEvaluate name v d X :
  Steps (expressionsToEvaluate name v) d d X.
Proof. unfold expressionsToEvaluate. steps. Qed.

Hint Resolve Steps_expressionsToEvaluate : steps.

Lemma Steps_checkCondition cond loc descr name v d X :
  Steps (checkCondition solver formatNumberReadable bigint cond loc descr name v)
    d d X.
Proof. unfold checkCondition. steps. Qed.

Hint Resolve Steps_checkCondition : steps.

Lemma Steps_checkBooleanNotConstant e descr d X :
  Steps (checkBooleanNotConstant solver formatNumberReadable bigint e descr) d d X.
Proof. unfold checkBooleanNotConstant. steps. Qed.

Lemma Steps_checkUnderOverflow v ty loc d X :
  Steps (checkUnderOverflow solver formatNumberReadable bigint v ty loc) d d X.
Proof. unfold checkUnderOverflow. steps. Qed.

Hint Resolve Steps_checkBooleanNotConstant Steps_checkUnderOverflow : steps.

Lemma Steps_assignment var v loc d X :
  Steps (assignment solver formatNumberReadable bigint var v loc) d d X.
Proof. unfold assignment. steps. Qed.

Hint Resolve Steps_assignment : steps.

Lemma Steps_assignment_expr var e loc d X :
  Steps (assignment_expr solver formatNumberReadable bigint var e loc) d d X.
Proof. unfold assignment_expr. steps. Qed.

Lemma Steps_indexAt i k d X : Steps (indexAt i k) d d X.
Proof. unfold indexAt. steps. Qed.

Hint Resolve Steps_assignment_expr Steps_indexAt : steps.

Lemma Steps_mergeVariable cond iT iF k d X :
  Steps (mergeVariable cond iT iF k) d d X.
Proof. unfold mergeVariable. steps. Qed.

Hint Resolve Steps_mergeVariable : steps.

Lemma Steps_mergeVariables l cond iT iF d X :
  Steps (mergeVariables l cond iT iF) d d X.
Proof. unfold mergeVariables. steps. Qed.

Lemma Steps_defineGlobalVariable name n b d X :
  Node.id n ∈ X -> Steps (defineGlobalVariable name n b) d d X.
Proof. intros HX. unfold defineGlobalVariable. steps. Qed.

Lemma Steps_defineGlobalFunction name n d X :
  Steps (defineGlobalFunction name n) d d X.
Proof. unfold defineGlobalFunction. steps. Qed.

Hint Resolve Steps_mergeVariables Steps_defineGlobalVariable
  Steps_defineGlobalFunction : steps.

Lemma Steps_visitFunctionIdentifier n d X :
  Steps (visitFunctionIdentifier n) d d X.
Proof.
  unfold visitFunctionIdentifier.
  eapply Steps_bind; [steps|intros ?].
  eapply Steps_bind; [steps|intros ?].
  eapply Steps_bind; [steps|intros ?].
  intros c0 u c0' _ H. mstep H. apply Step_expressions.
  intros i v _ E. simpl.
  destruct (m_expressions c0 !! Node.id n) eqn:K; [exact E|].
  rewrite lookup_insert_ne; [exact E|]. intros <-. congruence.
Qed.

Hint Resolve Steps_visitFunctionIdentifier : steps.

(** *** The hooks of the expressions *)

Lemma Steps_endVisit_Literal n tok z d X :
  Node.id n ∈ X -> Steps (endVisit_Literal n tok z) d d X.
Proof. intros HX. unfold endVisit_Literal. steps. Qed.

Lemma Steps_endVisit_Identifier n name r d X :
  Node.id n ∈ X -> Steps (endVisit_Identifier n name r) d d X.
Proof. intros HX. unfold endVisit_Identifier. steps. Qed.

Lemma Steps_endVisit_UnaryOperation n op pre sub d X :
  Node.id n ∈ X ->
  Steps (endVisit_UnaryOperation solver formatNumberReadable bigint n op pre sub)
    d d X.
Proof. intros HX. unfold endVisit_UnaryOperation. steps. Qed.

Lemma Steps_arithmeticOperation n op ty l r d X :
  Node.id n ∈ X ->
  Steps (arithmeticOperation solver formatNumberReadable bigint n op ty l r) d d X.
Proof. intros HX. unfold arithmeticOperation. steps. Qed.

Lemma Steps_compareOperation n op ty l r d X :
  Node.id n ∈ X -> Steps (compareOperation n op ty l r) d d X.
Proof. intros HX. unfold compareOperation. steps. Qed.

Lemma Steps_booleanOperation n op ty l r d X :
  Node.id n ∈ X -> Steps (booleanOperation n op ty l r) d d X.
Proof. intros HX. unfold booleanOperation. steps. Qed.

Hint Resolve Steps_arithmeticOperation Steps_compareOperation
  Steps_booleanOperation : steps.

Lemma Steps_endVisit_BinaryOperation n op ty l r d X :
  Node.id n ∈ X ->
  Steps (endVisit_BinaryOperation solver formatNumberReadable bigint n op ty l r)
    d d X.
Proof. intros HX. unfold endVisit_BinaryOperation. steps. Qed.

Lemma Steps_arrayIndexAssignment n l r d X :
  Steps (arrayIndexAssignment n l r) d d X.
Proof. unfold arrayIndexAssignment. steps. Qed.

Hint Resolve Steps_arrayIndexAssignment : steps.

Lemma Steps_endVisit_Assignment n op l r d X :
  Node.id n ∈ X ->
  Steps (endVisit_Assignment solver formatNumberReadable bigint n op l r) d d X.
Proof. intros HX. unfold endVisit_Assignment. steps. Qed.

Lemma Steps_endVisit_TupleExpression n b cs d X :
  Node.id n ∈ X -> Steps (endVisit_TupleExpression n b cs) d d X.
Proof. intros HX. unfold endVisit_TupleExpression. steps. Qed.

Lemma Steps_endVisit_IndexAccess n b i d X :
  Node.id n ∈ X -> Steps (endVisit_IndexAccess n b i) d d X.
Proof. intros HX. unfold endVisit_IndexAccess. steps. Qed.

Lemma Steps_visit_MemberAccess n e m d X :
  Node.id n ∈ X -> Steps (visit_MemberAccess n e m) d d X.
Proof. intros HX. unfold visit_MemberAccess. steps. Qed.

Lemma Steps_visitAssert n args d X :
  Steps (visitAssert solver formatNumberReadable bigint n args) d d X.
Proof. unfold visitAssert. steps. Qed.

Lemma Steps_visitRequire n args d X :
  Steps (visitRequire solver formatNumberReadable bigint n args) d d X.
Proof. unfold visitRequire. steps. Qed.

Lemma Steps_visitGasLeft n d X :
  Node.id n ∈ X -> Steps (visitGasLeft n) d d X.
Proof. intros HX. unfold visitGasLeft. steps. Qed.

Lemma Steps_abstractFunctionCall n e args d X :
  Node.id n ∈ X -> Steps (abstractFunctionCall n e args) d d X.
Proof. intros HX. unfold abstractFunctionCall. steps. Qed.

Lemma Steps_initializeFunctionCallParameters f args d X :
  Steps (initializeFunctionCallParameters f args) d d X.
Proof. unfold initializeFunctionCallParameters. steps. Qed.

Lemma Steps_endVisit_VariableDeclaration v e d X :
  Steps (endVisit_VariableDeclaration solver formatNumberReadable bigint v e) d d X.
Proof. unfold endVisit_VariableDeclaration. steps. Qed.

Lemma Steps_endVisit_VariableDeclarationStatement loc ds e d X :
  Steps (endVisit_VariableDeclarationStatement solver formatNumberReadable bigint
           loc ds e) d d X.
Proof. unfold endVisit_VariableDeclarationStatement. steps. Qed.

Lemma Steps_endVisit_Return loc e d X : Steps (endVisit_Return loc e) d d X.
Proof. unfold endVisit_Return. steps. Qed.

End ExpressionSteps.

#[export] Hint Resolve Steps_knownExpr Steps_knownGlobalSymbol
  Steps_currentPathConditions Steps_loopComment Steps_globalAt
  Steps_expressionAt Steps_expr Steps_defineExpr
  Steps_addPathConjoinedExpression Steps_addPathImpliedExpression
  Steps_checkSatisfiableAndGenerateModel Steps_checkSatisfiable
  Steps_expressionsToEvaluate Steps_checkCondition
  Steps_checkBooleanNotConstant Steps_checkUnderOverflow Steps_assignment
  Steps_assignment_expr Steps_indexAt Steps_mergeVariable Steps_mergeVariables
  Steps_defineGlobalVariable Steps_defineGlobalFunction
  Steps_visitFunctionIdentifier Steps_endVisit_Literal
  Steps_endVisit_Identifier Steps_endVisit_UnaryOperation
  Steps_endVisit_BinaryOperation Steps_arrayIndexAssignment
  Steps_endVisit_Assignment Steps_endVisit_TupleExpression
  Steps_endVisit_IndexAccess Steps_visit_MemberAccess Steps_visitAssert
  Steps_visitRequire Steps_visitGasLeft Steps_abstractFunctionCall
  Steps_initializeFunctionCallParameters Steps_endVisit_VariableDeclaration
  Steps_endVisit_VariableDeclarationStatement Steps_endVisit_Return : steps.

(** ** Snapshots of indices *)

Lemma snapshot_of_copy c :
  wf c ->
  snapshot_of ((fun p => SymbolicVariable.index (snd p)) <$> m_variables c) c.
Proof.
  intros W k n E. rewrite lookup_fmap in E.
  destruct (m_variables c !! k) as [p|] eqn:P; [|discriminate].
  injection E as <-. exists p. split; [reflexivity|]. exact (W k p P).
Qed.

Lemma snapshot_of_le i c c' : snapshot_of i c -> vars_le c c' -> snapshot_of i c'.
Proof.
  intros S V k n E. destruct (S k n E) as (p & P & L).
  destruct (V k p P) as (p' & P' & _ & _ & _ & L').
  exists p'. split; [exact P'|lia].
Qed.

Lemma resetVariableIndices_Ok i c a c' :
  resetVariableIndices i c = Ok a c' ->
  c' = set_variables
         (map_imap (fun k p =>
            Some (fst p,
                  match i !! k with
                  | Some n => SymbolicVariable.setIndex n (snd p)
                  | None => snd p
                  end))) c.
Proof.
  unfold resetVariableIndices. destruct (bool_decide _); [|discriminate].
  intros H. injection H as _ <-. reflexivity.
Qed.

(** Taking back a snapshot that was taken at [c0], after steps from [c0]. *)
Lemma Step_reset d d' X c0 c c' i a :
  Step d d' X c0 c ->
  (wf c0 -> snapshot_of i c) ->
  resetVariableIndices i c = Ok a c' ->
  Step d d' X c0 c'.
Proof.
  intros S0 Hs H. apply resetVariableIndices_Ok in H. subst c'.
  destruct S0 as [P C L V W O]. split; try assumption.
  - intros k p E. destruct (V k p E) as (p' & E' & A & B & T & N).
    eexists. split.
    + simpl. rewrite map_lookup_imap, E'. simpl. reflexivity.
    + simpl. destruct (i !! k); simpl; repeat split; assumption.
  - intros W0 k p E. simpl in E. rewrite map_lookup_imap in E.
    destruct (m_variables c !! k) as [q|] eqn:Q; [|discriminate].
    simpl in E. injection E as <-. simpl.
    destruct (i !! k) as [n|] eqn:I.
    + destruct (Hs W0 k n I) as (q' & Q' & Lt).
      rewrite Q in Q'. injection Q' as <-. exact Lt.
    + exact (W W0 k q Q).
Qed.

(** ** Steps from a first state *)

Lemma Steps_from {A} (m : M A) d0 d d' X c0 c a c' :
  Step d0 d X c0 c -> m_functionPath c0 <> [] ->
  Steps m d d' X -> m c = Ok a c' -> Step d0 d' X c0 c'.
Proof.
  intros S0 Hf Hm H. eapply Step_trans; [exact S0|].
  eapply Hm; [|exact H]. eapply Step_inF; eassumption.
Qed.

Lemma Steps_from' {A} (m : M A) d0 d d' X c0 c a c' :
  Step d0 d X c0 c -> m_functionPath c0 <> [] ->
  m c = Ok a c' -> Steps m d d' X -> Step d0 d' X c0 c'.
Proof. intros S0 Hf H Hm. eapply Steps_from; eassumption. Qed.

(** Splits the first call off the sequence [H] and extends the steps [S]
    from the first state by it. *)
Ltac chain S Hf H :=
  let a := fresh "a" in
  let cn := fresh "c" in
  let Hm := fresh "Hm" in
  let S' := fresh "S" in
  apply bind_Ok in H as (a & cn & Hm & H);
  eassert (S' : Step _ _ _ _ cn);
  [ eapply (Steps_from' _ _ _ _ _ _ _ _ _ S Hf Hm); steps
  | clear S; rename S' into S ].

(** A step made under one more path condition, that is dropped after. *)
Lemma Step_pathCondition d d' X c c2 e :
  Step d d' X (set_pathConditions (fun l => l ++ [e]) c) c2 ->
  Step d d' X c (set_pathConditions (@removelast _) c2).
Proof.
  intros [P C L V W O]. split; try assumption.
  simpl. rewrite C. simpl. apply removelast_last.
Qed.

(** A step made inside one more function of the path, that is left after. *)
Lemma Step_functionPath d d' X c c2 f :
  Step d d' X (set_functionPath (fun p => p ++ [f]) c) c2 ->
  Step d d' X c (set_functionPath (@removelast _) c2).
Proof.
  intros [P C L V W O]. split; try assumption.
  simpl. rewrite P. simpl. apply removelast_last.
Qed.

(** ** The induction hypotheses on lists and options of nodes *)

#[universes(polymorphic)]
Lemma list_all_elem {A} (P : A -> Prop) (l : list A) :
  list_all A P l -> forall x, x ∈ l -> P x.
Proof.
  intros H. induction H as [|a Ha l Hl IH]; intros x Hx.
  - inversion Hx.
  - inversion Hx; subst; [exact Ha|apply IH; assumption].
Qed.

#[universes(polymorphic)]
Lemma list_option_all_elem {A} (P : A -> Prop) (l : list (option A)) :
  list_all (option A) (option_all A P) l -> forall x, Some x ∈ l -> P x.
Proof.
  intros H. induction H as [|a Ha l Hl IH]; intros x Hx.
  - inversion Hx.
  - inversion Hx; subst; [inversion Ha; assumption|apply IH; assumption].
Qed.

#[universes(polymorphic)]
Lemma option_all_elem {A} (P : A -> Prop) (o : option A) :
  option_all A P o -> forall x, o = Some x -> P x.
Proof. intros H x ->. inversion H. assumption. Qed.

Section Traversal.

Variable solver : list smt.Call -> smt.Answer.
Variable touchedVariables : ASTNode -> list nat.
Variable formatNumberReadable : Z -> string.
Variable bigint : string -> option Z.

Abbreviation accept_Expression :=
  (accept_Expression solver touchedVariables formatNumberReadable bigint).
Abbreviation accept_Statement :=
  (accept_Statement solver touchedVariables formatNumberReadable bigint).
Abbreviation accept_VariableDeclaration :=
  (accept_VariableDeclaration solver touchedVariables formatNumberReadable bigint).
Abbreviation accept_FunctionDefinition :=
  (accept_FunctionDefinition solver touchedVariables formatNumberReadable bigint).
Abbreviation accept_ModifierInvocation :=
  (accept_ModifierInvocation solver touchedVariables formatNumberReadable bigint).

Lemma Steps_visitBranch (accept : Statement -> M unit) s cond d X :
  Steps (accept s) d d X -> Steps (visitBranch accept s cond) d d X.
Proof.
  intros Hs c a c' Hf H. unfold visitBranch in H.
  apply bind_Ok in H as (i & c0 & H0 & H). apply gets_Ok in H0 as [-> ->].
  apply bind_Ok in H as (u1 & c1 & H1 & H).
  apply bind_Ok in H as (u2 & c2 & H2 & H).
  apply bind_Ok in H as (u3 & c3 & H3 & H).
  apply bind_Ok in H as (iA & c4 & H4 & H). apply gets_Ok in H4 as [-> ->].
  apply bind_Ok in H as (u5 & c5 & H5 & H). apply ret_Ok in H as [<- <-].
  assert (S3 : Step d d X c c3).
  { destruct cond as [e|].
    - unfold pushPathCondition in H1.
      apply bind_Ok in H1 as (p & cp & Hp & H1). apply gets_Ok in Hp as [-> ->].
      apply modify_Ok in H1. subst c1.
      unfold popPathCondition in H3.
      apply bind_Ok in H3 as (n & cn & Hn & H3). apply gets_Ok in Hn as [-> ->].
      apply bind_Ok in H3 as (u & cu & Hu & H3). apply solAssert_Ok in Hu as [_ ->].
      apply modify_Ok in H3. subst c3.
      eapply Step_pathCondition. eapply Hs; [|exact H2]. exact Hf.
    - apply ret_Ok in H1 as [_ <-]. apply ret_Ok in H3 as [_ <-].
      eapply Hs; [|exact H2]. exact Hf. }
  eapply Step_reset; [exact S3| |exact H5].
  intros W. eapply snapshot_of_le; [apply snapshot_of_copy; exact W|].
  apply S3.
Qed.

Lemma Steps_visit_IfStatement aE aS cond t f d X :
  Steps (aE cond) d d X ->
  Steps (aS t) d d X ->
  (forall f', f = Some f' -> Steps (aS f') d d X) ->
  Steps (visit_IfStatement solver touchedVariables formatNumberReadable bigint
           aE aS cond t f) d d X.
Proof.
  intros HE HT HF. unfold visit_IfStatement.
  pose proof (Steps_visitBranch aS t) as HBT.
  eapply Steps_bind; [exact HE|intros ?].
  eapply Steps_bind; [steps|intros ?].
  eapply Steps_bind; [steps|intros ?].
  eapply Steps_bind; [steps|intros ?].
  eapply Steps_bind; [apply Steps_visitBranch; exact HT|intros ?].
  eapply Steps_bind; [|intros ?; steps].
  destruct f as [f'|]; [|steps].
  eapply Steps_bind; [steps|intros ?].
  eapply Steps_bind; [apply Steps_visitBranch; apply HF; reflexivity|intros ?].
  steps.
Qed.

Lemma Steps_visit_WhileStatement aE aS node cond body isDoWhile d X :
  Steps (aE cond) d d X ->
  Steps (aS body) d d X ->
  Steps (visit_WhileStatement solver touchedVariables formatNumberReadable bigint
           aE aS node cond body isDoWhile) d d X.
Proof.
  intros HE HB c a c' Hf H. unfold visit_WhileStatement in H.
  apply bind_Ok in H as (i & q0 & H0 & H). apply gets_Ok in H0 as [-> ->].
  pose proof (Step_refl d X c) as St.
  chain St Hf H.
  apply bind_Ok in H as (iA & q1 & H1 & H).
  assert (S1 : Step d d X c q1).
  { eapply (Steps_from' _ _ _ _ _ _ _ _ _ St Hf H1).
    pose proof (Steps_visitBranch aS body) as HVB.
    destruct isDoWhile.
    - eapply Steps_bind; [apply HVB; exact HB|intros ?].
      eapply Steps_bind; [exact HE|intros ?]. steps.
    - eapply Steps_bind; [exact HE|intros ?].
      eapply Steps_bind; [steps|intros ?].
      eapply Steps_bind; [steps|intros ?].
      eapply Steps_bind; [steps|intros ?].
      apply HVB; exact HB. }
  clear St.
  apply bind_Ok in H as (u & q2 & H2 & H).
  assert (S2 : Step d d X c q2).
  { eapply Step_reset; [exact S1| |exact H2].
    intros W. eapply snapshot_of_le; [apply snapshot_of_copy; exact W|].
    apply S1. }
  clear S1.
  eapply (Steps_from' _ _ _ _ _ _ _ _ _ S2 Hf H).
  eapply Steps_bind; [apply Steps_when; exact HE|intros ?]. steps.
Qed.

Lemma Steps_visit_ForStatement aE aS init cond loopExpr body d X :
  (forall s, init = Some s -> Steps (aS s) d d X) ->
  (forall e, cond = Some e -> Steps (aE e) d d X) ->
  (forall e, cond = Some e -> Steps (aE e) (S d) (S d) X) ->
  (forall s, loopExpr = Some s -> Steps (aS s) (S d) (S d) X) ->
  Steps (aS body) (S d) (S d) X ->
  Steps (visit_ForStatement solver touchedVariables formatNumberReadable bigint
           aE aS init cond loopExpr body) d d X.
Proof.
  intros HI HC HC' HL HB c a c' Hf H. unfold visit_ForStatement in H.
  apply bind_Ok in H as (u0 & q0 & H0 & H).
  assert (S0 : Step d d X c q0).
  { eapply (Steps_from' _ _ _ _ _ _ _ _ _ (Step_refl d X c) Hf H0).
    destruct init; [apply HI; reflexivity|steps]. }
  assert (Hf0 : m_functionPath q0 <> []) by (eapply Step_inF; eassumption).
  eapply Step_trans; [exact S0|]. clear H0 S0 Hf c.
  apply bind_Ok in H as (i & c & Hi & H). apply gets_Ok in Hi as [-> ->].
  pose proof (Step_refl d X q0) as St.
  chain St Hf0 H.
  apply bind_Ok in H as (u1 & q1 & H1 & H).
  assert (S1 : Step d d X q0 q1).
  { eapply (Steps_from' _ _ _ _ _ _ _ _ _ St Hf0 H1).
    destruct cond; [|steps].
    eapply Steps_bind; [apply HC; reflexivity|intros ?]. steps. }
  clear St. rename S1 into St.
  chain St Hf0 H.
  apply bind_Ok in H as (u2 & q2 & H2 & H).
  assert (S2 : Step d (S d) X q0 q2).
  { eapply (Steps_from' _ _ _ _ _ _ _ _ _ St Hf0 H2).
    destruct cond; steps. }
  clear St. rename S2 into St.
  apply bind_Ok in H as (u3 & q3 & H3 & H).
  assert (S3 : Step d (S d) X q0 q3).
  { eapply (Steps_from' _ _ _ _ _ _ _ _ _ St Hf0 H3). exact HB. }
  clear St. rename S3 into St.
  apply bind_Ok in H as (u4 & q4 & H4 & H).
  assert (S4 : Step d (S d) X q0 q4).
  { eapply (Steps_from' _ _ _ _ _ _ _ _ _ St Hf0 H4).
    destruct loopExpr; [apply HL; reflexivity|steps]. }
  clear St. rename S4 into St.
  chain St Hf0 H.
  apply bind_Ok in H as (iA & q5 & H5 & H). apply gets_Ok in H5 as [-> ->].
  apply bind_Ok in H as (u6 & q6 & H6 & H).
  assert (S6 : Step d d X q0 q6).
  { eapply Step_reset; [exact St| |exact H6].
    intros W. eapply snapshot_of_le; [apply snapshot_of_copy; exact W|].
    apply St. }
  clear St.
  eapply (Steps_from' _ _ _ _ _ _ _ _ _ S6 Hf0 H).
  eapply Steps_bind; [|intros ?; steps].
  destruct cond; [apply HC; reflexivity|steps].
Qed.

(** *** Calls of functions of the program *)

Definition referredDirectly (e : Expression) : option FunctionDefinition :=
  match e with
  | Identifier _ _ (FunctionRef f) => Some f
  | MemberAccess _ _ _ (FunctionRef f) => Some f
  | _ => None
  end.

Definition referred (e : Expression) : option FunctionDefinition :=
  match e with
  | TupleExpression _ _ [Some c] => referredDirectly c
  | TupleExpression _ _ _ => None
  | _ => referredDirectly e
  end.

Lemma Steps_inlineFunctionDefinition (acceptFunction : M unit) n called f args d X :
  Node.id n ∈ X ->
  Steps acceptFunction d d X ->
  Steps (inlineFunctionDefinition acceptFunction n called f args) d d X.
Proof. intros HX HA. unfold inlineFunctionDefinition. steps. Qed.

Lemma Steps_inlineFunctionCall (accept : FunctionDefinition -> M unit) n e args d X :
  Node.id n ∈ X ->
  (forall f, referred e = Some f -> Steps (accept f) d d X) ->
  Steps (inlineFunctionCall accept n e args) d d X.
Proof.
  intros HX HA. unfold inlineFunctionCall.
  assert (HD : forall c, (forall f, referredDirectly c = Some f ->
                            Steps (accept f) d d X) ->
            Steps
              (match c with
               | Identifier _ _ r | MemberAccess _ _ _ r =>
                   match r with
                   | FunctionRef _funDef =>
                       inlineFunctionDefinition (accept _funDef) n c _funDef args
                   | _ => throw InternalCompilerError
                   end
               | _ =>
                   warning (Some (Node.location n))
                     "Assertion checker does not yet implement this type of function call." []
               end) d d X).
  { intros c Hc. destruct c; try solve [steps].
    - destruct referencedDeclaration; try solve [steps].
      apply Steps_inlineFunctionDefinition; [exact HX|].
      apply Hc. reflexivity.
    - destruct referencedDeclaration; try solve [steps].
      apply Steps_inlineFunctionDefinition; [exact HX|].
      apply Hc. reflexivity. }
  destruct e as [| | | | |? ? components| | | |];
    try (lazymatch type of HA with
         | forall f, referred ?e = _ -> _ => apply (HD e); exact HA
         end).
  destruct components as [|[c|] [|? ?]]; try solve [steps].
Qed.

Lemma Steps_endVisit_FunctionCall (accept : FunctionDefinition -> M unit)
  n k e args d X :
  Node.id n ∈ X ->
  (forall f, referred e = Some f -> Steps (accept f) d d X) ->
  Steps (endVisit_FunctionCall solver formatNumberReadable bigint accept n k e args)
    d d X.
Proof.
  intros HX HA. unfold endVisit_FunctionCall.
  pose proof (Steps_inlineFunctionCall accept n e args d X HX HA).
  steps.
Qed.

(** *** A function visited from a call *)

Lemma Steps_listAccept {A} (l : list A) (accept : A -> M unit) d X :
  (forall x, x ∈ l -> Steps (accept x) d d X) -> Steps (listAccept l accept) d d X.
Proof. apply Steps_forEach. Qed.

Lemma Steps_acceptOption {A} (o : option A) (accept : A -> M unit) d X :
  (forall x, o = Some x -> Steps (accept x) d d X) ->
  Steps (acceptOption accept o) d d X.
Proof. intros H. destruct o; simpl; [apply H; reflexivity|apply Steps_ret]. Qed.

Lemma not_root_in_call (c : SMTChecker) (f : FunctionDefinition) :
  m_functionPath c <> [] ->
  Nat.eqb (length (m_functionPath c ++ [f])) 1 = false.
Proof.
  intros Hf. apply Nat.eqb_neq. rewrite length_app. simpl.
  destruct (m_functionPath c); [congruence|simpl; lia].
Qed.

Lemma Steps_function_called (children : M unit) f d X :
  Steps children d d X ->
  Steps (descend <- visit_FunctionDefinition f ;;
         when descend children ;;
         endVisit_FunctionDefinition) d d X.
Proof.
  intros HC c a c' Hf H.
  apply bind_Ok in H as (b & q4 & H0 & H).
  unfold visit_FunctionDefinition in H0.
  apply bind_Ok in H0 as (u1 & q1 & H1 & H0).
  assert (S1 : Step d d X c q1).
  { eapply (Steps_from' _ _ _ _ _ _ _ _ _ (Step_refl d X c) Hf H1). steps. }
  eapply Step_trans; [exact S1|].
  assert (Hf1 : m_functionPath q1 <> []) by (eapply Step_inF; eassumption).
  clear H1 S1 Hf c.
  apply bind_Ok in H0 as (u2 & q2 & H2 & H0). apply modify_Ok in H2. subst q2.
  apply bind_Ok in H0 as (root & q3 & H3 & H0). apply gets_Ok in H3 as [-> ->].
  simpl in H0. rewrite (not_root_in_call q1 f Hf1) in H0. simpl in H0.
  apply bind_Ok in H0 as (u3 & q3 & H3 & H0). apply ret_Ok in H3 as [_ <-].
  apply ret_Ok in H0 as [<- <-]. simpl in H.
  apply bind_Ok in H as (u5 & q5 & H5 & H).
  unfold endVisit_FunctionDefinition in H.
  apply bind_Ok in H as (root & q6 & H6 & H). apply gets_Ok in H6 as [-> ->].
  assert (S5 : Step d d X (set_functionPath (fun p => p ++ [f]) q1) q5).
  { eapply HC; [|exact H5]. simpl. intros E. apply app_eq_nil in E as [_ E].
    discriminate. }
  assert (R : Nat.eqb (length (m_functionPath q5)) 1 = false).
  { destruct S5 as [P _ _ _ _ _]. rewrite P. simpl.
    apply not_root_in_call. exact Hf1. }
  rewrite R in H. simpl in H.
  apply bind_Ok in H as (u7 & q7 & H7 & H). apply ret_Ok in H7 as [_ <-].
  apply modify_Ok in H. subst c'.
  eapply Step_functionPath. exact S5.
Qed.

(** *** Every node *)

Lemma ids_list_subseteq {A} (f : A -> gset nat) (l : list A) x :
  x ∈ l -> f x ⊆ ⋃ (f <$> l).
Proof.
  intros Hx. induction l as [|y l IH]; [inversion Hx|].
  simpl. inversion Hx; subst; [apply union_subseteq_l|].
  etransitivity; [apply IH; assumption|apply union_subseteq_r].
Qed.

Lemma ids_option_list_subseteq {A} (f : A -> gset nat) (l : list (option A)) x :
  Some x ∈ l -> f x ⊆ ⋃ (from_option f ∅ <$> l).
Proof.
  intros Hx.
  apply (ids_list_subseteq (from_option f ∅) l (Some x) Hx).
Qed.

Definition Steps_Expression (e : Expression) : Prop :=
  forall d X, ids_Expression e ⊆ X -> Steps (accept_Expression e) d d X.
Definition Steps_Statement (s : Statement) : Prop :=
  forall d X, ids_Statement s ⊆ X -> Steps (accept_Statement s) d d X.
Definition Steps_VariableDeclaration (v : VariableDeclarationNode) : Prop :=
  forall d X, ids_VariableDeclaration v ⊆ X ->
    Steps (accept_VariableDeclaration v) d d X.
Definition Steps_FunctionDefinition (f : FunctionDefinition) : Prop :=
  forall d X, ids_FunctionDefinition f ⊆ X ->
    Steps (accept_FunctionDefinition f) d d X.
Definition Steps_ModifierInvocation (m : ModifierInvocation) : Prop :=
  forall d X, ids_ModifierInvocation m ⊆ X ->
    Steps (accept_ModifierInvocation m) d d X.

Lemma Steps_option_Expression (o : option Expression) d X :
  (forall x, o = Some x -> Steps_Expression x) ->
  from_option ids_Expression ∅ o ⊆ X ->
  Steps (acceptOption accept_Expression o) d d X.
Proof.
  intros H HX. apply Steps_acceptOption. intros x ->. apply H; [reflexivity|exact HX].
Qed.

Lemma Steps_list_Expression (l : list Expression) d X :
  (forall x, x ∈ l -> Steps_Expression x) ->
  ⋃ (ids_Expression <$> l) ⊆ X ->
  Steps (listAccept l accept_Expression) d d X.
Proof.
  intros H HX. apply Steps_listAccept. intros x Hx. apply H; [exact Hx|].
  etransitivity; [apply ids_list_subseteq; exact Hx|exact HX].
Qed.

Lemma referredDirectly_referred e f :
  referredDirectly e = Some f -> referred e = Some f.
Proof. destruct e; simpl; try discriminate; trivial. Qed.

Lemma referred_ids e f :
  referred e = Some f -> ids_FunctionDefinition f ⊆ ids_Expression e.
Proof.
  assert (D : forall c, referredDirectly c = Some f ->
                ids_FunctionDefinition f ⊆ ids_Expression c).
  { intros c. destruct c; simpl; try discriminate.
    - destruct referencedDeclaration; try discriminate.
      intros E. injection E as ->. simpl. set_solver.
    - destruct referencedDeclaration; try discriminate.
      intros E. injection E as ->. simpl. set_solver. }
  destruct e as [| | | | |? ? components| | | |]; try apply D.
  simpl. destruct components as [|[c|] [|? ?]]; try discriminate.
  intros E. apply D in E. simpl. set_solver.
Qed.

Definition Steps_referred (e : Expression) : Prop :=
  forall f, referred e = Some f -> Steps_FunctionDefinition f.

Theorem Steps_accept :
  (forall e, Steps_Expression e /\ Steps_referred e) /\
  (forall r f, r = FunctionRef f -> Steps_FunctionDefinition f) /\
  (forall s, Steps_Statement s) /\
  (forall v, Steps_VariableDeclaration v) /\
  (forall f, Steps_FunctionDefinition f) /\
  (forall m, Steps_ModifierInvocation m).
Proof.
  apply (AST_mutind
           (fun e => Steps_Expression e /\ Steps_referred e)
           (fun r => forall f, r = FunctionRef f -> Steps_FunctionDefinition f)
           Steps_Statement Steps_VariableDeclaration
           Steps_FunctionDefinition Steps_ModifierInvocation).
  - (* Literal *)
    intros n tok z. split; [|intros f E; discriminate].
    intros d X HX. simpl in *. apply Steps_endVisit_Literal. set_solver.
  - (* Identifier *)
    intros n name r IH. split.
    + intros d X HX. simpl in *. apply Steps_endVisit_Identifier. set_solver.
    + intros f E. simpl in E. destruct r; try discriminate.
      injection E as ->. apply (IH f). reflexivity.
  - (* UnaryOperation *)
    intros n op pre sub [IH _]. split; [|intros f E; discriminate].
    intros d X HX. simpl in *.
    eapply Steps_bind; [apply IH; set_solver|intros _].
    apply Steps_endVisit_UnaryOperation. set_solver.
  - (* BinaryOperation *)
    intros n op ty l [IHl _] r [IHr _]. split; [|intros f E; discriminate].
    intros d X HX. simpl in *.
    eapply Steps_bind; [apply IHl; set_solver|intros _].
    eapply Steps_bind; [apply IHr; set_solver|intros _].
    apply Steps_endVisit_BinaryOperation. set_solver.
  - (* Assignment *)
    intros n op l [IHl _] r [IHr _]. split; [|intros f E; discriminate].
    intros d X HX. simpl in *.
    eapply Steps_bind; [apply IHl; set_solver|intros _].
    eapply Steps_bind; [apply IHr; set_solver|intros _].
    apply Steps_endVisit_Assignment. set_solver.
  - (* TupleExpression *)
    intros n b cs IH.
    pose proof (list_option_all_elem _ _ IH) as IH'. clear IH. split.
    + intros d X HX. simpl in *.
      eapply Steps_bind; [|intros _; apply Steps_endVisit_TupleExpression; set_solver].
      apply Steps_listAccept. intros o Ho. apply Steps_acceptOption.
      intros x ->. apply (IH' x Ho).
      pose proof (ids_option_list_subseteq ids_Expression cs x Ho). set_solver.
    + intros f E. simpl in E. destruct cs as [|[c|] [|? ?]]; try discriminate.
      apply (IH' c); [left|]. apply referredDirectly_referred. exact E.
  - (* FunctionCall *)
    intros n k e [IHe IHr] args IH.
    pose proof (list_all_elem _ _ IH) as IH'. clear IH.
    split; [|intros f E; discriminate].
    intros d X HX. simpl in *.
    eapply Steps_bind; [apply IHe; set_solver|intros _].
    eapply Steps_bind.
    { apply Steps_list_Expression; [|set_solver]. intros x Hx. apply IH'. exact Hx. }
    intros _. apply Steps_endVisit_FunctionCall; [set_solver|].
    intros f E. apply (IHr f E). pose proof (referred_ids e f E). set_solver.
  - (* MemberAccess *)
    intros n e [IHe _] name r IH. split.
    + intros d X HX. simpl in *.
      eapply Steps_bind; [apply Steps_visit_MemberAccess; set_solver|intros ?].
      apply Steps_when. apply IHe. set_solver.
    + intros f E. simpl in E. destruct r; try discriminate.
      injection E as ->. apply (IH f). reflexivity.
  - (* IndexAccess *)
    intros n b [IHb _] i IHi. split; [|intros f E; discriminate].
    pose proof (option_all_elem _ _ IHi) as IHi'. clear IHi.
    intros d X HX. simpl in *.
    eapply Steps_bind; [apply IHb; set_solver|intros _].
    eapply Steps_bind.
    { apply Steps_option_Expression; [|set_solver]. intros x E. apply (IHi' x E). }
    intros _. apply Steps_endVisit_IndexAccess. set_solver.
  - (* OtherExpression *)
    intros n cs IH. pose proof (list_all_elem _ _ IH) as IH'. clear IH.
    split; [|intros f E; discriminate].
    intros d X HX. simpl in *.
    apply Steps_list_Expression; [|set_solver]. intros x Hx. apply IH'. exact Hx.
  - (* VariableRef *) intros v f E. discriminate.
  - (* FunctionRef *) intros f IH g E. injection E as <-. exact IH.
  - (* OtherDeclaration *) intros f E. discriminate.
  - (* Block *)
    intros ss IH. pose proof (list_all_elem _ _ IH) as IH'. clear IH.
    intros d X HX. simpl in *. apply Steps_listAccept. intros x Hx.
    apply IH'; [exact Hx|].
    pose proof (ids_list_subseteq ids_Statement ss x Hx). set_solver.
  - (* ExpressionStatement *)
    intros e [IH _] d X HX. simpl in *. apply IH. exact HX.
  - (* IfStatement *)
    intros c [IHc _] t IHt f IHf.
    pose proof (option_all_elem _ _ IHf) as IHf'. clear IHf.
    intros d X HX. simpl in *.
    eapply Steps_bind.
    { apply Steps_visit_IfStatement.
      - apply IHc. set_solver.
      - apply IHt. set_solver.
      - intros f' ->. apply (IHf' f'); [reflexivity|]. simpl in HX. set_solver. }
    intros ?. apply Steps_when.
    eapply Steps_bind; [apply IHc; set_solver|intros _].
    eapply Steps_bind; [apply IHt; set_solver|intros _].
    apply Steps_acceptOption. intros f' ->.
    apply (IHf' f'); [reflexivity|]. simpl in HX. set_solver.
  - (* WhileStatement *)
    intros c [IHc _] b IHb isDo d X HX. simpl in *.
    eapply Steps_bind.
    { apply Steps_visit_WhileStatement; [apply IHc|apply IHb]; set_solver. }
    intros ?. apply Steps_when.
    eapply Steps_bind; [apply IHc; set_solver|intros _].
    apply IHb. set_solver.
  - (* ForStatement *)
    intros i IHi c IHc l IHl b IHb.
    pose proof (option_all_elem _ _ IHi) as IHi'. clear IHi.
    pose proof (option_all_elem _ _ IHc) as IHc'. clear IHc.
    pose proof (option_all_elem _ _ IHl) as IHl'. clear IHl.
    intros d X HX. simpl in *.
    eapply Steps_bind.
    { apply Steps_visit_ForStatement.
      - intros s ->. apply (IHi' s); [reflexivity|]. simpl in HX. set_solver.
      - intros e ->. apply (IHc' e); [reflexivity|]. simpl in HX. set_solver.
      - intros e ->. apply (IHc' e); [reflexivity|]. simpl in HX. set_solver.
      - intros s ->. apply (IHl' s); [reflexivity|]. simpl in HX. set_solver.
      - apply IHb. set_solver. }
    intros ?. apply Steps_when.
    eapply Steps_bind.
    { apply Steps_acceptOption. intros s ->.
      apply (IHi' s); [reflexivity|]. simpl in HX. set_solver. }
    intros _. eapply Steps_bind.
    { apply Steps_acceptOption. intros e ->.
      apply (IHc' e); [reflexivity|]. simpl in HX. set_solver. }
    intros _. eapply Steps_bind.
    { apply Steps_acceptOption. intros s ->.
      apply (IHl' s); [reflexivity|]. simpl in HX. set_solver. }
    intros _. apply IHb. set_solver.
  - (* VariableDeclarationStatement *)
    intros loc ds IHd v IHv.
    pose proof (list_option_all_elem _ _ IHd) as IHd'. clear IHd.
    pose proof (option_all_elem _ _ IHv) as IHv'. clear IHv.
    intros d X HX. simpl in *.
    eapply Steps_bind.
    { apply Steps_listAccept. intros o Ho. apply Steps_acceptOption.
      intros x ->. apply (IHd' x Ho).
      pose proof (ids_option_list_subseteq ids_VariableDeclaration ds x Ho).
      set_solver. }
    intros _. eapply Steps_bind.
    { apply Steps_option_Expression; [|set_solver].
      intros x E. apply (IHv' x E). }
    intros _. apply Steps_endVisit_VariableDeclarationStatement.
  - (* Return *)
    intros loc e IHe. pose proof (option_all_elem _ _ IHe) as IHe'. clear IHe.
    intros d X HX. simpl in *.
    eapply Steps_bind.
    { apply Steps_option_Expression; [|set_solver].
      intros x E. apply (IHe' x E). }
    intros _. apply Steps_endVisit_Return.
  - (* OtherStatement *)
    intros cs IH. pose proof (list_all_elem _ _ IH) as IH'. clear IH.
    intros d X HX. simpl in *.
    apply Steps_list_Expression; [|set_solver]. intros x Hx. apply IH'. exact Hx.
  - (* VariableDeclarationNode *)
    intros decl v IHv. pose proof (option_all_elem _ _ IHv) as IHv'. clear IHv.
    intros d X HX. simpl in *.
    eapply Steps_bind.
    { apply Steps_option_Expression; [|set_solver].
      intros x E. apply (IHv' x E). }
    intros _. apply Steps_endVisit_VariableDeclaration.
  - (* FunctionDefinition *)
    intros id loc isC ps IHp rs IHr ms IHm ls b IHb.
    pose proof (list_all_elem _ _ IHp) as IHp'. clear IHp.
    pose proof (list_all_elem _ _ IHr) as IHr'. clear IHr.
    pose proof (list_all_elem _ _ IHm) as IHm'. clear IHm.
    pose proof (option_all_elem _ _ IHb) as IHb'. clear IHb.
    intros d X HX.
    change (Steps
              (descend <- visit_FunctionDefinition
                            (mkFunctionDefinition id loc isC ps rs ms ls b) ;;
               when descend
                 (listAccept ps accept_VariableDeclaration ;;
                  listAccept rs accept_VariableDeclaration ;;
                  listAccept ms accept_ModifierInvocation ;;
                  acceptOption accept_Statement b) ;;
               endVisit_FunctionDefinition) d d X).
    apply Steps_function_called. simpl in HX.
    eapply Steps_bind.
    { apply Steps_listAccept. intros x Hx. apply IHp'; [exact Hx|].
      pose proof (ids_list_subseteq ids_VariableDeclaration ps x Hx). set_solver. }
    intros _. eapply Steps_bind.
    { apply Steps_listAccept. intros x Hx. apply IHr'; [exact Hx|].
      pose proof (ids_list_subseteq ids_VariableDeclaration rs x Hx). set_solver. }
    intros _. eapply Steps_bind.
    { apply Steps_listAccept. intros x Hx. apply IHm'; [exact Hx|].
      pose proof (ids_list_subseteq ids_ModifierInvocation ms x Hx). set_solver. }
    intros _. apply Steps_acceptOption. intros s ->.
    apply (IHb' s); [reflexivity|]. simpl in HX. set_solver.
  - (* ModifierInvocation *)
    intros name [IHn _] args IH.
    pose proof (list_all_elem _ _ IH) as IH'. clear IH.
    intros d X HX. simpl in *.
    eapply Steps_bind; [apply IHn; set_solver|intros _].
    apply Steps_list_Expression; [|set_solver]. intros x Hx. apply IH'. exact Hx.
Qed.

End Traversal.

(** ** Members that a function leaves as they are *)

Lemma Keeps_ret {T A} (f : SMTChecker -> T) (a : A) : Keeps f (ret a).
Proof. intros c b c' H. mstep H. reflexivity. Qed.

Lemma Keeps_bind {T A B} (f : SMTChecker -> T) (m : M A) (k : A -> M B) :
  Keeps f m -> (forall a, Keeps f (k a)) -> Keeps f (bind m k).
Proof.
  intros Hm Hk c b c'' H. mstep H.
  rewrite (Hk _ _ _ _ H). exact (Hm _ _ _ H0).
Qed.

Lemma Keeps_gets {T A} (f : SMTChecker -> T) (g : SMTChecker -> A) : Keeps f (gets g).
Proof. intros c b c' H. mstep H. reflexivity. Qed.

Lemma Keeps_throw {T A} (f : SMTChecker -> T) e : Keeps f (@throw A e).
Proof. intros c b c' H. mstep H. Qed.

Lemma Keeps_solAssert {T} (f : SMTChecker -> T) b : Keeps f (solAssert b).
Proof. intros c a c' H. mstep H. reflexivity. Qed.

Lemma Keeps_solUnimplementedAssert {T} (f : SMTChecker -> T) b :
  Keeps f (solUnimplementedAssert b).
Proof. intros c a c' H. mstep H. reflexivity. Qed.

Lemma Keeps_modify {T} (f : SMTChecker -> T) g :
  (forall c, f (g c) = f c) -> Keeps f (modify g).
Proof. intros Hg c a c' H. mstep H. apply Hg. Qed.

Lemma Keeps_when {T} (f : SMTChecker -> T) b m : Keeps f m -> Keeps f (when b m).
Proof. intros H. destruct b; simpl; [exact H|apply Keeps_ret]. Qed.

Lemma Keeps_forEach {T A} (f : SMTChecker -> T) (l : list A) (g : A -> M unit) :
  (forall x, Keeps f (g x)) -> Keeps f (forEach l g).
Proof.
  intros H. induction l as [|x l IH].
  - apply Keeps_ret.
  - change (forEach (x :: l) g) with (bind (g x) (fun _ => forEach l g)).
    apply Keeps_bind; [apply H|intros _; exact IH].
Qed.

Lemma Keeps_mapM {T A B} (f : SMTChecker -> T) (g : A -> M B) (l : list A) :
  (forall x, Keeps f (g x)) -> Keeps f (mapM g l).
Proof.
  intros H. induction l as [|x l IH]; simpl.
  - apply Keeps_ret.
  - apply Keeps_bind; [apply H|intros y].
    apply Keeps_bind; [exact IH|intros ys; apply Keeps_ret].
Qed.

Lemma Keeps_variableAt {T} (f : SMTChecker -> T) k : Keeps f (variableAt k).
Proof.
  intros c a c' H. unfold variableAt in H.
  destruct (m_variables c !! k); [|discriminate]. injection H as _ <-. reflexivity.
Qed.

Lemma Keeps_globalAt {T} (f : SMTChecker -> T) g : Keeps f (globalAt g).
Proof. intros c a c' H. apply globalAt_Ok in H as ->. reflexivity. Qed.

Lemma Keeps_expressionAt {T} (f : SMTChecker -> T) n : Keeps f (expressionAt n).
Proof. intros c a c' H. apply expressionAt_Ok in H as ->. reflexivity. Qed.

Lemma Keeps_indexAt {T} (f : SMTChecker -> T) i k : Keeps f (indexAt i k).
Proof.
  unfold indexAt. destruct (i !! k); [apply Keeps_ret|apply Keeps_throw].
Qed.

Lemma Keeps_increaseExpressionIndex {T} (f : SMTChecker -> T) n :
  (forall g c, f (set_expressions g c) = f c) ->
  (forall g c, f (set_globalContext g c) = f c) ->
  Keeps f (increaseExpressionIndex n).
Proof.
  intros H1 H2 c a c' H. unfold increaseExpressionIndex in H.
  destruct (m_expressions c !! Node.id n) as [[w|g]|]; [| |discriminate].
  - injection H as _ <-. apply H1.
  - destruct (m_globalContext c !! g); [|discriminate].
    injection H as _ <-. apply H2.
Qed.

Lemma Keeps_resetVariableIndices {T} (f : SMTChecker -> T) i :
  (forall g c, f (set_variables g c) = f c) ->
  Keeps f (resetVariableIndices i).
Proof.
  intros H1 c a c' H. apply resetVariableIndices_Ok in H as ->. apply H1.
Qed.

Create HintDb keeps discriminated.

#[export] Hint Resolve Keeps_ret Keeps_gets Keeps_throw Keeps_solAssert
  Keeps_solUnimplementedAssert Keeps_variableAt Keeps_globalAt
  Keeps_expressionAt Keeps_indexAt : keeps.

(** Follows the shape of a member function, as [steps] does. *)
Ltac keeps :=
  repeat
    first
      [ solve [eauto 3 with keeps nocore]
      | apply Keeps_when
      | apply Keeps_forEach; intros ?
      | apply Keeps_mapM; intros ?
      | apply Keeps_modify; intros ?; reflexivity
      | apply Keeps_increaseExpressionIndex; intros ? ?; reflexivity
      | apply Keeps_resetVariableIndices; intros ? ?; reflexivity
      | lazymatch goal with
        | |- Keeps _ (bind _ _) => apply Keeps_bind; [|intros ?]
        | |- Keeps _ (match ?x with _ => _ end) => destruct x eqn:?
        | |- Keeps _ (let _ := _ in _) => cbv zeta
        | |- Keeps _ (knownVariable _) => apply Keeps_gets
        | |- Keeps _ (knownExpr _) => apply Keeps_gets
        | |- Keeps _ (knownGlobalSymbol _) => apply Keeps_gets
        | |- Keeps _ copyVariableIndices => apply Keeps_gets
        | |- Keeps _ isRootFunction => apply Keeps_gets
        | |- Keeps _ (visitedFunction _) => apply Keeps_gets
        | |- Keeps _ currentPathConditions => apply Keeps_gets
        | |- Keeps _ loopComment => apply Keeps_gets
        | |- Keeps _ (warning _ _ _) => unfold warning
        | |- Keeps _ (interface _) => unfold interface
        | |- Keeps _ (currentValue _) => unfold currentValue
        | |- Keeps _ (valueAtIndex _ _) => unfold valueAtIndex
        | |- Keeps _ (newValue _) => unfold newValue
        | |- Keeps _ (addAssertions _) => unfold addAssertions
        | |- Keeps _ (setZeroValue_var _) => unfold setZeroValue_var
        | |- Keeps _ (setUnknownValue_var _) => unfold setUnknownValue_var
        | |- Keeps _ (setZeroValue _) => unfold setZeroValue
        | |- Keeps _ (setUnknownValue _) => unfold setUnknownValue
        | |- Keeps _ (setSymbolicUnknownValue _ _) => unfold setSymbolicUnknownValue
        | |- Keeps _ (createVariable _) => unfold createVariable
        | |- Keeps _ (resetVariables _) => unfold resetVariables
        | |- Keeps _ (createExpr _) => unfold createExpr
        | |- Keeps _ (expr _) => unfold expr
        | |- Keeps _ (defineExpr _ _) => unfold defineExpr
        | |- Keeps _ (addPathConjoinedExpression _) => unfold addPathConjoinedExpression
        | |- Keeps _ (addPathImpliedExpression _) => unfold addPathImpliedExpression
        | |- Keeps _ (mergeVariable _ _ _ _) => unfold mergeVariable
        | |- Keeps _ (mergeVariables _ _ _ _) => unfold mergeVariables
        end ].

(** ** What [expr] and [defineExpr] give *)

Lemma expr_known n c e c' :
  expr n c = Ok e c' ->
  is_Some (m_expressions c !! Node.id n) ->
  c' = c /\ exists v, expressionAt n c = Ok v c /\ e = SymbolicVariable.currentValue v.
Proof.
  intros H K. unfold expr in H. mstep H. mstep H0.
  rewrite bool_decide_eq_true_2 in H by exact K. simpl in H.
  mstep H. mstep H0. mstep H.
  pose proof (expressionAt_Ok _ _ _ _ H0) as ->. mstep H.
  split; [reflexivity|]. exists a. split; [exact H0|reflexivity].
Qed.

Lemma expr_value n c e c' :
  expr n c = Ok e c' ->
  exists v, expressionAt n c' = Ok v c' /\ e = SymbolicVariable.currentValue v.
Proof.
  intros H. unfold expr in H.
  apply bind_Ok in H as (k & c1 & _ & H).
  apply bind_Ok in H as (u & c2 & _ & H).
  apply bind_Ok in H as (v & c3 & Hv & H).
  apply ret_Ok in H as [<- <-].
  pose proof (expressionAt_Ok _ _ _ _ Hv) as ->.
  exists v. split; [exact Hv|reflexivity].
Qed.

Lemma createExpr_known n c a c' :
  createExpr n c = Ok a c' -> is_Some (m_expressions c' !! Node.id n).
Proof.
  intros H. unfold createExpr in H. mstep H. mstep H0.
  destruct (bool_decide (is_Some (m_expressions c !! Node.id n))) eqn:K.
  - apply bool_decide_eq_true in K. unfold increaseExpressionIndex in H.
    destruct (m_expressions c !! Node.id n) as [[w|g]|] eqn:E.
    + injection H as _ <-. simpl. rewrite lookup_insert_eq. eexists. reflexivity.
    + destruct (m_globalContext c !! g); [|discriminate].
      injection H as _ <-. simpl. rewrite E. eexists. reflexivity.
    + discriminate.
  - mstep H. mstep H0.
    assert (Keeps m_expressions
              (when (fst (newSymbolicVariable (Node.type n)
                            ("expr_" +:+ to_string (Node.id n))))
                 (warning (Some (Node.location n))
                    "Assertion checker does not yet implement this type." [])))
      as Kp by keeps.
    rewrite (Kp _ _ _ H). simpl. rewrite lookup_insert_eq. eexists. reflexivity.
Qed.

Lemma expressionAt_same n c c0 v :
  m_expressions c0 = m_expressions c ->
  m_globalContext c0 = m_globalContext c ->
  expressionAt n c = Ok v c -> expressionAt n c0 = Ok v c0.
Proof.
  unfold expressionAt, globalAt. intros -> ->.
  destruct (m_expressions c !! Node.id n) as [[w|g]|]; try discriminate.
  - intros H. injection H as ->. reflexivity.
  - destruct (m_globalContext c !! g); [|discriminate].
    intros H. injection H as ->. reflexivity.
Qed.

(** [defineExpr] ends with one assertion: the current value of the node's
    variable equals the value given. *)
Lemma defineExpr_Ok n value c a c' :
  defineExpr n value c = Ok a c' ->
  exists v,
    expressionAt n c' = Ok v c' /\
    m_interface c' =
      m_interface c ++
        [smt.addAssertion (smt.Eq (SymbolicVariable.currentValue v) value)].
Proof.
  intros H. unfold defineExpr in H.
  apply bind_Ok in H as (u1 & c1 & H1 & H).
  apply bind_Ok in H as (u2 & c2 & H2 & H). apply solAssert_Ok in H2 as [_ ->].
  apply bind_Ok in H as (e & c3 & H3 & H).
  apply modify_Ok in H. subst c'.
  pose proof (createExpr_known _ _ _ _ H1) as K.
  destruct (expr_known _ _ _ _ H3 K) as (-> & v & Hv & ->).
  exists v. split.
  - eapply expressionAt_same; [| |exact Hv]; reflexivity.
  - simpl. assert (Keeps m_interface (createExpr n)) as Kp by keeps.
    rewrite (Kp _ _ _ H1). reflexivity.
Qed.

(** ** Warnings are only added *)

Lemma Warns_of_Keeps {A} (m : M A) : Keeps m_errorReporter m -> Warns m.
Proof.
  intros K c a c' H. exists []. rewrite (K _ _ _ H). symmetry. apply app_nil_r.
Qed.

Lemma Warns_bind {A B} (m : M A) (k : A -> M B) :
  Warns m -> (forall a, Warns (k a)) -> Warns (bind m k).
Proof.
  intros Hm Hk c b c'' H. mstep H.
  destruct (Hm _ _ _ H0) as (w1 & E1). destruct (Hk _ _ _ _ H) as (w2 & E2).
  exists (w1 ++ w2). rewrite E2, E1. symmetry. apply app_assoc.
Qed.

Lemma Warns_warning loc msg sec : Warns (warning loc msg sec).
Proof. intros c a c' H. mstep H. eexists. reflexivity. Qed.

Lemma Warns_when b m : Warns m -> Warns (when b m).
Proof.
  intros H. destruct b; simpl; [exact H|].
  apply Warns_of_Keeps, Keeps_ret.
Qed.

Lemma Warns_forEach {A} (l : list A) (g : A -> M unit) :
  (forall x, Warns (g x)) -> Warns (forEach l g).
Proof.
  intros H. induction l as [|x l IH].
  - apply Warns_of_Keeps, Keeps_ret.
  - change (forEach (x :: l) g) with (bind (g x) (fun _ => forEach l g)).
    apply Warns_bind; [apply H|intros _; exact IH].
Qed.

Lemma Warns_mapM {A B} (g : A -> M B) (l : list A) :
  (forall x, Warns (g x)) -> Warns (mapM g l).
Proof.
  intros H. induction l as [|x l IH]; simpl.
  - apply Warns_of_Keeps, Keeps_ret.
  - apply Warns_bind; [apply H|intros y].
    apply Warns_bind; [exact IH|intros ys; apply Warns_of_Keeps, Keeps_ret].
Qed.

Ltac warns :=
  repeat
    first
      [ apply Warns_warning
      | solve [apply Warns_of_Keeps; keeps]
      | apply Warns_when
      | apply Warns_forEach; intros ?
      | apply Warns_mapM; intros ?
      | lazymatch goal with
        | |- Warns (bind _ _) => apply Warns_bind; [|intros ?]
        | |- Warns (match ?x with _ => _ end) => destruct x eqn:?
        | |- Warns (let _ := _ in _) => cbv zeta
        | |- Warns (createVariable _) => unfold createVariable
        | |- Warns (createExpr _) => unfold createExpr
        | |- Warns (expr _) => unfold expr
        | |- Warns (defineExpr _ _) => unfold defineExpr
        end ].

Lemma Warns_expr n : Warns (expr n).
Proof. warns. Qed.

Lemma Warns_defineExpr n v : Warns (defineExpr n v).
Proof. warns. Qed.

(** ** Assertions in force *)

Lemma scopes_app log ext :
  smt.scopes (log ++ ext) = fold_left smt.step ext (smt.scopes log).
Proof. unfold smt.scopes. apply fold_left_app. Qed.

(** While no scope below is closed, the scopes below keep their assertions. *)
Lemma scopes_balance ext : forall d k extra sc rest,
  balance d ext = Some k ->
  length extra = d ->
  exists extra' added,
    length extra' = k /\
    fold_left smt.step ext (extra ++ sc :: rest) = extra' ++ (sc ++ added) :: rest.
Proof.
  induction ext as [|c ext IH]; intros d k extra sc rest B L; simpl in B.
  - injection B as <-. exists extra, []. simpl. rewrite app_nil_r.
    split; [exact L|reflexivity].
  - destruct c; simpl.
    + discriminate.
    + apply (IH (S d) k ([] :: extra) sc rest B). simpl. rewrite L. reflexivity.
    + destruct d as [|d]; [discriminate|].
      destruct extra as [|e extra]; [discriminate|]. simpl in L.
      injection L as L.
      destruct extra as [|e2 extra]; simpl.
      * apply (IH d k [] sc rest B L).
      * apply (IH d k (e2 :: extra) sc rest B L).
    + destruct extra as [|e' extra]; simpl.
      * simpl in L. subst d.
        destruct (IH 0 k [] (sc ++ [e]) rest B eq_refl) as (x & added & Lx & Ex).
        exists x, ([e] ++ added). split; [exact Lx|].
        simpl in Ex. rewrite Ex. rewrite <- app_assoc. reflexivity.
      * apply (IH d k ((e' ++ [e]) :: extra) sc rest B). exact L.
    + destruct d as [|d]; [discriminate|].
      apply (IH (S d) k extra sc rest B L).
Qed.

Lemma scopes_nonempty log : smt.scopes log <> [].
Proof.
  unfold smt.scopes.
  assert (H : forall st, st <> [] -> fold_left smt.step log st <> []).
  { induction log as [|c log IH]; intros st Hst; simpl; [exact Hst|].
    apply IH. destruct c; simpl; try discriminate; try exact Hst.
    - destruct st as [|? [|? ?]]; [congruence|discriminate|discriminate].
    - destruct st; discriminate. }
  apply H. discriminate.
Qed.

(** An assertion in force stays in force along calls that close no scope
    that was open and do not reset the solver. *)
Lemma assertion_in_force log a ext k :
  In a (smt.assertions log) ->
  balance 0 ext = Some k ->
  In a (smt.assertions (log ++ ext)).
Proof.
  unfold smt.assertions. intros Ha B. rewrite scopes_app.
  destruct (smt.scopes log) as [|sc rest] eqn:E.
  { exfalso. exact (scopes_nonempty log E). }
  destruct (scopes_balance ext 0 k [] sc rest B eq_refl) as (x & added & _ & Ex).
  simpl in Ex. rewrite Ex.
  rewrite concat_app. simpl. apply in_or_app. right.
  simpl in Ha. apply in_app_or in Ha as [Ha|Ha].
  - apply in_or_app. left. apply in_or_app. left. exact Ha.
  - apply in_or_app. right. exact Ha.
Qed.

Lemma assertion_added log a :
  In a (smt.assertions (log ++ [smt.addAssertion a])).
Proof.
  unfold smt.assertions. rewrite scopes_app. simpl.
  destruct (smt.scopes log) as [|sc rest] eqn:E.
  { exfalso. exact (scopes_nonempty log E). }
  simpl. apply in_or_app. left. apply in_or_app. right. left. reflexivity.
Qed.

(** The depth after a stretch that opens and closes its own scopes only. *)
Lemma depth_balance log ext k :
  balance 0 ext = Some k -> smt.depth (log ++ ext) = smt.depth log + k.
Proof.
  unfold smt.depth. intros B. rewrite scopes_app.
  destruct (smt.scopes log) as [|sc rest] eqn:E.
  { exfalso. exact (scopes_nonempty log E). }
  destruct (scopes_balance ext 0 k [] sc rest B eq_refl) as (x & added & Lx & Ex).
  simpl in Ex. rewrite Ex. rewrite length_app. simpl. lia.
Qed.

(** * Division *)

Lemma eval_signed_division m L R l r :
  smt.eval m L = Some (smt.VInt l) ->
  smt.eval m R = Some (smt.VInt r) ->
  r <> 0%Z ->
  smt.eval m
    (smt.Ite
       (smt.Ge L (smt.IntLit 0))
       (smt.Ite (smt.Ge R (smt.IntLit 0))
          (smt.Div L R)
          (smt.Sub (smt.IntLit 0) (smt.Div L (smt.Sub (smt.IntLit 0) R))))
       (smt.Ite (smt.Ge R (smt.IntLit 0))
          (smt.Sub (smt.IntLit 0) (smt.Div (smt.Sub (smt.IntLit 0) L) R))
          (smt.Div (smt.Sub (smt.IntLit 0) L) (smt.Sub (smt.IntLit 0) R))))
  = Some (smt.VInt (Z.quot l r)).
Proof.
  intros HL HR Hr. simpl. rewrite HL, HR. simpl.
  destruct (Z.geb_spec l 0) as [Hl|Hl]; destruct (Z.geb_spec r 0) as [Hr'|Hr'];
    simpl; rewrite ?HL, ?HR; simpl; do 2 f_equal.
  - symmetry. apply Z.quot_div_nonneg; lia.
  - rewrite <- (Z.quot_div_nonneg l (0 - r)) by lia.
    replace (0 - r)%Z with (- r)%Z by lia.
    rewrite Z.quot_opp_r by lia. lia.
  - rewrite <- (Z.quot_div_nonneg (0 - l) r) by lia.
    replace (0 - l)%Z with (- l)%Z by lia.
    rewrite Z.quot_opp_l by lia. lia.
  - rewrite <- (Z.quot_div_nonneg (0 - l) (0 - r)) by lia.
    replace (0 - l)%Z with (- l)%Z by lia.
    replace (0 - r)%Z with (- r)%Z by lia.
    apply Z.quot_opp_opp. lia.
Qed.

(** * The queries *)

Section Queries.

Variable solver : list smt.Call -> smt.Answer.
Variable formatNumberReadable : Z -> string.
Variable bigint : string -> option Z.

Abbreviation checkSatisfiableAndGenerateModel :=
  (checkSatisfiableAndGenerateModel solver formatNumberReadable bigint).
Abbreviation checkSatisfiable :=
  (checkSatisfiable solver formatNumberReadable bigint).
Abbreviation checkCondition :=
  (checkCondition solver formatNumberReadable bigint).
Abbreviation checkBooleanNotConstant :=
  (checkBooleanNotConstant solver formatNumberReadable bigint).

Lemma checkSatisfiableAndGenerateModel_Ok es c r c' :
  checkSatisfiableAndGenerateModel es c = Ok r c' ->
  let query := m_interface c ++ [smt.check es] in
  fst r = resultOf (solver query) /\
  m_interface c' = query /\
  m_errorReporter c' = m_errorReporter c ++ solverErrorWarnings (solver query) /\
  m_pathConditions c' = m_pathConditions c /\
  m_functionPath c' = m_functionPath c /\
  m_loopExecutionHappened c' = m_loopExecutionHappened c /\
  m_arrayAssignmentHappened c' = m_arrayAssignmentHappened c /\
  m_variables c' = m_variables c /\
  m_expressions c' = m_expressions c /\
  m_globalContext c' = m_globalContext c.
Proof.
  intros H. unfold checkSatisfiableAndGenerateModel in H.
  apply bind_Ok in H as (a & c1 & H1 & H).
  unfold interface_check in H1. injection H1 as <- <-.
  destruct (solver (m_interface c ++ [smt.check es])) as [res values|comment] eqn:A;
    cbv zeta; rewrite A.
  - apply ret_Ok in H as [<- <-]. simpl.
    rewrite app_nil_r. repeat split; reflexivity.
  - apply bind_Ok in H as (u & c2 & H2 & H). apply modify_Ok in H2. subst c2.
    apply ret_Ok in H as [<- <-]. simpl. repeat split; reflexivity.
Qed.

Lemma checkSatisfiable_Ok c r c' :
  checkSatisfiable c = Ok r c' ->
  let query := m_interface c ++ [smt.check []] in
  r = resultOf (solver query) /\
  m_interface c' = query /\
  m_errorReporter c' = m_errorReporter c ++ solverErrorWarnings (solver query) /\
  m_pathConditions c' = m_pathConditions c /\
  m_functionPath c' = m_functionPath c /\
  m_variables c' = m_variables c /\
  m_expressions c' = m_expressions c /\
  m_globalContext c' = m_globalContext c.
Proof.
  intros H. unfold checkSatisfiable in H.
  apply bind_Ok in H as (p & c1 & H1 & H). apply ret_Ok in H as [<- <-].
  apply checkSatisfiableAndGenerateModel_Ok in H1.
  cbv zeta in *. intuition.
Qed.

Lemma Keeps_expressionsToEvaluate {T} (f : SMTChecker -> T) name v :
  (forall g c, f (set_expressions g c) = f c) ->
  (forall g c, f (set_globalContext g c) = f c) ->
  (forall g c, f (set_errorReporter g c) = f c) ->
  Keeps f (expressionsToEvaluate name v).
Proof.
  intros F1 F2 F3. unfold expressionsToEvaluate.
  assert (HE : forall n, Keeps f (expr n)).
  { intros n. unfold expr, createExpr, warning.
    repeat first
      [ solve [eauto 3 with keeps nocore]
      | apply Keeps_when
      | apply Keeps_modify; intros ?; first [apply F1|apply F2|apply F3]
      | apply Keeps_increaseExpressionIndex; assumption
      | lazymatch goal with
        | |- Keeps _ (bind _ _) => apply Keeps_bind; [|intros ?]
        | |- Keeps _ (match ?x with _ => _ end) => destruct x eqn:?
        | |- Keeps _ (let _ := _ in _) => cbv zeta
        | |- Keeps _ (knownExpr _) => apply Keeps_gets
        end ]. }
  apply Keeps_bind; [apply Keeps_gets|intros sc].
  destruct sc; [|apply Keeps_throw].
  apply Keeps_bind; [apply Keeps_gets|intros ?].
  apply Keeps_bind; [apply Keeps_gets|intros ?].
  apply Keeps_bind; [apply Keeps_gets|intros ?].
  apply Keeps_bind; [|intros ?; apply Keeps_ret].
  apply Keeps_mapM. intros x.
  apply Keeps_bind; [apply HE|intros ?; apply Keeps_ret].
Qed.

Definition undefinedWarning (w : Warning) : Prop :=
  w_message w = "Internal error: Expression undefined for SMT solver." \/
  w_message w = "Assertion checker does not yet implement this type.".

Lemma expr_grows n c e c' :
  expr n c = Ok e c' ->
  m_expressions c ⊆ m_expressions c' /\ m_globalContext c' = m_globalContext c.
Proof.
  intros H. unfold expr in H.
  apply bind_Ok in H as (k & c1 & H1 & H). apply gets_Ok in H1 as [-> ->].
  apply bind_Ok in H as (u & c2 & H2 & H).
  apply bind_Ok in H as (v & c3 & H3 & H). apply ret_Ok in H as [_ <-].
  apply expressionAt_Ok in H3 as ->.
  destruct (bool_decide (is_Some (m_expressions c !! Node.id n))) eqn:K;
    simpl in H2.
  - apply ret_Ok in H2 as [_ <-]. split; reflexivity.
  - apply known_false in K.
    apply bind_Ok in H2 as (u1 & c4 & H4 & H2). apply modify_Ok in H4. subst c4.
    unfold createExpr in H2.
    apply bind_Ok in H2 as (k & c5 & H5 & H2). apply gets_Ok in H5 as [-> ->].
    simpl in H2. rewrite K in H2. simpl in H2.
    apply bind_Ok in H2 as (u2 & c6 & H6 & H2). apply modify_Ok in H6. subst c6.
    assert (E : m_expressions c2 = <[Node.id n :=
                  Own (snd (newSymbolicVariable (Node.type n)
                              ("expr_" +:+ to_string (Node.id n))))]>
                  (m_expressions c) /\
                m_globalContext c2 = m_globalContext c).
    { destruct (fst (newSymbolicVariable _ _)); simpl in H2.
      - apply modify_Ok in H2. subst c2. split; reflexivity.
      - apply ret_Ok in H2 as [_ <-]. split; reflexivity. }
    destruct E as [-> ->]. split; [|reflexivity].
    apply insert_subseteq. exact K.
Qed.

Lemma expressionsToEvaluate_grows name v c ev c' :
  expressionsToEvaluate name v c = Ok ev c' ->
  m_expressions c ⊆ m_expressions c' /\ m_globalContext c' = m_globalContext c.
Proof.
  intros H. unfold expressionsToEvaluate in H.
  apply bind_Ok in H as (sc & d1 & G1 & H). apply gets_Ok in G1 as [-> ->].
  destruct (m_scanner c) as [sourceAt|]; [|discriminate].
  apply bind_Ok in H as (vars & d2 & G2 & H). apply gets_Ok in G2 as [-> ->].
  apply bind_Ok in H as (globals & d3 & G3 & H). apply gets_Ok in G3 as [-> ->].
  apply bind_Ok in H as (ufs & d4 & G4 & H). apply gets_Ok in G4 as [-> ->].
  apply bind_Ok in H as (ufValues & d5 & G5 & H). apply ret_Ok in H as [_ <-].
  revert G5. generalize (List.filter
    (fun uf : nat * Node.t => isValueType (Node.type (snd uf)))
    (map_to_list (m_uninterpretedTerms c))).
  intros l. revert c ufValues. induction l as [|x l IH]; intros c ufValues G5.
  - simpl in G5. apply ret_Ok in G5 as [_ <-]. split; reflexivity.
  - simpl in G5.
    apply bind_Ok in G5 as (y & e1 & E1 & G5).
    apply bind_Ok in E1 as (e & e2 & E2 & E1). apply ret_Ok in E1 as [_ <-].
    apply bind_Ok in G5 as (ys & e3 & E3 & G5). apply ret_Ok in G5 as [_ <-].
    destruct (expr_grows _ _ _ _ E2) as (S1 & G1).
    destruct (IH _ _ E3) as (S2 & G2).
    split; [etransitivity; eassumption|congruence].
Qed.

Lemma expr_warnings n c e c' :
  expr n c = Ok e c' ->
  exists ws, m_errorReporter c' = m_errorReporter c ++ ws /\
             Forall undefinedWarning ws.
Proof.
  intros H. unfold expr in H.
  apply bind_Ok in H as (k & c1 & H1 & H). apply gets_Ok in H1 as [-> ->].
  apply bind_Ok in H as (u & c2 & H2 & H).
  apply bind_Ok in H as (v & c3 & H3 & H). apply ret_Ok in H as [_ <-].
  apply expressionAt_Ok in H3 as ->.
  destruct (bool_decide (is_Some (m_expressions c !! Node.id n))) eqn:K;
    simpl in H2.
  - apply ret_Ok in H2 as [_ <-]. exists []. split; [symmetry; apply app_nil_r|].
    constructor.
  - apply bind_Ok in H2 as (u1 & c4 & H4 & H2). apply modify_Ok in H4. subst c4.
    unfold createExpr in H2.
    apply bind_Ok in H2 as (k & c5 & H5 & H2). apply gets_Ok in H5 as [-> ->].
    simpl in H2. rewrite K in H2.
    apply bind_Ok in H2 as (u2 & c6 & H6 & H2). apply modify_Ok in H6. subst c6.
    destruct (fst (newSymbolicVariable _ _)); simpl in H2.
    + apply modify_Ok in H2. subst c2. simpl. eexists. split.
      * rewrite <- app_assoc. reflexivity.
      * simpl. constructor; [left; reflexivity|].
        constructor; [right; reflexivity|constructor].
    + apply ret_Ok in H2 as [_ <-]. simpl. eexists. split; [reflexivity|].
      constructor; [left; reflexivity|constructor].
Qed.

Lemma expressionsToEvaluate_warnings name v c ev c' :
  expressionsToEvaluate name v c = Ok ev c' ->
  exists ws, m_errorReporter c' = m_errorReporter c ++ ws /\
             Forall undefinedWarning ws.
Proof.
  intros H. unfold expressionsToEvaluate in H.
  apply bind_Ok in H as (sc & d1 & G1 & H). apply gets_Ok in G1 as [-> ->].
  destruct (m_scanner c) as [sourceAt|]; [|discriminate].
  apply bind_Ok in H as (vars & d2 & G2 & H). apply gets_Ok in G2 as [-> ->].
  apply bind_Ok in H as (globals & d3 & G3 & H). apply gets_Ok in G3 as [-> ->].
  apply bind_Ok in H as (ufs & d4 & G4 & H). apply gets_Ok in G4 as [-> ->].
  apply bind_Ok in H as (ufValues & d5 & G5 & H). apply ret_Ok in H as [_ <-].
  revert G5. generalize (List.filter
    (fun uf : nat * Node.t => isValueType (Node.type (snd uf)))
    (map_to_list (m_uninterpretedTerms c))).
  intros l. revert c ufValues. induction l as [|x l IH]; intros c ufValues G5.
  - simpl in G5. apply ret_Ok in G5 as [_ <-]. exists [].
    split; [symmetry; apply app_nil_r|constructor].
  - simpl in G5.
    apply bind_Ok in G5 as (y & e1 & E1 & G5).
    apply bind_Ok in E1 as (e & e2 & E2 & E1). apply ret_Ok in E1 as [_ <-].
    apply bind_Ok in G5 as (ys & e3 & E3 & G5). apply ret_Ok in G5 as [_ <-].
    destruct (expr_warnings _ _ _ _ E2) as (w1 & W1 & F1).
    destruct (IH _ _ E3) as (w2 & W2 & F2).
    exists (w1 ++ w2). split.
    + rewrite W2, W1. symmetry. apply app_assoc.
    + apply Forall_app. split; assumption.
Qed.

(** [checkCondition] opens a scope, asserts the path condition and the
    goal, asks, reports and closes the scope, whatever the answer. *)
Lemma checkCondition_Ok cond loc descr name v c a c' :
  checkCondition cond loc descr name v c = Ok a c' ->
  exists evaluated,
    let pc := List.last (m_pathConditions c) (smt.BoolLit true) in
    let query :=
      m_interface c ++
        [smt.push; smt.addAssertion (smt.And pc cond);
         smt.check (fst <$> evaluated)] in
    m_interface c' = query ++ [smt.pop] /\
    (m_functionPath c <> [] ->
       exists rest,
         evaluated =
           match v with Some x => [(x, name)] | None => [] end ++ rest) /\
    m_pathConditions c' = m_pathConditions c /\
    m_functionPath c' = m_functionPath c /\
    m_variables c' = m_variables c /\
    m_expressions c ⊆ m_expressions c' /\
    m_globalContext c' = m_globalContext c /\
    (m_functionPath c <> [] ->
       match goalMessage descr (resultOf (solver query)) with
       | Some msg =>
           exists ws sec, m_errorReporter c' = ws ++ [mkWarning (Some loc) msg sec]
       | None =>
           exists ws, m_errorReporter c' = m_errorReporter c ++ ws /\
             Forall undefinedWarning ws
       end).
Proof.
  intros H. unfold checkCondition in H.
  apply bind_Ok in H as (u1 & c1 & H1 & H). apply modify_Ok in H1. subst c1.
  apply bind_Ok in H as (u2 & c2 & H2 & H).
  unfold addPathConjoinedExpression in H2.
  apply bind_Ok in H2 as (pc & c2' & Hp & H2). apply gets_Ok in Hp as [-> ->].
  apply modify_Ok in H2. subst c2.
  apply bind_Ok in H as (inF & c3 & H3 & H). apply gets_Ok in H3 as [-> ->].
  apply bind_Ok in H as (evaluated & c4 & H4 & H).
  apply bind_Ok in H as (r & c5 & H5 & H).
  apply bind_Ok in H as (comment & c6 & H6 & H). apply gets_Ok in H6 as [-> ->].
  apply bind_Ok in H as (u7 & c7 & H7 & H). apply modify_Ok in H. subst c'.
  exists evaluated. cbv zeta.
  set (cB := set_interface _ (set_interface _ c)) in *.
  assert (K4 : m_interface c4 = m_interface cB /\
               m_pathConditions c4 = m_pathConditions cB /\
               m_functionPath c4 = m_functionPath cB /\
               m_variables c4 = m_variables cB).
  { destruct (negb (Nat.eqb (length (m_functionPath cB)) 0)).
    - repeat split;
        (eapply Keeps_expressionsToEvaluate; [| | |exact H4]; intros; reflexivity).
    - apply ret_Ok in H4 as [_ <-]. repeat split; reflexivity. }
  destruct K4 as (K4i & K4p & K4f & K4v).
  assert (G4 : m_expressions cB ⊆ m_expressions c4 /\
               m_globalContext c4 = m_globalContext cB).
  { destruct (negb (Nat.eqb (length (m_functionPath cB)) 0)).
    - eapply expressionsToEvaluate_grows; exact H4.
    - apply ret_Ok in H4 as [_ <-]. split; reflexivity. }
  destruct G4 as (G4e & G4g).
  apply checkSatisfiableAndGenerateModel_Ok in H5. cbv zeta in H5.
  destruct H5 as (R5 & I5 & W5 & P5 & F5 & _ & _ & V5 & X5 & Y5).
  rewrite K4i in I5, R5, W5. simpl in I5, R5, W5.
  rewrite <- app_assoc in I5, R5, W5. simpl in I5, R5, W5.
  rewrite <- app_assoc in I5, R5, W5. simpl in I5, R5, W5.
  assert (K7 : m_interface c7 = m_interface c5 /\
               m_pathConditions c7 = m_pathConditions c5 /\
               m_functionPath c7 = m_functionPath c5 /\
               m_variables c7 = m_variables c5 /\
               m_expressions c7 = m_expressions c5 /\
               m_globalContext c7 = m_globalContext c5).
  { destruct (fst r);
      repeat match type of H7 with
        | (if ?b then _ else _) _ = _ => destruct b
        end;
      repeat split;
      try (apply ret_Ok in H7 as [_ <-]; reflexivity);
      match goal with
      | |- ?f c7 = ?f c5 =>
          assert (Kp : forall m, m c5 = Ok u7 c7 -> Keeps f m -> f c7 = f c5)
            by (intros m Hm Km; exact (Km _ _ _ Hm));
          eapply Kp; [exact H7|]; keeps
      end. }
  destruct K7 as (K7i & K7p & K7f & K7v & K7e & K7g).
  split; [simpl; rewrite K7i, I5; rewrite <- app_assoc; reflexivity|].
  split.
  { intros Hf.
    assert (E : negb (Nat.eqb (length (m_functionPath cB)) 0) = true).
    { simpl. destruct (m_functionPath c); [congruence|reflexivity]. }
    rewrite E in H4. unfold expressionsToEvaluate in H4.
    apply bind_Ok in H4 as (sc & d1 & G1 & H4). apply gets_Ok in G1 as [-> ->].
    destruct (m_scanner cB); [|discriminate].
    apply bind_Ok in H4 as (vars & d2 & G2 & H4).
    apply bind_Ok in H4 as (globals & d3 & G3 & H4).
    apply bind_Ok in H4 as (ufs & d4 & G4 & H4).
    apply bind_Ok in H4 as (ufValues & d5 & G5 & H4).
    apply ret_Ok in H4 as [<- _]. eexists. reflexivity. }
  split; [simpl; rewrite K7p, P5, K4p; reflexivity|].
  split; [simpl; rewrite K7f, F5, K4f; reflexivity|].
  split; [simpl; rewrite K7v, V5, K4v; reflexivity|].
  split; [simpl; rewrite K7e, X5; exact G4e|].
  split; [simpl; rewrite K7g, Y5, G4g; reflexivity|].
  intros Hf.
  assert (E : negb (Nat.eqb (length (m_functionPath cB)) 0) = true).
  { simpl. destruct (m_functionPath c); [congruence|reflexivity]. }
  rewrite E in H7. rewrite <- R5. simpl m_errorReporter.
  destruct (fst r); simpl.
  - apply bind_Ok in H7 as (u8 & c8 & H8 & H7).
    apply solAssert_Ok in H8 as [_ ->]. apply modify_Ok in H7. subst c7.
    simpl. eexists _, _. reflexivity.
  - apply ret_Ok in H7 as [_ <-]. rewrite W5.
    assert (solverErrorWarnings
              (solver (m_interface c ++
                 [smt.push;
                  smt.addAssertion
                    (smt.And (List.last (m_pathConditions c) (smt.BoolLit true)) cond);
                  smt.check (fst <$> evaluated)])) = []) as ->.
    { destruct (solver _); [reflexivity|discriminate R5]. }
    rewrite app_nil_r. rewrite E in H4.
    apply expressionsToEvaluate_warnings in H4. exact H4.
  - apply modify_Ok in H7. subst c7. simpl. eexists _, _. reflexivity.
  - apply modify_Ok in H7. subst c7. simpl. eexists _, _. reflexivity.
  - apply modify_Ok in H7. subst c7. simpl. eexists _, _. reflexivity.
Qed.

Lemma checkBooleanNotConstant_Ok cond template c a c' :
  checkBooleanNotConstant cond template c = Ok a c' ->
  if isLiteral cond then c' = c
  else
    exists e c1,
      expr cond (set_interface (fun log => log ++ [smt.push]) c) = Ok e c1 /\
      let pc := List.last (m_pathConditions c) (smt.BoolLit true) in
      let q1 :=
        m_interface c ++
          [smt.push; smt.addAssertion (smt.And pc e); smt.check []] in
      let q2 :=
        q1 ++ [smt.pop; smt.push; smt.addAssertion (smt.And pc (smt.Not e));
               smt.check []] in
      m_interface c' = q2 ++ [smt.pop] /\
      m_errorReporter c' =
        m_errorReporter c1 ++
        solverErrorWarnings (solver q1) ++
        solverErrorWarnings (solver q2) ++
        match notConstantDiagnostic template
                (resultOf (solver q1)) (resultOf (solver q2)) with
        | Some msg => [mkWarning (Some (Node.location cond)) msg []]
        | None => []
        end /\
      m_pathConditions c' = m_pathConditions c /\
      m_functionPath c' = m_functionPath c /\
      m_variables c' = m_variables c /\
      m_expressions c' = m_expressions c1 /\
      m_globalContext c' = m_globalContext c1.
Proof.
  intros H. unfold checkBooleanNotConstant in H.
  destruct (isLiteral cond); [apply ret_Ok in H as [_ <-]; reflexivity|].
  apply bind_Ok in H as (u1 & d1 & H1 & H). apply modify_Ok in H1. subst d1.
  apply bind_Ok in H as (e & c1 & He & H).
  exists e, c1. split; [exact He|]. cbv zeta.
  assert (Ki : m_interface c1 = m_interface c ++ [smt.push]).
  { assert (Keeps m_interface (expr cond)) as Kp by keeps.
    rewrite (Kp _ _ _ He). reflexivity. }
  assert (Kp : m_pathConditions c1 = m_pathConditions c).
  { assert (Keeps m_pathConditions (expr cond)) as Kp by keeps.
    rewrite (Kp _ _ _ He). reflexivity. }
  assert (Kf : m_functionPath c1 = m_functionPath c).
  { assert (Keeps m_functionPath (expr cond)) as Kf by keeps.
    rewrite (Kf _ _ _ He). reflexivity. }
  assert (Kv : m_variables c1 = m_variables c).
  { assert (Keeps m_variables (expr cond)) as Kv by keeps.
    rewrite (Kv _ _ _ He). reflexivity. }
  destruct (expr_value _ _ _ _ He) as (v & Hv & Ev).
  apply bind_Ok in H as (u2 & d2 & H2 & H).
  unfold addPathConjoinedExpression in H2.
  apply bind_Ok in H2 as (pc & d2' & Hp & H2). apply gets_Ok in Hp as [-> ->].
  apply modify_Ok in H2. subst d2.
  apply bind_Ok in H as (pos & d3 & H3 & H).
  apply checkSatisfiable_Ok in H3. cbv zeta in H3. simpl in H3.
  destruct H3 as (-> & I3 & W3 & P3 & F3 & V3 & X3 & G3).
  apply bind_Ok in H as (u4 & d4 & H4 & H). apply modify_Ok in H4. subst d4.
  apply bind_Ok in H as (u5 & d5 & H5 & H). apply modify_Ok in H5. subst d5.
  apply bind_Ok in H as (e' & d6 & H6 & H).
  set (dd := set_interface (fun log => log ++ [smt.push])
               (set_interface (fun log => log ++ [smt.pop]) d3)) in *.
  assert (K6 : is_Some (m_expressions dd !! Node.id cond)).
  { simpl. rewrite X3. unfold expressionAt in Hv.
    destruct (m_expressions c1 !! Node.id cond); [eexists; reflexivity|discriminate]. }
  destruct (expr_known _ _ _ _ H6 K6) as (-> & v' & Hv' & ->).
  assert (v' = v) as ->.
  { assert (E : expressionAt cond dd = Ok v dd).
    { eapply expressionAt_same; [| |exact Hv]; simpl; assumption. }
    rewrite E in Hv'. injection Hv' as ->. reflexivity. }
  subst dd.
  apply bind_Ok in H as (u7 & d7 & H7 & H).
  unfold addPathConjoinedExpression in H7.
  apply bind_Ok in H7 as (pc & d7' & Hp & H7). apply gets_Ok in Hp as [-> ->].
  apply modify_Ok in H7. subst d7.
  apply bind_Ok in H as (neg & d8 & H8 & H).
  apply checkSatisfiable_Ok in H8. cbv zeta in H8. simpl in H8.
  destruct H8 as (-> & I8 & W8 & P8 & F8 & V8 & X8 & G8).
  apply bind_Ok in H as (u9 & d9 & H9 & H). apply modify_Ok in H9. subst d9.
  rewrite Kp, Ki in *. rewrite P3, I3 in *. clear He K6 Hv. subst e.
  repeat (rewrite <- app_assoc in *; simpl in * ).
  set (q1 := m_interface c ++ [smt.push; _; smt.check []]) in *.
  set (q2 := m_interface c ++ [smt.push; _; smt.check []; smt.pop; smt.push; _; smt.check []]) in *.
  assert (Fin : m_interface c' = m_interface d8 ++ [smt.pop] /\
                m_errorReporter c' = m_errorReporter d8 ++
                  match notConstantDiagnostic template
                          (resultOf (solver q1)) (resultOf (solver q2)) with
                  | Some msg => [mkWarning (Some (Node.location cond)) msg []]
                  | None => []
                  end /\
                m_pathConditions c' = m_pathConditions d8 /\
                m_functionPath c' = m_functionPath d8 /\
                m_variables c' = m_variables d8 /\
                m_expressions c' = m_expressions d8 /\
                m_globalContext c' = m_globalContext d8).
  { destruct (resultOf (solver q1)), (resultOf (solver q2)); simpl in H;
      repeat match type of H with
        | bind _ _ _ = Ok _ _ =>
            let x := fresh in let y := fresh in let E := fresh in
            apply bind_Ok in H as (x & y & E & H);
            first [apply ret_Ok in E as [? ?]|apply solAssert_Ok in E as [? ?]];
            subst
        end;
      first [apply modify_Ok in H|apply ret_Ok in H as [_ H]]; subst c'; simpl;
      rewrite ?app_nil_r; repeat split; reflexivity. }
  destruct Fin as (FI & FW & FP & FF & FV & FX & FG).
  rewrite FI, FW, FP, FF, FV, FX, FG.
  rewrite ?I8, ?W8, ?P8, ?F8, ?V8, ?X8, ?G8.
  rewrite ?W3, ?P3, ?F3, ?V3, ?X3, ?G3, ?Kf, ?Kv.
  subst q1 q2.
  repeat (rewrite <- app_assoc; simpl).
  repeat split; reflexivity.
Qed.

End Queries.

(** * Single hooks *)



(** ** What single operations leave behind *)

Lemma variableAt_Ok k c v c' :
  variableAt k c = Ok v c' ->
  exists p, m_variables c !! k = Some p /\ v = snd p /\ c' = c.
Proof.
  unfold variableAt. destruct (m_variables c !! k) as [p|]; [|discriminate].
  intros H. injection H as <- <-. exists p. repeat split.
Qed.

Ltac variable_steps H :=
  msteps H;
  match goal with
  | V : variableAt _ _ = Ok _ _ |- _ =>
      let p := fresh "p" in
      let E := fresh "E" in
      apply variableAt_Ok in V as (p & E & ? & ?); subst; exists p
  end.

Lemma newValue_Ok k c e c' :
  newValue k c = Ok e c' ->
  exists p,
    m_variables c !! k = Some p /\
    e = SymbolicVariable.currentValue (SymbolicVariable.increaseIndex (snd p)) /\
    c' = set_variables
           (alter (fun p => (fst p, SymbolicVariable.increaseIndex (snd p))) k) c.
Proof. intros H. unfold newValue in H. variable_steps H. repeat split. assumption. Qed.

Lemma valueAtIndex_Ok k i c e c' :
  valueAtIndex k i c = Ok e c' ->
  exists p,
    m_variables c !! k = Some p /\
    e = SymbolicVariable.valueAtIndex (snd p) i /\ c' = c.
Proof. intros H. unfold valueAtIndex in H. variable_steps H. repeat split. assumption. Qed.

Lemma currentValue_Ok k c e c' :
  currentValue k c = Ok e c' ->
  exists p,
    m_variables c !! k = Some p /\
    e = SymbolicVariable.currentValue (snd p) /\ c' = c.
Proof. intros H. unfold currentValue in H. variable_steps H. repeat split. assumption. Qed.

Lemma indexAt_Ok indices k c i c' :
  indexAt indices k c = Ok i c' -> indices !! k = Some i /\ c' = c.
Proof.
  unfold indexAt. destruct (indices !! k); intros H; [|discriminate].
  injection H as <- <-. split; reflexivity.
Qed.

Section Hooks.

Variable solver : list smt.Call -> smt.Answer.
Variable formatNumberReadable : Z -> string.
Variable bigint : string -> option Z.

Abbreviation endVisit_BinaryOperation :=
  (endVisit_BinaryOperation solver formatNumberReadable bigint).
Abbreviation arithmeticOperation :=
  (arithmeticOperation solver formatNumberReadable bigint).
Abbreviation checkCondition := (checkCondition solver formatNumberReadable bigint).
Abbreviation checkUnderOverflow :=
  (checkUnderOverflow solver formatNumberReadable bigint).
Abbreviation visitAssert := (visitAssert solver formatNumberReadable bigint).
Abbreviation visitRequire := (visitRequire solver formatNumberReadable bigint).
Abbreviation checkBooleanNotConstant :=
  (checkBooleanNotConstant solver formatNumberReadable bigint).

(** The value that a division is given. *)
Lemma division_defined n ty l r c a c' :
  isInteger (category ty) = true ->
  endVisit_BinaryOperation n Token.Div (Some ty) l r c = Ok a c' ->
  exists L cl R cr v,
    expr l c = Ok L cl /\ expr r cl = Ok R cr /\
    expressionAt n c' = Ok v c' /\
    List.last (m_interface c') smt.reset =
      smt.addAssertion
        (smt.Eq (SymbolicVariable.currentValue v) (division L R ty)).
Proof.
  intros Hi H. unfold endVisit_BinaryOperation in H. simpl in H.
  unfold arithmeticOperation in H. rewrite Hi in H. simpl in H.
  apply bind_Ok in H as (L & cl & HL & H).
  apply bind_Ok in H as (R & cr & HR & H).
  apply bind_Ok in H as (u1 & c1 & H1 & H).
  apply bind_Ok in H as (u2 & c2 & H2 & H).
  exists L, cl, R, cr.
  destruct (defineExpr_Ok _ _ _ _ _ H) as (v & Hv & E).
  exists v. repeat split; try assumption.
  rewrite E. apply last_last.
Qed.

End Hooks.

(** C3: the value of a division.  For a signed common type it is the case
    split on the signs of the operands, and over the solver's division,
    which rounds toward minus infinity, that term is the quotient rounded
    toward zero whenever the divisor is not zero; for an unsigned common type
    it is the solver's division itself.  A division on an integer common
    type asserts that the node's variable equals this value. *)
Theorem division_rounds_toward_zero (ty : TypePointer) :
  (isSigned ty = true ->
     (forall L R,
        division L R ty =
          smt.Ite
            (smt.Ge L (smt.IntLit 0))
            (smt.Ite (smt.Ge R (smt.IntLit 0))
               (smt.Div L R)
               (smt.Sub (smt.IntLit 0) (smt.Div L (smt.Sub (smt.IntLit 0) R))))
            (smt.Ite (smt.Ge R (smt.IntLit 0))
               (smt.Sub (smt.IntLit 0) (smt.Div (smt.Sub (smt.IntLit 0) L) R))
               (smt.Div (smt.Sub (smt.IntLit 0) L) (smt.Sub (smt.IntLit 0) R)))) /\
     (forall m L R l r,
        smt.eval m L = Some (smt.VInt l) ->
        smt.eval m R = Some (smt.VInt r) ->
        r <> 0%Z ->
        smt.eval m (division L R ty) = Some (smt.VInt (Z.quot l r)))) /\
  (isSigned ty = false -> forall L R, division L R ty = smt.Div L R) /\
  (isInteger (category ty) = true ->
     forall solver formatNumberReadable bigint n l r c c',
       endVisit_BinaryOperation solver formatNumberReadable bigint
         n Token.Div (Some ty) l r c = Ok tt c' ->
       exists L cl R cr v,
         expr l c = Ok L cl /\ expr r cl = Ok R cr /\
         expressionAt n c' = Ok v c' /\
         List.last (m_interface c') smt.reset =
           smt.addAssertion
             (smt.Eq (SymbolicVariable.currentValue v) (division L R ty))).
Proof.
  split; [|split].
  - intros Hs. split.
    + intros L R. unfold division. rewrite Hs. reflexivity.
    + intros m L R l r HL HR Hr. unfold division. rewrite Hs.
      apply eval_signed_division; assumption.
  - intros Hs L R. unfold division. rewrite Hs. reflexivity.
  - intros Hi solver fmt big n l r c c' H.
    eapply division_defined; eassumption.
Qed.

Lemma division_rounds_toward_zero_witness :
  smt.eval (fun _ _ => None) (division (smt.IntLit (-7)) (smt.IntLit 2) Sample.int8)
    = Some (smt.VInt (-3)) /\
  exists c' v,
    expressionAt (Sample.at_ 30 Sample.int8) c' = Ok v c' /\
    List.last (m_interface c') smt.reset =
      smt.addAssertion
        (smt.Eq (SymbolicVariable.currentValue v)
           (division (smt.Symbol "expr_31" 0) (smt.Symbol "expr_32" 0)
              Sample.int8)).
Proof.
  destruct (division_rounds_toward_zero Sample.int8) as (A & _ & C).
  split.
  - apply (proj2 (A eq_refl) (fun _ _ => None) _ _ (-7)%Z 2%Z);
      [reflexivity|reflexivity|lia].
  - pose (c := Sample.after
                 (accept_Expression (Sample.always smt.UNSATISFIABLE)
                    (fun _ => []) Sample.formatNumberReadable Sample.bigint
                    (Sample.number 31 (-7)) ;;
                  accept_Expression (Sample.always smt.UNSATISFIABLE)
                    (fun _ => []) Sample.formatNumberReadable Sample.bigint
                    (Sample.number 32 2))
                 (Sample.inside (Sample.function (Block []) []))).
    destruct (endVisit_BinaryOperation (Sample.always smt.UNSATISFIABLE)
                Sample.formatNumberReadable Sample.bigint
                (Sample.at_ 30 Sample.int8) Token.Div (Some Sample.int8)
                (Sample.number 31 (-7)) (Sample.number 32 2) c)
      as [[] c'|] eqn:E; [|vm_compute in E; discriminate].
    destruct (C eq_refl _ _ _ _ _ _ _ _ E) as (L & cl & R & cr & v & HL & HR & Hv & Hl).
    vm_compute in HL. injection HL as <- <-.
    vm_compute in HR. injection HR as <- <-.
    exists c', v. split; assumption.
Defined.

(** ** Return statements *)

(** C9: a return statement whose expression has a variable, by the number
    of return parameters of the function on top of the path.  One: the
    parameter moves to the next free index of its variable and the equation
    between the expression and the parameter at that index is asserted,
    with no warning.  None: nothing happens.  Two or more: the warning on
    several return values is given and nothing is asserted.  A return
    statement with no expression, or with one that has no variable, does
    nothing. *)
Theorem return_by_parameters location (e : option Expression) c c' function :
  wf c ->
  List.last (Some <$> m_functionPath c) None = Some function ->
  endVisit_Return location e c = Ok tt c' ->
  match e with
  | Some x =>
      if bool_decide (is_Some (m_expressions c !! Node.id x)) then
        match FunctionDefinition_.returnParameters function with
        | [] => c' = c
        | [p] =>
            exists v value,
              m_variables c !! VariableDeclaration.id p = Some v /\
              expr x c = Ok value c /\
              c' = set_interface
                     (fun log =>
                        log ++
                        [smt.addAssertion
                           (smt.Eq value
                              (SymbolicVariable.valueAtIndex (snd v)
                                 (SymbolicVariable.nextFreeIndex (snd v))))])
                     (set_variables
                        (alter (fun q => (fst q, SymbolicVariable.increaseIndex (snd q)))
                           (VariableDeclaration.id p)) c) /\
              SymbolicVariable.index (snd v) < SymbolicVariable.nextFreeIndex (snd v)
        | _ =>
            c' = set_errorReporter
                   (fun ws =>
                      ws ++
                      [mkWarning (Some location)
                         "Assertion checker does not yet support more than one return value."
                         []]) c
        end
      else c' = c
  | None => c' = c
  end.
Proof.
  intros W P H. unfold endVisit_Return in H.
  destruct e as [x|].
  - mstep H. mstep H0.
    destruct (bool_decide (is_Some (m_expressions c !! Node.id x))) eqn:K.
    + simpl in H. mstep H. mstep H0. rewrite P in H.
      destruct (FunctionDefinition_.returnParameters function) as [|p [|p' ps]].
      * mstep H. reflexivity.
      * mstep H. mstep H. apply bool_decide_eq_true_1 in K.
        destruct (expr_known _ _ _ _ H0 K) as (-> & _).
        destruct (newValue_Ok _ _ _ _ H1) as (v & E & -> & ->).
        mstep H. exists v, a. split; [exact E|]. split; [exact H0|].
        split; [reflexivity|exact (W _ _ E)].
      * mstep H. reflexivity.
    + simpl in H. mstep H. reflexivity.
  - mstep H. mstep H0. mstep H. reflexivity.
Qed.

Ltac decide_wf :=
  unfold wf, wf_variable; refine (bool_decide_unpack _ _); vm_compute; exact I.

Lemma return_by_parameters_witness :
  exists c',
    endVisit_Return 7 (Some (Sample.number 50 1)) (Sample.returning [Sample.r])
      = Ok tt c' /\
    m_interface c' =
      m_interface (Sample.returning [Sample.r]) ++
        [smt.addAssertion (smt.Eq (smt.Symbol "expr_50" 0) (smt.Symbol "r_3" 1))].
Proof.
  pose (c := Sample.returning [Sample.r]).
  pose (c' := Sample.after (endVisit_Return 7 (Some (Sample.number 50 1))) c).
  assert (W : wf c) by decide_wf.
  assert (H : endVisit_Return 7 (Some (Sample.number 50 1)) c = Ok tt c')
    by (vm_compute; reflexivity).
  exists c'. split; [exact H|].
  pose proof (return_by_parameters 7 (Some (Sample.number 50 1)) c c'
                (Sample.function (Block []) [Sample.r]) W eq_refl H) as R.
  simpl in R. destruct R as (v & value & E & X & -> & _).
  vm_compute in E. injection E as <-.
  vm_compute in X. injection X as <-.
  reflexivity.
Defined.

(** A return statement without expression, [return;], gives no warning: in a
    function without return parameters, and in a function with two. *)
Lemma return_without_parameters_is_silent :
  let none := Sample.function (Block []) [] in
  let two := Sample.function (Block []) [Sample.r; Sample.y] in
  List.last (Some <$> m_functionPath (Sample.inside none)) None = Some none /\
  FunctionDefinition_.returnParameters none = [] /\
  endVisit_Return 7 None (Sample.inside none) = Ok tt (Sample.inside none) /\
  List.last (Some <$> m_functionPath (Sample.inside two)) None = Some two /\
  FunctionDefinition_.returnParameters two = [Sample.r; Sample.y] /\
  endVisit_Return 7 None (Sample.inside two) = Ok tt (Sample.inside two) /\
  ~ return_warns_unless_one_parameter.
Proof.
  cbv zeta.
  split; [reflexivity|]. split; [reflexivity|]. split; [reflexivity|].
  split; [reflexivity|]. split; [reflexivity|]. split; [reflexivity|].
  intros S.
  apply (S 7 None (Sample.inside (Sample.function (Block []) []))
           (Sample.inside (Sample.function (Block []) []))
           (Sample.function (Block []) []) eq_refl ltac:(discriminate) eq_refl).
  reflexivity.
Qed.

(** ** The test for a constant condition *)

(** C6: the test for a constant condition leaves the checker as it is when
    the condition is a literal.  Otherwise it makes two queries, each in a
    scope of its own: the path condition with the condition, then the path
    condition with its negation.  The diagnostic is decided by the two
    results in this order: the solver-error warning when either is ERROR;
    else the conflicting-solvers warning when either is CONFLICTING; else
    nothing when both are SAT or either is UNKNOWN; else the unreachable
    warning when both are UNSAT; else the template with true for SAT then
    UNSAT and with false for UNSAT then SAT. *)
Theorem constant_condition_diagnostic
  solver formatNumberReadable bigint cond template c c' :
  checkBooleanNotConstant solver formatNumberReadable bigint cond template c
    = Ok tt c' ->
  if isLiteral cond then c' = c
  else
    exists e c1,
      expr cond (set_interface (fun log => log ++ [smt.push]) c) = Ok e c1 /\
      (is_Some (m_expressions c !! Node.id cond) ->
         m_errorReporter c1 = m_errorReporter c) /\
      m_interface c' = negatedQuery c e ++ [smt.pop] /\
      m_errorReporter c' =
        m_errorReporter c1 ++
        solverErrorWarnings (solver (positiveQuery c e)) ++
        solverErrorWarnings (solver (negatedQuery c e)) ++
        match notConstantDiagnostic template
                (resultOf (solver (positiveQuery c e)))
                (resultOf (solver (negatedQuery c e))) with
        | Some msg => [mkWarning (Some (Node.location cond)) msg []]
        | None => []
        end.
Proof.
  intros H. apply checkBooleanNotConstant_Ok in H.
  destruct (isLiteral cond); [exact H|].
  destruct H as (e & c1 & E & L & R & _).
  exists e, c1. split; [exact E|]. split; [|split].
  - intros K.
    assert (K' : is_Some
              (m_expressions (set_interface (fun log => log ++ [smt.push]) c)
                 !! Node.id cond)) by exact K.
    destruct (expr_known _ _ _ _ E K') as (-> & _). reflexivity.
  - unfold negatedQuery, positiveQuery. exact L.
  - exact R.
Qed.

Lemma constant_condition_diagnostic_witness :
  exists c',
    checkBooleanNotConstant
      (Sample.first_then smt.SATISFIABLE smt.UNSATISFIABLE)
      Sample.formatNumberReadable Sample.bigint
      Sample.x_gt_10 "Condition is always $VALUE." Sample.conditioned = Ok tt c' /\
    m_errorReporter c' = [mkWarning (Some 10) "Condition is always true." []].
Proof.
  pose (c' := Sample.after
                (checkBooleanNotConstant
                   (Sample.first_then smt.SATISFIABLE smt.UNSATISFIABLE)
                   Sample.formatNumberReadable Sample.bigint
                   Sample.x_gt_10 "Condition is always $VALUE.")
                Sample.conditioned).
  assert (H : checkBooleanNotConstant
                (Sample.first_then smt.SATISFIABLE smt.UNSATISFIABLE)
                Sample.formatNumberReadable Sample.bigint
                Sample.x_gt_10 "Condition is always $VALUE." Sample.conditioned
              = Ok tt c') by (vm_compute; reflexivity).
  exists c'. split; [exact H|].
  pose proof (constant_condition_diagnostic _ _ _ _ _ _ _ H) as R.
  simpl in R. destruct R as (e & c1 & E & _ & _ & ->).
  vm_compute in E. injection E as <- <-.
  vm_compute. reflexivity.
Defined.

Lemma unknown_then_error_is_reported :
  let solver := Sample.first_then smt.UNKNOWN smt.ERROR in
  let c := Sample.conditioned in
  let e := smt.Symbol "expr_10" 0 in
  let c' := Sample.after
              (checkBooleanNotConstant solver Sample.formatNumberReadable
                 Sample.bigint Sample.x_gt_10 "Condition is always $VALUE.") c in
  checkBooleanNotConstant solver Sample.formatNumberReadable Sample.bigint
    Sample.x_gt_10 "Condition is always $VALUE." c = Ok tt c' /\
  expr Sample.x_gt_10 (set_interface (fun log => log ++ [smt.push]) c)
    = Ok e (set_interface (fun log => log ++ [smt.push]) c) /\
  resultOf (solver (positiveQuery c e)) = smt.UNKNOWN /\
  resultOf (solver (negatedQuery c e)) = smt.ERROR /\
  m_errorReporter c = [] /\
  m_errorReporter c' =
    [mkWarning (Some 10) "Error trying to invoke SMT solver." []] /\
  ~ silent_when_unknown.
Proof.
  assert (H : checkBooleanNotConstant (Sample.first_then smt.UNKNOWN smt.ERROR)
                Sample.formatNumberReadable Sample.bigint Sample.x_gt_10
                "Condition is always $VALUE." Sample.conditioned
              = Ok tt
                  (Sample.after
                     (checkBooleanNotConstant (Sample.first_then smt.UNKNOWN smt.ERROR)
                        Sample.formatNumberReadable Sample.bigint Sample.x_gt_10
                        "Condition is always $VALUE.") Sample.conditioned))
    by (vm_compute; reflexivity).
  assert (E : expr Sample.x_gt_10
                (set_interface (fun log => log ++ [smt.push]) Sample.conditioned)
              = Ok (smt.Symbol "expr_10" 0)
                  (set_interface (fun log => log ++ [smt.push]) Sample.conditioned))
    by (vm_compute; reflexivity).
  split; [exact H|]. split; [exact E|].
  split; [vm_compute; reflexivity|]. split; [vm_compute; reflexivity|].
  split; [vm_compute; reflexivity|]. split; [vm_compute; reflexivity|].
  intros S.
  assert (U : resultOf
                (Sample.first_then smt.UNKNOWN smt.ERROR
                   (positiveQuery Sample.conditioned (smt.Symbol "expr_10" 0)))
              = smt.UNKNOWN) by (vm_compute; reflexivity).
  pose proof (S (Sample.first_then smt.UNKNOWN smt.ERROR) Sample.formatNumberReadable
                Sample.bigint Sample.x_gt_10 _ _ _ _ _ eq_refl H E (or_introl U)) as R.
  vm_compute in R. discriminate R.
Qed.

(** ** [require] and [assert] *)

Lemma Keeps_expr {T} (f : SMTChecker -> T) n :
  (forall g c, f (set_expressions g c) = f c) ->
  (forall g c, f (set_globalContext g c) = f c) ->
  (forall g c, f (set_errorReporter g c) = f c) ->
  Keeps f (expr n).
Proof.
  intros F1 F2 F3. unfold expr, createExpr, warning.
  repeat first
    [ solve [eauto 3 with keeps nocore]
    | apply Keeps_when
    | apply Keeps_modify; intros ?; first [apply F1|apply F2|apply F3]
    | apply Keeps_increaseExpressionIndex; assumption
    | lazymatch goal with
      | |- Keeps _ (bind _ _) => apply Keeps_bind; [|intros ?]
      | |- Keeps _ (match ?x with _ => _ end) => destruct x eqn:?
      | |- Keeps _ (let _ := _ in _) => cbv zeta
      | |- Keeps _ (knownExpr _) => apply Keeps_gets
      end ].
Qed.

Lemma expr_frame n c e c' :
  expr n c = Ok e c' ->
  m_interface c' = m_interface c /\
  m_pathConditions c' = m_pathConditions c /\
  m_functionPath c' = m_functionPath c /\
  m_variables c' = m_variables c.
Proof.
  intros H. repeat split.
  - apply (Keeps_expr m_interface n) in H; auto.
  - apply (Keeps_expr m_pathConditions n) in H; auto.
  - apply (Keeps_expr m_functionPath n) in H; auto.
  - apply (Keeps_expr m_variables n) in H; auto.
Qed.


Section Calls.

Variable solver : list smt.Call -> smt.Answer.
Variable formatNumberReadable : Z -> string.
Variable bigint : string -> option Z.



End Calls.



(** ** Division by zero *)

Lemma checkCondition_balanced solver formatNumberReadable bigint
  cond loc descr name v c a c' :
  checkCondition solver formatNumberReadable bigint cond loc descr name v c
    = Ok a c' ->
  exists ext, m_interface c' = m_interface c ++ ext /\ balance 0 ext = Some 0.
Proof.
  intros H. apply checkCondition_Ok in H. destruct H as (ev & I & _).
  eexists. split; [rewrite I, <- app_assoc; reflexivity|reflexivity].
Qed.

Lemma checkUnderOverflow_balanced solver formatNumberReadable bigint
  value ty loc c a c' :
  checkUnderOverflow solver formatNumberReadable bigint value ty loc c = Ok a c' ->
  exists ext, m_interface c' = m_interface c ++ ext /\ balance 0 ext = Some 0.
Proof.
  intros H. unfold checkUnderOverflow in H. mstep H.
  apply checkCondition_balanced in H0 as (e1 & I1 & B1).
  apply checkCondition_balanced in H as (e2 & I2 & B2).
  exists (e1 ++ e2). split.
  - rewrite I2, I1, app_assoc. reflexivity.
  - apply (balance_app_Some _ _ _ _ _ B1 B2).
Qed.

Lemma Warns_interface_check solver es : Warns (interface_check solver es).
Proof.
  intros c a c' H. unfold interface_check in H. injection H as <- <-.
  exists []. simpl. symmetry. apply app_nil_r.
Qed.

Lemma Warns_checkCondition solver formatNumberReadable bigint cond loc descr name v :
  Warns (checkCondition solver formatNumberReadable bigint cond loc descr name v).
Proof.
  unfold checkCondition, addPathConjoinedExpression, expressionsToEvaluate,
    checkSatisfiableAndGenerateModel, interface, loopComment, currentPathConditions.
  repeat first [apply Warns_interface_check | progress warns].
Qed.

Lemma Warns_checkUnderOverflow solver formatNumberReadable bigint value ty loc :
  Warns (checkUnderOverflow solver formatNumberReadable bigint value ty loc).
Proof.
  unfold checkUnderOverflow.
  apply Warns_bind; [|intros ?]; apply Warns_checkCondition.
Qed.

(** C5: a division on an integer common type first checks, as the goal
    Division by zero, whether the divisor can be zero, the divisor being
    evaluated under the name <result>, and then asserts that the divisor is
    not zero, as it stands and not as an implication from the path
    condition.  The assertion is made in the solver scope that is open at
    the division: it stays in force along later calls as long as they close
    no scope that was open then and do not reset the solver. *)
Theorem division_assumes_divisor_nonzero
  solver formatNumberReadable bigint n ty l r c c' :
  isInteger (category ty) = true ->
  endVisit_BinaryOperation solver formatNumberReadable bigint
    n Token.Div (Some ty) l r c = Ok tt c' ->
  exists L cl R cr (evaluated : list (smt.Expression * string)) rest,
    let pc := List.last (m_pathConditions c) (smt.BoolLit true) in
    let query :=
      m_interface c ++
        [smt.push; smt.addAssertion (smt.And pc (smt.Eq R (smt.IntLit 0)));
         smt.check (fst <$> evaluated)] in
    expr l c = Ok L cl /\ expr r cl = Ok R cr /\
    m_interface c' =
      query ++ [smt.pop; smt.addAssertion (smt.Ne R (smt.IntLit 0))] ++ rest /\
    balance 0 rest = Some 0 /\
    (m_functionPath c <> [] ->
       (exists others, evaluated = (R, "<result>") :: others) /\
       (resultOf (solver query) = smt.SATISFIABLE ->
        exists ws sec later,
          m_errorReporter c' =
            ws ++
            [mkWarning (Some (Node.location n)) "Division by zero happens here" sec]
            ++ later)) /\
    (forall ext k,
       balance 0 ext = Some k ->
       In (smt.Ne R (smt.IntLit 0)) (smt.assertions (m_interface c' ++ ext))).
Proof.
  intros Hi H. unfold endVisit_BinaryOperation in H. simpl in H.
  unfold arithmeticOperation in H. rewrite Hi in H. simpl in H.
  apply bind_Ok in H as (L & cl & HL & H).
  apply bind_Ok in H as (R & cr & HR & H).
  apply bind_Ok in H as (u1 & c1 & H1 & H).
  apply bind_Ok in H as (u2 & c2 & H2 & H).
  apply bind_Ok in H1 as (u3 & c3 & H3 & H1). mstep H1.
  destruct (expr_frame _ _ _ _ HL) as (IL & PL & FL & _).
  destruct (expr_frame _ _ _ _ HR) as (IR & PR & FR & _).
  pose proof (Warns_checkUnderOverflow _ _ _ _ _ _ _ _ _ H2) as W2.
  pose proof (Warns_defineExpr _ _ _ _ _ H) as W3.
  apply checkUnderOverflow_balanced in H2 as (e2 & I2 & B2).
  apply defineExpr_Ok in H as (v & _ & I3).
  apply checkCondition_Ok in H3. cbv zeta in H3.
  destruct H3 as (ev & I & S & _ & _ & _ & _ & _ & W).
  rewrite FR, FL, IR, IL, PR, PL in *.
  exists L, cl, R, cr, ev.
  exists (e2 ++ [smt.addAssertion (smt.Eq (SymbolicVariable.currentValue v)
                                     (division L R ty))]).
  cbv zeta.
  assert (E : m_interface c' =
              (m_interface c ++
               [smt.push;
                smt.addAssertion
                  (smt.And (List.last (m_pathConditions c) (smt.BoolLit true))
                     (smt.Eq R (smt.IntLit 0)));
                smt.check (fst <$> ev)]) ++
              [smt.pop; smt.addAssertion (smt.Ne R (smt.IntLit 0))] ++
              e2 ++ [smt.addAssertion (smt.Eq (SymbolicVariable.currentValue v)
                                         (division L R ty))]).
  { rewrite I3, I2. simpl. rewrite I. rewrite <- !app_assoc. reflexivity. }
  split; [exact HL|]. split; [exact HR|]. split; [exact E|].
  assert (B : balance 0 (e2 ++ [smt.addAssertion
                                  (smt.Eq (SymbolicVariable.currentValue v)
                                     (division L R ty))]) = Some 0).
  { apply (balance_app_Some _ _ _ _ _ B2). reflexivity. }
  split; [exact B|]. split.
  - intros NE. split.
    + destruct (S NE) as (rest & ->). exists rest. reflexivity.
    + intros Sat. specialize (W NE). rewrite Sat in W. simpl in W.
      destruct W as (ws & sec & W).
      destruct W2 as (w2 & W2). destruct W3 as (w3 & W3).
      simpl in W2. rewrite W in W2.
      exists ws, sec, (w2 ++ w3).
      rewrite W3, W2, <- !app_assoc. reflexivity.
  - intros ext k Bk. rewrite E.
    match goal with
    | |- In _ (smt.assertions ((?q ++ [smt.pop; ?nz] ++ ?rest) ++ ext)) =>
        replace ((q ++ [smt.pop; nz] ++ rest) ++ ext)
          with (((q ++ [smt.pop]) ++ [nz]) ++ (rest ++ ext))
          by (rewrite <- !app_assoc; reflexivity)
    end.
    apply (assertion_in_force _ _ _ k).
    + apply assertion_added.
    + apply (balance_app_Some _ _ _ _ _ B Bk).
Qed.

Lemma division_assumes_divisor_nonzero_witness :
  exists c',
    endVisit_BinaryOperation (Sample.satisfiable ["0"; "0"; "0"; "0"])
      Sample.formatNumberReadable Sample.bigint
      (Sample.at_ 30 Sample.uint256) Token.Div (Some Sample.uint256)
      (Sample.read 31 Sample.x) (Sample.read 32 Sample.y) Sample.operands
      = Ok tt c' /\
    In (smt.Ne (smt.Symbol "expr_32" 0) (smt.IntLit 0))
       (smt.assertions (m_interface c')) /\
    exists ws sec later,
      m_errorReporter c' =
        ws ++ [mkWarning (Some 30) "Division by zero happens here" sec] ++ later.
Proof.
  pose (c' := Sample.after
                (endVisit_BinaryOperation (Sample.satisfiable ["0"; "0"; "0"; "0"])
                   Sample.formatNumberReadable Sample.bigint
                   (Sample.at_ 30 Sample.uint256) Token.Div (Some Sample.uint256)
                   (Sample.read 31 Sample.x) (Sample.read 32 Sample.y))
                Sample.operands).
  assert (H : endVisit_BinaryOperation (Sample.satisfiable ["0"; "0"; "0"; "0"])
                Sample.formatNumberReadable Sample.bigint
                (Sample.at_ 30 Sample.uint256) Token.Div (Some Sample.uint256)
                (Sample.read 31 Sample.x) (Sample.read 32 Sample.y) Sample.operands
              = Ok tt c') by (vm_compute; reflexivity).
  exists c'. split; [exact H|].
  destruct (division_assumes_divisor_nonzero _ _ _ _ Sample.uint256 _ _ _ _ eq_refl H)
    as (L & cl & R & cr & ev & rest & HL & HR & _ & _ & W & F).
  vm_compute in HL. injection HL as <- <-.
  vm_compute in HR. injection HR as <- <-.
  split.
  - specialize (F [] 0 eq_refl). rewrite app_nil_r in F. exact F.
  - apply W; [vm_compute; discriminate|reflexivity].
Defined.

(** In [for (;;) { x / y; } assert(x > 10);] the assumption made at the
    division is closed with the scope of the loop body: it is not in force at
    the query of the assertion. *)
Lemma division_in_loop_body_is_forgotten :
  let c' :=
    Sample.after
      (accept_Statement (Sample.always smt.UNSATISFIABLE) touchedVariables
         Sample.formatNumberReadable Sample.bigint Sample.for_div_then_assert)
      (Sample.inside (Sample.function Sample.for_div_then_assert [])) in
  let nonzero := smt.Ne (smt.Symbol "expr_32" 0) (smt.IntLit 0) in
  accept_Statement (Sample.always smt.UNSATISFIABLE) touchedVariables
    Sample.formatNumberReadable Sample.bigint Sample.for_div_then_assert
    (Sample.inside (Sample.function Sample.for_div_then_assert [])) = Ok tt c' /\
  In (smt.addAssertion nonzero) (m_interface c') /\
  ~ divisor_nonzero_at_every_later_query (m_interface c') nonzero.
Proof.
  cbv zeta. split; [vm_compute; reflexivity|]. split.
  - vm_compute. tauto.
  - intros S.
    specialize (S (removelast (removelast (removelast (m_interface
                     (Sample.after
                        (accept_Statement (Sample.always smt.UNSATISFIABLE)
                           touchedVariables Sample.formatNumberReadable
                           Sample.bigint Sample.for_div_then_assert)
                        (Sample.inside
                           (Sample.function Sample.for_div_then_assert [])))))))
                  [smt.Symbol "y_2" 0; smt.Symbol "r_3" 0; smt.Symbol "x_1" 0]
                  [smt.pop;
                   smt.addAssertion
                     (smt.implies (smt.BoolLit true) (smt.Symbol "expr_10" 0))]).
    vm_compute in S.
    specialize (S eq_refl).
    match type of S with
    | ?P -> _ => assert (Hin : P) by (repeat first [left; reflexivity | right])
    end.
    specialize (S Hin). clear Hin.
    repeat (destruct S as [S|S]; [discriminate S|]). exact S.
Qed.

(** * Merging *)

Lemma mergeVariable_Ok cond iT iF d c a c' :
  mergeVariable cond iT iF d c = Ok a c' ->
  exists p t f,
    m_variables c !! d = Some p /\
    iT !! d = Some t /\ iF !! d = Some f /\ t <> f /\
    c' = set_interface
           (fun log =>
              log ++
              [smt.addAssertion
                 (smt.Eq
                    (smt.Symbol (SymbolicVariable.uniqueName (snd p))
                       (SymbolicVariable.nextFreeIndex (snd p)))
                    (smt.Ite cond
                       (smt.Symbol (SymbolicVariable.uniqueName (snd p)) t)
                       (smt.Symbol (SymbolicVariable.uniqueName (snd p)) f)))])
           (set_variables
              (alter (fun p => (fst p, SymbolicVariable.increaseIndex (snd p))) d) c).
Proof.
  intros H. unfold mergeVariable in H.
  apply bind_Ok in H as (u0 & c0 & H0 & H). apply solAssert_Ok in H0 as [H0 ->].
  apply bind_Ok in H as (t & c1 & H1 & H). apply indexAt_Ok in H1 as [Ht ->].
  apply bind_Ok in H as (f & c2 & H2 & H). apply indexAt_Ok in H2 as [Hf ->].
  apply bind_Ok in H as (u3 & c3 & H3 & H). apply solAssert_Ok in H3 as [H3 ->].
  apply bind_Ok in H as (v & c4 & H4 & H).
  apply newValue_Ok in H4 as (p & E & -> & ->).
  apply bind_Ok in H as (vt & c5 & H5 & H).
  apply valueAtIndex_Ok in H5 as (pt & Et & -> & ->).
  apply bind_Ok in H as (vf & c6 & H6 & H).
  apply valueAtIndex_Ok in H6 as (pf & Ef & -> & ->).
  apply modify_Ok in H. subst c'.
  simpl in Et, Ef. rewrite lookup_alter_eq, E in Et, Ef. simpl in Et, Ef.
  injection Et as <-. injection Ef as <-.
  exists p, t, f. split; [exact E|]. split; [exact Ht|]. split; [exact Hf|].
  split.
  - apply negb_true_iff in H3. apply Nat.eqb_neq in H3. exact H3.
  - reflexivity.
Qed.

Lemma merged_frame cond iT iF c0 c c' l ext :
  Forall2 (merged cond iT iF c c') l ext ->
  (forall d, d ∈ l -> m_variables c !! d = m_variables c0 !! d) ->
  Forall2 (merged cond iT iF c0 c') l ext.
Proof.
  induction 1 as [|d call l ext M _ IH]; intros F; constructor.
  - destruct M as (p & t & f & E & M). exists p, t, f.
    rewrite <- (F d) by left. split; [exact E|exact M].
  - apply IH. intros k Hk. apply F. right. exact Hk.
Qed.

Lemma forEach_merge cond iT iF l :
  NoDup l -> forall c a c',
  forEach l (mergeVariable cond iT iF) c = Ok a c' ->
  exists ext,
    m_interface c' = m_interface c ++ ext /\
    Forall2 (merged cond iT iF c c') l ext /\
    (forall k, k ∉ l -> m_variables c' !! k = m_variables c !! k) /\
    same_but_variables_and_log c c'.
Proof.
  induction 1 as [|x l Hx ND IH]; intros c a c' H.
  - apply ret_Ok in H as [_ <-]. exists []. split; [symmetry; apply app_nil_r|].
    split; [constructor|]. split; [reflexivity|]. repeat split.
  - change (forEach (x :: l) (mergeVariable cond iT iF))
      with (bind (mergeVariable cond iT iF x)
              (fun _ => forEach l (mergeVariable cond iT iF))) in H.
    apply bind_Ok in H as (u & c1 & H1 & H).
    apply mergeVariable_Ok in H1 as (p & t & f & E & Ht & Hf & Hne & ->).
    apply IH in H as (ext & I & M & F & S).
    simpl in I, F.
    eexists. split; [rewrite I, <- app_assoc; reflexivity|]. split; [|split].
    + constructor.
      * exists p, t, f. repeat split; try assumption.
        rewrite (F x Hx). rewrite lookup_alter_eq, E. reflexivity.
      * eapply merged_frame; [exact M|].
        intros d Hd. simpl. apply lookup_alter_ne. intros <-. exact (Hx Hd).
    + intros k Hk. rewrite F by (intros Hk'; apply Hk; right; exact Hk').
      apply lookup_alter_ne. intros <-. apply Hk. left.
    + exact S.
Qed.

Lemma mergeVariables_Ok vars cond iT iF c a c' :
  mergeVariables vars cond iT iF c = Ok a c' ->
  exists ext,
    m_interface c' = m_interface c ++ ext /\
    Forall2 (merged cond iT iF c c') (uniqueVars vars) ext /\
    (forall k, k ∉ vars -> m_variables c' !! k = m_variables c !! k) /\
    same_but_variables_and_log c c'.
Proof.
  intros H. unfold mergeVariables in H.
  apply forEach_merge in H; [|unfold uniqueVars; apply NoDup_elements].
  destruct H as (ext & I & M & F & S).
  exists ext. split; [exact I|]. split; [exact M|]. split; [|exact S].
  intros k Hk. apply F. unfold uniqueVars. rewrite elem_of_elements.
  rewrite elem_of_list_to_set. exact Hk.
Qed.

Lemma elem_of_uniqueVars d vars : d ∈ uniqueVars vars <-> d ∈ vars.
Proof. unfold uniqueVars. rewrite elem_of_elements. apply elem_of_list_to_set. Qed.

Lemma bind_Throw {A B} (m : M A) (k : A -> M B) c e :
  bind m k c = Throw e ->
  m c = Throw e \/ exists a c1, m c = Ok a c1 /\ k a c1 = Throw e.
Proof.
  unfold bind. destruct (m c) as [a c1|e1]; intros H.
  - right. exists a, c1. split; [reflexivity|exact H].
  - left. injection H as ->. reflexivity.
Qed.

Lemma bind_eq {A B} (m : M A) (k : A -> M B) c a c1 :
  m c = Ok a c1 -> bind m k c = k a c1.
Proof. unfold bind. intros ->. reflexivity. Qed.

Lemma newValue_total d c p :
  m_variables c !! d = Some p ->
  newValue d c =
    Ok (SymbolicVariable.currentValue (SymbolicVariable.increaseIndex (snd p)))
       (set_variables
          (alter (fun p => (fst p, SymbolicVariable.increaseIndex (snd p))) d) c).
Proof.
  intros E. unfold newValue.
  rewrite (bind_eq _ _ c true c)
    by (unfold knownVariable, gets; rewrite E; reflexivity).
  rewrite (bind_eq _ _ c tt c) by reflexivity.
  rewrite (bind_eq _ _ c (snd p) c) by (unfold variableAt; rewrite E; reflexivity).
  reflexivity.
Qed.

Lemma valueAtIndex_total d i c p :
  m_variables c !! d = Some p ->
  valueAtIndex d i c = Ok (SymbolicVariable.valueAtIndex (snd p) i) c.
Proof.
  intros E. unfold valueAtIndex.
  rewrite (bind_eq _ _ c true c)
    by (unfold knownVariable, gets; rewrite E; reflexivity).
  rewrite (bind_eq _ _ c tt c) by reflexivity.
  rewrite (bind_eq _ _ c (snd p) c) by (unfold variableAt; rewrite E; reflexivity).
  reflexivity.
Qed.

Lemma bind_fails {A B} (m : M A) (k : A -> M B) c e :
  m c = Throw e -> bind m k c = Throw e.
Proof. unfold bind. intros ->. reflexivity. Qed.

Lemma newValue_unknown d c :
  m_variables c !! d = None -> newValue d c = Throw InternalCompilerError.
Proof.
  intros E. unfold newValue.
  rewrite (bind_eq _ _ c false c)
    by (unfold knownVariable, gets; rewrite E; reflexivity).
  reflexivity.
Qed.

(** The merge of one variable: it goes through exactly when the variable is
    in both snapshots at different indices and has a symbolic variable, and
    fails with the internal assertion otherwise. *)
Lemma mergeVariable_cases cond iT iF d c :
  match iT !! d, iF !! d, m_variables c !! d with
  | Some t, Some f, Some p =>
      if Nat.eqb t f then
        mergeVariable cond iT iF d c = Throw InternalCompilerError
      else exists c', mergeVariable cond iT iF d c = Ok tt c'
  | _, _, _ => mergeVariable cond iT iF d c = Throw InternalCompilerError
  end.
Proof.
  unfold mergeVariable.
  destruct (iT !! d) as [t|] eqn:Ht; [|reflexivity].
  destruct (iF !! d) as [f|] eqn:Hf; [|reflexivity].
  rewrite (bind_eq _ _ c tt c) by reflexivity.
  rewrite (bind_eq _ _ c t c) by (unfold indexAt; rewrite Ht; reflexivity).
  rewrite (bind_eq _ _ c f c) by (unfold indexAt; rewrite Hf; reflexivity).
  destruct (m_variables c !! d) as [p|] eqn:E.
  - destruct (Nat.eqb t f); [reflexivity|].
    rewrite (bind_eq _ _ c tt c) by reflexivity.
    rewrite (bind_eq _ _ _ _ _ (newValue_total _ _ _ E)).
    assert (E' : m_variables
                   (set_variables
                      (alter (fun p => (fst p, SymbolicVariable.increaseIndex (snd p)))
                         d) c) !! d
                 = Some (fst p, SymbolicVariable.increaseIndex (snd p))).
    { simpl. rewrite lookup_alter_eq, E. reflexivity. }
    rewrite (bind_eq _ _ _ _ _ (valueAtIndex_total _ t _ _ E')).
    rewrite (bind_eq _ _ _ _ _ (valueAtIndex_total _ f _ _ E')).
    eexists. reflexivity.
  - destruct (Nat.eqb t f); [reflexivity|].
    rewrite (bind_eq _ _ c tt c) by reflexivity.
    apply bind_fails. apply newValue_unknown. exact E.
Qed.

(** Every failure of a merge is the internal assertion. *)
Lemma mergeVariable_Throw cond iT iF d c e :
  mergeVariable cond iT iF d c = Throw e -> e = InternalCompilerError.
Proof.
  pose proof (mergeVariable_cases cond iT iF d c) as C.
  destruct (iT !! d), (iF !! d), (m_variables c !! d);
    try (rewrite C; intros H; injection H as <-; reflexivity).
  destruct (Nat.eqb n n0).
  - rewrite C. intros H. injection H as <-. reflexivity.
  - destruct C as (c' & ->). discriminate.
Qed.

Lemma forEach_Throw {A} (l : list A) (f : A -> M unit) e0 :
  (forall x c e, f x c = Throw e -> e = e0) ->
  forall c e, forEach l f c = Throw e -> e = e0.
Proof.
  intros T. induction l as [|x l IH]; intros c e H; [discriminate|].
  change (forEach (x :: l) f) with (bind (f x) (fun _ => forEach l f)) in H.
  apply bind_Throw in H as [H|(a & c1 & _ & H)].
  - exact (T _ _ _ H).
  - exact (IH _ _ H).
Qed.

(** A merge goes through when every variable is in both snapshots, at
    different indices, and has a symbolic variable. *)
Lemma forEach_merge_total cond iT iF l : forall c,
  (forall d, d ∈ l ->
     is_Some (m_variables c !! d) /\
     exists t f, iT !! d = Some t /\ iF !! d = Some f /\ t <> f) ->
  exists c', forEach l (mergeVariable cond iT iF) c = Ok tt c'.
Proof.
  induction l as [|x l IH]; intros c H.
  - exists c. reflexivity.
  - change (forEach (x :: l) (mergeVariable cond iT iF))
      with (bind (mergeVariable cond iT iF x)
              (fun _ => forEach l (mergeVariable cond iT iF))).
    destruct (H x) as ([p E] & t & f & Ht & Hf & Hne); [left|].
    pose proof (mergeVariable_cases cond iT iF x c) as C.
    rewrite Ht, Hf, E in C.
    destruct (Nat.eqb t f) eqn:Q; [apply Nat.eqb_eq in Q; contradiction|].
    destruct C as (c1 & R).
    destruct (IH c1) as (c' & H').
    { intros d Hd. destruct (H d) as ([q Eq] & X); [right; exact Hd|].
      split; [|exact X].
      destruct (mergeVariable_Ok _ _ _ _ _ _ _ R) as (p' & t' & f' & Ep & Et & Ef & En & Rc).
      rewrite Rc. simpl. destruct (decide (x = d)) as [<-|N].
      - rewrite lookup_alter_eq, Eq. eexists. reflexivity.
      - rewrite lookup_alter_ne by exact N. rewrite Eq. eexists. reflexivity. }
    exists c'. rewrite (bind_eq _ _ _ _ _ R). exact H'.
Qed.

(** C10: a merge returns only when every variable of the touched list is in
    both snapshots with two different indices; when some touched variable is
    missing from a snapshot, or has the same index in both, the merge fails
    with the internal assertion, the checker is lost with it and no warning
    is recorded; a merge never fails in another way; and when the condition
    holds for every touched variable and each has a symbolic variable the
    merge returns. *)
Theorem merge_requires_distinct_snapshots vars cond iT iF c :
  let distinct :=
    forall d, d ∈ vars ->
      exists t f, iT !! d = Some t /\ iF !! d = Some f /\ t <> f in
  (forall c', mergeVariables vars cond iT iF c = Ok tt c' -> distinct) /\
  (forall e, mergeVariables vars cond iT iF c = Throw e ->
             e = InternalCompilerError) /\
  (~ distinct -> mergeVariables vars cond iT iF c = Throw InternalCompilerError) /\
  (distinct -> (forall d, d ∈ vars -> is_Some (m_variables c !! d)) ->
   exists c', mergeVariables vars cond iT iF c = Ok tt c').
Proof.
  cbv zeta.
  assert (A : forall c', mergeVariables vars cond iT iF c = Ok tt c' ->
                forall d, d ∈ vars ->
                  exists t f, iT !! d = Some t /\ iF !! d = Some f /\ t <> f).
  { intros c' H d Hd. apply mergeVariables_Ok in H as (ext & _ & M & _).
    apply (proj2 (elem_of_uniqueVars _ _)) in Hd.
    apply list_elem_of_lookup_1 in Hd as (i & Hi).
    destruct (Forall2_lookup_l _ _ _ _ _ M Hi)
      as (call & _ & (p & t & f & _ & Ht & Hf & Hne & _)).
    exists t, f. repeat split; assumption. }
  assert (B : forall e, mergeVariables vars cond iT iF c = Throw e ->
                e = InternalCompilerError).
  { intros e H. unfold mergeVariables in H.
    eapply forEach_Throw; [|exact H].
    intros x c0 e0. apply mergeVariable_Throw. }
  split; [exact A|]. split; [exact B|]. split.
  - intros N. destruct (mergeVariables vars cond iT iF c) as [[] c'|e] eqn:H.
    + exfalso. apply N. exact (A c' eq_refl).
    + f_equal. exact (B e eq_refl).
  - intros D K. unfold mergeVariables. apply forEach_merge_total.
    intros d Hd. apply (proj1 (elem_of_uniqueVars _ _)) in Hd.
    split; [exact (K d Hd)|exact (D d Hd)].
Qed.

(** * Branches *)

Lemma indicesOf_lookup c d n :
  indicesOf c !! d = Some n <->
  exists p, m_variables c !! d = Some p /\ SymbolicVariable.index (snd p) = n.
Proof.
  unfold indicesOf. rewrite lookup_fmap.
  destruct (m_variables c !! d) as [p|]; simpl; split.
  - intros H. injection H as <-. exists p. split; reflexivity.
  - intros (q & E & <-). injection E as <-. reflexivity.
  - discriminate.
  - intros (q & E & _). discriminate.
Qed.

Lemma vars_le_same c c' : m_variables c' = m_variables c -> vars_le c c'.
Proof. intros E k p H. exists p. rewrite E. repeat split; [exact H|lia]. Qed.

Lemma vars_le_reset i c a c' : resetVariableIndices i c = Ok a c' -> vars_le c c'.
Proof.
  intros H. apply resetVariableIndices_Ok in H. subst c'.
  intros k p E. eexists. split.
  - simpl. rewrite map_lookup_imap, E. simpl. reflexivity.
  - simpl. destruct (i !! k); simpl; repeat split; lia.
Qed.

(** A snapshot index of a well-formed checker is below the next free index
    of the variable in every later checker. *)
Lemma snapshot_below c c' d n p :
  wf c -> vars_le c c' ->
  indicesOf c !! d = Some n -> m_variables c' !! d = Some p ->
  n < SymbolicVariable.nextFreeIndex (snd p).
Proof.
  intros W V I P. apply indicesOf_lookup in I as (q & Q & <-).
  destruct (V d q Q) as (p' & P' & _ & _ & _ & L).
  rewrite P in P'. injection P' as <-.
  pose proof (W d q Q) as Wq. unfold wf_variable in Wq. lia.
Qed.

(** What [resetVariableIndices] makes of the indices. *)
Lemma reset_index i c a c' d :
  resetVariableIndices i c = Ok a c' ->
  indicesOf c' !! d =
    match i !! d with
    | Some n => match m_variables c !! d with Some _ => Some n | None => None end
    | None => indicesOf c !! d
    end.
Proof.
  intros H. apply resetVariableIndices_Ok in H. subst c'.
  unfold indicesOf. simpl. rewrite !lookup_fmap, map_lookup_imap.
  destruct (m_variables c !! d) as [p|]; simpl.
  - destruct (i !! d); reflexivity.
  - destruct (i !! d); reflexivity.
Qed.

Lemma reset_frame i c a c' :
  resetVariableIndices i c = Ok a c' ->
  m_interface c' = m_interface c /\
  m_pathConditions c' = m_pathConditions c /\
  m_functionPath c' = m_functionPath c /\
  m_expressions c' = m_expressions c /\
  m_globalContext c' = m_globalContext c /\
  m_errorReporter c' = m_errorReporter c.
Proof.
  intros H. apply resetVariableIndices_Ok in H. subst c'. repeat split.
Qed.

(** The run of a branch: the statement is visited under the condition, its
    last indices are the snapshot given back, and the indices of before are
    taken back. *)
Lemma visitBranch_run (accept : Statement -> M unit) s cond c i c' :
  visitBranch accept s cond c = Ok i c' ->
  exists cEnd,
    accept s (match cond with Some e => underCondition e c | None => c end)
      = Ok tt cEnd /\
    i = indicesOf cEnd /\
    resetVariableIndices (indicesOf c)
      (match cond with Some _ => outOfCondition cEnd | None => cEnd end)
      = Ok tt c'.
Proof.
  intros H. unfold visitBranch in H.
  apply bind_Ok in H as (i0 & c0 & H0 & H). apply gets_Ok in H0 as [-> ->].
  apply bind_Ok in H as (u1 & c1 & H1 & H).
  apply bind_Ok in H as ([] & c2 & H2 & H).
  apply bind_Ok in H as (u3 & c3 & H3 & H).
  apply bind_Ok in H as (iA & c4 & H4 & H). apply gets_Ok in H4 as [-> ->].
  apply bind_Ok in H as ([] & c5 & H5 & H). apply ret_Ok in H as [<- <-].
  exists c2. destruct cond as [e|].
  - unfold pushPathCondition in H1.
    apply bind_Ok in H1 as (p & cp & Hp & H1). apply gets_Ok in Hp as [-> ->].
    apply modify_Ok in H1. subst c1.
    unfold popPathCondition in H3.
    apply bind_Ok in H3 as (n & cn & Hn & H3). apply gets_Ok in Hn as [-> ->].
    apply bind_Ok in H3 as (u & cu & Hu & H3). apply solAssert_Ok in Hu as [_ ->].
    apply modify_Ok in H3. subst c3.
    split; [exact H2|]. split; [reflexivity|exact H5].
  - apply ret_Ok in H1 as [_ <-]. apply ret_Ok in H3 as [_ <-].
    split; [exact H2|]. split; [reflexivity|exact H5].
Qed.

(** An expression variable of its own gives the same term as long as its
    entry stays. *)
Lemma expr_own n c v e c' :
  m_expressions c !! Node.id n = Some (Own v) ->
  expr n c = Ok e c' -> e = SymbolicVariable.currentValue v /\ c' = c.
Proof.
  intros E H.
  destruct (expr_known _ _ _ _ H) as (-> & w & Hw & ->); [rewrite E; eexists; reflexivity|].
  unfold expressionAt in Hw. rewrite E in Hw. injection Hw as <-.
  split; reflexivity.
Qed.

Lemma own_frame_same X c c' :
  m_expressions c' = m_expressions c -> own_frame X c c'.
Proof. intros E i v _ H. rewrite E. exact H. Qed.

Lemma own_frame_trans X c1 c2 c3 :
  own_frame X c1 c2 -> own_frame X c2 c3 -> own_frame X c1 c3.
Proof. intros A B i v Hi H. exact (B i v Hi (A i v Hi H)). Qed.

Lemma own_frame_mono X Y c c' : X ⊆ Y -> own_frame X c c' -> own_frame Y c c'.
Proof. intros S A i v Hi H. apply (A i v); [set_solver|exact H]. Qed.

Lemma expr_idem n c e c' : expr n c = Ok e c' -> expr n c' = Ok e c'.
Proof.
  intros H. destruct (expr_value _ _ _ _ H) as (v & Hv & ->).
  assert (K : is_Some (m_expressions c' !! Node.id n)).
  { unfold expressionAt in Hv.
    destruct (m_expressions c' !! Node.id n); [eexists; reflexivity|discriminate]. }
  unfold expr.
  rewrite (bind_eq _ _ c' true c')
    by (unfold knownExpr, gets; rewrite bool_decide_eq_true_2 by exact K; reflexivity).
  rewrite (bind_eq _ _ c' tt c') by reflexivity.
  rewrite (bind_eq _ _ _ _ _ Hv). reflexivity.
Qed.

Lemma expr_of_own n c e c' v :
  expr n c = Ok e c' -> m_expressions c' !! Node.id n = Some (Own v) ->
  e = SymbolicVariable.currentValue v.
Proof.
  intros H E. apply expr_idem in H. exact (proj1 (expr_own _ _ _ _ _ E H)).
Qed.

Section Conditionals.

Variable solver : list smt.Call -> smt.Answer.
Variable touchedVariables : ASTNode -> list nat.
Variable formatNumberReadable : Z -> string.
Variable bigint : string -> option Z.

Abbreviation accept_Expression :=
  (accept_Expression solver touchedVariables formatNumberReadable bigint).
Abbreviation accept_Statement :=
  (accept_Statement solver touchedVariables formatNumberReadable bigint).
Abbreviation checkBooleanNotConstant :=
  (checkBooleanNotConstant solver formatNumberReadable bigint).
Abbreviation visit_IfStatement :=
  (visit_IfStatement solver touchedVariables formatNumberReadable bigint
     accept_Expression accept_Statement).
Abbreviation visit_WhileStatement :=
  (visit_WhileStatement solver touchedVariables formatNumberReadable bigint
     accept_Expression accept_Statement).
Abbreviation visit_ForStatement :=
  (visit_ForStatement solver touchedVariables formatNumberReadable bigint
     accept_Expression accept_Statement).

Lemma Step_accept_Statement s d c c' :
  m_functionPath c <> [] ->
  accept_Statement s c = Ok tt c' -> Step d d (ids_Statement s) c c'.
Proof.
  intros P H.
  destruct (Steps_accept solver touchedVariables formatNumberReadable bigint)
    as (_ & _ & S & _).
  exact (S s d (ids_Statement s) (reflexivity _) c tt c' P H).
Qed.

Lemma Step_accept_Expression e d c c' :
  m_functionPath c <> [] ->
  accept_Expression e c = Ok tt c' -> Step d d (ids_Expression e) c c'.
Proof.
  intros P H.
  destruct (Steps_accept solver touchedVariables formatNumberReadable bigint)
    as (S & _).
  exact (proj1 (S e) d (ids_Expression e) (reflexivity _) c tt c' P H).
Qed.

(** The visit of a statement under a condition, seen from outside. *)
Lemma branch_step s e c cEnd :
  m_functionPath c <> [] ->
  accept_Statement s (underCondition e c) = Ok tt cEnd ->
  Step 0 0 (ids_Statement s) c (outOfCondition cEnd) /\
  (wf c -> wf cEnd) /\ vars_le c cEnd /\ m_functionPath cEnd = m_functionPath c.
Proof.
  intros P H. apply (Step_accept_Statement s 0) in H; [|exact P].
  split; [eapply Step_pathCondition; exact H|].
  destruct H as [HP _ _ HV HW _]. split; [exact HW|]. split; [exact HV|exact HP].
Qed.

(** The states of a conditional: [c1] before the branches, with the term
    [e] of the condition; [cT] at the end of the true branch; [cE] at the end
    of the false branch, or before it when there is none; [cM] at the merge,
    with the term [eM] of the condition. *)
Lemma visit_IfStatement_run cond tS fS c b c' :
  wf c -> m_functionPath c <> [] ->
  visit_IfStatement cond tS fS c = Ok b c' ->
  b = false /\
  exists c1 e cT cE cM eM ext,
    (exists c0 cK,
       accept_Expression cond c = Ok tt c0 /\
       when (Nat.eqb (length (m_functionPath c0)) 1)
         (checkBooleanNotConstant cond "Condition is always $VALUE.") c0
         = Ok tt cK /\
       expr cond cK = Ok e c1) /\
    accept_Statement tS (underCondition e c1) = Ok tt cT /\
    (exists c2,
       resetVariableIndices (indicesOf c1) (outOfCondition cT) = Ok tt c2 /\
       match fS with
       | Some s =>
           exists e2 c3,
             expr cond c2 = Ok e2 c3 /\
             accept_Statement s (underCondition (smt.Not e2) c3) = Ok tt cE
       | None =>
           cE = c2 /\
           forall d, is_Some (m_variables c1 !! d) ->
                     indicesOf cE !! d = indicesOf c1 !! d
       end) /\
    expr cond cM = Ok eM cM /\
    m_interface c' = m_interface cM ++ ext /\
    Forall2 (merged eM (indicesOf cT) (indicesOf cE) cM c')
      (uniqueVars
         (touchedVariables (StatementNode tS) ++
          match fS with
          | Some s => touchedVariables (StatementNode s)
          | None => []
          end)) ext /\
    (forall d p t f,
       m_variables cM !! d = Some p ->
       indicesOf cT !! d = Some t -> indicesOf cE !! d = Some f ->
       t < SymbolicVariable.nextFreeIndex (snd p) /\
       f < SymbolicVariable.nextFreeIndex (snd p)) /\
    (Node.id cond ∉ ids_Statement tS ∪ from_option ids_Statement ∅ fS ->
     forall v, m_expressions c1 !! Node.id cond = Some (Own v) -> eM = e).
Proof.
  intros W P H. unfold visit_IfStatement in H.
  apply bind_Ok in H as ([] & c0 & H0 & H).
  apply bind_Ok in H as (root & c0' & HR & H). apply gets_Ok in HR as [-> ->].
  apply bind_Ok in H as ([] & cK & HK & H).
  apply bind_Ok in H as (e & c1 & H1 & H).
  apply bind_Ok in H as (iT & c2 & H2 & H).
  apply bind_Ok in H as (r & c4 & H4 & H).
  apply bind_Ok in H as (eM & cM & HM & H).
  apply bind_Ok in H as ([] & c5 & H5 & H). apply ret_Ok in H as [<- <-].
  split; [reflexivity|].
  (* up to the branches *)
  pose proof (Step_accept_Expression cond 0 _ _ P H0) as S0.
  assert (P0 : m_functionPath c0 <> []) by (rewrite (step_path _ _ _ _ _ S0); exact P).
  assert (SK : Step 0 0 ∅ c0 cK).
  { eapply (Steps_when _ _ 0 ∅); [|exact P0|exact HK].
    apply Steps_checkBooleanNotConstant. }
  assert (PK : m_functionPath cK <> []) by (rewrite (step_path _ _ _ _ _ SK); exact P0).
  pose proof (Steps_expr cond 0 ∅ _ _ _ PK H1) as S1.
  assert (P1 : m_functionPath c1 <> []) by (rewrite (step_path _ _ _ _ _ S1); exact PK).
  assert (W1 : wf c1).
  { apply (step_wf _ _ _ _ _ S1), (step_wf _ _ _ _ _ SK), (step_wf _ _ _ _ _ S0), W. }
  (* the true branch *)
  apply visitBranch_run in H2 as (cT & HT & -> & HT2).
  destruct (branch_step _ _ _ _ P1 HT) as (ST & WT & VT & PT).
  assert (S2 : Step 0 0 (ids_Statement tS) c1 c2).
  { eapply Step_reset; [exact ST| |exact HT2].
    intros _. eapply snapshot_of_le; [apply snapshot_of_copy; exact W1|].
    apply ST. }
  assert (P2 : m_functionPath c2 <> []) by (rewrite (step_path _ _ _ _ _ S2); exact P1).
  assert (V2 : vars_le cT c2).
  { eapply vars_le_trans; [|exact (vars_le_reset _ _ _ _ HT2)].
    apply vars_le_same. reflexivity. }
  (* the false branch *)
  assert (F : exists cE,
            match fS with
            | Some s =>
                exists e2 c3,
                  expr cond c2 = Ok e2 c3 /\
                  accept_Statement s (underCondition (smt.Not e2) c3) = Ok tt cE
            | None =>
                cE = c2 /\
                forall d, is_Some (m_variables c1 !! d) ->
                          indicesOf cE !! d = indicesOf c1 !! d
            end /\
            r = (indicesOf cE,
                 touchedVariables (StatementNode tS) ++
                 match fS with
                 | Some s => touchedVariables (StatementNode s)
                 | None => []
                 end) /\
            wf cE /\ vars_le c2 cE /\ vars_le cE c4 /\
            Step 0 0 (ids_Statement tS ∪ from_option ids_Statement ∅ fS) c1 c4).
  { destruct fS as [s|].
    - apply bind_Ok in H4 as (e2 & c3 & H3 & H4).
      apply bind_Ok in H4 as (iF & c4' & HF & H4). apply ret_Ok in H4 as [<- <-].
      pose proof (Steps_expr cond 0 ∅ _ _ _ P2 H3) as S3.
      assert (P3 : m_functionPath c3 <> [])
        by (rewrite (step_path _ _ _ _ _ S3); exact P2).
      assert (W3 : wf c3)
        by (apply (step_wf _ _ _ _ _ S3), (step_wf _ _ _ _ _ S2), W1).
      apply visitBranch_run in HF as (cE & HE & -> & HE2).
      destruct (branch_step _ _ _ _ P3 HE) as (SE & WE & VE & PE).
      exists cE. split; [exists e2, c3; split; assumption|].
      split; [reflexivity|]. split; [exact (WE W3)|].
      split; [eapply vars_le_trans; [exact (step_vars _ _ _ _ _ S3)|exact VE]|].
      split.
      + eapply vars_le_trans; [|exact (vars_le_reset _ _ _ _ HE2)].
        apply vars_le_same. reflexivity.
      + eapply Step_trans; [eapply Step_weaken; [|exact S2]; set_solver|].
        eapply Step_trans; [eapply Step_weaken; [|exact S3]; set_solver|].
        eapply Step_weaken; [|eapply Step_reset; [exact SE| |exact HE2]].
        * simpl. set_solver.
        * intros _. eapply snapshot_of_le; [apply snapshot_of_copy; exact W3|].
          apply SE.
    - apply bind_Ok in H4 as (iF & c4' & HF & H4). apply gets_Ok in HF as [-> ->].
      apply ret_Ok in H4 as [<- <-].
      exists c2. split; [split; [reflexivity|]|].
      + intros d [p Ep].
        rewrite (reset_index _ _ _ _ d HT2).
        destruct (indicesOf c1 !! d) as [n|] eqn:In.
        * destruct (VT d p Ep) as (q & Eq & _). simpl. rewrite Eq. reflexivity.
        * unfold indicesOf in In. rewrite lookup_fmap, Ep in In. discriminate.
      + split; [rewrite app_nil_r; reflexivity|].
        split; [exact (step_wf _ _ _ _ _ S2 W1)|].
        split; [apply vars_le_refl|]. split; [apply vars_le_refl|].
        eapply Step_weaken; [|exact S2]. set_solver. }
  destruct F as (cE & FE & -> & WE & V2E & VE4 & S4).
  assert (P4 : m_functionPath c4 <> []) by (rewrite (step_path _ _ _ _ _ S4); exact P1).
  pose proof (Steps_expr cond 0 ∅ _ _ _ P4 HM) as SM.
  simpl in H5.
  apply mergeVariables_Ok in H5 as (ext & I & M & _ & _).
  exists c1, e, cT, cE, cM, eM, ext.
  split; [exists c0, cK; repeat split; assumption|].
  split; [exact HT|]. split; [exists c2; split; [exact HT2|exact FE]|].
  split; [exact (expr_idem _ _ _ _ HM)|]. split; [exact I|]. split; [exact M|].
  split.
  - intros d p t f Ep Et Ef. split.
    + eapply (snapshot_below cT cM); [exact (WT W1)| |exact Et|exact Ep].
      eapply vars_le_trans; [exact V2|]. eapply vars_le_trans; [exact V2E|].
      eapply vars_le_trans; [exact VE4|]. exact (step_vars _ _ _ _ _ SM).
    + eapply (snapshot_below cE cM); [exact WE| |exact Ef|exact Ep].
      eapply vars_le_trans; [exact VE4|]. exact (step_vars _ _ _ _ _ SM).
  - intros NX v Ev.
    pose proof (step_own _ _ _ _ _ S4 _ _ NX Ev) as E4.
    destruct (expr_own _ _ _ _ _ E4 HM) as (-> & _).
    exact (eq_sym (expr_of_own _ _ _ _ _ H1 Ev)).
Qed.

(** C1: the visit of an if statement in a function.  The condition is
    visited first and [e] is its term; the true branch is visited with the
    path condition extended by [e]; the indices of before are taken back; the
    else branch, when there is one, is visited with the path condition
    extended by the negation of the term of the condition.  Then every
    variable of the two touched lists, once each, moves to the next free
    index of its symbolic variable, and the checker asserts that its value
    there is ite(eM, value at iT, value at iF), where eM is the term of the
    condition at the merge, iT is the index at the end of the true branch and
    iF the index at the end of the else branch, or the index the variable
    had before the true branch when there is no else branch.  The new index
    is greater than iT and iF.  eM is [e] when the node of the condition is
    no node of the branches and has an expression variable of its own.  The
    log ends with these assertions and nothing else, and the visit answers
    false, so that the children are not visited again.  This is what a visit
    that returns has done: the merge fails with the internal assertion of
    [mergeVariables] when a touched variable has the same index at the end
    of both branches, and the visit does not return then. *)
Theorem if_merges_touched_variables cond tS fS c c' :
  wf c -> m_functionPath c <> [] ->
  accept_Statement (IfStatement cond tS fS) c = Ok tt c' ->
  visit_IfStatement cond tS fS c = Ok false c' /\
  exists c1 e cT cE cM eM ext,
    (exists c0 cK,
       accept_Expression cond c = Ok tt c0 /\
       when (Nat.eqb (length (m_functionPath c0)) 1)
         (checkBooleanNotConstant cond "Condition is always $VALUE.") c0
         = Ok tt cK /\
       expr cond cK = Ok e c1) /\
    accept_Statement tS (underCondition e c1) = Ok tt cT /\
    (exists c2,
       resetVariableIndices (indicesOf c1) (outOfCondition cT) = Ok tt c2 /\
       match fS with
       | Some s =>
           exists e2 c3,
             expr cond c2 = Ok e2 c3 /\
             accept_Statement s (underCondition (smt.Not e2) c3) = Ok tt cE
       | None =>
           cE = c2 /\
           forall d, is_Some (m_variables c1 !! d) ->
                     indicesOf cE !! d = indicesOf c1 !! d
       end) /\
    expr cond cM = Ok eM cM /\
    m_interface c' = m_interface cM ++ ext /\
    Forall2 (merged eM (indicesOf cT) (indicesOf cE) cM c')
      (uniqueVars
         (touchedVariables (StatementNode tS) ++
          match fS with
          | Some s => touchedVariables (StatementNode s)
          | None => []
          end)) ext /\
    (forall d p t f,
       m_variables cM !! d = Some p ->
       indicesOf cT !! d = Some t -> indicesOf cE !! d = Some f ->
       t < SymbolicVariable.nextFreeIndex (snd p) /\
       f < SymbolicVariable.nextFreeIndex (snd p)) /\
    (Node.id cond ∉ ids_Statement tS ∪ from_option ids_Statement ∅ fS ->
     forall v, m_expressions c1 !! Node.id cond = Some (Own v) -> eM = e).
Proof.
  intros W P H. simpl in H.
  apply bind_Ok in H as (b & c1 & H1 & H).
  destruct (visit_IfStatement_run _ _ _ _ _ _ W P H1) as (-> & R).
  simpl in H. apply ret_Ok in H as [_ <-].
  split; [exact H1|exact R].
Qed.

End Conditionals.

Lemma if_merges_touched_variables_witness :
  exists c',
    accept_Statement (Sample.always smt.UNSATISFIABLE) touchedVariables
      Sample.formatNumberReadable Sample.bigint Sample.if_else
      (Sample.inside (Sample.function Sample.if_else [])) = Ok tt c' /\
    visit_IfStatement (Sample.always smt.UNSATISFIABLE) touchedVariables
      Sample.formatNumberReadable Sample.bigint
      (accept_Expression (Sample.always smt.UNSATISFIABLE) touchedVariables
         Sample.formatNumberReadable Sample.bigint)
      (accept_Statement (Sample.always smt.UNSATISFIABLE) touchedVariables
         Sample.formatNumberReadable Sample.bigint)
      Sample.x_gt_10 (Sample.x_is 20 1) (Some (Sample.x_is 24 2))
      (Sample.inside (Sample.function Sample.if_else [])) = Ok false c' /\
    List.last (m_interface c') smt.reset =
      smt.addAssertion
        (smt.Eq (smt.Symbol "x_1" 3)
           (smt.Ite (smt.Symbol "expr_10" 0) (smt.Symbol "x_1" 1)
              (smt.Symbol "x_1" 2))).
Proof.
  pose (c := Sample.inside (Sample.function Sample.if_else [])).
  pose (c' := Sample.after
                (accept_Statement (Sample.always smt.UNSATISFIABLE) touchedVariables
                   Sample.formatNumberReadable Sample.bigint Sample.if_else) c).
  assert (H : accept_Statement (Sample.always smt.UNSATISFIABLE) touchedVariables
                Sample.formatNumberReadable Sample.bigint Sample.if_else c
              = Ok tt c') by (vm_compute; reflexivity).
  assert (W : wf c) by decide_wf.
  assert (P : m_functionPath c <> []) by (vm_compute; discriminate).
  exists c'. split; [exact H|]. split.
  - exact (proj1 (if_merges_touched_variables _ _ _ _ _ _ _ _ _ W P H)).
  - vm_compute. reflexivity.
Defined.

(** The visit of [if (x > 10) x += 1;] does not return.  The compound
    assignment is not modelled: the branch alone is visited with a warning
    and leaves every variable as it was, while the usage analyzer names [x]
    as touched; the merge then finds the same index for [x] at the end of
    both branches and fails with the internal assertion, whatever the solver
    answers, inside a function and for the whole function visited from a
    checker that has visited nothing. *)
Lemma if_with_compound_assignment_aborts :
  let body :=
    ExpressionStatement
      (Assignment (Sample.at_ 20 Sample.uint256) Token.AssignAdd
         (Sample.write 21 Sample.x) (Sample.number 22 1)) in
  let s := IfStatement Sample.x_gt_10 body None in
  let f := Sample.function s [] in
  let c := Sample.inside f in
  wf c /\ m_functionPath c <> [] /\
  touchedVariables (StatementNode body) = [VariableDeclaration.id Sample.x] /\
  (exists c1,
     accept_Statement (Sample.always smt.UNSATISFIABLE) touchedVariables
       Sample.formatNumberReadable Sample.bigint body c = Ok tt c1 /\
     m_variables c1 = m_variables c) /\
  (forall r,
     accept_Statement (Sample.always r) touchedVariables
       Sample.formatNumberReadable Sample.bigint s c
     = Throw InternalCompilerError) /\
  (forall r,
     accept_FunctionDefinition (Sample.always r) touchedVariables
       Sample.formatNumberReadable Sample.bigint f Sample.fresh
     = Throw InternalCompilerError).
Proof.
  cbv zeta. split; [decide_wf|]. split; [vm_compute; discriminate|].
  split; [reflexivity|]. split; [|split].
  - eexists. split; vm_compute; reflexivity.
  - intros r. destruct r; vm_compute; reflexivity.
  - intros r. destruct r; vm_compute; reflexivity.
Qed.

Lemma merge_requires_distinct_snapshots_witness :
  mergeVariables [1] (smt.BoolLit true) {[1 := 1]} {[1 := 1]}
    (Sample.inside (Sample.function (Block []) [])) = Throw InternalCompilerError /\
  (exists c',
     mergeVariables [1] (smt.BoolLit true) {[1 := 1]} {[1 := 0]}
       (Sample.inside (Sample.function (Block []) [])) = Ok tt c') /\
  accept_Statement (Sample.always smt.UNSATISFIABLE) (fun _ => [1])
    Sample.formatNumberReadable Sample.bigint
    (IfStatement Sample.x_gt_10 (Block []) None)
    (Sample.inside (Sample.function (Block []) [])) = Throw InternalCompilerError.
Proof.
  split; [|split].
  - apply (merge_requires_distinct_snapshots [1] (smt.BoolLit true)
             {[1 := 1]} {[1 := 1]}).
    intros D. destruct (D 1) as (t & f & Ht & Hf & N); [left|].
    rewrite lookup_singleton_eq in Ht, Hf. congruence.
  - apply (merge_requires_distinct_snapshots [1] (smt.BoolLit true)
             {[1 := 1]} {[1 := 0]}).
    + intros d Hd. apply list_elem_of_singleton in Hd as ->.
      exists 1, 0. rewrite !lookup_singleton_eq. repeat split. discriminate.
    + intros d Hd. apply list_elem_of_singleton in Hd as ->.
      vm_compute. eexists. reflexivity.
  - vm_compute. reflexivity.
Defined.

(** * Loops *)

Section Loops.

Variable solver : list smt.Call -> smt.Answer.
Variable touchedVariables : ASTNode -> list nat.
Variable formatNumberReadable : Z -> string.
Variable bigint : string -> option Z.

Abbreviation accept_Expression :=
  (accept_Expression solver touchedVariables formatNumberReadable bigint).
Abbreviation accept_Statement :=
  (accept_Statement solver touchedVariables formatNumberReadable bigint).
Abbreviation checkBooleanNotConstant :=
  (checkBooleanNotConstant solver formatNumberReadable bigint).
Abbreviation visit_WhileStatement :=
  (visit_WhileStatement solver touchedVariables formatNumberReadable bigint
     accept_Expression accept_Statement).
Abbreviation visit_ForStatement :=
  (visit_ForStatement solver touchedVariables formatNumberReadable bigint
     accept_Expression accept_Statement).

(** The end of a loop: the merge and the flag. *)
Lemma loop_merge touched eM post b c c' :
  (indicesNow <- copyVariableIndices ;;
   mergeVariables touched eM post indicesNow ;;
   modify (set_loopExecutionHappened true) ;;
   ret false) c = Ok b c' ->
  b = false /\
  exists ext,
    m_interface c' = m_interface c ++ ext /\
    Forall2 (merged eM post (indicesOf c) c c') (uniqueVars touched) ext /\
    m_loopExecutionHappened c' = true.
Proof.
  intros H.
  apply bind_Ok in H as (i & c0 & H0 & H). apply gets_Ok in H0 as [-> ->].
  apply bind_Ok in H as ([] & c1 & H1 & H).
  apply bind_Ok in H as ([] & c2 & H2 & H). apply modify_Ok in H2. subst c2.
  apply ret_Ok in H as [<- <-].
  apply mergeVariables_Ok in H1 as (ext & I & M & _).
  split; [reflexivity|]. exists ext. split; [exact I|]. split; [exact M|reflexivity].
Qed.

Lemma visit_WhileStatement_run node cond body b c c' :
  visit_WhileStatement node cond body false c = Ok b c' ->
  b = false /\
  exists c1 e cB cN cM eM ext,
    resetVariables (touchedVariables (StatementNode node)) c = Ok tt c1 /\
    (exists c2 cK c3,
       accept_Expression cond c1 = Ok tt c2 /\
       when (Nat.eqb (length (m_functionPath c2)) 1)
         (checkBooleanNotConstant cond "While loop condition is always $VALUE.") c2
         = Ok tt cK /\
       expr cond cK = Ok e c3 /\
       accept_Statement body (underCondition e c3) = Ok tt cB /\
       exists c4 c5,
         resetVariableIndices (indicesOf c3) (outOfCondition cB) = Ok tt c4 /\
         resetVariableIndices (indicesOf c) c4 = Ok tt c5 /\
         accept_Expression cond c5 = Ok tt cN) /\
    expr cond cN = Ok eM cM /\
    m_interface c' = m_interface cM ++ ext /\
    Forall2 (merged eM (indicesOf cB) (indicesOf cM) cM c')
      (uniqueVars (touchedVariables (StatementNode node))) ext /\
    m_loopExecutionHappened c' = true.
Proof.
  intros H. unfold visit_WhileStatement in H.
  apply bind_Ok in H as (pre & c0 & H0 & H). apply gets_Ok in H0 as [-> ->].
  apply bind_Ok in H as ([] & c1 & H1 & H).
  apply bind_Ok in H as (post & c4 & HL & H).
  apply bind_Ok in H as ([] & c5 & H5 & H).
  apply bind_Ok in H as ([] & cN & HN & H). simpl in HN.
  apply bind_Ok in H as (eM & cM & HM & H).
  apply bind_Ok in HL as ([] & c2 & H2 & HL).
  apply bind_Ok in HL as (root & c2' & HR & HL). apply gets_Ok in HR as [-> ->].
  apply bind_Ok in HL as ([] & cK & HK & HL).
  apply bind_Ok in HL as (e & c3 & H3 & HL).
  apply visitBranch_run in HL as (cB & HB & -> & HB2).
  apply loop_merge in H as (-> & ext & I & M & F).
  split; [reflexivity|].
  exists c1, e, cB, cN, cM, eM, ext.
  split; [exact H1|]. split.
  - exists c2, cK, c3. repeat split; try assumption.
    exists c4, c5. repeat split; assumption.
  - repeat split; assumption.
Qed.

Lemma visit_DoWhileStatement_run node cond body b c c' :
  visit_WhileStatement node cond body true c = Ok b c' ->
  b = false /\
  exists c1 cB cC cM eM ext,
    resetVariables (touchedVariables (StatementNode node)) c = Ok tt c1 /\
    accept_Statement body c1 = Ok tt cB /\
    (exists c2 c3,
       resetVariableIndices (indicesOf c1) cB = Ok tt c2 /\
       accept_Expression cond c2 = Ok tt c3 /\
       when (Nat.eqb (length (m_functionPath c3)) 1)
         (checkBooleanNotConstant cond "Do-while loop condition is always $VALUE.")
         c3 = Ok tt cC) /\
    (exists c4,
       resetVariableIndices (indicesOf c) cC = Ok tt c4 /\
       expr cond c4 = Ok eM cM) /\
    m_interface c' = m_interface cM ++ ext /\
    Forall2 (merged eM (indicesOf cB) (indicesOf cM) cM c')
      (uniqueVars (touchedVariables (StatementNode node))) ext /\
    m_loopExecutionHappened c' = true.
Proof.
  intros H. unfold visit_WhileStatement in H.
  apply bind_Ok in H as (pre & c0 & H0 & H). apply gets_Ok in H0 as [-> ->].
  apply bind_Ok in H as ([] & c1 & H1 & H).
  apply bind_Ok in H as (post & cC & HL & H).
  apply bind_Ok in H as ([] & c4 & H4 & H).
  apply bind_Ok in H as ([] & c4' & HN & H). simpl in HN. apply ret_Ok in HN as [_ <-].
  apply bind_Ok in H as (eM & cM & HM & H).
  apply bind_Ok in HL as (iA & c2 & HB & HL).
  apply bind_Ok in HL as ([] & c3 & H3 & HL).
  apply bind_Ok in HL as (root & c3' & HR & HL). apply gets_Ok in HR as [-> ->].
  apply bind_Ok in HL as ([] & cK & HK & HL). apply ret_Ok in HL as [<- <-].
  apply visitBranch_run in HB as (cB & HB & -> & HB2).
  apply loop_merge in H as (-> & ext & I & M & F).
  split; [reflexivity|].
  exists c1, cB, cK, cM, eM, ext.
  split; [exact H1|]. split; [exact HB|]. split.
  - exists c2, c3. repeat split; assumption.
  - split; [exists c4; split; assumption|]. repeat split; assumption.
Qed.

(** The touched list of a for loop: the body, the condition and the loop
    expression, and not the initialization. *)
Definition forTouched (cond : option Expression) (loopExpression : option Statement)
  (body : Statement) : list nat :=
  sortUnique
    (touchedVariables (StatementNode body) ++
     match cond with
     | Some c => touchedVariables (ExpressionNode c)
     | None => []
     end ++
     match loopExpression with
     | Some l => touchedVariables (StatementNode l)
     | None => []
     end).

Lemma visit_ForStatement_run init cond loopExpression body b c c' :
  visit_ForStatement init cond loopExpression body c = Ok b c' ->
  b = false /\
  exists c0 c1 cS cB cN cM eM ext,
    acceptOption accept_Statement init c = Ok tt c0 /\
    resetVariables (forTouched cond loopExpression body) c0 = Ok tt c1 /\
    match cond with
    | Some x =>
        exists c2 cK e c3,
          accept_Expression x c1 = Ok tt c2 /\
          when (Nat.eqb (length (m_functionPath c2)) 1)
            (checkBooleanNotConstant x "For loop condition is always $VALUE.") c2
            = Ok tt cK /\
          expr x (set_interface (fun log => log ++ [smt.push]) cK) = Ok e c3 /\
          cS = set_interface (fun log => log ++ [smt.addAssertion e]) c3
    | None => cS = set_interface (fun log => log ++ [smt.push]) c1
    end /\
    (exists c4 c5,
       accept_Statement body cS = Ok tt c4 /\
       acceptOption accept_Statement loopExpression c4 = Ok tt c5 /\
       cB = set_interface (fun log => log ++ [smt.pop]) c5) /\
    (exists c6,
       resetVariableIndices (indicesOf c0) cB = Ok tt c6 /\
       acceptOption accept_Expression cond c6 = Ok tt cN) /\
    match cond with
    | Some x => expr x cN = Ok eM cM
    | None => eM = smt.BoolLit true /\ cM = cN
    end /\
    m_interface c' = m_interface cM ++ ext /\
    Forall2 (merged eM (indicesOf cB) (indicesOf cM) cM c')
      (uniqueVars (forTouched cond loopExpression body)) ext /\
    m_loopExecutionHappened c' = true.
Proof.
  intros H. unfold visit_ForStatement in H.
  apply bind_Ok in H as ([] & c0 & H0 & H).
  apply bind_Ok in H as (pre & c0' & HP & H). apply gets_Ok in HP as [-> ->].
  apply bind_Ok in H as ([] & c1 & H1 & H).
  apply bind_Ok in H as ([] & cK & HK & H).
  apply bind_Ok in H as ([] & cK' & HPush & H). apply modify_Ok in HPush. subst cK'.
  apply bind_Ok in H as ([] & cS & HS & H).
  apply bind_Ok in H as ([] & c4 & H4 & H).
  apply bind_Ok in H as ([] & c5 & H5 & H).
  apply bind_Ok in H as ([] & cB & HPop & H). apply modify_Ok in HPop. subst cB.
  apply bind_Ok in H as (post & cB' & HPost & H). apply gets_Ok in HPost as [-> ->].
  apply bind_Ok in H as ([] & c6 & H6 & H).
  apply bind_Ok in H as ([] & cN & HN & H).
  apply bind_Ok in H as (eM & cM & HM & H).
  apply loop_merge in H as (-> & ext & I & M & F).
  split; [reflexivity|].
  exists c0, c1, cS, (set_interface (fun log => log ++ [smt.pop]) c5), cN, cM, eM, ext.
  split; [exact H0|]. split; [exact H1|]. split.
  { destruct cond as [x|].
    - apply bind_Ok in HK as ([] & c2 & H2 & HK).
      apply bind_Ok in HK as (root & c2' & HR & HK). apply gets_Ok in HR as [-> ->].
      apply bind_Ok in HS as (e & c3 & H3 & HS). apply modify_Ok in HS. subst cS.
      exists c2, cK, e, c3. repeat split; assumption.
    - apply ret_Ok in HK as [_ <-]. apply ret_Ok in HS as [_ <-]. reflexivity. }
  split; [exists c4, c5; repeat split; assumption|].
  split; [exists c6; split; assumption|].
  split.
  { destruct cond as [x|]; [exact HM|].
    apply ret_Ok in HM as [<- <-]. split; reflexivity. }
  repeat split; assumption.
Qed.

(** C2: the visit of a while loop and of a for loop.  The indices of before
    the loop are the snapshot pre; for a for loop the initialization is
    visited before that, once, and is no part of the touched list, which is
    made of the body, the condition and the loop expression.  Every touched
    variable is given a new index and its unknown value.  The condition is
    visited and the body is visited once: for a while loop with the path
    condition extended by the term of the condition, for a for loop inside a
    scope of the solver in which the term of the condition is asserted, the
    loop expression being visited after the body in that scope.  The last
    indices are the snapshot post.  The indices of pre are taken back and the
    condition, when there is one, is visited once more.  Then every touched
    variable, once each, moves to the next free index and the checker asserts
    that its value there is ite(eM, value at post, value at now), where eM is
    the term of the condition after that second visit, true when the loop
    has no condition, and now is the index after that second visit.  The
    flag of a loop execution is set and the visit answers false. *)
Theorem loops_merge_after_second_condition_visit :
  (forall cond body c c',
     accept_Statement (WhileStatement cond body false) c = Ok tt c' ->
     visit_WhileStatement (WhileStatement cond body false) cond body false c
       = Ok false c' /\
     exists c1 e cB cN cM eM ext,
       resetVariables (touchedVariables (StatementNode (WhileStatement cond body false))) c = Ok tt c1 /\
       (exists c2 cK c3,
          accept_Expression cond c1 = Ok tt c2 /\
          when (Nat.eqb (length (m_functionPath c2)) 1)
            (checkBooleanNotConstant cond "While loop condition is always $VALUE.") c2
            = Ok tt cK /\
          expr cond cK = Ok e c3 /\
          accept_Statement body (underCondition e c3) = Ok tt cB /\
          exists c4 c5,
            resetVariableIndices (indicesOf c3) (outOfCondition cB) = Ok tt c4 /\
            resetVariableIndices (indicesOf c) c4 = Ok tt c5 /\
            accept_Expression cond c5 = Ok tt cN) /\
       expr cond cN = Ok eM cM /\
       m_interface c' = m_interface cM ++ ext /\
       Forall2 (merged eM (indicesOf cB) (indicesOf cM) cM c')
         (uniqueVars (touchedVariables (StatementNode (WhileStatement cond body false)))) ext /\
       m_loopExecutionHappened c' = true) /\
  (forall init cond loopExpression body c c',
     accept_Statement (ForStatement init cond loopExpression body) c = Ok tt c' ->
     visit_ForStatement init cond loopExpression body c = Ok false c' /\
     exists c0 c1 cS cB cN cM eM ext,
       acceptOption accept_Statement init c = Ok tt c0 /\
       resetVariables (forTouched cond loopExpression body) c0 = Ok tt c1 /\
       match cond with
       | Some x =>
           exists c2 cK e c3,
             accept_Expression x c1 = Ok tt c2 /\
             when (Nat.eqb (length (m_functionPath c2)) 1)
               (checkBooleanNotConstant x "For loop condition is always $VALUE.") c2
               = Ok tt cK /\
             expr x (set_interface (fun log => log ++ [smt.push]) cK) = Ok e c3 /\
             cS = set_interface (fun log => log ++ [smt.addAssertion e]) c3
       | None => cS = set_interface (fun log => log ++ [smt.push]) c1
       end /\
       (exists c4 c5,
          accept_Statement body cS = Ok tt c4 /\
          acceptOption accept_Statement loopExpression c4 = Ok tt c5 /\
          cB = set_interface (fun log => log ++ [smt.pop]) c5) /\
       (exists c6,
          resetVariableIndices (indicesOf c0) cB = Ok tt c6 /\
          acceptOption accept_Expression cond c6 = Ok tt cN) /\
       match cond with
       | Some x => expr x cN = Ok eM cM
       | None => eM = smt.BoolLit true /\ cM = cN
       end /\
       m_interface c' = m_interface cM ++ ext /\
       Forall2 (merged eM (indicesOf cB) (indicesOf cM) cM c')
         (uniqueVars (forTouched cond loopExpression body)) ext /\
       m_loopExecutionHappened c' = true).
Proof.
  split.
  - intros cond body c c' H. simpl in H.
    apply bind_Ok in H as (b & c1 & H1 & H).
    destruct (visit_WhileStatement_run _ _ _ _ _ _ H1) as (-> & R).
    simpl in H. apply ret_Ok in H as [_ <-].
    split; [exact H1|exact R].
  - intros init cond loopExpression body c c' H. simpl in H.
    apply bind_Ok in H as (b & c1 & H1 & H).
    destruct (visit_ForStatement_run _ _ _ _ _ _ _ H1) as (-> & R).
    simpl in H. apply ret_Ok in H as [_ <-].
    split; [exact H1|exact R].
Qed.

(** C8: the visit of a do-while loop.  Every touched variable is given a
    new index and its unknown value; the body is visited once, with nothing
    added to the path condition; its last indices are the snapshot post, and
    the indices of before the body are taken back.  Only then is the
    condition visited, once: it is evaluated at the indices of before the
    body, and what it does to the indices is no part of post.  The indices of
    before the loop are taken back, the condition is not visited again, and
    every touched variable, once each, moves to the next free index, the
    checker asserting that its value there is ite(eM, value at post, value
    at the index then), where eM is the term of the condition.  The flag of
    a loop execution is set and the visit answers false. *)
Theorem do_while_snapshots_before_condition cond body c c' :
  accept_Statement (WhileStatement cond body true) c = Ok tt c' ->
  visit_WhileStatement (WhileStatement cond body true) cond body true c
    = Ok false c' /\
  exists c1 cB cC cM eM ext,
    resetVariables (touchedVariables (StatementNode (WhileStatement cond body true))) c = Ok tt c1 /\
    accept_Statement body c1 = Ok tt cB /\
    (exists c2 c3,
       resetVariableIndices (indicesOf c1) cB = Ok tt c2 /\
       accept_Expression cond c2 = Ok tt c3 /\
       when (Nat.eqb (length (m_functionPath c3)) 1)
         (checkBooleanNotConstant cond "Do-while loop condition is always $VALUE.")
         c3 = Ok tt cC) /\
    (exists c4,
       resetVariableIndices (indicesOf c) cC = Ok tt c4 /\
       expr cond c4 = Ok eM cM) /\
    m_interface c' = m_interface cM ++ ext /\
    Forall2 (merged eM (indicesOf cB) (indicesOf cM) cM c')
      (uniqueVars (touchedVariables (StatementNode (WhileStatement cond body true)))) ext /\
    m_loopExecutionHappened c' = true.
Proof.
  intros H. simpl in H.
  apply bind_Ok in H as (b & c1 & H1 & H).
  destruct (visit_DoWhileStatement_run _ _ _ _ _ _ H1) as (-> & R).
  simpl in H. apply ret_Ok in H as [_ <-].
  split; [exact H1|exact R].
Qed.

End Loops.

(** ** The loops of the samples *)

Lemma loops_merge_after_second_condition_visit_witness :
  exists c',
    accept_Statement (Sample.always smt.UNSATISFIABLE) touchedVariables
      Sample.formatNumberReadable Sample.bigint Sample.while_inc
      (Sample.inside (Sample.function Sample.while_inc [])) = Ok tt c' /\
    visit_WhileStatement (Sample.always smt.UNSATISFIABLE) touchedVariables
      Sample.formatNumberReadable Sample.bigint
      (accept_Expression (Sample.always smt.UNSATISFIABLE) touchedVariables
         Sample.formatNumberReadable Sample.bigint)
      (accept_Statement (Sample.always smt.UNSATISFIABLE) touchedVariables
         Sample.formatNumberReadable Sample.bigint)
      Sample.while_inc Sample.x_inc_lt_10 (Block []) false
      (Sample.inside (Sample.function Sample.while_inc [])) = Ok false c' /\
    m_loopExecutionHappened c' = true /\
    List.last (m_interface c') smt.reset =
      smt.addAssertion
        (smt.Eq (smt.Symbol "x_1" 4)
           (smt.Ite (smt.Symbol "expr_13" 1) (smt.Symbol "x_1" 2)
              (smt.Symbol "x_1" 3))).
Proof.
  pose (c := Sample.inside (Sample.function Sample.while_inc [])).
  pose (c' := Sample.after
                (accept_Statement (Sample.always smt.UNSATISFIABLE) touchedVariables
                   Sample.formatNumberReadable Sample.bigint Sample.while_inc) c).
  assert (H : accept_Statement (Sample.always smt.UNSATISFIABLE) touchedVariables
                Sample.formatNumberReadable Sample.bigint Sample.while_inc c
              = Ok tt c') by (vm_compute; reflexivity).
  exists c'. split; [exact H|].
  destruct (proj1 (loops_merge_after_second_condition_visit _ _ _ _) _ _ _ _ H)
    as (V & c1 & e & cB & cN & cM & eM & ext & _ & _ & _ & _ & _ & F).
  split; [exact V|]. split; [exact F|]. vm_compute. reflexivity.
Defined.

(** [while (x++ < 10) {}]: the second visit of the condition moves [x] from
    the index of before the loop, 0, to index 3, and the merge is made with
    index 3. *)
Lemma while_condition_moves_the_skipped_value :
  let c := Sample.inside (Sample.function Sample.while_inc []) in
  let c' :=
    Sample.after
      (accept_Statement (Sample.always smt.UNSATISFIABLE) touchedVariables
         Sample.formatNumberReadable Sample.bigint Sample.while_inc) c in
  accept_Statement (Sample.always smt.UNSATISFIABLE) touchedVariables
    Sample.formatNumberReadable Sample.bigint Sample.while_inc c = Ok tt c' /\
  indicesOf c !! 1 = Some 0 /\
  List.last (m_interface c') smt.reset =
    smt.addAssertion
      (smt.Eq (smt.Symbol "x_1" 4)
         (smt.Ite (smt.Symbol "expr_13" 1) (smt.Symbol "x_1" 2)
            (smt.Symbol "x_1" 3))) /\
  ~ while_merges_with_indices_before.
Proof.
  cbv zeta.
  assert (H : accept_Statement (Sample.always smt.UNSATISFIABLE) touchedVariables
                Sample.formatNumberReadable Sample.bigint Sample.while_inc
                (Sample.inside (Sample.function Sample.while_inc []))
              = Ok tt
                  (Sample.after
                     (accept_Statement (Sample.always smt.UNSATISFIABLE)
                        touchedVariables Sample.formatNumberReadable Sample.bigint
                        Sample.while_inc)
                     (Sample.inside (Sample.function Sample.while_inc []))))
    by (vm_compute; reflexivity).
  assert (L : List.last
                (m_interface
                   (Sample.after
                      (accept_Statement (Sample.always smt.UNSATISFIABLE)
                         touchedVariables Sample.formatNumberReadable Sample.bigint
                         Sample.while_inc)
                      (Sample.inside (Sample.function Sample.while_inc []))))
                smt.reset =
              smt.addAssertion
                (smt.Eq (smt.Symbol "x_1" 4)
                   (smt.Ite (smt.Symbol "expr_13" 1) (smt.Symbol "x_1" 2)
                      (smt.Symbol "x_1" 3)))) by (vm_compute; reflexivity).
  split; [exact H|]. split; [vm_compute; reflexivity|]. split; [exact L|].
  intros S.
  destruct (S _ _ _ _ _ _ _ _ H) as (eM & post & cM & ext & I & M).
  change (uniqueVars (touchedVariables (StatementNode (WhileStatement
            Sample.x_inc_lt_10 (Block []) false)))) with [1] in M.
  apply Forall2_cons_inv_l in M as (call & ext' & Mc & M' & ->).
  apply Forall2_nil_inv_l in M' as ->.
  destruct Mc as (p & t & f & _ & _ & Ef & _ & _ & ->).
  vm_compute in Ef. injection Ef as <-.
  rewrite I, last_last in L. discriminate L.
Qed.

Lemma do_while_snapshots_before_condition_witness :
  exists c',
    accept_Statement (Sample.always smt.UNSATISFIABLE) touchedVariables
      Sample.formatNumberReadable Sample.bigint Sample.do_while_inc
      (Sample.inside (Sample.function Sample.do_while_inc [])) = Ok tt c' /\
    m_loopExecutionHappened c' = true /\
    List.last (m_interface c') smt.reset =
      smt.addAssertion
        (smt.Eq (smt.Symbol "x_1" 3)
           (smt.Ite (smt.Symbol "expr_13" 0) (smt.Symbol "x_1" 1)
              (smt.Symbol "x_1" 0))).
Proof.
  pose (c := Sample.inside (Sample.function Sample.do_while_inc [])).
  pose (c' := Sample.after
                (accept_Statement (Sample.always smt.UNSATISFIABLE) touchedVariables
                   Sample.formatNumberReadable Sample.bigint Sample.do_while_inc) c).
  assert (H : accept_Statement (Sample.always smt.UNSATISFIABLE) touchedVariables
                Sample.formatNumberReadable Sample.bigint Sample.do_while_inc c
              = Ok tt c') by (vm_compute; reflexivity).
  exists c'. split; [exact H|].
  destruct (do_while_snapshots_before_condition _ _ _ _ _ _ _ _ H)
    as (V & c1 & cB & cC & cM & eM & ext & _ & _ & _ & _ & _ & _ & F).
  split; [exact F|]. vm_compute. reflexivity.
Defined.

(** [do {} while (x++ < 10);]: after the body and the condition [x] is at
    index 2, and the merge is made with the index 1 of the end of the
    body. *)
Lemma do_while_condition_is_not_in_post :
  let c := Sample.inside (Sample.function Sample.do_while_inc []) in
  let c' :=
    Sample.after
      (accept_Statement (Sample.always smt.UNSATISFIABLE) touchedVariables
         Sample.formatNumberReadable Sample.bigint Sample.do_while_inc) c in
  let cC :=
    Sample.after
      (resetVariables (touchedVariables (StatementNode Sample.do_while_inc)) ;;
       accept_Statement (Sample.always smt.UNSATISFIABLE) touchedVariables
         Sample.formatNumberReadable Sample.bigint (Block []) ;;
       accept_Expression (Sample.always smt.UNSATISFIABLE) touchedVariables
         Sample.formatNumberReadable Sample.bigint Sample.x_inc_lt_10) c in
  accept_Statement (Sample.always smt.UNSATISFIABLE) touchedVariables
    Sample.formatNumberReadable Sample.bigint Sample.do_while_inc c = Ok tt c' /\
  indicesOf cC !! 1 = Some 2 /\
  List.last (m_interface c') smt.reset =
    smt.addAssertion
      (smt.Eq (smt.Symbol "x_1" 3)
         (smt.Ite (smt.Symbol "expr_13" 0) (smt.Symbol "x_1" 1)
            (smt.Symbol "x_1" 0))) /\
  ~ do_while_post_after_condition.
Proof.
  cbv zeta.
  assert (H : accept_Statement (Sample.always smt.UNSATISFIABLE) touchedVariables
                Sample.formatNumberReadable Sample.bigint Sample.do_while_inc
                (Sample.inside (Sample.function Sample.do_while_inc []))
              = Ok tt
                  (Sample.after
                     (accept_Statement (Sample.always smt.UNSATISFIABLE)
                        touchedVariables Sample.formatNumberReadable Sample.bigint
                        Sample.do_while_inc)
                     (Sample.inside (Sample.function Sample.do_while_inc []))))
    by (vm_compute; reflexivity).
  assert (L : List.last
                (m_interface
                   (Sample.after
                      (accept_Statement (Sample.always smt.UNSATISFIABLE)
                         touchedVariables Sample.formatNumberReadable Sample.bigint
                         Sample.do_while_inc)
                      (Sample.inside (Sample.function Sample.do_while_inc []))))
                smt.reset =
              smt.addAssertion
                (smt.Eq (smt.Symbol "x_1" 3)
                   (smt.Ite (smt.Symbol "expr_13" 0) (smt.Symbol "x_1" 1)
                      (smt.Symbol "x_1" 0)))) by (vm_compute; reflexivity).
  split; [exact H|]. split; [vm_compute; reflexivity|]. split; [exact L|].
  intros S.
  assert (C : (resetVariables (touchedVariables (StatementNode Sample.do_while_inc)) ;;
               accept_Statement (Sample.always smt.UNSATISFIABLE) touchedVariables
                 Sample.formatNumberReadable Sample.bigint (Block []) ;;
               accept_Expression (Sample.always smt.UNSATISFIABLE) touchedVariables
                 Sample.formatNumberReadable Sample.bigint Sample.x_inc_lt_10)
                (Sample.inside (Sample.function Sample.do_while_inc []))
              = Ok tt
                  (Sample.after
                     (resetVariables
                        (touchedVariables (StatementNode Sample.do_while_inc)) ;;
                      accept_Statement (Sample.always smt.UNSATISFIABLE)
                        touchedVariables Sample.formatNumberReadable Sample.bigint
                        (Block []) ;;
                      accept_Expression (Sample.always smt.UNSATISFIABLE)
                        touchedVariables Sample.formatNumberReadable Sample.bigint
                        Sample.x_inc_lt_10)
                     (Sample.inside (Sample.function Sample.do_while_inc []))))
    by (vm_compute; reflexivity).
  destruct (S _ _ _ _ _ _ _ _ _ H C) as (eM & now & cM & ext & I & M).
  change (uniqueVars (touchedVariables (StatementNode (WhileStatement
            Sample.x_inc_lt_10 (Block []) true)))) with [1] in M.
  apply Forall2_cons_inv_l in M as (call & ext' & Mc & M' & ->).
  apply Forall2_nil_inv_l in M' as ->.
  destruct Mc as (p & t & f & _ & Et & _ & _ & _ & ->).
  vm_compute in Et. injection Et as <-.
  rewrite I, last_last in L. discriminate L.
Qed.

(** * Root functions *)

(** Inside a balanced stretch every query is made in a scope that the
    stretch itself opened. *)
Lemma balance_check ext : forall d k pre es post,
  balance d ext = Some k ->
  ext = pre ++ smt.check es :: post ->
  exists j, balance d pre = Some (S j).
Proof.
  induction ext as [|call ext IH]; intros d k pre es post B E.
  - destruct pre; discriminate.
  - destruct pre as [|call' pre].
    + injection E as -> ->. simpl in B. destruct d as [|d]; [discriminate|].
      exists d. reflexivity.
    + injection E as <- E. simpl in B |- *.
      destruct call; try discriminate.
      * exact (IH _ _ _ _ _ B E).
      * destruct d as [|d]; [discriminate|]. exact (IH _ _ _ _ _ B E).
      * exact (IH _ _ _ _ _ B E).
      * destruct d as [|d]; [discriminate|]. exact (IH _ _ _ _ _ B E).
Qed.

Section Functions.

Variable solver : list smt.Call -> smt.Answer.
Variable touchedVariables : ASTNode -> list nat.
Variable formatNumberReadable : Z -> string.
Variable bigint : string -> option Z.

Abbreviation accept_FunctionDefinition :=
  (accept_FunctionDefinition solver touchedVariables formatNumberReadable bigint).
Abbreviation accept_VariableDeclaration :=
  (accept_VariableDeclaration solver touchedVariables formatNumberReadable bigint).
Abbreviation accept_ModifierInvocation :=
  (accept_ModifierInvocation solver touchedVariables formatNumberReadable bigint).

Lemma Steps_function_children id loc isC ps rs ms ls b d :
  Steps
    (listAccept ps accept_VariableDeclaration ;;
     listAccept rs accept_VariableDeclaration ;;
     listAccept ms accept_ModifierInvocation ;;
     acceptOption (accept_Statement solver touchedVariables formatNumberReadable bigint) b)
    d d (ids_FunctionDefinition (mkFunctionDefinition id loc isC ps rs ms ls b)).
Proof.
  destruct (Steps_accept solver touchedVariables formatNumberReadable bigint)
    as (_ & _ & SS & SV & _ & SM).
  eapply Steps_bind.
  { apply Steps_listAccept. intros x Hx. apply SV.
    pose proof (ids_list_subseteq ids_VariableDeclaration ps x Hx). set_solver. }
  intros _. eapply Steps_bind.
  { apply Steps_listAccept. intros x Hx. apply SV.
    pose proof (ids_list_subseteq ids_VariableDeclaration rs x Hx). set_solver. }
  intros _. eapply Steps_bind.
  { apply Steps_listAccept. intros x Hx. apply SM.
    pose proof (ids_list_subseteq ids_ModifierInvocation ms x Hx). set_solver. }
  intros _. apply Steps_acceptOption. intros s ->. apply SS. simpl. set_solver.
Qed.

Lemma Steps_root_initialization f d X :
  Steps
    (resetStateVariables ;;
     initializeLocalVariables f ;;
     modify (set_loopExecutionHappened false) ;;
     modify (set_arrayAssignmentHappened false)) d d X.
Proof. unfold resetStateVariables, initializeLocalVariables. steps. Qed.

(** The calls of the visit of a root function: a reset, then a balanced
    stretch. *)
Lemma root_function_log f c c' :
  m_functionPath c = [] ->
  accept_FunctionDefinition f c = Ok tt c' ->
  exists ext,
    m_interface c' = m_interface c ++ smt.reset :: ext /\
    balance 0 ext = Some 0 /\
    m_functionPath c' = [].
Proof.
  intros P H. destruct f as [id loc isC ps rs ms ls b].
  change (accept_FunctionDefinition (mkFunctionDefinition id loc isC ps rs ms ls b))
    with (descend <- visit_FunctionDefinition
                       (mkFunctionDefinition id loc isC ps rs ms ls b) ;;
          when descend
            (listAccept ps accept_VariableDeclaration ;;
             listAccept rs accept_VariableDeclaration ;;
             listAccept ms accept_ModifierInvocation ;;
             acceptOption
               (accept_Statement solver touchedVariables formatNumberReadable bigint)
               b) ;;
          endVisit_FunctionDefinition) in H.
  set (f := mkFunctionDefinition id loc isC ps rs ms ls b) in *.
  apply bind_Ok in H as (descend & q4 & H0 & H).
  unfold visit_FunctionDefinition in H0.
  apply bind_Ok in H0 as ([] & q1 & H1 & H0).
  assert (K1 : m_interface q1 = m_interface c /\ m_functionPath q1 = []).
  { destruct (_ || _); simpl in H1.
    - apply modify_Ok in H1. subst q1. split; [reflexivity|exact P].
    - apply ret_Ok in H1 as [_ <-]. split; [reflexivity|exact P]. }
  destruct K1 as (I1 & P1).
  apply bind_Ok in H0 as ([] & q2 & H2 & H0). apply modify_Ok in H2. subst q2.
  apply bind_Ok in H0 as (root & q3 & H3 & H0). apply gets_Ok in H3 as [-> ->].
  simpl in H0. rewrite P1 in H0. simpl in H0.
  apply bind_Ok in H0 as ([] & q3 & H3 & H0). apply ret_Ok in H0 as [<- <-].
  apply bind_Ok in H3 as ([] & r1 & R1 & H3). apply modify_Ok in R1. subst r1.
  apply bind_Ok in H3 as ([] & r2 & R2 & H3). apply modify_Ok in R2. subst r2.
  apply bind_Ok in H3 as ([] & r3 & R3 & H3). apply modify_Ok in R3. subst r3.
  apply bind_Ok in H3 as ([] & r4 & R4 & H3). apply modify_Ok in R4. subst r4.
  apply bind_Ok in H3 as ([] & r5 & R5 & H3). apply modify_Ok in R5. subst r5.
  match type of H3 with
  | _ ?q = _ => set (qR := q) in *
  end.
  assert (PR : m_functionPath qR = [f]) by (simpl; rewrite P1; reflexivity).
  assert (NR : m_functionPath qR <> []) by (rewrite PR; discriminate).
  assert (IR : m_interface qR = m_interface c ++ [smt.reset])
    by (simpl; rewrite I1; reflexivity).
  pose proof (Steps_root_initialization f 0 (ids_FunctionDefinition f) _ _ _ NR H3)
    as S3.
  simpl in H.
  apply bind_Ok in H as ([] & q5 & H5 & H).
  pose proof (Steps_function_children id loc isC ps rs ms ls b 0 _ _ _
                (Step_inF _ _ _ _ _ S3 NR) H5) as S5.
  pose proof (Step_trans _ _ _ _ _ _ _ S3 S5) as S.
  destruct S as [SP _ (ext & SI & SB) _ _ _].
  unfold endVisit_FunctionDefinition in H.
  apply bind_Ok in H as (root & q6 & H6 & H). apply gets_Ok in H6 as [-> ->].
  rewrite SP, PR in H. simpl in H.
  apply bind_Ok in H as ([] & q7 & H7 & H).
  unfold removeLocalVariables in H7. apply modify_Ok in H7. subst q7.
  apply modify_Ok in H. subst c'. simpl.
  exists ext. split; [|split].
  - rewrite SI, IR, <- app_assoc. reflexivity.
  - exact SB.
  - rewrite SP, PR. reflexivity.
Qed.

End Functions.

Lemma depth_reset log : smt.depth (log ++ [smt.reset]) = 0.
Proof. unfold smt.depth. rewrite scopes_app. reflexivity. Qed.

(** C7: the scopes of the solver.  A goal check that returns has made
    exactly one push, the assertion of the path condition with the
    condition, one check and one pop, in this order and whatever the result
    of the solver is.  The test for a constant condition that returns has
    made two such scopes one after the other, each with its own push and
    pop, or no call at all on a literal.  The visit of a root function that
    returns has reset the solver and then made a stretch of calls in which
    no pop closes a scope that the stretch did not open, every check is made
    inside a scope opened by a push of the stretch and not yet closed, and
    the number of open scopes at the end is the number after the reset,
    zero. *)
Theorem solver_scopes_are_balanced
  solver touchedVariables formatNumberReadable bigint :
  (forall cond loc descr name v c c',
     checkCondition solver formatNumberReadable bigint cond loc descr name v c
       = Ok tt c' ->
     exists es,
       m_interface c' =
         m_interface c ++
           [smt.push;
            smt.addAssertion
              (smt.And (List.last (m_pathConditions c) (smt.BoolLit true)) cond);
            smt.check es; smt.pop]) /\
  (forall cond template c c',
     checkBooleanNotConstant solver formatNumberReadable bigint cond template c
       = Ok tt c' ->
     if isLiteral cond then m_interface c' = m_interface c
     else exists e, m_interface c' = m_interface c ++ constantTest c e) /\
  (forall f c c',
     m_functionPath c = [] ->
     accept_FunctionDefinition solver touchedVariables formatNumberReadable bigint
       f c = Ok tt c' ->
     exists ext,
       m_interface c' = m_interface c ++ smt.reset :: ext /\
       balance 0 ext = Some 0 /\
       (forall pre es post,
          ext = pre ++ smt.check es :: post ->
          exists j, balance 0 pre = Some (S j)) /\
       smt.depth (m_interface c ++ [smt.reset]) = 0 /\
       smt.depth (m_interface c') = 0).
Proof.
  split; [|split].
  - intros cond loc descr name v c c' H.
    apply checkCondition_Ok in H. destruct H as (ev & I & _).
    exists (fst <$> ev). rewrite I, <- app_assoc. reflexivity.
  - intros cond template c c' H.
    apply checkBooleanNotConstant_Ok in H.
    destruct (isLiteral cond); [rewrite H; reflexivity|].
    destruct H as (e & c1 & _ & I & _).
    exists e. rewrite I. unfold constantTest. rewrite <- !app_assoc. reflexivity.
  - intros f c c' P H.
    destruct (root_function_log _ _ _ _ _ _ _ P H) as (ext & I & B & _).
    exists ext. split; [exact I|]. split; [exact B|]. split; [|split].
    + intros pre es post E. exact (balance_check _ _ _ _ _ _ B E).
    + apply depth_reset.
    + rewrite I.
      change (m_interface c ++ smt.reset :: ext)
        with (m_interface c ++ [smt.reset] ++ ext).
      rewrite app_assoc, (depth_balance _ _ _ B), depth_reset. reflexivity.
Qed.

Lemma solver_scopes_are_balanced_witness :
  (forall r,
     exists c' es,
       checkCondition
         (fun _ => smt.Result r ["0"; "0"; "0"])
         Sample.formatNumberReadable Sample.bigint
         (smt.Symbol "expr_10" 0) 7 "Assertion violation" "" None Sample.conditioned
         = Ok tt c' /\
       m_interface c' =
         m_interface Sample.conditioned ++
           [smt.push;
            smt.addAssertion
              (smt.And
                 (List.last (m_pathConditions Sample.conditioned) (smt.BoolLit true))
                 (smt.Symbol "expr_10" 0));
            smt.check es; smt.pop]) /\
  (exists c',
     accept_FunctionDefinition (Sample.always smt.UNSATISFIABLE) touchedVariables
       Sample.formatNumberReadable Sample.bigint
       (Sample.function Sample.for_div_then_assert []) Sample.fresh = Ok tt c' /\
     smt.depth (m_interface c') = 0 /\
     length (List.filter Sample.isCheck (m_interface c')) = 4).
Proof.
  split.
  - intros r.
    assert (H : exists c',
              checkCondition (fun _ => smt.Result r ["0"; "0"; "0"])
                Sample.formatNumberReadable Sample.bigint
                (smt.Symbol "expr_10" 0) 7 "Assertion violation" "" None
                Sample.conditioned = Ok tt c')
      by (destruct r; eexists; vm_compute; reflexivity).
    destruct H as (c' & H).
    destruct (proj1 (solver_scopes_are_balanced _ touchedVariables _ _)
                _ _ _ _ _ _ _ H) as (es & I).
    exists c', es. split; [exact H|exact I].
  - pose (c' := Sample.after
                  (accept_FunctionDefinition (Sample.always smt.UNSATISFIABLE)
                     touchedVariables Sample.formatNumberReadable Sample.bigint
                     (Sample.function Sample.for_div_then_assert []))
                  Sample.fresh).
    assert (H : accept_FunctionDefinition (Sample.always smt.UNSATISFIABLE)
                  touchedVariables Sample.formatNumberReadable Sample.bigint
                  (Sample.function Sample.for_div_then_assert []) Sample.fresh
                = Ok tt c') by (vm_compute; reflexivity).
    exists c'. split; [exact H|].
    destruct (proj2 (proj2 (solver_scopes_are_balanced _ _ _ _)) _ Sample.fresh _ eq_refl H)
      as (ext & _ & _ & _ & _ & D).
    split; [exact D|]. vm_compute. reflexivity.
Defined.

(** * Further properties of the checker *)

(** ** What a visit inside a function keeps *)

(** The visit of a statement inside a function gives back the stack of path
    conditions and the path of functions as they were, opens and closes its
    own solver scopes only, drops no symbolic variable and never lowers the
    next free index of one. *)
Theorem statement_visit_keeps_context
  solver touchedVariables formatNumberReadable bigint s c c' :
  m_functionPath c <> [] ->
  accept_Statement solver touchedVariables formatNumberReadable bigint s c
    = Ok tt c' ->
  m_functionPath c' = m_functionPath c /\
  m_pathConditions c' = m_pathConditions c /\
  (exists ext, m_interface c' = m_interface c ++ ext /\ balance 0 ext = Some 0) /\
  (forall k p,
     m_variables c !! k = Some p ->
     exists p',
       m_variables c' !! k = Some p' /\ fst p' = fst p /\
       SymbolicVariable.uniqueName (snd p') = SymbolicVariable.uniqueName (snd p) /\
       SymbolicVariable.nextFreeIndex (snd p)
         <= SymbolicVariable.nextFreeIndex (snd p')) /\
  (wf c -> wf c').
Proof.
  intros P H.
  destruct (Step_accept_Statement _ _ _ _ s 0 _ _ P H) as [HP HC HL HV HW _].
  split; [exact HP|]. split; [exact HC|]. split; [exact HL|]. split; [|exact HW].
  intros k p E. destruct (HV k p E) as (p' & E' & A & B & _ & D).
  exists p'. repeat split; assumption.
Qed.

Lemma statement_visit_keeps_context_witness :
  exists c',
    accept_Statement (Sample.always smt.UNSATISFIABLE) touchedVariables
      Sample.formatNumberReadable Sample.bigint Sample.if_else
      (Sample.inside (Sample.function Sample.if_else [])) = Ok tt c' /\
    m_pathConditions c' = [] /\
    m_functionPath c' = [Sample.function Sample.if_else []].
Proof.
  pose (c := Sample.inside (Sample.function Sample.if_else [])).
  pose (c' := Sample.after
                (accept_Statement (Sample.always smt.UNSATISFIABLE) touchedVariables
                   Sample.formatNumberReadable Sample.bigint Sample.if_else) c).
  assert (H : accept_Statement (Sample.always smt.UNSATISFIABLE) touchedVariables
                Sample.formatNumberReadable Sample.bigint Sample.if_else c
              = Ok tt c') by (vm_compute; reflexivity).
  assert (P : m_functionPath c <> []) by (vm_compute; discriminate).
  exists c'. split; [exact H|].
  destruct (statement_visit_keeps_context _ _ _ _ _ _ _ P H) as (A & B & _).
  split; [exact B|exact A].
Defined.

(** ** Snapshots of indices *)

Lemma set_variables_id c f :
  f (m_variables c) = m_variables c -> set_variables f c = c.
Proof. destruct c. unfold set_variables. simpl. intros ->. reflexivity. Qed.

Lemma reset_variables i c c' :
  resetVariableIndices i c = Ok tt c' ->
  dom (m_variables c') = dom (m_variables c) /\
  (forall k p,
     m_variables c !! k = Some p ->
     exists p',
       m_variables c' !! k = Some p' /\ fst p' = fst p /\
       SymbolicVariable.nextFreeIndex (snd p')
         = SymbolicVariable.nextFreeIndex (snd p) /\
       SymbolicVariable.index (snd p')
         = default (SymbolicVariable.index (snd p)) (i !! k)).
Proof.
  intros H. apply resetVariableIndices_Ok in H. subst c'. split.
  - apply set_eq. intros k. rewrite !elem_of_dom. simpl.
    rewrite map_lookup_imap.
    destruct (m_variables c !! k); simpl; split; intros [? ?];
      try discriminate; eexists; reflexivity.
  - intros k p E. simpl. rewrite map_lookup_imap, E. simpl.
    eexists. split; [reflexivity|]. simpl.
    destruct (i !! k); simpl; repeat split.
Qed.

(** Taking a snapshot changes nothing; taking back a snapshot that was just
    taken changes nothing; taking back a snapshot that names a declaration
    without a symbolic variable fails as [std::map::at] does; and taking
    back any snapshot leaves the next free index of every variable, and
    every other member of the checker, as it is. *)
Theorem snapshot_round_trip (c : SMTChecker) :
  copyVariableIndices c = Ok (indicesOf c) c /\
  resetVariableIndices (indicesOf c) c = Ok tt c /\
  (forall i k,
     is_Some (i !! k) -> m_variables c !! k = None ->
     resetVariableIndices i c = Throw OutOfRange) /\
  (forall i c',
     resetVariableIndices i c = Ok tt c' ->
     dom (m_variables c') = dom (m_variables c) /\
     (forall k p,
        m_variables c !! k = Some p ->
        exists p',
          m_variables c' !! k = Some p' /\ fst p' = fst p /\
          SymbolicVariable.nextFreeIndex (snd p')
            = SymbolicVariable.nextFreeIndex (snd p) /\
          SymbolicVariable.index (snd p')
            = default (SymbolicVariable.index (snd p)) (i !! k)) /\
     m_interface c' = m_interface c /\
     m_pathConditions c' = m_pathConditions c /\
     m_expressions c' = m_expressions c /\
     m_errorReporter c' = m_errorReporter c).
Proof.
  split; [reflexivity|]. split; [|split].
  - unfold resetVariableIndices.
    rewrite bool_decide_eq_true_2.
    + f_equal. apply set_variables_id. apply map_eq. intros k.
      rewrite map_lookup_imap. unfold indicesOf. rewrite lookup_fmap.
      destruct (m_variables c !! k) as [[d [ty n i nf]]|]; reflexivity.
    + intros k n E. unfold indicesOf in E. rewrite lookup_fmap in E.
      destruct (m_variables c !! k); [eexists; reflexivity|discriminate].
  - intros i k [n E] N. unfold resetVariableIndices.
    rewrite bool_decide_eq_false_2; [reflexivity|].
    intros F. destruct (F k n E) as [p Ep]. congruence.
  - intros i c' H. destruct (reset_frame _ _ _ _ H) as (I & P & _ & X & _ & W).
    destruct (reset_variables _ _ _ H) as (D & K).
    split; [exact D|]. split; [exact K|]. repeat split; assumption.
Qed.

(** A branch gives back the indices it found: after [visitBranch] every
    variable that had a symbolic variable before is at the index it had
    before, the snapshot returned holds the indices reached at the end of the
    branch, and the next free indices reached in the branch are kept, so that
    an index used inside the branch is not handed out again after it.  The
    stack of path conditions is as before. *)
Theorem branch_restores_indices
  solver touchedVariables formatNumberReadable bigint s condition c i c' :
  m_functionPath c <> [] ->
  visitBranch (accept_Statement solver touchedVariables formatNumberReadable bigint)
    s condition c = Ok i c' ->
  m_pathConditions c' = m_pathConditions c /\
  (forall d, is_Some (m_variables c !! d) -> indicesOf c' !! d = indicesOf c !! d) /\
  exists cEnd,
    accept_Statement solver touchedVariables formatNumberReadable bigint s
      (match condition with Some e => underCondition e c | None => c end)
      = Ok tt cEnd /\
    i = indicesOf cEnd /\
    forall d p,
      m_variables cEnd !! d = Some p ->
      exists p',
        m_variables c' !! d = Some p' /\
        SymbolicVariable.nextFreeIndex (snd p')
          = SymbolicVariable.nextFreeIndex (snd p).
Proof.
  intros P H.
  destruct (Steps_accept solver touchedVariables formatNumberReadable bigint)
    as (_ & _ & SS & _).
  pose proof (Steps_visitBranch _ s condition 0 _
                (SS s 0 (ids_Statement s) (reflexivity _)) _ _ _ P H) as S.
  apply visitBranch_run in H as (cEnd & HE & -> & HR).
  assert (V : vars_le c cEnd).
  { destruct condition as [e|].
    - exact (proj1 (proj2 (proj2 (branch_step _ _ _ _ _ _ _ _ P HE)))).
    - exact (step_vars _ _ _ _ _ (Step_accept_Statement _ _ _ _ s 0 _ _ P HE)). }
  split; [exact (step_conds _ _ _ _ _ S)|]. split.
  - intros d [p Ep]. rewrite (reset_index _ _ _ _ d HR).
    assert (I : indicesOf c !! d = Some (SymbolicVariable.index (snd p)))
      by (unfold indicesOf; rewrite lookup_fmap, Ep; reflexivity).
    rewrite I. destruct (V d p Ep) as (q & Eq & _).
    destruct condition; simpl; rewrite Eq; reflexivity.
  - exists cEnd. split; [exact HE|]. split; [reflexivity|].
    intros d p Ep.
    destruct (reset_variables _ _ _ HR) as (_ & K).
    destruct (K d p) as (p' & Ep' & _ & N & _).
    { destruct condition; exact Ep. }
    exists p'. split; [exact Ep'|exact N].
Qed.

Lemma branch_restores_indices_witness :
  exists i c',
    visitBranch
      (accept_Statement (Sample.always smt.UNSATISFIABLE) touchedVariables
         Sample.formatNumberReadable Sample.bigint)
      (Sample.x_is 20 1) (Some (smt.Symbol "expr_10" 0)) Sample.conditioned
      = Ok i c' /\
    i !! 1 = Some 1 /\ indicesOf c' !! 1 = Some 0 /\
    indicesOf Sample.conditioned !! 1 = Some 0.
Proof.
  destruct (visitBranch
              (accept_Statement (Sample.always smt.UNSATISFIABLE) touchedVariables
                 Sample.formatNumberReadable Sample.bigint)
              (Sample.x_is 20 1) (Some (smt.Symbol "expr_10" 0)) Sample.conditioned)
    as [i c'|] eqn:H; [|vm_compute in H; discriminate].
  assert (P : m_functionPath Sample.conditioned <> []) by (vm_compute; discriminate).
  destruct (branch_restores_indices _ _ _ _ _ _ _ _ _ P H)
    as (_ & R & cEnd & HE & -> & _).
  exists (indicesOf cEnd), c'. split; [reflexivity|].
  assert (K : is_Some (m_variables Sample.conditioned !! 1))
    by (vm_compute; eexists; reflexivity).
  split; [|split; [rewrite (R 1 K)|]; vm_compute; reflexivity].
  vm_compute in HE. injection HE as <-. vm_compute. reflexivity.
Defined.

(** ** The stack of path conditions *)

Lemma pushPathCondition_run e c : pushPathCondition e c = Ok tt (underCondition e c).
Proof. reflexivity. Qed.

Lemma pushes_conjoin m es : forall bs c b0,
  smt.eval m (List.last (m_pathConditions c) (smt.BoolLit true)) = Some (smt.VBool b0) ->
  Forall2 (fun e b => smt.eval m e = Some (smt.VBool b)) es bs ->
  exists c',
    forEach es pushPathCondition c = Ok tt c' /\
    length (m_pathConditions c') = length (m_pathConditions c) + length es /\
    smt.eval m (List.last (m_pathConditions c') (smt.BoolLit true))
      = Some (smt.VBool (b0 && forallb id bs)).
Proof.
  induction es as [|e es IH]; intros bs c b0 E F.
  - apply Forall2_nil_inv_l in F as ->. exists c.
    split; [reflexivity|]. split; [simpl; lia|].
    rewrite E, andb_true_r. reflexivity.
  - apply Forall2_cons_inv_l in F as (b & bs' & Eb & F & ->).
    change (forEach (e :: es) pushPathCondition)
      with (bind (pushPathCondition e) (fun _ => forEach es pushPathCondition)).
    rewrite (bind_eq _ _ _ _ _ (pushPathCondition_run e c)).
    destruct (IH bs' (underCondition e c) (b0 && b)) as (c' & H & L & V).
    + simpl. rewrite last_last. simpl. rewrite E, Eb. reflexivity.
    + exact F.
    + exists c'. split; [exact H|]. split.
      * rewrite L. simpl. rewrite length_app. simpl. lia.
      * rewrite V. simpl. rewrite andb_assoc. reflexivity.
Qed.

(** The path condition is the conjunction of the conditions pushed: a pop
    undoes a push; with an empty stack the current path condition is true
    and a pop fails with the internal assertion; and after pushing a list of
    conditions onto an empty stack the current path condition holds in a
    model exactly when every one of them does. *)
Theorem path_conditions_conjoin (c : SMTChecker) :
  (forall e,
     pushPathCondition e c = Ok tt (underCondition e c) /\
     currentPathConditions (underCondition e c)
       = Ok (smt.And (List.last (m_pathConditions c) (smt.BoolLit true)) e)
            (underCondition e c) /\
     popPathCondition (underCondition e c) = Ok tt c) /\
  (m_pathConditions c = [] ->
   currentPathConditions c = Ok (smt.BoolLit true) c /\
   popPathCondition c = Throw InternalCompilerError /\
   forall m es bs,
     Forall2 (fun e b => smt.eval m e = Some (smt.VBool b)) es bs ->
     exists c',
       forEach es pushPathCondition c = Ok tt c' /\
       length (m_pathConditions c') = length es /\
       smt.eval m (List.last (m_pathConditions c') (smt.BoolLit true))
         = Some (smt.VBool (forallb id bs))).
Proof.
  split.
  - intros e. split; [reflexivity|]. split.
    + unfold currentPathConditions, gets. simpl. rewrite last_last. reflexivity.
    + unfold popPathCondition, bind, gets, solAssert, modify. simpl.
      rewrite length_app. simpl.
      replace (Nat.ltb 0 (length (m_pathConditions c) + 1)) with true
        by (symmetry; apply Nat.ltb_lt; lia).
      simpl. f_equal. destruct c. unfold set_pathConditions. simpl.
      rewrite removelast_last. reflexivity.
  - intros E. split; [|split].
    + unfold currentPathConditions, gets. rewrite E. reflexivity.
    + unfold popPathCondition, bind, gets, solAssert, modify. rewrite E. reflexivity.
    + intros m es bs F.
      destruct (pushes_conjoin m es bs c true) as (c' & H & L & V).
      * rewrite E. reflexivity.
      * exact F.
      * exists c'. split; [exact H|]. split; [rewrite L, E; reflexivity|exact V].
Qed.

Lemma path_conditions_conjoin_witness :
  exists c',
    forEach [smt.BoolLit true; smt.Symbol "a" 0] pushPathCondition Sample.fresh
      = Ok tt c' /\
    length (m_pathConditions c') = 2 /\
    smt.eval (fun _ _ => Some (smt.VBool false))
      (List.last (m_pathConditions c') (smt.BoolLit true))
      = Some (smt.VBool false).
Proof.
  destruct (proj2 (path_conditions_conjoin Sample.fresh) eq_refl) as (_ & _ & F).
  destruct (F (fun _ _ => Some (smt.VBool false))
              [smt.BoolLit true; smt.Symbol "a" 0] [true; false])
    as (c' & H & L & V).
  - repeat constructor.
  - exists c'. split; [exact H|]. split; [exact L|exact V].
Defined.

(** ** Variables given a new index in a loop over [m_variables] *)

Lemma only_asserts_refl c : only_asserts c c.
Proof.
  repeat split. exists []. simpl. symmetry. apply app_nil_r.
Qed.

Lemma only_asserts_trans c1 c2 c3 :
  only_asserts c1 c2 -> only_asserts c2 c3 -> only_asserts c1 c3.
Proof.
  intros (A1 & A2 & A3 & A4 & A5 & e1 & A6) (B1 & B2 & B3 & B4 & B5 & e2 & B6).
  repeat split; try congruence.
  exists (e1 ++ e2). rewrite B6, A6, fmap_app, app_assoc. reflexivity.
Qed.

Lemma addAssertions_run es : forall c,
  addAssertions es c =
    Ok tt (set_interface (fun log => log ++ (smt.addAssertion <$> es)) c).
Proof.
  unfold addAssertions. induction es as [|e es IH]; intros c.
  - simpl. unfold ret. f_equal. destruct c. unfold set_interface. simpl.
    rewrite app_nil_r. reflexivity.
  - change (forEach (e :: es) (fun e => interface (smt.addAssertion e)))
      with (bind (interface (smt.addAssertion e))
              (fun _ => forEach es (fun e => interface (smt.addAssertion e)))).
    rewrite (bind_eq _ _ c tt (set_interface (fun log => log ++ [smt.addAssertion e]) c))
      by reflexivity.
    rewrite IH. f_equal. unfold set_interface. simpl.
    rewrite <- app_assoc. reflexivity.
Qed.

Lemma setUnknownValue_total k c p :
  m_variables c !! k = Some p ->
  setUnknownValue k c =
    Ok tt
      (set_interface
         (fun log =>
            log ++
            (smt.addAssertion <$>
               unknownValueAssertions (SymbolicVariable.currentValue (snd p))
                 (SymbolicVariable.type (snd p)))) c).
Proof.
  intros E. unfold setUnknownValue.
  rewrite (bind_eq _ _ c true c)
    by (unfold knownVariable, gets; rewrite E; reflexivity).
  rewrite (bind_eq _ _ c tt c) by reflexivity.
  rewrite (bind_eq _ _ c (snd p) c) by (unfold variableAt; rewrite E; reflexivity).
  unfold setUnknownValue_var. apply addAssertions_run.
Qed.

Lemma bumped_known sel l : forall m k,
  is_Some (m !! k) -> is_Some (bumped sel l m !! k).
Proof.
  induction l as [|kv l IH]; intros m k K; [exact K|].
  simpl. apply IH. destruct (sel kv); [|exact K].
  destruct K as [p E]. destruct (decide (fst kv = k)) as [<-|N].
  - rewrite lookup_alter_eq, E. eexists. reflexivity.
  - rewrite lookup_alter_ne by exact N. rewrite E. eexists. reflexivity.
Qed.

Lemma forEach_bump_run sel (rest : nat -> M unit) :
  (forall k c p,
     m_variables c !! k = Some p ->
     exists c1, rest k c = Ok tt c1 /\ m_variables c1 = m_variables c /\
                only_asserts c c1) ->
  forall l c,
    (forall kv, kv ∈ l -> is_Some (m_variables c !! fst kv)) ->
    exists c',
      forEach l (fun kv => when (sel kv) (newValue (fst kv) ;; rest (fst kv))) c
        = Ok tt c' /\
      m_variables c' = bumped sel l (m_variables c) /\
      only_asserts c c'.
Proof.
  intros R. induction l as [|kv l IH]; intros c K.
  - exists c. split; [reflexivity|]. split; [reflexivity|apply only_asserts_refl].
  - change (forEach (kv :: l)
              (fun kv => when (sel kv) (newValue (fst kv) ;; rest (fst kv))))
      with (bind (when (sel kv) (newValue (fst kv) ;; rest (fst kv)))
              (fun _ => forEach l
                 (fun kv => when (sel kv) (newValue (fst kv) ;; rest (fst kv))))).
    assert (First : exists c1,
              when (sel kv) (newValue (fst kv) ;; rest (fst kv)) c = Ok tt c1 /\
              m_variables c1 =
                (if sel kv
                 then alter (fun p => (fst p, SymbolicVariable.increaseIndex (snd p)))
                        (fst kv) (m_variables c)
                 else m_variables c) /\
              only_asserts c c1).
    { destruct (sel kv); simpl.
      - destruct (K kv) as [p E]; [left|].
        pose proof (newValue_total _ _ _ E) as N.
        destruct (R (fst kv)
                    (set_variables
                       (alter (fun p => (fst p, SymbolicVariable.increaseIndex (snd p)))
                          (fst kv)) c)
                    (fst p, SymbolicVariable.increaseIndex (snd p)))
          as (c1 & R1 & V1 & F1).
        { simpl. rewrite lookup_alter_eq, E. reflexivity. }
        exists c1. split; [rewrite (bind_eq _ _ _ _ _ N); exact R1|].
        split; [rewrite V1; reflexivity|].
        eapply only_asserts_trans; [|exact F1].
        repeat split. exists []. simpl. symmetry. apply app_nil_r.
      - exists c. split; [reflexivity|]. split; [reflexivity|apply only_asserts_refl]. }
    destruct First as (c1 & H1 & V1 & F1).
    destruct (IH c1) as (c' & H' & V' & F').
    { intros kv' Hkv'. rewrite V1. destruct (sel kv); [|apply K; right; exact Hkv'].
      destruct (K kv') as [p E]; [right; exact Hkv'|].
      destruct (decide (fst kv = fst kv')) as [Q|N].
      - rewrite Q, lookup_alter_eq, E. eexists. reflexivity.
      - rewrite lookup_alter_ne by exact N. rewrite E. eexists. reflexivity. }
    exists c'. split; [rewrite (bind_eq _ _ _ _ _ H1); exact H'|].
    split; [rewrite V', V1; reflexivity|].
    eapply only_asserts_trans; eassumption.
Qed.

(** Over the entries of a map, each selected by its declaration, the loop
    gives a new index to exactly the selected variables. *)
Lemma bumped_map_to_list (selD : VariableDeclaration.t -> bool)
  (m : gmap nat (VariableDeclaration.t * SymbolicVariable.t)) :
  bumped (fun kv => selD (fst (snd kv))) (map_to_list m) m =
    (fun p => if selD (fst p)
              then (fst p, SymbolicVariable.increaseIndex (snd p)) else p) <$> m.
Proof.
  assert (G : forall l m0,
            NoDup (fst <$> l) ->
            forall k,
              bumped (fun kv => selD (fst (snd kv))) l m0 !! k =
                match m0 !! k with
                | Some p =>
                    Some (if existsb (fun kv => Nat.eqb (fst kv) k && selD (fst (snd kv))) l
                          then (fst p, SymbolicVariable.increaseIndex (snd p)) else p)
                | None => None
                end).
  { induction l as [|kv l IH]; intros m0 ND k.
    - simpl. destruct (m0 !! k); reflexivity.
    - simpl in ND. apply NoDup_cons in ND as (Nk & ND). simpl.
      rewrite (IH _ ND k).
      destruct (Nat.eqb (fst kv) k) eqn:Q.
      + apply Nat.eqb_eq in Q. subst k.
        assert (X : existsb (fun kv' => Nat.eqb (fst kv') (fst kv) && selD (fst (snd kv')))
                      l = false).
        { apply not_true_is_false. intros T. apply existsb_exists in T as (kv' & I & T).
          apply andb_true_iff in T as (T & _). apply Nat.eqb_eq in T.
          apply Nk. rewrite <- T. apply list_elem_of_fmap_2, list_elem_of_In. exact I. }
        rewrite X. destruct (selD (fst (snd kv))); simpl.
        * rewrite lookup_alter_eq. destruct (m0 !! fst kv); reflexivity.
        * destruct (m0 !! fst kv); reflexivity.
      + apply Nat.eqb_neq in Q. simpl.
        destruct (selD (fst (snd kv))); [rewrite lookup_alter_ne by exact Q|];
          reflexivity. }
  apply map_eq. intros k. rewrite (G _ _ (NoDup_fst_map_to_list m) k), lookup_fmap.
  destruct (m !! k) as [p|] eqn:E; [|reflexivity]. simpl. f_equal.
  destruct (selD (fst p)) eqn:S.
  - replace (existsb _ _) with true; [reflexivity|]. symmetry.
    apply existsb_exists. exists (k, p). split.
    + apply list_elem_of_In, elem_of_map_to_list. exact E.
    + simpl. rewrite Nat.eqb_refl, S. reflexivity.
  - replace (existsb _ _) with false; [reflexivity|]. symmetry.
    apply not_true_is_false. intros T. apply existsb_exists in T as ([k' p'] & I & T).
    apply list_elem_of_In, elem_of_map_to_list in I.
    apply andb_true_iff in T as (T1 & T2). apply Nat.eqb_eq in T1. simpl in *.
    subst k'. rewrite E in I. injection I as <-. congruence.
Qed.

(** At the start of a root function every state variable, and no other
    variable, is given a new index; the loop always returns, adds only
    assertions (the bounds of the new values) to the solver, and leaves the
    path conditions, the expressions and the warnings as they are. *)
Theorem state_variables_are_havocked (c : SMTChecker) :
  exists c',
    resetStateVariables c = Ok tt c' /\
    m_variables c' =
      (fun p => if VariableDeclaration.isStateVariable (fst p)
                then (fst p, SymbolicVariable.increaseIndex (snd p)) else p)
        <$> m_variables c /\
    only_asserts c c'.
Proof.
  unfold resetStateVariables.
  rewrite (bind_eq _ _ c (map_to_list (m_variables c)) c) by reflexivity.
  destruct (forEach_bump_run
              (fun kv => VariableDeclaration.isStateVariable (fst (snd kv)))
              setUnknownValue) with (l := map_to_list (m_variables c)) (c := c)
    as (c' & H & V & F).
  - intros k c0 p E. eexists. split; [apply (setUnknownValue_total _ _ _ E)|].
    split; [reflexivity|]. repeat split. eexists. reflexivity.
  - intros [k p] I. apply elem_of_map_to_list in I. simpl. rewrite I.
    eexists. reflexivity.
  - exists c'. split; [exact H|]. split; [|exact F].
    rewrite V. apply bumped_map_to_list.
Qed.

(** An assignment to a mapping erases what is known of every mapping: each
    variable of mapping type, and no other variable, is given a new index,
    the flag of an array assignment is set, and no call is made on the
    solver. *)
Theorem mapping_assignment_erases_mappings (c : SMTChecker) :
  exists c',
    arrayAssignment c = Ok tt c' /\
    m_arrayAssignmentHappened c' = true /\
    m_variables c' =
      (fun p => if isMapping (category (VariableDeclaration.type (fst p)))
                then (fst p, SymbolicVariable.increaseIndex (snd p)) else p)
        <$> m_variables c /\
    m_interface c' = m_interface c /\
    m_pathConditions c' = m_pathConditions c /\
    m_errorReporter c' = m_errorReporter c.
Proof.
  unfold arrayAssignment.
  rewrite (bind_eq _ _ c tt (set_arrayAssignmentHappened true c)) by reflexivity.
  unfold eraseArrayKnowledge.
  rewrite (bind_eq _ _ _ (map_to_list (m_variables c)) (set_arrayAssignmentHappened true c))
    by reflexivity.
  destruct (forEach_bump_run
              (fun kv => isMapping (category (VariableDeclaration.type (fst (snd kv)))))
              (fun _ => ret tt))
    with (l := map_to_list (m_variables c)) (c := set_arrayAssignmentHappened true c)
    as (c' & H & V & (P & _ & _ & _ & W & _)).
  - intros k c0 p E. exists c0. split; [reflexivity|]. split; [reflexivity|].
    apply only_asserts_refl.
  - intros [k p] I. apply elem_of_map_to_list in I. simpl. rewrite I.
    eexists. reflexivity.
  - exists c'. split; [exact H|].
    assert (KI : Keeps m_interface
                   (forEach (map_to_list (m_variables c))
                      (fun kv =>
                         when (isMapping (category (VariableDeclaration.type (fst (snd kv)))))
                           (newValue (fst kv) ;; ret tt)))).
    { unfold newValue. keeps. }
    assert (KA : Keeps m_arrayAssignmentHappened
                   (forEach (map_to_list (m_variables c))
                      (fun kv =>
                         when (isMapping (category (VariableDeclaration.type (fst (snd kv)))))
                           (newValue (fst kv) ;; ret tt)))).
    { unfold newValue. keeps. }
    split; [rewrite (KA _ _ _ H); reflexivity|].
    split.
    { rewrite V. simpl.
      apply (bumped_map_to_list
               (fun d => isMapping (category (VariableDeclaration.type d)))). }
    split; [rewrite (KI _ _ _ H); reflexivity|]. split; [exact P|exact W].
Qed.

(** ** Root functions *)

Lemma assertions_after_reset log ext :
  smt.assertions (log ++ smt.reset :: ext) = smt.assertions (smt.reset :: ext).
Proof.
  unfold smt.assertions, smt.scopes. rewrite fold_left_app. reflexivity.
Qed.

Section RootFunctions.

Variable solver : list smt.Call -> smt.Answer.
Variable touchedVariables : ASTNode -> list nat.
Variable formatNumberReadable : Z -> string.
Variable bigint : string -> option Z.

Abbreviation accept_FunctionDefinition :=
  (accept_FunctionDefinition solver touchedVariables formatNumberReadable bigint).
Abbreviation accept_VariableDeclaration :=
  (accept_VariableDeclaration solver touchedVariables formatNumberReadable bigint).
Abbreviation accept_ModifierInvocation :=
  (accept_ModifierInvocation solver touchedVariables formatNumberReadable bigint).

(** The states of the visit of a root function: [cR] after the reset and
    the clearing of the members, [cE] after the children. *)
Lemma root_function_states f c c' :
  m_functionPath c = [] ->
  accept_FunctionDefinition f c = Ok tt c' ->
  exists cR cE,
    m_functionPath cR = [f] /\ m_pathConditions cR = [] /\
    m_variables cR = m_variables c /\
    m_interface cR = m_interface c ++ [smt.reset] /\
    Step 0 0 (ids_FunctionDefinition f) cR cE /\
    c' = set_functionPath (@removelast _)
           (set_variables
              (filter (fun kv => VariableDeclaration.isLocalVariable (fst (snd kv))
                                 = false)) cE).
Proof.
  intros P H. destruct f as [id loc isC ps rs ms ls b].
  change (accept_FunctionDefinition (mkFunctionDefinition id loc isC ps rs ms ls b))
    with (descend <- visit_FunctionDefinition
                       (mkFunctionDefinition id loc isC ps rs ms ls b) ;;
          when descend
            (listAccept ps accept_VariableDeclaration ;;
             listAccept rs accept_VariableDeclaration ;;
             listAccept ms accept_ModifierInvocation ;;
             acceptOption
               (accept_Statement solver touchedVariables formatNumberReadable bigint)
               b) ;;
          endVisit_FunctionDefinition) in H.
  set (f := mkFunctionDefinition id loc isC ps rs ms ls b) in *.
  apply bind_Ok in H as (descend & q4 & H0 & H).
  unfold visit_FunctionDefinition in H0.
  apply bind_Ok in H0 as ([] & q1 & H1 & H0).
  assert (K1 : m_interface q1 = m_interface c /\ m_functionPath q1 = [] /\
               m_variables q1 = m_variables c).
  { destruct (_ || _); simpl in H1.
    - apply modify_Ok in H1. subst q1. repeat split. exact P.
    - apply ret_Ok in H1 as [_ <-]. repeat split. exact P. }
  destruct K1 as (I1 & P1 & V1).
  apply bind_Ok in H0 as ([] & q2 & H2 & H0). apply modify_Ok in H2. subst q2.
  apply bind_Ok in H0 as (root & q3 & H3 & H0). apply gets_Ok in H3 as [-> ->].
  simpl in H0. rewrite P1 in H0. simpl in H0.
  apply bind_Ok in H0 as ([] & q3 & H3 & H0). apply ret_Ok in H0 as [<- <-].
  apply bind_Ok in H3 as ([] & r1 & R1 & H3). apply modify_Ok in R1. subst r1.
  apply bind_Ok in H3 as ([] & r2 & R2 & H3). apply modify_Ok in R2. subst r2.
  apply bind_Ok in H3 as ([] & r3 & R3 & H3). apply modify_Ok in R3. subst r3.
  apply bind_Ok in H3 as ([] & r4 & R4 & H3). apply modify_Ok in R4. subst r4.
  apply bind_Ok in H3 as ([] & r5 & R5 & H3). apply modify_Ok in R5. subst r5.
  match type of H3 with
  | _ ?q = _ => set (qR := q) in *
  end.
  assert (PR : m_functionPath qR = [f]) by (simpl; rewrite P1; reflexivity).
  assert (NR : m_functionPath qR <> []) by (rewrite PR; discriminate).
  pose proof (Steps_root_initialization f 0 (ids_FunctionDefinition f)
                _ _ _ NR H3) as S3.
  simpl in H.
  apply bind_Ok in H as ([] & q5 & H5 & H).
  pose proof (Steps_function_children _ _ _ _ id loc isC ps rs ms ls b 0 _ _ _
                (Step_inF _ _ _ _ _ S3 NR) H5) as S5.
  pose proof (Step_trans _ _ _ _ _ _ _ S3 S5) as S.
  unfold endVisit_FunctionDefinition in H.
  apply bind_Ok in H as (root & q6 & H6 & H). apply gets_Ok in H6 as [-> ->].
  rewrite (step_path _ _ _ _ _ S), PR in H. simpl in H.
  apply bind_Ok in H as ([] & q7 & H7 & H).
  unfold removeLocalVariables in H7. apply modify_Ok in H7. subst q7.
  apply modify_Ok in H. subst c'.
  exists qR, q5. split; [exact PR|]. split; [reflexivity|].
  split; [simpl; exact V1|]. split; [simpl; rewrite I1; reflexivity|].
  split; [exact S|reflexivity].
Qed.

(** A root function starts afresh and cleans up: after its visit the path
    of functions and the stack of path conditions are empty, no local
    variable has a symbolic variable any more while every other variable
    that had one still has it, and the assertions in force are those made
    since the reset at its entry, whatever was asserted before. *)
Theorem root_function_starts_afresh f c c' :
  m_functionPath c = [] ->
  accept_FunctionDefinition f c = Ok tt c' ->
  m_functionPath c' = [] /\
  m_pathConditions c' = [] /\
  (forall k p,
     m_variables c' !! k = Some p ->
     VariableDeclaration.isLocalVariable (fst p) = false) /\
  (forall k p,
     m_variables c !! k = Some p ->
     VariableDeclaration.isLocalVariable (fst p) = false ->
     exists p', m_variables c' !! k = Some p' /\ fst p' = fst p) /\
  exists ext,
    m_interface c' = m_interface c ++ smt.reset :: ext /\
    smt.assertions (m_interface c') = smt.assertions (smt.reset :: ext).
Proof.
  intros P H.
  destruct (root_function_states _ _ _ P H) as (cR & cE & PR & CR & VR & IR & S & ->).
  destruct S as [SP SC (ext & SI & _) SV _ _].
  split; [simpl; rewrite SP, PR; reflexivity|].
  split; [simpl; rewrite SC, CR; reflexivity|]. split; [|split].
  - intros k p E. simpl in E. apply map_lookup_filter_Some in E as (_ & L). exact L.
  - intros k p E L. rewrite <- VR in E.
    destruct (SV k p E) as (p' & E' & D & _).
    exists p'. split; [|exact D]. simpl.
    apply map_lookup_filter_Some. split; [exact E'|]. simpl. rewrite D. exact L.
  - exists ext.
    assert (I : m_interface cE = m_interface c ++ smt.reset :: ext)
      by (rewrite SI, IR, <- app_assoc; reflexivity).
    split; [exact I|]. simpl. rewrite I. apply assertions_after_reset.
Qed.

End RootFunctions.

Lemma root_function_starts_afresh_witness :
  exists c',
    accept_FunctionDefinition (Sample.always smt.UNSATISFIABLE) touchedVariables
      Sample.formatNumberReadable Sample.bigint
      (Sample.function Sample.if_else []) Sample.fresh = Ok tt c' /\
    m_variables c' = ∅ /\ m_pathConditions c' = [].
Proof.
  pose (c' := Sample.after
                (accept_FunctionDefinition (Sample.always smt.UNSATISFIABLE)
                   touchedVariables Sample.formatNumberReadable Sample.bigint
                   (Sample.function Sample.if_else [])) Sample.fresh).
  assert (H : accept_FunctionDefinition (Sample.always smt.UNSATISFIABLE)
                touchedVariables Sample.formatNumberReadable Sample.bigint
                (Sample.function Sample.if_else []) Sample.fresh = Ok tt c')
    by (vm_compute; reflexivity).
  exists c'. split; [exact H|].
  destruct (root_function_starts_afresh _ _ _ _ _ Sample.fresh _ eq_refl H)
    as (_ & C & _).
  split; [vm_compute; reflexivity|exact C].
Defined.

(** * Merging, havoc and the creation of symbolic variables *)

(** ** What a merge that returns has done *)

(** A merge that returns has given every variable of the list exactly one
    new index, however often the list names it, and has asserted for it that
    the new value is the value at the end of the true branch when the
    condition holds and the value at the end of the false branch otherwise;
    it has made one assertion for each distinct variable and no other solver
    call; it leaves the other variables, the path conditions, the expressions
    and the warnings as they were. *)
Theorem merge_is_one_ite_per_variable vars cond iT iF c c' :
  mergeVariables vars cond iT iF c = Ok tt c' ->
  (forall d, d ∈ vars ->
     exists p t f,
       m_variables c !! d = Some p /\ iT !! d = Some t /\ iF !! d = Some f /\
       m_variables c' !! d =
         Some (fst p, SymbolicVariable.increaseIndex (snd p)) /\
       In (smt.addAssertion
             (smt.Eq
                (smt.Symbol (SymbolicVariable.uniqueName (snd p))
                   (SymbolicVariable.nextFreeIndex (snd p)))
                (smt.Ite cond
                   (smt.Symbol (SymbolicVariable.uniqueName (snd p)) t)
                   (smt.Symbol (SymbolicVariable.uniqueName (snd p)) f))))
          (m_interface c')) /\
  (forall d, d ∉ vars -> m_variables c' !! d = m_variables c !! d) /\
  (exists es,
     m_interface c' = m_interface c ++ (smt.addAssertion <$> es) /\
     length es = size (list_to_set vars : gset nat)) /\
  m_pathConditions c' = m_pathConditions c /\
  m_expressions c' = m_expressions c /\
  m_errorReporter c' = m_errorReporter c.
Proof.
  intros H. apply mergeVariables_Ok in H as (ext & I & M & F & S).
  split; [|split; [exact F|split]].
  - intros d Hd. apply (proj2 (elem_of_uniqueVars _ _)) in Hd.
    apply list_elem_of_lookup_1 in Hd as (i & Hi).
    destruct (Forall2_lookup_l _ _ _ _ _ M Hi)
      as (call & Hc & (p & t & f & E & Ht & Hf & _ & E' & Q)).
    exists p, t, f. split; [exact E|]. split; [exact Ht|]. split; [exact Hf|].
    split; [exact E'|]. rewrite I. apply in_or_app. right. rewrite <- Q.
    apply list_elem_of_In. eapply list_elem_of_lookup_2. exact Hc.
  - assert (L : length ext = size (list_to_set vars : gset nat)).
    { rewrite <- (Forall2_length _ _ _ M). reflexivity. }
    assert (A : exists es, ext = smt.addAssertion <$> es).
    { clear -M. induction M as [|d call l ext (p & t & f & _ & _ & _ & _ & _ & Q) _ IH].
      - exists []. reflexivity.
      - destruct IH as (es & ->). eexists (_ :: es). rewrite Q. reflexivity. }
    destruct A as (es & ->). exists es. split; [exact I|].
    rewrite length_fmap in L. exact L.
  - destruct S as (S1 & _ & S3 & _ & S5 & _). repeat split; assumption.
Qed.

Lemma merge_is_one_ite_per_variable_witness :
  exists c',
    mergeVariables [1; 1] (smt.BoolLit true) {[1 := 1]} {[1 := 0]}
      (Sample.inside (Sample.function (Block []) [])) = Ok tt c' /\
    (exists es,
       m_interface c' =
         m_interface (Sample.inside (Sample.function (Block []) [])) ++
         (smt.addAssertion <$> es) /\
       length es = 1) /\
    m_variables c' !! 2 =
      m_variables (Sample.inside (Sample.function (Block []) [])) !! 2.
Proof.
  pose (c := Sample.inside (Sample.function (Block []) [])).
  pose (c' := Sample.after
                (mergeVariables [1; 1] (smt.BoolLit true) {[1 := 1]} {[1 := 0]}) c).
  assert (H : mergeVariables [1; 1] (smt.BoolLit true) {[1 := 1]} {[1 := 0]} c
              = Ok tt c') by (vm_compute; reflexivity).
  exists c'. split; [exact H|].
  destruct (merge_is_one_ite_per_variable _ _ _ _ _ _ H) as (_ & F & L & _).
  split.
  - destruct L as (es & I & L). exists es. split; [exact I|]. rewrite L.
    vm_compute. reflexivity.
  - apply F. intros N. apply list_elem_of_In in N. simpl in N.
    destruct N as [N|[N|[]]]; discriminate N.
Defined.

(** ** Variables that are forgotten *)

Lemma havoc_run k c p :
  m_variables c !! k = Some p ->
  exists c1,
    (newValue k ;; setUnknownValue k) c = Ok tt c1 /\
    m_variables c1 =
      alter (fun p => (fst p, SymbolicVariable.increaseIndex (snd p))) k
        (m_variables c) /\
    only_asserts c c1.
Proof.
  intros E.
  pose (c0 := set_variables
                (alter (fun p => (fst p, SymbolicVariable.increaseIndex (snd p))) k) c).
  assert (E0 : m_variables c0 !! k =
               Some (fst p, SymbolicVariable.increaseIndex (snd p))).
  { unfold c0. destruct c. simpl in *. rewrite lookup_alter_eq, E. reflexivity. }
  eexists. split.
  - rewrite (bind_eq _ _ c _ c0) by (apply newValue_total; exact E).
    apply (setUnknownValue_total k c0 _ E0).
  - split; [destruct c; reflexivity|].
    destruct c. repeat split. eexists. reflexivity.
Qed.

Lemma havoc_Throw k c e :
  (newValue k ;; setUnknownValue k) c = Throw e ->
  m_variables c !! k = None /\ e = InternalCompilerError.
Proof.
  intros H. destruct (m_variables c !! k) as [p|] eqn:E.
  - destruct (havoc_run k c p E) as (c1 & R & _). rewrite R in H. discriminate.
  - split; [reflexivity|].
    rewrite (bind_fails _ _ c InternalCompilerError) in H
      by (apply newValue_unknown; exact E).
    injection H as <-. reflexivity.
Qed.

Lemma havoc_Ok k c a c1 :
  (newValue k ;; setUnknownValue k) c = Ok a c1 ->
  exists p,
    m_variables c !! k = Some p /\
    m_variables c1 =
      alter (fun p => (fst p, SymbolicVariable.increaseIndex (snd p))) k
        (m_variables c) /\
    only_asserts c c1.
Proof.
  intros H. destruct (m_variables c !! k) as [p|] eqn:E.
  - destruct (havoc_run k c p E) as (c2 & R & V & O). rewrite R in H.
    injection H as _ <-. exists p. repeat split; try apply O. exact V.
  - rewrite (bind_fails _ _ c InternalCompilerError) in H
      by (apply newValue_unknown; exact E).
    discriminate.
Qed.

(** Forgetting the variables of a list gives each of them an index that it
    never had before (an index at or above its next free index, below the
    new next free index), keeps their declarations, leaves the variables
    that are not in the list as they were, and makes no solver call but
    assertions; path conditions, expressions and warnings are unchanged.
    When a variable of the list has no symbolic variable the call fails with
    the internal assertion. *)
Theorem reset_variables_gives_unused_indices (vars : list nat) (c : SMTChecker) :
  (forall c', resetVariables vars c = Ok tt c' ->
     (forall k, k ∈ vars ->
        exists p p',
          m_variables c !! k = Some p /\ m_variables c' !! k = Some p' /\
          fst p' = fst p /\
          SymbolicVariable.uniqueName (snd p') = SymbolicVariable.uniqueName (snd p) /\
          SymbolicVariable.nextFreeIndex (snd p) <= SymbolicVariable.index (snd p') /\
          SymbolicVariable.index (snd p') < SymbolicVariable.nextFreeIndex (snd p')) /\
     (forall k, k ∉ vars -> m_variables c' !! k = m_variables c !! k) /\
     only_asserts c c') /\
  (forall k, k ∈ vars -> m_variables c !! k = None ->
     resetVariables vars c = Throw InternalCompilerError).
Proof.
  assert (A : forall vars c c', resetVariables vars c = Ok tt c' ->
     (forall k p, m_variables c !! k = Some p ->
        exists p', m_variables c' !! k = Some p' /\ fst p' = fst p /\
          SymbolicVariable.uniqueName (snd p') = SymbolicVariable.uniqueName (snd p) /\
          SymbolicVariable.nextFreeIndex (snd p) <= SymbolicVariable.nextFreeIndex (snd p') /\
          (k ∈ vars ->
             SymbolicVariable.nextFreeIndex (snd p) <= SymbolicVariable.index (snd p') /\
             SymbolicVariable.index (snd p') < SymbolicVariable.nextFreeIndex (snd p'))) /\
     (forall k, k ∈ vars -> is_Some (m_variables c !! k)) /\
     (forall k, k ∉ vars -> m_variables c' !! k = m_variables c !! k) /\
     only_asserts c c').
  { clear. unfold resetVariables. induction vars as [|x l IH]; intros c c' H.
    - injection H as <-. split; [|split; [|split]].
      + intros k p E. exists p. split; [exact E|]. split; [reflexivity|].
        split; [reflexivity|]. split; [lia|]. intros N. inversion N.
      + intros k N. inversion N.
      + reflexivity.
      + apply only_asserts_refl.
    - change (forEach (x :: l) (fun decl => newValue decl ;; setUnknownValue decl))
        with (bind (newValue x ;; setUnknownValue x)
                (fun _ => forEach l (fun decl => newValue decl ;; setUnknownValue decl)))
        in H.
      apply bind_Ok in H as (a & c1 & H1 & H2).
      apply havoc_Ok in H1 as (px & Ex & V1 & O1).
      apply IH in H2 as (P2 & K2 & F2 & O2).
      split; [|split; [|split]].
      + intros k p E. destruct (decide (k = x)) as [->|Nx].
        * rewrite Ex in E. injection E as <-.
          destruct (P2 x (fst px, SymbolicVariable.increaseIndex (snd px)))
            as (p' & E' & D' & U' & N' & I').
          { rewrite V1, lookup_alter_eq, Ex. reflexivity. }
          exists p'. split; [exact E'|]. split; [exact D'|]. split; [exact U'|].
          simpl in N'. split; [lia|]. intros _.
          destruct (decide (x ∈ l)) as [Hl|Hl].
          -- destruct (I' Hl) as (I1 & I2). simpl in I1. split; lia.
          -- rewrite (F2 x Hl), V1, lookup_alter_eq, Ex in E'.
             injection E' as <-. simpl. split; lia.
        * destruct (P2 k p) as (p' & E' & D' & U' & N' & I').
          { rewrite V1, lookup_alter_ne by congruence. exact E. }
          exists p'. split; [exact E'|]. split; [exact D'|]. split; [exact U'|].
          split; [exact N'|]. intros Hk. apply I'.
          apply elem_of_cons in Hk as [Hk|Hk]; [contradiction|exact Hk].
      + intros k Hk. apply elem_of_cons in Hk as [->|Hk].
        * rewrite Ex. eexists. reflexivity.
        * destruct (K2 k Hk) as (q & Eq). rewrite V1 in Eq.
          destruct (decide (k = x)) as [->|Nx].
          -- rewrite Ex. eexists. reflexivity.
          -- rewrite lookup_alter_ne in Eq by congruence. eexists. exact Eq.
      + intros k Hk. rewrite F2, V1.
        * apply lookup_alter_ne. intros ->. apply Hk. left.
        * intros N. apply Hk. right. exact N.
      + eapply only_asserts_trans; eassumption. }
  split.
  - intros c' H. destruct (A _ _ _ H) as (P & K & F & O).
    split; [|split; [exact F|exact O]].
    intros k Hk. destruct (K k Hk) as (p & E).
    destruct (P k p E) as (p' & E' & D' & U' & _ & I').
    exists p, p'. destruct (I' Hk). repeat split; assumption.
  - intros k Hk E. destruct (resetVariables vars c) as [[] c'|e] eqn:H.
    + destruct (A _ _ _ H) as (_ & K & _). destruct (K k Hk) as (p & Ep).
      congruence.
    + f_equal. unfold resetVariables in H. eapply forEach_Throw; [|exact H].
      intros x c0 e0 T. apply havoc_Throw in T as (_ & ->). reflexivity.
Qed.

Lemma reset_variables_gives_unused_indices_witness :
  exists c',
    resetVariables [1; 1] (Sample.inside (Sample.function (Block []) [])) = Ok tt c' /\
    (exists p', m_variables c' !! 1 = Some p' /\
                1 <= SymbolicVariable.index (snd p')) /\
    m_variables c' !! 2 =
      m_variables (Sample.inside (Sample.function (Block []) [])) !! 2 /\
    resetVariables [1; 7] (Sample.inside (Sample.function (Block []) []))
      = Throw InternalCompilerError.
Proof.
  pose (c := Sample.inside (Sample.function (Block []) [])).
  pose (c' := Sample.after (resetVariables [1; 1]) c).
  assert (H : resetVariables [1; 1] c = Ok tt c') by (vm_compute; reflexivity).
  exists c'. split; [exact H|].
  destruct (reset_variables_gives_unused_indices [1; 1] c) as (A & _).
  destruct (A c' H) as (P & F & _). split; [|split].
  - destruct (P 1) as (p & p' & E & E' & _ & _ & L & _); [left|].
    exists p'. split; [exact E'|].
    assert (Q : p = (Sample.x, SymbolicVariable.create Sample.uint256 "x_1")).
    { assert (E0 : m_variables c !! 1 =
                   Some (Sample.x, SymbolicVariable.create Sample.uint256 "x_1"))
        by (vm_compute; reflexivity).
      rewrite E0 in E. injection E as <-. reflexivity. }
    rewrite Q in L. exact L.
  - apply F. intros N. apply list_elem_of_In in N. simpl in N.
    destruct N as [N|[N|[]]]; discriminate N.
  - apply (reset_variables_gives_unused_indices [1; 7] c) with (k := 7).
    + right. left.
    + vm_compute. reflexivity.
Defined.

(** ** Creation of symbolic variables *)

(** [createVariable] always returns.  For a declaration that has a symbolic
    variable it answers [true] and changes nothing, also when the type of the
    declaration is not supported; so a second call for the same declaration
    always answers [true] and is silent.  For a declaration without one it
    adds a variable named after the declaration and its id at index 0, makes
    no solver call, and answers [false] exactly when it records the warning
    that the type is not supported. *)
Theorem variable_is_created_once (d : VariableDeclaration.t) (c : SMTChecker) :
  exists b c1,
    createVariable d c = Ok b c1 /\
    createVariable d c1 = Ok true c1 /\
    (is_Some (m_variables c !! VariableDeclaration.id d) -> b = true /\ c1 = c) /\
    (m_variables c !! VariableDeclaration.id d = None ->
     exists v,
       m_variables c1 = <[VariableDeclaration.id d := (d, v)]> (m_variables c) /\
       SymbolicVariable.uniqueName v =
         VariableDeclaration.name d +:+ "_" +:+ to_string (VariableDeclaration.id d) /\
       SymbolicVariable.index v = 0 /\
       m_interface c1 = m_interface c /\
       m_errorReporter c1 =
         m_errorReporter c ++
         (if b then []
          else [mkWarning (Some (VariableDeclaration.location d))
                  "Assertion checker does not yet support the type of this variable."
                  []])).
Proof.
  unfold createVariable.
  destruct (m_variables c !! VariableDeclaration.id d) as [p|] eqn:E.
  - exists true, c.
    assert (R : (k <- knownVariable d ;;
                 if k then ret true
                 else
                   modify (set_variables
                             (<[VariableDeclaration.id d :=
                                  (d, snd (newSymbolicVariable (VariableDeclaration.type d)
                                             (VariableDeclaration.name d +:+ "_" +:+
                                                to_string (VariableDeclaration.id d))))]>)) ;;
                   if fst (newSymbolicVariable (VariableDeclaration.type d)
                             (VariableDeclaration.name d +:+ "_" +:+
                                to_string (VariableDeclaration.id d)))
                   then
                     warning (Some (VariableDeclaration.location d))
                       "Assertion checker does not yet support the type of this variable." [] ;;
                     ret false
                   else ret true) c = Ok true c).
    { rewrite (bind_eq _ _ c true c)
        by (unfold knownVariable, gets; rewrite E; reflexivity).
      reflexivity. }
    split; [exact R|]. split; [exact R|]. split; [split; reflexivity|].
    discriminate.
  - rewrite (bind_eq _ _ c false c)
      by (unfold knownVariable, gets; rewrite E; reflexivity).
    set (result := newSymbolicVariable (VariableDeclaration.type d)
                     (VariableDeclaration.name d +:+ "_" +:+
                        to_string (VariableDeclaration.id d))).
    set (c0 := set_variables (<[VariableDeclaration.id d := (d, snd result)]>) c).
    rewrite (bind_eq _ _ c tt c0) by reflexivity.
    assert (K : forall c2, m_variables c2 = m_variables c0 ->
                  (k <- knownVariable d ;;
                   if k then ret true
                   else
                     modify (set_variables
                               (<[VariableDeclaration.id d := (d, snd result)]>)) ;;
                     if fst result
                     then
                       warning (Some (VariableDeclaration.location d))
                         "Assertion checker does not yet support the type of this variable." [] ;;
                       ret false
                     else ret true) c2 = Ok true c2).
    { intros c2 V.
      rewrite (bind_eq _ _ c2 true c2); [reflexivity|].
      unfold knownVariable, gets. rewrite V. unfold c0. destruct c. simpl.
      rewrite lookup_insert_eq. reflexivity. }
    assert (N : SymbolicVariable.uniqueName (snd result) =
                VariableDeclaration.name d +:+ "_" +:+
                  to_string (VariableDeclaration.id d) /\
                SymbolicVariable.index (snd result) = 0).
    { unfold result, newSymbolicVariable.
      destruct (category (VariableDeclaration.type d)); split; reflexivity. }
    destruct (fst result) eqn:U.
    + exists false. eexists. split; [reflexivity|]. split.
      * apply K. destruct c. reflexivity.
      * split; [intros [q Q]; discriminate Q|]. intros _.
        exists (snd result). destruct N as (N1 & N2). destruct c.
        repeat split; assumption.
    + exists true, c0. split; [reflexivity|]. split; [apply K; reflexivity|].
      split; [intros [q Q]; discriminate Q|]. intros _.
      exists (snd result). destruct N as (N1 & N2). destruct c. simpl.
      rewrite app_nil_r. repeat split; assumption.
Qed.

(** ** The term of an expression *)

(** [expr] on an expression that has no symbolic variable does not fail: it
    records the warning of the internal error at the expression, creates the
    variable [expr_<id>] at index 0 and returns its term, without a solver
    call; asked again it returns the same term and changes nothing.  On an
    expression with a variable of its own it returns the current term and
    changes nothing. *)
Theorem undefined_expression_is_created (n : Node.t) (c : SMTChecker) :
  (m_expressions c !! Node.id n = None ->
   exists c' ws,
     expr n c = Ok (smt.Symbol ("expr_" +:+ to_string (Node.id n)) 0) c' /\
     expr n c' = Ok (smt.Symbol ("expr_" +:+ to_string (Node.id n)) 0) c' /\
     m_errorReporter c' =
       m_errorReporter c ++
       mkWarning (Some (Node.location n))
         "Internal error: Expression undefined for SMT solver." [] :: ws /\
     m_interface c' = m_interface c /\
     m_variables c' = m_variables c /\
     m_pathConditions c' = m_pathConditions c) /\
  (forall v, m_expressions c !! Node.id n = Some (Own v) ->
     expr n c = Ok (SymbolicVariable.currentValue v) c).
Proof.
  split.
  - intros E. unfold expr.
    rewrite (bind_eq _ _ c false c)
      by (unfold knownExpr, gets; rewrite E; reflexivity).
    set (c0 := set_errorReporter
                 (fun ws => ws ++ [mkWarning (Some (Node.location n))
                    "Internal error: Expression undefined for SMT solver." []]) c).
    set (result := newSymbolicVariable (Node.type n) ("expr_" +:+ to_string (Node.id n))).
    set (c1 := set_expressions (<[Node.id n := Own (snd result)]>) c0).
    assert (C : exists c2 ws,
               createExpr n c0 = Ok tt c2 /\
               m_expressions c2 = m_expressions c1 /\
               m_globalContext c2 = m_globalContext c1 /\
               m_errorReporter c2 = m_errorReporter c0 ++ ws /\
               m_interface c2 = m_interface c /\
               m_variables c2 = m_variables c /\
               m_pathConditions c2 = m_pathConditions c).
    { unfold createExpr.
      rewrite (bind_eq _ _ c0 false c0)
        by (unfold knownExpr, gets, c0; destruct c; simpl in *; rewrite E; reflexivity).
      fold result. rewrite (bind_eq _ _ c0 tt c1) by reflexivity.
      destruct (fst result).
      - eexists. eexists [_]. split; [reflexivity|]. unfold c1, c0. destruct c.
        repeat split.
      - exists c1, []. split; [reflexivity|]. unfold c1, c0. destruct c. simpl.
        rewrite app_nil_r. repeat split. }
    destruct C as (c2 & ws & R & X & G & W & I & V & P).
    assert (Q : expressionAt n c2 = Ok (snd result) c2).
    { unfold expressionAt. rewrite X. unfold c1. destruct c0. simpl.
      rewrite lookup_insert_eq. reflexivity. }
    assert (T : SymbolicVariable.currentValue (snd result) =
                smt.Symbol ("expr_" +:+ to_string (Node.id n)) 0).
    { unfold result, newSymbolicVariable. destruct (category (Node.type n)); reflexivity. }
    assert (H : (when (negb false)
                   (warning (Some (Node.location n))
                      "Internal error: Expression undefined for SMT solver." [] ;;
                    createExpr n) ;;
                 v <- expressionAt n ;;
                 ret (SymbolicVariable.currentValue v)) c =
                Ok (smt.Symbol ("expr_" +:+ to_string (Node.id n)) 0) c2).
    { rewrite (bind_eq _ _ c tt c2).
      - rewrite (bind_eq _ _ _ _ _ Q). unfold ret. rewrite T. reflexivity.
      - simpl. rewrite (bind_eq _ _ c tt c0) by reflexivity. exact R. }
    exists c2, ws. split; [exact H|]. split.
    + apply (expr_idem n c). unfold expr.
      rewrite (bind_eq _ _ c false c)
        by (unfold knownExpr, gets; rewrite E; reflexivity).
      exact H.
    + split; [|repeat split; assumption].
      rewrite W. unfold c0. destruct c. simpl. rewrite <- app_assoc. reflexivity.
  - intros v E. unfold expr.
    rewrite (bind_eq _ _ c true c)
      by (unfold knownExpr, gets; rewrite E; reflexivity).
    rewrite (bind_eq _ _ c tt c) by reflexivity.
    rewrite (bind_eq _ _ c v c) by (unfold expressionAt; rewrite E; reflexivity).
    reflexivity.
Qed.

(** * Operators and assignments *)

(** ** Assignment to a variable *)

Lemma checkUnderOverflow_calls solver formatNumberReadable bigint value ty loc c a c' :
  checkUnderOverflow solver formatNumberReadable bigint value ty loc c = Ok a c' ->
  exists ev1 ev2,
    m_interface c' = m_interface c ++ rangeChecks c value ty ev1 ev2 /\
    m_pathConditions c' = m_pathConditions c /\
    m_functionPath c' = m_functionPath c /\
    m_variables c' = m_variables c.
Proof.
  intros H. unfold checkUnderOverflow in H.
  apply bind_Ok in H as (u & c1 & H1 & H2).
  apply checkCondition_Ok in H1 as (e1 & I1 & _ & P1 & F1 & V1 & _).
  apply checkCondition_Ok in H2 as (e2 & I2 & _ & P2 & F2 & V2 & _).
  exists (fst <$> e1), (fst <$> e2). split; [|repeat split; congruence].
  rewrite I2, I1, P1. unfold rangeChecks. rewrite <- !app_assoc. reflexivity.
Qed.

Lemma assignment_steps
  solver formatNumberReadable bigint
  (d : VariableDeclaration.t) (value : smt.Expression) (loc : SourceLocation) c c' :
  assignment solver formatNumberReadable bigint d value loc c = Ok tt c' ->
  exists c1 p,
    match category (VariableDeclaration.type d) with
    | Category.Integer =>
        checkUnderOverflow solver formatNumberReadable bigint value
          (VariableDeclaration.type d) loc
    | Category.Address =>
        checkUnderOverflow solver formatNumberReadable bigint value
          (IntegerType 160 false) loc
    | Category.Mapping => arrayAssignment
    | _ => ret tt
    end c = Ok tt c1 /\
    m_variables c1 !! VariableDeclaration.id d = Some p /\
    m_variables c' =
      alter (fun p => (fst p, SymbolicVariable.increaseIndex (snd p)))
        (VariableDeclaration.id d) (m_variables c1) /\
    m_interface c' =
      m_interface c1 ++
      [smt.addAssertion
         (smt.Eq
            (smt.Symbol (SymbolicVariable.uniqueName (snd p))
               (SymbolicVariable.nextFreeIndex (snd p)))
            value)] /\
    m_pathConditions c' = m_pathConditions c1.
Proof.
  intros H. unfold assignment in H.
  apply bind_Ok in H as ([] & c1 & H1 & H).
  apply bind_Ok in H as (v & c2 & H2 & H).
  apply modify_Ok in H. subst c'.
  destruct (m_variables c1 !! VariableDeclaration.id d) as [p|] eqn:E.
  - rewrite (newValue_total _ _ _ E) in H2. injection H2 as <- <-.
    exists c1, p. split; [exact H1|]. split; [exact E|].
    destruct c1. repeat split.
  - rewrite (newValue_unknown _ _ E) in H2. discriminate.
Qed.

(** An assignment to a variable that is not a mapping first checks the value
    against the bounds of the type of the variable when that is an integer
    (an address has the bounds of uint160), each check in a solver scope of
    its own that is closed again; then it gives the variable a new index and
    asserts, outside those scopes, that the variable at the new index equals
    the value.  The value is taken as it is given, so it speaks of the
    variable at its old index.  No other variable moves and the path
    conditions stay. *)
Theorem assignment_checks_then_defines
  solver formatNumberReadable bigint
  (d : VariableDeclaration.t) (value : smt.Expression) (loc : SourceLocation) c c' :
  isMapping (category (VariableDeclaration.type d)) = false ->
  assignment solver formatNumberReadable bigint d value loc c = Ok tt c' ->
  exists p checks,
    m_variables c !! VariableDeclaration.id d = Some p /\
    m_variables c' =
      alter (fun p => (fst p, SymbolicVariable.increaseIndex (snd p)))
        (VariableDeclaration.id d) (m_variables c) /\
    m_interface c' =
      m_interface c ++ checks ++
      [smt.addAssertion
         (smt.Eq
            (smt.Symbol (SymbolicVariable.uniqueName (snd p))
               (SymbolicVariable.nextFreeIndex (snd p)))
            value)] /\
    match category (VariableDeclaration.type d) with
    | Category.Integer =>
        exists ev1 ev2,
          checks = rangeChecks c value (VariableDeclaration.type d) ev1 ev2
    | Category.Address =>
        exists ev1 ev2,
          checks = rangeChecks c value (IntegerType 160 false) ev1 ev2
    | _ => checks = []
    end /\
    m_pathConditions c' = m_pathConditions c.
Proof.
  intros NM H.
  apply assignment_steps in H as (c1 & p & H1 & E & V & I & P).
  assert (A : exists checks,
            m_interface c1 = m_interface c ++ checks /\
            m_pathConditions c1 = m_pathConditions c /\
            m_variables c1 = m_variables c /\
            match category (VariableDeclaration.type d) with
            | Category.Integer =>
                exists ev1 ev2,
                  checks = rangeChecks c value (VariableDeclaration.type d) ev1 ev2
            | Category.Address =>
                exists ev1 ev2,
                  checks = rangeChecks c value (IntegerType 160 false) ev1 ev2
            | _ => checks = []
            end).
  { destruct (category (VariableDeclaration.type d)) eqn:C;
      try discriminate NM;
      try (apply ret_Ok in H1 as [_ <-]; exists []; rewrite app_nil_r;
           repeat split; reflexivity).
    all: apply checkUnderOverflow_calls in H1 as (ev1 & ev2 & I1 & P1 & _ & V1);
      eexists; split; [exact I1|]; split; [exact P1|]; split; [exact V1|];
      exists ev1, ev2; reflexivity. }
  destruct A as (checks & I1 & P1 & V1 & K).
  exists p, checks. rewrite <- V1. split; [exact E|]. split; [exact V|].
  split; [|split; [exact K|congruence]].
  rewrite I, I1, <- app_assoc. reflexivity.
Qed.

Lemma assignment_checks_then_defines_witness :
  exists c' ev1 ev2,
    assignment (Sample.always smt.UNSATISFIABLE) Sample.formatNumberReadable
      Sample.bigint Sample.x (smt.IntLit 5) 0
      (Sample.inside (Sample.function (Block []) [])) = Ok tt c' /\
    m_interface c' =
      m_interface (Sample.inside (Sample.function (Block []) [])) ++
      rangeChecks (Sample.inside (Sample.function (Block []) []))
        (smt.IntLit 5) Sample.uint256 ev1 ev2 ++
      [smt.addAssertion (smt.Eq (smt.Symbol "x_1" 1) (smt.IntLit 5))].
Proof.
  pose (c := Sample.inside (Sample.function (Block []) [])).
  pose (c' := Sample.after
                (assignment (Sample.always smt.UNSATISFIABLE)
                   Sample.formatNumberReadable Sample.bigint Sample.x
                   (smt.IntLit 5) 0) c).
  assert (H : assignment (Sample.always smt.UNSATISFIABLE)
                Sample.formatNumberReadable Sample.bigint Sample.x
                (smt.IntLit 5) 0 c = Ok tt c') by (vm_compute; reflexivity).
  destruct (assignment_checks_then_defines
              (Sample.always smt.UNSATISFIABLE) Sample.formatNumberReadable
              Sample.bigint Sample.x (smt.IntLit 5) 0 c c' eq_refl H)
    as (p & checks & E & _ & I & K & _).
  assert (Q : p = (Sample.x, SymbolicVariable.create Sample.uint256 "x_1")).
  { assert (E0 : m_variables c !! VariableDeclaration.id Sample.x =
                 Some (Sample.x, SymbolicVariable.create Sample.uint256 "x_1"))
      by (vm_compute; reflexivity).
    rewrite E0 in E. injection E as <-. reflexivity. }
  subst p. simpl in K. destruct K as (ev1 & ev2 & ->).
  exists c', ev1, ev2. split; [exact H|exact I].
Defined.

(** ** Binary operators *)

Lemma defineExpr_frame n value c a c' :
  defineExpr n value c = Ok a c' ->
  m_variables c' = m_variables c /\
  m_pathConditions c' = m_pathConditions c /\
  m_functionPath c' = m_functionPath c.
Proof.
  intros H. split; [|split].
  - assert (K : Keeps m_variables (defineExpr n value)) by keeps.
    exact (K _ _ _ H).
  - assert (K : Keeps m_pathConditions (defineExpr n value)) by keeps.
    exact (K _ _ _ H).
  - assert (K : Keeps m_functionPath (defineExpr n value)) by keeps.
    exact (K _ _ _ H).
Qed.

(** An addition, subtraction or multiplication on an integer common type
    takes the terms of its two operands, checks the result against the
    bounds of the common type in two solver scopes that are closed again,
    and then asserts that the variable of the node equals the result.  The
    result is the operation on unbounded integers: it is not wrapped to the
    type, whatever the checks find.  No program variable moves and the path
    conditions stay. *)
Theorem arithmetic_is_checked_not_wrapped
  solver formatNumberReadable bigint n op ty (l r : Expression) c c' :
  op = Token.Add \/ op = Token.Sub \/ op = Token.Mul ->
  isInteger (category ty) = true ->
  endVisit_BinaryOperation solver formatNumberReadable bigint
    n op (Some ty) l r c = Ok tt c' ->
  exists L cl R cr value ev1 ev2 v,
    expr l c = Ok L cl /\ expr r cl = Ok R cr /\
    (forall m a b,
       smt.eval m L = Some (smt.VInt a) ->
       smt.eval m R = Some (smt.VInt b) ->
       smt.eval m value = Some (smt.VInt (arithmetic op a b))) /\
    m_interface c' =
      m_interface c ++ rangeChecks c value ty ev1 ev2 ++
      [smt.addAssertion (smt.Eq (SymbolicVariable.currentValue v) value)] /\
    expressionAt n c' = Ok v c' /\
    m_variables c' = m_variables c /\
    m_pathConditions c' = m_pathConditions c.
Proof.
  intros Hop Hi H.
  assert (A : exists L cl R cr value c1,
            expr l c = Ok L cl /\ expr r cl = Ok R cr /\
            (forall m a b,
               smt.eval m L = Some (smt.VInt a) ->
               smt.eval m R = Some (smt.VInt b) ->
               smt.eval m value = Some (smt.VInt (arithmetic op a b))) /\
            checkUnderOverflow solver formatNumberReadable bigint value ty
              (Node.location n) cr = Ok tt c1 /\
            defineExpr n value c1 = Ok tt c').
  { destruct Hop as [->|[->| ->]];
      unfold endVisit_BinaryOperation in H; simpl in H;
      unfold arithmeticOperation in H; rewrite Hi in H; simpl in H;
      apply bind_Ok in H as (L & cl & HL & H);
      apply bind_Ok in H as (R & cr & HR & H);
      apply bind_Ok in H as (u1 & c1 & H1 & H);
      apply ret_Ok in H1 as [_ <-];
      apply bind_Ok in H as ([] & c2 & H2 & H);
      exists L, cl, R, cr; eexists; exists c2;
      (split; [exact HL|]); (split; [exact HR|]);
      (split; [|split; [exact H2|exact H]]);
      intros m a b EL ER; simpl; rewrite EL, ER; reflexivity. }
  destruct A as (L & cl & R & cr & value & c1 & HL & HR & HV & H1 & H2).
  apply checkUnderOverflow_calls in H1 as (ev1 & ev2 & I1 & P1 & _ & V1).
  destruct (defineExpr_Ok _ _ _ _ _ H2) as (v & Hv & I2).
  destruct (defineExpr_frame _ _ _ _ _ H2) as (V2 & P2 & _).
  destruct (expr_frame _ _ _ _ HL) as (Il & Pl & _ & Vl).
  destruct (expr_frame _ _ _ _ HR) as (Ir & Pr & _ & Vr).
  exists L, cl, R, cr, value, ev1, ev2, v.
  split; [exact HL|]. split; [exact HR|]. split; [exact HV|].
  split; [|split; [exact Hv|split; congruence]].
  rewrite I2, I1, Ir, Il. unfold rangeChecks. rewrite Pr, Pl.
  rewrite <- !app_assoc. reflexivity.
Qed.

Lemma arithmetic_is_checked_not_wrapped_witness :
  exists c' value ev1 ev2 v,
    endVisit_BinaryOperation (Sample.always smt.UNSATISFIABLE)
      Sample.formatNumberReadable Sample.bigint
      (Sample.at_ 30 Sample.uint256) Token.Add (Some Sample.uint256)
      (Sample.read 31 Sample.x) (Sample.read 32 Sample.y) Sample.operands
      = Ok tt c' /\
    smt.eval (fun name _ => if String.eqb name "expr_31" then Some (smt.VInt 2)
                            else Some (smt.VInt 3)) value
      = Some (smt.VInt 5) /\
    m_interface c' =
      m_interface Sample.operands ++
      rangeChecks Sample.operands value Sample.uint256 ev1 ev2 ++
      [smt.addAssertion (smt.Eq (SymbolicVariable.currentValue v) value)].
Proof.
  pose (c := Sample.operands).
  pose (c' := Sample.after
                (endVisit_BinaryOperation (Sample.always smt.UNSATISFIABLE)
                   Sample.formatNumberReadable Sample.bigint
                   (Sample.at_ 30 Sample.uint256) Token.Add (Some Sample.uint256)
                   (Sample.read 31 Sample.x) (Sample.read 32 Sample.y)) c).
  assert (H : endVisit_BinaryOperation (Sample.always smt.UNSATISFIABLE)
                Sample.formatNumberReadable Sample.bigint
                (Sample.at_ 30 Sample.uint256) Token.Add (Some Sample.uint256)
                (Sample.read 31 Sample.x) (Sample.read 32 Sample.y) c
              = Ok tt c') by (vm_compute; reflexivity).
  destruct (arithmetic_is_checked_not_wrapped
              (Sample.always smt.UNSATISFIABLE) Sample.formatNumberReadable
              Sample.bigint (Sample.at_ 30 Sample.uint256) Token.Add
              Sample.uint256 (Sample.read 31 Sample.x) (Sample.read 32 Sample.y)
              c c' (or_introl eq_refl) eq_refl H)
    as (L & cl & R & cr & value & ev1 & ev2 & v & HL & HR & HV & I & _).
  assert (EL : expr (Sample.read 31 Sample.x) c = Ok (smt.Symbol "expr_31" 0) c)
    by (vm_compute; reflexivity).
  rewrite EL in HL. injection HL as <- <-.
  assert (ER : expr (Sample.read 32 Sample.y) c = Ok (smt.Symbol "expr_32" 0) c)
    by (vm_compute; reflexivity).
  rewrite ER in HR. injection HR as <- <-.
  exists c', value, ev1, ev2, v. split; [exact H|]. split; [|exact I].
  apply (HV _ 2%Z 3%Z); reflexivity.
Defined.

(** A comparison on a number common type takes the terms of its two
    operands and asserts that the variable of the node equals a term that is
    true in a model exactly when the comparison of the token holds between
    the values of the operands.  It asks the solver nothing: the assertion
    is its only solver call; no program variable moves and the path
    conditions stay. *)
Theorem comparison_means_its_token
  solver formatNumberReadable bigint n op ty (l r : Expression) c c' :
  TokenTraits.isCompareOp op = true ->
  isNumber (category ty) = true ->
  endVisit_BinaryOperation solver formatNumberReadable bigint
    n op (Some ty) l r c = Ok tt c' ->
  exists L cl R cr value v,
    expr l c = Ok L cl /\ expr r cl = Ok R cr /\
    (forall m a b,
       smt.eval m L = Some (smt.VInt a) ->
       smt.eval m R = Some (smt.VInt b) ->
       smt.eval m value = Some (smt.VBool (comparison op a b))) /\
    m_interface c' =
      m_interface c ++
      [smt.addAssertion (smt.Eq (SymbolicVariable.currentValue v) value)] /\
    expressionAt n c' = Ok v c' /\
    m_variables c' = m_variables c /\
    m_pathConditions c' = m_pathConditions c.
Proof.
  intros Hop Hn H.
  assert (S : isSupportedType (category ty) = true).
  { unfold isSupportedType. rewrite Hn. reflexivity. }
  assert (A : exists L cl R cr value,
            expr l c = Ok L cl /\ expr r cl = Ok R cr /\
            (forall m a b,
               smt.eval m L = Some (smt.VInt a) ->
               smt.eval m R = Some (smt.VInt b) ->
               smt.eval m value = Some (smt.VBool (comparison op a b))) /\
            defineExpr n value cr = Ok tt c').
  { destruct op; try discriminate Hop;
      unfold endVisit_BinaryOperation in H; simpl in H;
      unfold compareOperation in H; rewrite S, Hn in H;
      apply bind_Ok in H as (L & cl & HL & H);
      apply bind_Ok in H as (R & cr & HR & H);
      apply bind_Ok in H as (value & c1 & H1 & H);
      apply ret_Ok in H1 as [<- <-];
      exists L, cl, R, cr; eexists;
      (split; [exact HL|]); (split; [exact HR|]); (split; [|exact H]);
      intros m a b EL ER; simpl; rewrite EL, ER; reflexivity. }
  destruct A as (L & cl & R & cr & value & HL & HR & HV & H2).
  destruct (defineExpr_Ok _ _ _ _ _ H2) as (v & Hv & I2).
  destruct (defineExpr_frame _ _ _ _ _ H2) as (V2 & P2 & _).
  destruct (expr_frame _ _ _ _ HL) as (Il & Pl & _ & Vl).
  destruct (expr_frame _ _ _ _ HR) as (Ir & Pr & _ & Vr).
  exists L, cl, R, cr, value, v.
  split; [exact HL|]. split; [exact HR|]. split; [exact HV|].
  split; [|split; [exact Hv|split; congruence]].
  rewrite I2, Ir, Il. reflexivity.
Qed.

Lemma comparison_means_its_token_witness :
  exists c c' value v,
    endVisit_BinaryOperation (Sample.always smt.UNSATISFIABLE)
      Sample.formatNumberReadable Sample.bigint
      (Sample.at_ 10 Sample.boolType) Token.GreaterThan (Some Sample.uint256)
      (Sample.read 11 Sample.x) (Sample.number 12 10) c = Ok tt c' /\
    smt.eval (fun name _ => if String.eqb name "expr_11" then Some (smt.VInt 11)
                            else Some (smt.VInt 10)) value
      = Some (smt.VBool true) /\
    m_interface c' =
      m_interface c ++
      [smt.addAssertion (smt.Eq (SymbolicVariable.currentValue v) value)].
Proof.
  pose (c := Sample.after
               (accept_Expression (Sample.always smt.UNSATISFIABLE)
                  (fun _ => []) Sample.formatNumberReadable Sample.bigint
                  (Sample.read 11 Sample.x) ;;
                accept_Expression (Sample.always smt.UNSATISFIABLE)
                  (fun _ => []) Sample.formatNumberReadable Sample.bigint
                  (Sample.number 12 10))
               (Sample.inside (Sample.function (Block []) []))).
  pose (c' := Sample.after
                (endVisit_BinaryOperation (Sample.always smt.UNSATISFIABLE)
                   Sample.formatNumberReadable Sample.bigint
                   (Sample.at_ 10 Sample.boolType) Token.GreaterThan
                   (Some Sample.uint256)
                   (Sample.read 11 Sample.x) (Sample.number 12 10)) c).
  assert (H : endVisit_BinaryOperation (Sample.always smt.UNSATISFIABLE)
                Sample.formatNumberReadable Sample.bigint
                (Sample.at_ 10 Sample.boolType) Token.GreaterThan
                (Some Sample.uint256)
                (Sample.read 11 Sample.x) (Sample.number 12 10) c
              = Ok tt c') by (vm_compute; reflexivity).
  destruct (comparison_means_its_token
              (Sample.always smt.UNSATISFIABLE) Sample.formatNumberReadable
              Sample.bigint (Sample.at_ 10 Sample.boolType) Token.GreaterThan
              Sample.uint256 (Sample.read 11 Sample.x) (Sample.number 12 10)
              c c' eq_refl eq_refl H)
    as (L & cl & R & cr & value & v & HL & HR & HV & I & _).
  assert (EL : expr (Sample.read 11 Sample.x) c = Ok (smt.Symbol "expr_11" 0) c)
    by (vm_compute; reflexivity).
  rewrite EL in HL. injection HL as <- <-.
  assert (ER : expr (Sample.number 12 10) c = Ok (smt.Symbol "expr_12" 0) c)
    by (vm_compute; reflexivity).
  rewrite ER in HR. injection HR as <- <-.
  exists c, c', value, v. split; [exact H|]. split; [|exact I].
  apply (HV _ 11%Z 10%Z); reflexivity.
Defined.

(** A conjunction or disjunction on the boolean common type, of operands
    that have their variables, asserts that the variable of the node equals
    a term that evaluates to the conjunction or disjunction of the values of
    both operands; that assertion is its only solver call, so neither
    operand is tested for being constant. *)
Theorem boolean_operation_means_its_token
  solver formatNumberReadable bigint n op ty (l r : Expression) c c' :
  TokenTraits.isBooleanOp op = true ->
  isBool (category ty) = true ->
  is_Some (m_expressions c !! Node.id l) ->
  is_Some (m_expressions c !! Node.id r) ->
  endVisit_BinaryOperation solver formatNumberReadable bigint
    n op (Some ty) l r c = Ok tt c' ->
  exists L R value v,
    expr l c = Ok L c /\ expr r c = Ok R c /\
    (forall m a b,
       smt.eval m L = Some (smt.VBool a) ->
       smt.eval m R = Some (smt.VBool b) ->
       smt.eval m value =
         Some (smt.VBool (match op with Token.And => a && b | _ => a || b end))) /\
    m_interface c' =
      m_interface c ++
      [smt.addAssertion (smt.Eq (SymbolicVariable.currentValue v) value)] /\
    expressionAt n c' = Ok v c' /\
    m_variables c' = m_variables c /\
    m_pathConditions c' = m_pathConditions c.
Proof.
  intros Hop Hb Kl Kr H.
  assert (A : exists L R value,
            expr l c = Ok L c /\ expr r c = Ok R c /\
            (forall m a b,
               smt.eval m L = Some (smt.VBool a) ->
               smt.eval m R = Some (smt.VBool b) ->
               smt.eval m value =
                 Some (smt.VBool
                         (match op with Token.And => a && b | _ => a || b end))) /\
            defineExpr n value c = Ok tt c').
  { destruct op; try discriminate Hop;
      unfold endVisit_BinaryOperation in H; simpl in H;
      unfold booleanOperation in H;
      apply bind_Ok in H as (u & c0 & H0 & H);
      apply ret_Ok in H0 as [_ <-];
      rewrite Hb in H;
      apply bind_Ok in H as (L & cl & HL & H);
      destruct (expr_known _ _ _ _ HL Kl) as (-> & _);
      apply bind_Ok in H as (R & cr & HR & H);
      destruct (expr_known _ _ _ _ HR Kr) as (-> & _);
      exists L, R; eexists;
      (split; [exact HL|]); (split; [exact HR|]); (split; [|exact H]);
      intros m a b EL ER; simpl; rewrite EL, ER; reflexivity. }
  destruct A as (L & R & value & HL & HR & HV & H2).
  destruct (defineExpr_Ok _ _ _ _ _ H2) as (v & Hv & I2).
  destruct (defineExpr_frame _ _ _ _ _ H2) as (V2 & P2 & _).
  exists L, R, value, v.
  split; [exact HL|]. split; [exact HR|]. split; [exact HV|].
  split; [exact I2|]. split; [exact Hv|]. split; assumption.
Qed.

Lemma boolean_operation_means_its_token_witness :
  exists c' value v,
    endVisit_BinaryOperation (Sample.always smt.UNSATISFIABLE)
      Sample.formatNumberReadable Sample.bigint
      (Sample.at_ 60 Sample.boolType) Token.Or (Some Sample.boolType)
      Sample.x_gt_10 Sample.x_gt_10 Sample.conditioned = Ok tt c' /\
    smt.eval (fun _ _ => Some (smt.VBool true)) value = Some (smt.VBool true) /\
    m_interface c' =
      m_interface Sample.conditioned ++
      [smt.addAssertion (smt.Eq (SymbolicVariable.currentValue v) value)].
Proof.
  pose (c := Sample.conditioned).
  pose (c' := Sample.after
                (endVisit_BinaryOperation (Sample.always smt.UNSATISFIABLE)
                   Sample.formatNumberReadable Sample.bigint
                   (Sample.at_ 60 Sample.boolType) Token.Or (Some Sample.boolType)
                   Sample.x_gt_10 Sample.x_gt_10) c).
  assert (H : endVisit_BinaryOperation (Sample.always smt.UNSATISFIABLE)
                Sample.formatNumberReadable Sample.bigint
                (Sample.at_ 60 Sample.boolType) Token.Or (Some Sample.boolType)
                Sample.x_gt_10 Sample.x_gt_10 c
              = Ok tt c') by (vm_compute; reflexivity).
  assert (K : is_Some (m_expressions c !! Node.id Sample.x_gt_10)).
  { refine (bool_decide_unpack _ _). vm_compute. exact I. }
  destruct (boolean_operation_means_its_token
              (Sample.always smt.UNSATISFIABLE) Sample.formatNumberReadable
              Sample.bigint (Sample.at_ 60 Sample.boolType) Token.Or
              Sample.boolType Sample.x_gt_10 Sample.x_gt_10
              c c' eq_refl eq_refl K K H)
    as (L & R & value & v & HL & HR & HV & I & _).
  assert (EL : expr Sample.x_gt_10 c = Ok (smt.Symbol "expr_10" 0) c)
    by (vm_compute; reflexivity).
  rewrite EL in HL. injection HL as <-.
  rewrite EL in HR. injection HR as <-.
  exists c', value, v. split; [exact H|]. split; [|exact I].
  apply (HV _ true true); reflexivity.
Defined.

(** * Queries *)

(** When the solver fails on the query of a goal, the failure is caught: the
    checker records the warning that the query failed, with the comment of
    the solver when there is one and without a location, then the warning
    at the goal that the solver could not be invoked, and closes the scope
    of the query as after any answer.  The warnings before these two are
    those of expressions without a symbolic variable. *)
Theorem solver_failure_is_reported
  solver formatNumberReadable bigint cond loc descr name v c c' :
  checkCondition solver formatNumberReadable bigint cond loc descr name v c
    = Ok tt c' ->
  exists es,
    let query :=
      m_interface c ++
      [smt.push;
       smt.addAssertion
         (smt.And (List.last (m_pathConditions c) (smt.BoolLit true)) cond);
       smt.check es] in
    m_interface c' = query ++ [smt.pop] /\
    forall comment,
      solver query = smt.SolverError comment ->
      exists ws,
        Forall undefinedWarning ws /\
        m_errorReporter c' =
          m_errorReporter c ++ ws ++
          [mkWarning None
             ("Error querying SMT solver" +:+
                match comment with Some s => ": " +:+ s | None => "" end) [];
           mkWarning (Some loc) "Error trying to invoke SMT solver." []].
Proof.
  intros H. unfold checkCondition in H.
  apply bind_Ok in H as (u1 & c1 & H1 & H). apply modify_Ok in H1. subst c1.
  apply bind_Ok in H as (u2 & c2 & H2 & H).
  unfold addPathConjoinedExpression in H2.
  apply bind_Ok in H2 as (pc & c2' & Hp & H2). apply gets_Ok in Hp as [-> ->].
  apply modify_Ok in H2. subst c2.
  apply bind_Ok in H as (inF & c3 & H3 & H). apply gets_Ok in H3 as [-> ->].
  apply bind_Ok in H as (evaluated & c4 & H4 & H).
  apply bind_Ok in H as (r & c5 & H5 & H).
  apply bind_Ok in H as (comment & c6 & H6 & H). apply gets_Ok in H6 as [-> ->].
  apply bind_Ok in H as (u7 & c7 & H7 & H). apply modify_Ok in H. subst c'.
  set (cB := set_interface _ (set_interface _ c)) in *.
  assert (K4 : m_interface c4 = m_interface cB /\
               exists ws, m_errorReporter c4 = m_errorReporter c ++ ws /\
                          Forall undefinedWarning ws).
  { destruct (negb (Nat.eqb (length (m_functionPath cB)) 0)).
    - split.
      + eapply Keeps_expressionsToEvaluate; [| | |exact H4]; intros; reflexivity.
      + apply expressionsToEvaluate_warnings in H4. exact H4.
    - apply ret_Ok in H4 as [_ <-]. split; [reflexivity|].
      exists []. split; [symmetry; apply app_nil_r|constructor]. }
  destruct K4 as (K4i & ws & K4w & K4f).
  apply checkSatisfiableAndGenerateModel_Ok in H5. cbv zeta in H5.
  destruct H5 as (R5 & I5 & W5 & _).
  rewrite K4i in I5, R5, W5. simpl in I5, R5, W5.
  rewrite <- app_assoc in I5, R5, W5. simpl in I5, R5, W5.
  rewrite <- app_assoc in I5, R5, W5. simpl in I5, R5, W5.
  exists (fst <$> evaluated). cbv zeta. split.
  - assert (K7 : m_interface c7 = m_interface c5).
    { destruct (fst r);
        repeat match type of H7 with
          | (if ?b then _ else _) _ = _ => destruct b
          end;
        try (apply ret_Ok in H7 as [_ <-]; reflexivity);
        match goal with
        | |- ?f c7 = ?f c5 =>
            assert (Kp : forall m, m c5 = Ok u7 c7 -> Keeps f m -> f c7 = f c5)
              by (intros m Hm Km; exact (Km _ _ _ Hm));
            eapply Kp; [exact H7|]; keeps
        end. }
    simpl. rewrite K7, I5. rewrite <- app_assoc. reflexivity.
  - intros cm A. rewrite A in R5, W5. simpl in R5, W5. rewrite R5 in H7.
    apply modify_Ok in H7. subst c7. exists ws. split; [exact K4f|].
    simpl. rewrite W5, K4w. rewrite <- !app_assoc. reflexivity.
Qed.

Lemma solver_failure_is_reported_witness :
  exists c' ws,
    checkCondition (fun _ => smt.SolverError (Some "timeout"))
      Sample.formatNumberReadable Sample.bigint
      (smt.BoolLit true) 7 "Assertion violation" "" None
      (Sample.inside (Sample.function (Block []) [])) = Ok tt c' /\
    m_errorReporter c' =
      m_errorReporter (Sample.inside (Sample.function (Block []) [])) ++ ws ++
      [mkWarning None "Error querying SMT solver: timeout" [];
       mkWarning (Some 7) "Error trying to invoke SMT solver." []].
Proof.
  pose (c := Sample.inside (Sample.function (Block []) [])).
  pose (c' := Sample.after
                (checkCondition (fun _ => smt.SolverError (Some "timeout"))
                   Sample.formatNumberReadable Sample.bigint
                   (smt.BoolLit true) 7 "Assertion violation" "" None) c).
  assert (H : checkCondition (fun _ => smt.SolverError (Some "timeout"))
                Sample.formatNumberReadable Sample.bigint
                (smt.BoolLit true) 7 "Assertion violation" "" None c
              = Ok tt c') by (vm_compute; reflexivity).
  destruct (solver_failure_is_reported _ _ _ _ _ _ _ _ _ _ H) as (es & _ & W).
  destruct (W (Some "timeout") eq_refl) as (ws & _ & E).
  exists c', ws. split; [exact H|exact E].
Defined.

(** * Increments and decrements *)

(** An increment or decrement of an integer variable that has a symbolic
    variable reads the current term of the variable, assigns the term plus
    or minus one to the variable (range checks against the type of the
    variable, then the assertion at a new index), and last asserts the value
    of the operation itself: the new term for the prefix form, the term
    before the operation for the postfix form.  Only that variable moves. *)
Theorem increment_assigns_and_yields
  solver formatNumberReadable bigint n op isPrefix node name
  (d : VariableDeclaration.t) c c' :
  op = Token.Inc \/ op = Token.Dec ->
  category (VariableDeclaration.type d) = Category.Integer ->
  is_Some (m_variables c !! VariableDeclaration.id d) ->
  endVisit_UnaryOperation solver formatNumberReadable bigint n op isPrefix
    (Identifier node name (VariableRef d)) c = Ok tt c' ->
  exists p ev1 ev2 v,
    m_variables c !! VariableDeclaration.id d = Some p /\
    let old := SymbolicVariable.currentValue (snd p) in
    let new :=
      match op with
      | Token.Inc => smt.Add old (smt.IntLit 1)
      | _ => smt.Sub old (smt.IntLit 1)
      end in
    m_variables c' =
      alter (fun p => (fst p, SymbolicVariable.increaseIndex (snd p)))
        (VariableDeclaration.id d) (m_variables c) /\
    m_interface c' =
      m_interface c ++ rangeChecks c new (VariableDeclaration.type d) ev1 ev2 ++
      [smt.addAssertion
         (smt.Eq
            (smt.Symbol (SymbolicVariable.uniqueName (snd p))
               (SymbolicVariable.nextFreeIndex (snd p)))
            new);
       smt.addAssertion
         (smt.Eq (SymbolicVariable.currentValue v)
            (if isPrefix then new else old))] /\
    expressionAt n c' = Ok v c' /\
    m_pathConditions c' = m_pathConditions c.
Proof.
  intros Hop Hc [p E] H.
  assert (A : exists p c1,
            m_variables c !! VariableDeclaration.id d = Some p /\
            let old := SymbolicVariable.currentValue (snd p) in
            let new :=
              match op with
              | Token.Inc => smt.Add old (smt.IntLit 1)
              | _ => smt.Sub old (smt.IntLit 1)
              end in
            assignment solver formatNumberReadable bigint d new (Node.location n) c
              = Ok tt c1 /\
            defineExpr n (if isPrefix then new else old) c1 = Ok tt c').
  { destruct Hop as [-> | ->];
      unfold endVisit_UnaryOperation in H;
      apply bind_Ok in H as (u1 & c1 & H1 & H);
      apply solAssert_Ok in H1 as [_ ->];
      apply bind_Ok in H as (u2 & c2 & H2 & H);
      apply solAssert_Ok in H2 as [_ ->];
      apply bind_Ok in H as (k & c3 & H3 & H);
      apply gets_Ok in H3 as [-> ->];
      rewrite E in H; simpl in H;
      apply bind_Ok in H as (inner & c4 & H4 & H);
      apply currentValue_Ok in H4 as (p' & E' & -> & ->);
      rewrite E in E'; injection E' as <-;
      apply bind_Ok in H as ([] & c5 & H5 & H);
      exists p, c5; (split; [exact E|]); cbv zeta; split; assumption. }
  clear p E. destruct A as (p & c1 & E & H1 & H2). cbv zeta in H1, H2.
  apply assignment_steps in H1 as (c0 & p' & H0 & E' & V1 & I1 & P1).
  rewrite Hc in H0.
  apply checkUnderOverflow_calls in H0 as (ev1 & ev2 & I0 & P0 & _ & V0).
  rewrite V0 in E', V1. rewrite E in E'. injection E' as <-.
  rewrite I0 in I1. rewrite P0 in P1.
  destruct (defineExpr_Ok _ _ _ _ _ H2) as (v & Hv & I2).
  destruct (defineExpr_frame _ _ _ _ _ H2) as (V2 & P2 & _).
  exists p, ev1, ev2, v. split; [exact E|]. cbv zeta.
  split; [congruence|]. split; [|split; [exact Hv|congruence]].
  rewrite I2, I1. rewrite <- !app_assoc. reflexivity.
Qed.

Lemma increment_assigns_and_yields_witness :
  exists c' ev1 ev2 v,
    endVisit_UnaryOperation (Sample.always smt.UNSATISFIABLE)
      Sample.formatNumberReadable Sample.bigint
      (Sample.at_ 14 Sample.uint256) Token.Inc false (Sample.write 15 Sample.x)
      (Sample.inside (Sample.function (Block []) [])) = Ok tt c' /\
    m_interface c' =
      m_interface (Sample.inside (Sample.function (Block []) [])) ++
      rangeChecks (Sample.inside (Sample.function (Block []) []))
        (smt.Add (smt.Symbol "x_1" 0) (smt.IntLit 1)) Sample.uint256 ev1 ev2 ++
      [smt.addAssertion
         (smt.Eq (smt.Symbol "x_1" 1) (smt.Add (smt.Symbol "x_1" 0) (smt.IntLit 1)));
       smt.addAssertion
         (smt.Eq (SymbolicVariable.currentValue v) (smt.Symbol "x_1" 0))].
Proof.
  pose (c := Sample.inside (Sample.function (Block []) [])).
  pose (c' := Sample.after
                (endVisit_UnaryOperation (Sample.always smt.UNSATISFIABLE)
                   Sample.formatNumberReadable Sample.bigint
                   (Sample.at_ 14 Sample.uint256) Token.Inc false
                   (Sample.write 15 Sample.x)) c).
  assert (H : endVisit_UnaryOperation (Sample.always smt.UNSATISFIABLE)
                Sample.formatNumberReadable Sample.bigint
                (Sample.at_ 14 Sample.uint256) Token.Inc false
                (Identifier (Sample.lvalue 15 Sample.uint256) "x"
                   (VariableRef Sample.x)) c
              = Ok tt c') by (vm_compute; reflexivity).
  assert (E0 : m_variables c !! VariableDeclaration.id Sample.x =
               Some (Sample.x, SymbolicVariable.create Sample.uint256 "x_1"))
    by (vm_compute; reflexivity).
  destruct (increment_assigns_and_yields
              (Sample.always smt.UNSATISFIABLE) Sample.formatNumberReadable
              Sample.bigint (Sample.at_ 14 Sample.uint256) Token.Inc false
              (Sample.lvalue 15 Sample.uint256) "x" Sample.x c c'
              (or_introl eq_refl) eq_refl (ex_intro _ _ E0) H)
    as (p & ev1 & ev2 & v & E & _ & I & _).
  rewrite E0 in E. injection E as <-.
  exists c', ev1, ev2, v. split; [exact H|exact I].
Defined.

(** * Function calls *)

(** A call of an internal function through an identifier is not inlined when
    the function is already on the path of the functions being visited, or
    when it has no body: whatever the visit of the function would do, the
    call only records one warning at the call, that recursive calls are not
    supported in the first case and that calls to functions without
    implementation are not supported in the second; the solver, the
    variables and the path of functions are as before the call. *)
Theorem call_that_is_not_inlined
  solver formatNumberReadable bigint (accept : FunctionDefinition -> M unit)
  n node name (f : FunctionDefinition) arguments c :
  isFunction (category (Node.type node)) = true ->
  kind (Node.type node) = Kind.Internal ->
  let onPath :=
    existsb (fun g => Nat.eqb (FunctionDefinition_.id g) (FunctionDefinition_.id f))
      (m_functionPath c) in
  onPath = true \/ FunctionDefinition_.isImplemented f = false ->
  endVisit_FunctionCall solver formatNumberReadable bigint accept n
    FunctionCallKind.FunctionCall (Identifier node name (FunctionRef f))
    arguments c =
  Ok tt
    (set_errorReporter
       (fun ws =>
          ws ++
          [if onPath then
             mkWarning (Some (Node.location n))
               "Assertion checker does not support recursive function calls."
               ["Starting from function:"]
           else
             mkWarning (Some (Node.location n))
               "Assertion checker does not support calls to functions without implementation."
               []]) c).
Proof.
  intros Hf Hk onPath Hc.
  unfold endVisit_FunctionCall. simpl. rewrite Hf, Hk. simpl.
  unfold inlineFunctionCall, inlineFunctionDefinition.
  rewrite (bind_eq _ _ c onPath c) by reflexivity.
  destruct onPath eqn:P; [reflexivity|].
  destruct Hc as [Hc|Hc]; [discriminate Hc|]. rewrite Hc. reflexivity.
Qed.

Lemma call_that_is_not_inlined_witness :
  endVisit_FunctionCall (Sample.always smt.UNSATISFIABLE)
    Sample.formatNumberReadable Sample.bigint (fun _ => throw InternalCompilerError)
    (Sample.at_ 70 Sample.uint256) FunctionCallKind.FunctionCall
    (Identifier (Sample.at_ 71 (Sample.functionType Kind.Internal "f")) "f"
       (FunctionRef (Sample.function (Block []) [])))
    [] (Sample.inside (Sample.function (Block []) [])) =
  Ok tt
    (set_errorReporter
       (fun ws =>
          ws ++
          [mkWarning (Some 70)
             "Assertion checker does not support recursive function calls."
             ["Starting from function:"]])
       (Sample.inside (Sample.function (Block []) []))).
Proof.
  apply (call_that_is_not_inlined
           (Sample.always smt.UNSATISFIABLE) Sample.formatNumberReadable
           Sample.bigint (fun _ => throw InternalCompilerError)
           (Sample.at_ 70 Sample.uint256)
           (Sample.at_ 71 (Sample.functionType Kind.Internal "f")) "f"
           (Sample.function (Block []) []) []
           (Sample.inside (Sample.function (Block []) []))
           eq_refl eq_refl (or_introl eq_refl)).
Defined.

(** * The gas that is left *)

Lemma defineExpr_globals n value c a c' :
  defineExpr n value c = Ok a c' ->
  (forall s, m_expressions c !! Node.id n <> Some (Shared s)) ->
  m_globalContext c' = m_globalContext c.
Proof.
  intros H NS. unfold defineExpr in H.
  apply bind_Ok in H as (u1 & c1 & H1 & H).
  apply bind_Ok in H as (u2 & c2 & H2 & H). apply solAssert_Ok in H2 as [_ ->].
  apply bind_Ok in H as (e & c3 & H3 & H).
  apply modify_Ok in H. subst c'.
  pose proof (createExpr_known _ _ _ _ H1) as K.
  destruct (expr_known _ _ _ _ H3 K) as (-> & _). simpl.
  unfold createExpr in H1.
  apply bind_Ok in H1 as (k & c4 & H4 & H1). apply gets_Ok in H4 as [-> ->].
  destruct (m_expressions c !! Node.id n) as [[w|g]|] eqn:E.
  - rewrite bool_decide_eq_true_2 in H1 by (eexists; reflexivity).
    unfold increaseExpressionIndex in H1. rewrite E in H1.
    injection H1 as H1. subst c1. reflexivity.
  - exfalso. exact (NS g eq_refl).
  - rewrite bool_decide_eq_false_2 in H1 by (intros [? ?]; discriminate).
    apply bind_Ok in H1 as (u & c5 & H5 & H1). apply modify_Ok in H5. subst c5.
    destruct (fst (newSymbolicVariable _ _)); simpl in H1.
    + apply modify_Ok in H1. subst c1. reflexivity.
    + apply ret_Ok in H1 as [_ <-]. reflexivity.
Qed.



(** * Assignments that are not modelled *)

(** A compound assignment to an identifier is not modelled: the visit of
    the assignment is the visit of its right-hand side followed by one
    warning at the assignment.  The assigned variable gets no new index and
    no assertion is made about it, so later queries still see the value it
    had before. *)
Theorem compound_assignment_is_ignored
  solver touchedVariables formatNumberReadable bigint
  n op ln name decl (rhs : Expression) c c' :
  op <> Token.Assign ->
  Node.lValueRequested ln = true ->
  accept_Expression solver touchedVariables formatNumberReadable bigint
    (Assignment n op (Identifier ln name decl) rhs) c = Ok tt c' ->
  exists c1,
    accept_Expression solver touchedVariables formatNumberReadable bigint rhs c
      = Ok tt c1 /\
    c' =
      set_errorReporter
        (fun ws =>
           ws ++
           [mkWarning (Some (Node.location n))
              "Assertion checker does not yet implement compound assignment." []])
        c1.
Proof.
  intros Hop Hl H. simpl in H.
  apply bind_Ok in H as (u1 & c0 & H0 & H).
  unfold endVisit_Identifier in H0. rewrite Hl in H0.
  apply ret_Ok in H0 as [_ <-].
  apply bind_Ok in H as ([] & c1 & H1 & H).
  exists c1. split; [exact H1|].
  unfold endVisit_Assignment in H.
  destruct op; try (exfalso; apply Hop; reflexivity);
    apply modify_Ok in H; exact H.
Qed.

Lemma compound_assignment_is_ignored_witness :
  exists c1 c',
    accept_Expression (Sample.always smt.UNSATISFIABLE) (fun _ => [])
      Sample.formatNumberReadable Sample.bigint
      (Assignment (Sample.at_ 90 Sample.uint256) Token.Add
         (Sample.write 91 Sample.x) (Sample.number 92 1))
      (Sample.inside (Sample.function (Block []) [])) = Ok tt c' /\
    accept_Expression (Sample.always smt.UNSATISFIABLE) (fun _ => [])
      Sample.formatNumberReadable Sample.bigint (Sample.number 92 1)
      (Sample.inside (Sample.function (Block []) [])) = Ok tt c1 /\
    c' =
      set_errorReporter
        (fun ws =>
           ws ++
           [mkWarning (Some 90)
              "Assertion checker does not yet implement compound assignment." []])
        c1.
Proof.
  pose (c := Sample.inside (Sample.function (Block []) [])).
  pose (e := Assignment (Sample.at_ 90 Sample.uint256) Token.Add
               (Identifier (Sample.lvalue 91 Sample.uint256) "x"
                  (VariableRef Sample.x))
               (Sample.number 92 1)).
  pose (c' := Sample.after
                (accept_Expression (Sample.always smt.UNSATISFIABLE) (fun _ => [])
                   Sample.formatNumberReadable Sample.bigint e) c).
  assert (H : accept_Expression (Sample.always smt.UNSATISFIABLE) (fun _ => [])
                Sample.formatNumberReadable Sample.bigint e c = Ok tt c')
    by (vm_compute; reflexivity).
  assert (N : Token.Add <> Token.Assign) by discriminate.
  destruct (compound_assignment_is_ignored
              (Sample.always smt.UNSATISFIABLE) (fun _ => [])
              Sample.formatNumberReadable Sample.bigint
              (Sample.at_ 90 Sample.uint256) Token.Add
              (Sample.lvalue 91 Sample.uint256) "x" (VariableRef Sample.x)
              (Sample.number 92 1) c c' N eq_refl H)
    as (c1 & H1 & E).
  exists c1, c'. split; [exact H|]. split; [exact H1|exact E].
Defined.

(** * Globals and mappings *)

(** A global value that does not change during a transaction (a member of
    [msg], [block] or [tx], or [now]) keeps its index when it is read again:
    with the symbol in the global context, and for a node whose variable is
    its own, the global context is unchanged and, for a supported type, the
    only solver call is the assertion that the variable of the node equals
    the current term of the symbol; for another type nothing happens at
    all.  Two reads are therefore equal to the same term. *)
Theorem global_value_is_stable name n (g : SymbolicVariable.t) c c' :
  m_globalContext c !! name = Some g ->
  (forall s, m_expressions c !! Node.id n <> Some (Shared s)) ->
  defineGlobalVariable name n false c = Ok tt c' ->
  m_globalContext c' = m_globalContext c /\
  m_variables c' = m_variables c /\
  if isSupportedType (category (Node.type n)) then
    exists v,
      expressionAt n c' = Ok v c' /\
      m_interface c' =
        m_interface c ++
        [smt.addAssertion
           (smt.Eq (SymbolicVariable.currentValue v)
              (SymbolicVariable.currentValue g))]
  else c' = c.
Proof.
  intros G NS H. unfold defineGlobalVariable in H.
  apply bind_Ok in H as (kn & c2 & H2 & H). apply gets_Ok in H2 as [-> ->].
  rewrite G in H. rewrite bool_decide_eq_true_2 in H by (eexists; reflexivity).
  simpl in H.
  apply bind_Ok in H as (u & c3 & H3 & H). apply ret_Ok in H3 as [_ <-].
  destruct (isSupportedType (category (Node.type n))); simpl in H.
  - apply bind_Ok in H as (g1 & c5 & H5 & H).
    unfold globalAt in H5. rewrite G in H5. injection H5 as <- <-.
    split; [exact (defineExpr_globals _ _ _ _ _ H NS)|].
    split; [exact (proj1 (defineExpr_frame _ _ _ _ _ H))|].
    exact (defineExpr_Ok _ _ _ _ _ H).
  - apply ret_Ok in H as [_ <-]. repeat split.
Qed.

Lemma global_value_is_stable_witness :
  exists c c' v,
    defineGlobalVariable "now" (Sample.at_ 83 Sample.uint256) false c = Ok tt c' /\
    m_globalContext c' = m_globalContext c /\
    m_interface c' =
      m_interface c ++
      [smt.addAssertion
         (smt.Eq (SymbolicVariable.currentValue v) (smt.Symbol "now" 0))].
Proof.
  pose (c := Sample.after
               (defineGlobalVariable "now" (Sample.at_ 82 Sample.uint256) false)
               (Sample.inside (Sample.function (Block []) []))).
  pose (c' := Sample.after
                (defineGlobalVariable "now" (Sample.at_ 83 Sample.uint256) false) c).
  assert (H : defineGlobalVariable "now" (Sample.at_ 83 Sample.uint256) false c
              = Ok tt c') by (vm_compute; reflexivity).
  assert (G : m_globalContext c !! "now" =
              Some (SymbolicVariable.create Sample.uint256 "now"))
    by (vm_compute; reflexivity).
  assert (NS : forall s,
            m_expressions c !! Node.id (Sample.at_ 83 Sample.uint256)
            <> Some (Shared s)).
  { intros s E. vm_compute in E. discriminate E. }
  destruct (global_value_is_stable "now" (Sample.at_ 83 Sample.uint256)
              (SymbolicVariable.create Sample.uint256 "now") c c' G NS H)
    as (GC & _ & K).
  simpl in K. destruct K as (v & _ & I).
  exists c, c', v. split; [exact H|]. split; [exact GC|exact I].
Defined.

(** An assignment to an element of a mapping variable, with the index and
    the assigned expression already defined, gives that variable one new
    index and asserts that the mapping at the new index is the mapping
    before with the element stored; this is its only solver call.  No other
    variable moves and the flag of an array assignment is not set: what is
    known of the other mappings is kept.  The variable must have a symbolic
    variable: otherwise the call fails with the internal assertion. *)
Theorem index_assignment_is_a_store
  n ia bnode bname (d : VariableDeclaration.t) (idx rhs : Expression) c :
  is_Some (m_expressions c !! Node.id idx) ->
  is_Some (m_expressions c !! Node.id rhs) ->
  (m_variables c !! VariableDeclaration.id d = None ->
   arrayIndexAssignment n
     (IndexAccess ia (Identifier bnode bname (VariableRef d)) (Some idx)) rhs c
   = Throw InternalCompilerError) /\
  (forall c',
     arrayIndexAssignment n
       (IndexAccess ia (Identifier bnode bname (VariableRef d)) (Some idx)) rhs c
     = Ok tt c' ->
     exists p I R,
       m_variables c !! VariableDeclaration.id d = Some p /\
       expr idx c = Ok I c /\ expr rhs c = Ok R c /\
       m_variables c' =
         alter (fun p => (fst p, SymbolicVariable.increaseIndex (snd p)))
           (VariableDeclaration.id d) (m_variables c) /\
       m_interface c' =
         m_interface c ++
         [smt.addAssertion
            (smt.Eq
               (smt.Symbol (SymbolicVariable.uniqueName (snd p))
                  (SymbolicVariable.nextFreeIndex (snd p)))
               (smt.Store (SymbolicVariable.currentValue (snd p)) I R))] /\
       m_arrayAssignmentHappened c' = m_arrayAssignmentHappened c /\
       m_pathConditions c' = m_pathConditions c /\
       m_errorReporter c' = m_errorReporter c).
Proof.
  intros Ki Kr. unfold arrayIndexAssignment. split.
  - intros E.
    rewrite (bind_eq _ _ c false c)
      by (unfold knownVariable, gets; rewrite E; reflexivity).
    reflexivity.
  - intros c' H.
    apply bind_Ok in H as (k & c1 & H1 & H). apply gets_Ok in H1 as [-> ->].
    apply bind_Ok in H as (u & c2 & H2 & H). apply solAssert_Ok in H2 as [_ ->].
    apply bind_Ok in H as (array & c3 & H3 & H).
    apply variableAt_Ok in H3 as (p & E & -> & ->).
    apply bind_Ok in H as (I & c4 & H4 & H).
    destruct (expr_known _ _ _ _ H4 Ki) as (-> & _).
    apply bind_Ok in H as (R & c5 & H5 & H).
    destruct (expr_known _ _ _ _ H5 Kr) as (-> & _).
    apply bind_Ok in H as (v & c6 & H6 & H).
    rewrite (newValue_total _ _ _ E) in H6. injection H6 as <- <-.
    apply modify_Ok in H. subst c'.
    exists p, I, R. split; [exact E|]. split; [exact H4|]. split; [exact H5|].
    destruct c. repeat split.
Qed.

Lemma index_assignment_is_a_store_witness :
  exists c c' I R,
    arrayIndexAssignment (Sample.at_ 93 Sample.uint256)
      (IndexAccess (Sample.lvalue 94 Sample.uint256)
         (Sample.write 95 Sample.x) (Some (Sample.number 96 7)))
      (Sample.number 97 8) c = Ok tt c' /\
    m_interface c' =
      m_interface c ++
      [smt.addAssertion
         (smt.Eq (smt.Symbol "x_1" 1) (smt.Store (smt.Symbol "x_1" 0) I R))] /\
    m_variables c' !! 2 = m_variables c !! 2.
Proof.
  pose (c := Sample.after
               (accept_Expression (Sample.always smt.UNSATISFIABLE)
                  (fun _ => []) Sample.formatNumberReadable Sample.bigint
                  (Sample.number 96 7) ;;
                accept_Expression (Sample.always smt.UNSATISFIABLE)
                  (fun _ => []) Sample.formatNumberReadable Sample.bigint
                  (Sample.number 97 8))
               (Sample.inside (Sample.function (Block []) []))).
  pose (c' := Sample.after
                (arrayIndexAssignment (Sample.at_ 93 Sample.uint256)
                   (IndexAccess (Sample.lvalue 94 Sample.uint256)
                      (Sample.write 95 Sample.x) (Some (Sample.number 96 7)))
                   (Sample.number 97 8)) c).
  assert (H : arrayIndexAssignment (Sample.at_ 93 Sample.uint256)
                (IndexAccess (Sample.lvalue 94 Sample.uint256)
                   (Identifier (Sample.lvalue 95 Sample.uint256) "x"
                      (VariableRef Sample.x))
                   (Some (Sample.number 96 7)))
                (Sample.number 97 8) c = Ok tt c') by (vm_compute; reflexivity).
  assert (Ki : is_Some (m_expressions c !! Node.id (Sample.number 96 7))).
  { refine (bool_decide_unpack _ _). vm_compute. exact I. }
  assert (Kr : is_Some (m_expressions c !! Node.id (Sample.number 97 8))).
  { refine (bool_decide_unpack _ _). vm_compute. exact I. }
  destruct (index_assignment_is_a_store
              (Sample.at_ 93 Sample.uint256) (Sample.lvalue 94 Sample.uint256)
              (Sample.lvalue 95 Sample.uint256) "x" Sample.x
              (Sample.number 96 7) (Sample.number 97 8) c Ki Kr)
    as (_ & A).
  destruct (A c' H) as (p & I & R & E & _ & _ & V & L & _).
  assert (E0 : m_variables c !! VariableDeclaration.id Sample.x =
               Some (Sample.x, SymbolicVariable.create Sample.uint256 "x_1"))
    by (vm_compute; reflexivity).
  rewrite E0 in E. injection E as <-.
  exists c, c', I, R. split; [exact H|]. split; [exact L|].
  rewrite V. apply lookup_alter_ne. discriminate.
Defined.

(** * Calls of hash functions and the like *)

Lemma mapM_expr_known (args : list Expression) : forall c terms c',
  mapM (fun arg : Expression => expr arg) args c = Ok terms c' ->
  Forall (fun a : Expression => is_Some (m_expressions c !! Node.id a)) args ->
  c' = c /\ Forall2 (fun (a : Expression) t => expr a c = Ok t c) args terms.
Proof.
  induction args as [|a args IH]; intros c terms c' H K.
  - simpl in H. apply ret_Ok in H as [<- <-]. split; [reflexivity|constructor].
  - simpl in H. apply Forall_cons in K as (Ka & K).
    apply bind_Ok in H as (t & c1 & H1 & H).
    destruct (expr_known _ _ _ _ H1 Ka) as (-> & _).
    apply bind_Ok in H as (ts & c2 & H2 & H). apply ret_Ok in H as [<- <-].
    destruct (IH _ _ _ H2 K) as (-> & F).
    split; [reflexivity|]. constructor; assumption.
Qed.

(** A call that is abstracted (keccak256, sha256, ecrecover, addmod and the
    like), with its arguments defined and the symbol of the called function
    in the global context, asserts that the variable of the call equals the
    function symbol applied to the terms of the arguments, followed by the
    bounds of the type of the call, and records the call among the
    uninterpreted terms.  The function symbol keeps its index, so two calls
    of the same function with the same argument terms are equal to the same
    application.  No program variable moves. *)
Theorem abstract_call_is_an_application
  n (called : Expression) (args : list Expression) g (f : SymbolicVariable.t) c c' :
  m_expressions c !! Node.id called = Some (Shared g) ->
  m_globalContext c !! g = Some f ->
  Forall (fun a : Expression => is_Some (m_expressions c !! Node.id a)) args ->
  (forall s, m_expressions c !! Node.id n <> Some (Shared s)) ->
  abstractFunctionCall n called args c = Ok tt c' ->
  exists terms v,
    Forall2 (fun (a : Expression) t => expr a c = Ok t c) args terms /\
    expressionAt n c' = Ok v c' /\
    m_interface c' =
      m_interface c ++
      [smt.addAssertion
         (smt.Eq (SymbolicVariable.currentValue v)
            (smt.Apply (SymbolicVariable.uniqueName f) (SymbolicVariable.index f)
               terms))] ++
      (smt.addAssertion <$>
         unknownValueAssertions (SymbolicVariable.currentValue v) (Node.type n)) /\
    m_uninterpretedTerms c' = <[Node.id n := n]> (m_uninterpretedTerms c) /\
    m_globalContext c' = m_globalContext c /\
    m_variables c' = m_variables c.
Proof.
  intros S G K NS H. unfold abstractFunctionCall in H.
  apply bind_Ok in H as (terms & c1 & H1 & H).
  destruct (mapM_expr_known _ _ _ _ H1 K) as (-> & F).
  apply bind_Ok in H as (f0 & c2 & H2 & H).
  unfold expressionAt in H2. rewrite S in H2. unfold globalAt in H2.
  rewrite G in H2. injection H2 as <- <-.
  apply bind_Ok in H as (u3 & c3 & H3 & H).
  destruct (defineExpr_Ok _ _ _ _ _ H3) as (v & Hv & I3).
  destruct (defineExpr_frame _ _ _ _ _ H3) as (V3 & _).
  pose proof (defineExpr_globals _ _ _ _ _ H3 NS) as G3.
  assert (U3 : m_uninterpretedTerms c3 = m_uninterpretedTerms c).
  { assert (Ku : Keeps m_uninterpretedTerms
                   (defineExpr n (SymbolicVariable.apply f terms))) by keeps.
    exact (Ku _ _ _ H3). }
  apply bind_Ok in H as (u4 & c4 & H4 & H). apply modify_Ok in H4. subst c4.
  apply bind_Ok in H as (e & c5 & H5 & H).
  assert (Hv' : expressionAt n (set_uninterpretedTerms (<[Node.id n := n]>) c3)
                = Ok v (set_uninterpretedTerms (<[Node.id n := n]>) c3)).
  { eapply expressionAt_same; [| |exact Hv]; reflexivity. }
  assert (Kn : is_Some (m_expressions
                          (set_uninterpretedTerms (<[Node.id n := n]>) c3)
                        !! Node.id n)).
  { unfold expressionAt in Hv'.
    destruct (m_expressions (set_uninterpretedTerms (<[Node.id n := n]>) c3)
              !! Node.id n) as [sl|] eqn:Q;
      [exists sl; reflexivity|discriminate Hv']. }
  destruct (expr_known _ _ _ _ H5 Kn) as (-> & w & Hw & ->).
  rewrite Hv' in Hw. injection Hw as <-.
  unfold setSymbolicUnknownValue in H. rewrite addAssertions_run in H.
  injection H as <-.
  exists terms, v. split; [exact F|]. split.
  - eapply expressionAt_same; [| |exact Hv]; reflexivity.
  - simpl. rewrite I3, U3, G3, V3. rewrite <- !app_assoc.
    repeat split; reflexivity.
Qed.

Lemma abstract_call_is_an_application_witness :
  exists c c' terms v,
    abstractFunctionCall (Sample.at_ 100 Sample.uint256)
      (Identifier (Sample.at_ 101 (Sample.functionType Kind.KECCAK256 "keccak256"))
         "keccak256" OtherDeclaration)
      [Sample.number 102 5] c = Ok tt c' /\
    m_interface c' =
      m_interface c ++
      [smt.addAssertion
         (smt.Eq (SymbolicVariable.currentValue v) (smt.Apply "keccak256" 0 terms))] ++
      (smt.addAssertion <$>
         unknownValueAssertions (SymbolicVariable.currentValue v) Sample.uint256).
Proof.
  pose (called := Identifier
                    (Sample.at_ 101 (Sample.functionType Kind.KECCAK256 "keccak256"))
                    "keccak256" OtherDeclaration).
  pose (c := Sample.after
               (accept_Expression (Sample.always smt.UNSATISFIABLE)
                  (fun _ => []) Sample.formatNumberReadable Sample.bigint called ;;
                accept_Expression (Sample.always smt.UNSATISFIABLE)
                  (fun _ => []) Sample.formatNumberReadable Sample.bigint
                  (Sample.number 102 5))
               (Sample.inside (Sample.function (Block []) []))).
  pose (c' := Sample.after
                (abstractFunctionCall (Sample.at_ 100 Sample.uint256) called
                   [Sample.number 102 5]) c).
  assert (H : abstractFunctionCall (Sample.at_ 100 Sample.uint256) called
                [Sample.number 102 5] c = Ok tt c') by (vm_compute; reflexivity).
  assert (S : m_expressions c !! Node.id called = Some (Shared "keccak256"))
    by (vm_compute; reflexivity).
  assert (G : m_globalContext c !! "keccak256" =
              Some (SymbolicVariable.create
                      (Sample.functionType Kind.KECCAK256 "keccak256") "keccak256"))
    by (vm_compute; reflexivity).
  assert (K : Forall (fun a : Expression => is_Some (m_expressions c !! Node.id a))
                [Sample.number 102 5]).
  { constructor; [|constructor].
    refine (bool_decide_unpack _ _). vm_compute. exact I. }
  assert (NS : forall s,
            m_expressions c !! Node.id (Sample.at_ 100 Sample.uint256)
            <> Some (Shared s)).
  { intros s E. vm_compute in E. discriminate E. }
  destruct (abstract_call_is_an_application
              (Sample.at_ 100 Sample.uint256) called [Sample.number 102 5]
              "keccak256"
              (SymbolicVariable.create
                 (Sample.functionType Kind.KECCAK256 "keccak256") "keccak256")
              c c' S G K NS H)
    as (terms & v & _ & _ & L & _).
  exists c, c', terms, v. split; [exact H|exact L].
Defined.

(** * Calls that are inlined *)

(** The value of an inlined call.  A call of an internal function through an
    identifier, when the function has a body, is not on the path of
    functions and has one return parameter, visits the function after the
    parameters are initialised and then asserts, as its last solver call,
    that the variable of the call equals the term that the return parameter
    has at the end of that visit.  The call itself moves no variable after
    the visit of the function. *)
Theorem inlined_call_yields_return_parameter
  solver formatNumberReadable bigint (accept : FunctionDefinition -> M unit)
  n node name (f : FunctionDefinition) (r : VariableDeclaration.t) arguments c c' :
  isFunction (category (Node.type node)) = true ->
  kind (Node.type node) = Kind.Internal ->
  existsb (fun g => Nat.eqb (FunctionDefinition_.id g) (FunctionDefinition_.id f))
    (m_functionPath c) = false ->
  FunctionDefinition_.isImplemented f = true ->
  FunctionDefinition_.returnParameters f = [r] ->
  endVisit_FunctionCall solver formatNumberReadable bigint accept n
    FunctionCallKind.FunctionCall (Identifier node name (FunctionRef f))
    arguments c = Ok tt c' ->
  exists terms c0 c1 c2 p v,
    mapM (fun arg : Expression => expr arg) arguments c = Ok terms c0 /\
    initializeFunctionCallParameters f terms c0 = Ok tt c1 /\
    accept f c1 = Ok tt c2 /\
    m_variables c2 !! VariableDeclaration.id r = Some p /\
    expressionAt n c' = Ok v c' /\
    m_interface c' =
      m_interface c2 ++
      [smt.addAssertion
         (smt.Eq (SymbolicVariable.currentValue v)
            (SymbolicVariable.currentValue (snd p)))] /\
    m_variables c' = m_variables c2 /\
    m_pathConditions c' = m_pathConditions c2.
Proof.
  intros Hf Hk Hv Hi Hr H.
  unfold endVisit_FunctionCall in H. simpl in H. rewrite Hf, Hk in H. simpl in H.
  unfold inlineFunctionCall, inlineFunctionDefinition in H.
  apply bind_Ok in H as (visited & c3 & H3 & H). apply gets_Ok in H3 as [-> ->].
  rewrite Hv, Hi in H.
  apply bind_Ok in H as (u4 & c4 & H4 & H). apply solAssert_Ok in H4 as [_ ->].
  apply bind_Ok in H as (boundArgs & c5 & H5 & H).
  simpl in H5. destruct (bound (Node.type node)); [discriminate H5|].
  apply ret_Ok in H5 as [<- <-].
  apply bind_Ok in H as (terms & c0 & H0 & H).
  apply bind_Ok in H as ([] & c1 & H1 & H).
  apply bind_Ok in H as ([] & c2 & H2 & H).
  rewrite Hr in H.
  apply bind_Ok in H as (e & c6 & H6 & H).
  apply currentValue_Ok in H6 as (p & E & -> & ->).
  destruct (defineExpr_Ok _ _ _ _ _ H) as (v & Ev & I).
  destruct (defineExpr_frame _ _ _ _ _ H) as (V & P & _).
  exists terms, c0, c1, c2, p, v.
  split; [exact H0|]. split; [exact H1|]. split; [exact H2|].
  split; [exact E|]. split; [exact Ev|]. split; [exact I|].
  split; assumption.
Qed.

Lemma inlined_call_yields_return_parameter_witness :
  exists c' c2 p v,
    endVisit_FunctionCall (Sample.always smt.UNSATISFIABLE)
      Sample.formatNumberReadable Sample.bigint
      (accept_FunctionDefinition (Sample.always smt.UNSATISFIABLE) (fun _ => [])
         Sample.formatNumberReadable Sample.bigint)
      (Sample.at_ 110 Sample.uint256) FunctionCallKind.FunctionCall
      (Identifier (Sample.at_ 111 (Sample.functionType Kind.Internal "g")) "g"
         (FunctionRef
            (mkFunctionDefinition 200 200 false []
               [mkVariableDeclarationNode Sample.r None] [] [] (Some (Block [])))))
      [] (Sample.inside (Sample.function (Block []) [])) = Ok tt c' /\
    m_variables c2 !! VariableDeclaration.id Sample.r = Some p /\
    m_interface c' =
      m_interface c2 ++
      [smt.addAssertion
         (smt.Eq (SymbolicVariable.currentValue v)
            (SymbolicVariable.currentValue (snd p)))].
Proof.
  pose (g := mkFunctionDefinition 200 200 false []
               [mkVariableDeclarationNode Sample.r None] [] [] (Some (Block []))).
  pose (accept := accept_FunctionDefinition (Sample.always smt.UNSATISFIABLE)
                    (fun _ => []) Sample.formatNumberReadable Sample.bigint).
  pose (c := Sample.inside (Sample.function (Block []) [])).
  pose (c' := Sample.after
                (endVisit_FunctionCall (Sample.always smt.UNSATISFIABLE)
                   Sample.formatNumberReadable Sample.bigint accept
                   (Sample.at_ 110 Sample.uint256) FunctionCallKind.FunctionCall
                   (Identifier (Sample.at_ 111 (Sample.functionType Kind.Internal "g"))
                      "g" (FunctionRef g))
                   []) c).
  assert (H : endVisit_FunctionCall (Sample.always smt.UNSATISFIABLE)
                Sample.formatNumberReadable Sample.bigint accept
                (Sample.at_ 110 Sample.uint256) FunctionCallKind.FunctionCall
                (Identifier (Sample.at_ 111 (Sample.functionType Kind.Internal "g"))
                   "g" (FunctionRef g))
                [] c = Ok tt c') by (vm_compute; reflexivity).
  destruct (inlined_call_yields_return_parameter
              (Sample.always smt.UNSATISFIABLE) Sample.formatNumberReadable
              Sample.bigint accept (Sample.at_ 110 Sample.uint256)
              (Sample.at_ 111 (Sample.functionType Kind.Internal "g")) "g"
              g Sample.r [] c c' eq_refl eq_refl eq_refl eq_refl eq_refl H)
    as (terms & c0 & c1 & c2 & p & v & _ & _ & _ & E & _ & I & _).
  exists c', c2, p, v. split; [exact H|]. split; [exact E|exact I].
Defined.
